(** * Pathfinding engines: a shallow embedding of the Python sources

    The development follows the layout of the repository:
    - [core/node.py], [core/grid.py], [core/algorithm_base.py]: nodes, grids,
      results and the shared validation/result helpers;
    - [algorithms/classical]: A*, weighted A*, bidirectional A*, Dijkstra,
      uniform cost search, all-paths Dijkstra and the stand-alone weighted
      A* of [weighted_astar.py];
    - [algorithms/optimized]: IDA*, memory-bounded A*, recursive best-first
      search, jump point search and JPS+;
    - [algorithms/any_angle]: the line-of-sight walk, Theta*, basic and lazy
      Theta*, incremental Phi*;
    - [algorithms/sampling/rrt.py]: RRT, RRT* and RRT-Connect.

    Python floats are IEEE-754 binary64 numbers; they are embedded as Rocq's
    primitive floats, so every definition below can be evaluated.  Python
    integers are [Z].  A node object is referred to by its grid position,
    which is also what [GridNode.__eq__] and [GridNode.__hash__] use. *)

From Stdlib Require Import ZArith List Bool String Ascii Lia Floats DecimalString.
Import ListNotations.

Local Open Scope string_scope.
Local Open Scope list_scope.
Local Open Scope Z_scope.

Set Warnings "-inexact-float".

(* ================================================================== *)
(** * Python numbers *)
(* ================================================================== *)

Module Py.

Definition inf : float := infinity.

(** [float(z)] for a Python int [z]: the float nearest to [z], ties to
    even.  Python raises [OverflowError] for an int beyond the range of the
    floats (from [2^1024] on in magnitude), where this gives an infinity; no
    coordinate, size or count of a grid held in memory comes near. *)
Definition float_of_int (z : Z) : float :=
  SF2Prim (binary_normalize prec emax z 0 false).

Definition lt (a b : float) : bool := PrimFloat.ltb a b.
Definition le (a b : float) : bool := PrimFloat.leb a b.
Definition gt (a b : float) : bool := PrimFloat.ltb b a.
Definition eq (a b : float) : bool := PrimFloat.eqb a b.

(** [min(a, b)] and [max(a, b)]: the first argument is kept unless the
    second one is strictly smaller (resp. larger). *)
Definition min2 (a b : float) : float := if lt b a then b else a.
Definition max2 (a b : float) : float := if gt b a then b else a.

(** The exact integer part of a finite float, rounded toward zero, and the
    remainder information needed to round to nearest. *)
Definition trunc_parts (x : float) : option (bool * Z * Z * Z) :=
  match Prim2SF x with
  | S754_zero s => Some (s, 0, 0, 1)
  | S754_finite s m e =>
      if 0 <=? e then Some (s, Zpos m * 2 ^ e, 0, 1)
      else let d := 2 ^ (- e) in Some (s, Zpos m / d, Zpos m mod d, d)
  | _ => None
  end.

(** [int(x)]: truncation toward zero; [None] where Python raises
    ([OverflowError] on infinities, [ValueError] on NaN). *)
Definition int_of_float (x : float) : option Z :=
  match trunc_parts x with
  | Some (s, q, _, _) => Some (if s then - q else q)
  | None => None
  end.

(** [round(x)] with no digits argument: nearest integer, ties to even. *)
Definition round (x : float) : option Z :=
  match trunc_parts x with
  | Some (s, q, r, d) =>
      let up := (d <? 2 * r) || ((2 * r =? d) && Z.odd q) in
      let n := if up then q + 1 else q in
      Some (if s then - n else n)
  | None => None
  end.

(** [x ** 0.5] on a non-negative float.  CPython computes it with the C
    library's [pow], which is not bound to round correctly; it is taken here
    to be the correctly rounded square root, from which the value of a given
    platform can differ in the last place.  The two agree wherever the root
    is itself a float, as for the squares of the integers. *)
Definition pow_half (x : float) : float := PrimFloat.sqrt x.

(** [math.sqrt]. *)
Definition sqrt (x : float) : float := PrimFloat.sqrt x.

(** [repr] of an int and of a pair of ints, as an f-string prints them. *)
Definition repr_int (z : Z) : string := NilZero.string_of_int (Z.to_int z).
Definition repr_pair (p : Z * Z) : string :=
  ("(" ++ repr_int (fst p) ++ ", " ++ repr_int (snd p) ++ ")")%string.

(** [range(n)]. *)
Definition range (n : Z) : list Z := map Z.of_nat (seq 0 (Z.to_nat n)).

End Py.

(** A number stored in a path: the grid engines return the caller's integer
    tuples, the any-angle and sampling engines return floats. *)
Inductive num : Type :=
| Int (z : Z)
| Flt (f : float).

Definition to_float (a : num) : float :=
  match a with Int z => Py.float_of_int z | Flt f => f end.

Definition num_sub (a b : num) : num :=
  match a, b with
  | Int x, Int y => Int (x - y)
  | _, _ => Flt (PrimFloat.sub (to_float a) (to_float b))
  end.

Definition num_mul (a b : num) : num :=
  match a, b with
  | Int x, Int y => Int (x * y)
  | _, _ => Flt (PrimFloat.mul (to_float a) (to_float b))
  end.

Definition num_add (a b : num) : num :=
  match a, b with
  | Int x, Int y => Int (x + y)
  | _, _ => Flt (PrimFloat.add (to_float a) (to_float b))
  end.

Definition pos : Type := (Z * Z)%type.
Definition waypoint : Type := (num * num)%type.

Definition pos_eqb (a b : pos) : bool := (fst a =? fst b) && (snd a =? snd b).

Definition int_waypoint (p : pos) : waypoint := (Int (fst p), Int (snd p)).
Definition float_waypoint (p : float * float) : waypoint := (Flt (fst p), Flt (snd p)).

(** Outcome of running a piece of Python code with a bound on the number of
    loop iterations and recursive calls the model may unfold. *)
Inductive outcome (A : Type) : Type :=
| Done (a : A)          (* the code returned [a] *)
| Raised (e : string)   (* the code raised the exception [e] *)
| OutOfFuel.            (* the bound was too small to see the end *)

Arguments Done {A} a.
Arguments Raised {A} e.
Arguments OutOfFuel {A}.

Definition bind {A B} (m : outcome A) (k : A -> outcome B) : outcome B :=
  match m with
  | Done a => k a
  | Raised e => Raised e
  | OutOfFuel => OutOfFuel
  end.

Notation "x <- m ;; k" := (bind m (fun x => k))
  (at level 61, m at next level, right associativity).
Notation "' p <- m ;; k" := (bind m (fun x => let p := x in k))
  (at level 61, p pattern, m at next level, right associativity).

(* ================================================================== *)
(** * core/node.py *)
(* ================================================================== *)

(** [GridNode] and its subclass [AngleNode] (which adds the floating parent
    coordinates).  [parent] holds the position of the parent node object. *)
Record GridNode : Type := mkNode {
  n_x : Z;
  n_y : Z;
  walkable : bool;
  g_cost : float;
  h_cost : float;
  f_cost : float;
  parent : option pos;
  visited : bool;
  in_open_set : bool;
  parent_x : option float;
  parent_y : option float
}.

(** [GridNode.__init__(x, y, walkable)]. *)
Definition new_node (x y : Z) (w : bool) : GridNode :=
  mkNode x y w Py.inf 0%float Py.inf None false false None None.

Definition position (n : GridNode) : pos := (n_x n, n_y n).

(** [GridNode.reset] (and [AngleNode.reset], which also clears the floating
    parent; a plain [GridNode] never has one). *)
Definition reset (n : GridNode) : GridNode :=
  mkNode (n_x n) (n_y n) (walkable n) Py.inf 0%float Py.inf None false false None None.

Definition set_g_cost (v : float) (n : GridNode) : GridNode :=
  mkNode (n_x n) (n_y n) (walkable n) v (h_cost n) (f_cost n) (parent n)
         (visited n) (in_open_set n) (parent_x n) (parent_y n).
Definition set_h_cost (v : float) (n : GridNode) : GridNode :=
  mkNode (n_x n) (n_y n) (walkable n) (g_cost n) v (f_cost n) (parent n)
         (visited n) (in_open_set n) (parent_x n) (parent_y n).
Definition set_f_cost (v : float) (n : GridNode) : GridNode :=
  mkNode (n_x n) (n_y n) (walkable n) (g_cost n) (h_cost n) v (parent n)
         (visited n) (in_open_set n) (parent_x n) (parent_y n).
Definition set_parent (v : option pos) (n : GridNode) : GridNode :=
  mkNode (n_x n) (n_y n) (walkable n) (g_cost n) (h_cost n) (f_cost n) v
         (visited n) (in_open_set n) (parent_x n) (parent_y n).
Definition set_in_open_set (v : bool) (n : GridNode) : GridNode :=
  mkNode (n_x n) (n_y n) (walkable n) (g_cost n) (h_cost n) (f_cost n) (parent n)
         (visited n) v (parent_x n) (parent_y n).
Definition set_node_walkable (v : bool) (n : GridNode) : GridNode :=
  mkNode (n_x n) (n_y n) v (g_cost n) (h_cost n) (f_cost n) (parent n)
         (visited n) (in_open_set n) (parent_x n) (parent_y n).
(** [AngleNode.set_parent_coordinates]. *)
Definition set_parent_coordinates (px py : float) (n : GridNode) : GridNode :=
  mkNode (n_x n) (n_y n) (walkable n) (g_cost n) (h_cost n) (f_cost n) (parent n)
         (visited n) (in_open_set n) (Some px) (Some py).
(** [AngleNode.get_parent_coordinates]. *)
Definition get_parent_coordinates (n : GridNode) : option (float * float) :=
  match parent_x n, parent_y n with
  | Some px, Some py => Some (px, py)
  | _, _ => None
  end.

(** Distances between two grid positions ([GridNode.manhattan_distance] and
    friends; the integer results are used as floats by every caller). *)
Definition manhattan_distance (a b : pos) : float :=
  Py.float_of_int (Z.abs (fst a - fst b) + Z.abs (snd a - snd b)).

Definition euclidean_distance (a b : pos) : float :=
  let dx := fst a - fst b in
  let dy := snd a - snd b in
  Py.sqrt (Py.float_of_int (dx * dx + dy * dy)).

Definition diagonal_distance (a b : pos) : float :=
  Py.float_of_int (Z.max (Z.abs (fst a - fst b)) (Z.abs (snd a - snd b))).

(* ================================================================== *)
(** * core/grid.py *)
(* ================================================================== *)

Inductive grid_class : Type := CGrid | CAngleGrid | CDynamicGrid | CWeightedGrid.

Record Grid : Type := mkGrid {
  cls : grid_class;
  width : Z;
  height : Z;
  nodes : list (list GridNode);       (* [nodes[y][x]] *)
  diagonal_movement : bool;
  diagonal_cost : float;
  straight_cost : float;
  terrain : list (list string)        (* [WeightedGrid.terrain[y][x]] *)
}.

Definition with_nodes (g : Grid) (ns : list (list GridNode)) : Grid :=
  mkGrid (cls g) (width g) (height g) ns (diagonal_movement g)
         (diagonal_cost g) (straight_cost g) (terrain g).

Definition with_terrain (g : Grid) (t : list (list string)) : Grid :=
  mkGrid (cls g) (width g) (height g) (nodes g) (diagonal_movement g)
         (diagonal_cost g) (straight_cost g) t.

(** The assignment [grid.diagonal_movement = b], by which a caller makes a
    grid 4-connected ([False]) or 8-connected again ([True]). *)
Definition with_diagonal_movement (g : Grid) (b : bool) : Grid :=
  mkGrid (cls g) (width g) (height g) (nodes g) b
         (diagonal_cost g) (straight_cost g) (terrain g).

(** [Grid._initialize_grid] and [WeightedGrid._initialize_terrain]. *)
Definition _initialize_grid (w h : Z) : list (list GridNode) :=
  map (fun y => map (fun x => new_node x y true) (Py.range w)) (Py.range h).

Definition _initialize_terrain (w h : Z) : list (list string) :=
  map (fun _ => map (fun _ => "grass") (Py.range w)) (Py.range h).

(** The constructors [Grid(w, h)], [AngleGrid(w, h)], [DynamicGrid(w, h)] and
    [WeightedGrid(w, h)]. *)
Definition Grid_init (c : grid_class) (w h : Z) : Grid :=
  mkGrid c w h (_initialize_grid w h) true (Py.sqrt 2%float) 1%float
         (match c with CWeightedGrid => _initialize_terrain w h | _ => [] end).

Definition is_valid_position (g : Grid) (x y : Z) : bool :=
  (0 <=? x) && (x <? width g) && (0 <=? y) && (y <? height g).

(** Indexing a Python list with a non-negative index. *)
Definition index {A} (l : list A) (i : Z) : option A :=
  if i <? 0 then None else nth_error l (Z.to_nat i).

Fixpoint update {A} (l : list A) (i : nat) (f : A -> A) : list A :=
  match l, i with
  | [], _ => []
  | a :: l', O => f a :: l'
  | a :: l', S i' => a :: update l' i' f
  end.

Definition get_node (g : Grid) (x y : Z) : option GridNode :=
  if is_valid_position g x y then
    match index (nodes g) y with
    | Some row => index row x
    | None => None
    end
  else None.

Definition node_at (g : Grid) (p : pos) : option GridNode := get_node g (fst p) (snd p).

Definition is_walkable (g : Grid) (x y : Z) : bool :=
  match get_node g x y with
  | Some n => walkable n
  | None => false
  end.

(** Assignment to attributes of the node object stored at [p]. *)
Definition update_node (g : Grid) (p : pos) (f : GridNode -> GridNode) : Grid :=
  if is_valid_position g (fst p) (snd p) then
    with_nodes g (update (nodes g) (Z.to_nat (snd p))
                         (fun row => update row (Z.to_nat (fst p)) f))
  else g.

Definition set_walkable (g : Grid) (x y : Z) (w : bool) : Grid :=
  match get_node g x y with
  | Some _ => update_node g (x, y) (set_node_walkable w)
  | None => g
  end.

Definition directions4 : list pos := [(0, 1); (1, 0); (0, -1); (-1, 0)].
Definition directions_diag : list pos := [(1, 1); (1, -1); (-1, 1); (-1, -1)].

(** [Grid.get_neighbors]: the walkable neighbours, in direction order. *)
Definition get_neighbors (g : Grid) (p : pos) : list pos :=
  let directions :=
    if diagonal_movement g then directions4 ++ directions_diag else directions4 in
  flat_map (fun d =>
    let new_x := fst p + fst d in
    let new_y := snd p + snd d in
    if is_walkable g new_x new_y then
      match get_node g new_x new_y with
      | Some _ => [(new_x, new_y)]
      | None => []
      end
    else []) directions.

(** [Grid.get_movement_cost]. *)
Definition Grid_get_movement_cost (g : Grid) (from_node to_node : pos) : float :=
  let dx := Z.abs (fst to_node - fst from_node) in
  let dy := Z.abs (snd to_node - snd from_node) in
  if (dx =? 1) && (dy =? 1) then diagonal_cost g
  else if ((dx =? 1) && (dy =? 0)) || ((dx =? 0) && (dy =? 1)) then straight_cost g
  else Py.inf.

(** [WeightedGrid.TERRAIN_COSTS] and [dict.get(key, 1.0)] on it. *)
Definition TERRAIN_COSTS : list (string * float) :=
  [("grass", 1%float); ("sand", 1.5%float); ("mud", 2%float);
   ("water", 3%float); ("mountain", 4%float); ("wall", Py.inf)].

Fixpoint dict_get {V} (d : list (string * V)) (k : string) (default : V) : V :=
  match d with
  | [] => default
  | (k', v) :: d' => if String.eqb k' k then v else dict_get d' k default
  end.

(** [d[k] = v]. *)
Fixpoint dict_set {V} (d : list (string * V)) (k : string) (v : V) : list (string * V) :=
  match d with
  | [] => [(k, v)]
  | (k', v') :: d' => if String.eqb k' k then (k, v) :: d' else (k', v') :: dict_set d' k v
  end.

(** [WeightedGrid.get_terrain_cost]. *)
Definition get_terrain_cost (g : Grid) (x y : Z) : float :=
  if is_valid_position g x y then
    match index (terrain g) y with
    | Some row =>
        match index row x with
        | Some terrain_type => dict_get TERRAIN_COSTS terrain_type 1%float
        | None => Py.inf
        end
    | None => Py.inf
    end
  else Py.inf.

(** [WeightedGrid.set_terrain]. *)
Definition set_terrain (g : Grid) (x y : Z) (terrain_type : string) : Grid :=
  if is_valid_position g x y then
    let g1 := with_terrain g (update (terrain g) (Z.to_nat y)
                (fun row => update row (Z.to_nat x) (fun _ => terrain_type))) in
    let cost := dict_get TERRAIN_COSTS terrain_type 1%float in
    let w := negb (Py.eq cost Py.inf) in
    set_walkable g1 x y w
  else g.

(** [WeightedGrid.get_movement_cost]. *)
Definition WeightedGrid_get_movement_cost (g : Grid) (from_node to_node : pos) : float :=
  let base_cost := Grid_get_movement_cost g from_node to_node in
  if Py.eq base_cost Py.inf then base_cost
  else
    let from_terrain := get_terrain_cost g (fst from_node) (snd from_node) in
    let to_terrain := get_terrain_cost g (fst to_node) (snd to_node) in
    let terrain_cost := PrimFloat.div (PrimFloat.add from_terrain to_terrain) 2%float in
    PrimFloat.mul base_cost terrain_cost.

(** Method dispatch on the grid's class. *)
Definition get_movement_cost (g : Grid) (from_node to_node : pos) : float :=
  match cls g with
  | CWeightedGrid => WeightedGrid_get_movement_cost g from_node to_node
  | _ => Grid_get_movement_cost g from_node to_node
  end.

(** [Grid.reset_pathfinding_data]. *)
Definition reset_pathfinding_data (g : Grid) : Grid :=
  with_nodes g (map (map reset) (nodes g)).

(** [Grid.get_path]: walk the parent links from the goal and reverse.  The
    accumulator [acc] is the list built so far, most recent first. *)
Fixpoint get_path_loop (fuel : nat) (g : Grid) (current : option pos)
         (acc : list waypoint) : outcome (list waypoint) :=
  match current with
  | None => Done acc
  | Some p =>
      match fuel with
      | O => OutOfFuel
      | S fuel' =>
          match node_at g p with
          | Some n => get_path_loop fuel' g (parent n) (int_waypoint p :: acc)
          | None => Raised "AttributeError"
          end
      end
  end.

Definition get_path (fuel : nat) (g : Grid) (goal_node : pos) : outcome (list waypoint) :=
  get_path_loop fuel g (Some goal_node) [].

(* ================================================================== *)
(** * core/algorithm_base.py *)
(* ================================================================== *)

(** Values stored in [algorithm_data]. *)
Inductive data_val : Type :=
| DFloat (f : float)
| DInt (z : Z)
| DBool (b : bool)
| DStr (s : string).

(** [PathfindingResult]; [execution_time] is wall-clock time and is left out. *)
Record PathfindingResult : Type := mkResult {
  path : list waypoint;
  path_length : float;
  path_cost : float;
  nodes_expanded : Z;
  nodes_visited : Z;
  memory_usage : Z;
  found : bool;
  iterations : Z;
  max_open_set_size : Z;
  algorithm_data : list (string * data_val);
  error_message : option string
}.

(** [PathfindingResult.__init__]. *)
Definition PathfindingResult_init : PathfindingResult :=
  mkResult [] 0%float 0%float 0 0 0 false 0 0 [] None.

(** The loop of [calculate_path_length]: [prev] is [path[i-1]]. *)
Fixpoint path_length_loop (prev : waypoint) (rest : list waypoint) (total_length : float)
  : float :=
  match rest with
  | [] => total_length
  | cur :: rest' =>
      let '(x1, y1) := prev in
      let '(x2, y2) := cur in
      let dx := num_sub x2 x1 in
      let dy := num_sub y2 y1 in
      let d := Py.pow_half (to_float (num_add (num_mul dx dx) (num_mul dy dy))) in
      path_length_loop cur rest' (PrimFloat.add total_length d)
  end.

(** [PathfindingResult.calculate_path_length], returning the new
    [path_length]. *)
Definition calculate_path_length (p : list waypoint) : float :=
  match p with
  | [] => 0%float
  | [_] => 0%float
  | first :: rest => path_length_loop first rest 0%float
  end.

(** [result.algorithm_data[k] = v]. *)
Definition set_data (k : string) (v : data_val) (r : PathfindingResult) : PathfindingResult :=
  mkResult (path r) (path_length r) (path_cost r) (nodes_expanded r) (nodes_visited r)
           (memory_usage r) (found r) (iterations r) (max_open_set_size r)
           (dict_set (algorithm_data r) k v)
           (error_message r).

(** The performance counters kept on the algorithm object. *)
Record Metrics : Type := mkMetrics {
  _nodes_expanded : Z;
  _nodes_visited : Z;
  _max_memory : Z;
  _iterations : Z
}.

(** [_start_timing] (the counters only). *)
Definition _start_timing : Metrics := mkMetrics 0 0 0 0.

Definition _expand_node (m : Metrics) : Metrics :=
  mkMetrics (_nodes_expanded m + 1) (_nodes_visited m) (_max_memory m) (_iterations m).
Definition _visit_node (m : Metrics) : Metrics :=
  mkMetrics (_nodes_expanded m) (_nodes_visited m + 1) (_max_memory m) (_iterations m).
Definition _update_memory_usage (current_size : Z) (m : Metrics) : Metrics :=
  mkMetrics (_nodes_expanded m) (_nodes_visited m)
            (Z.max (_max_memory m) current_size) (_iterations m).
Definition _increment_iteration (m : Metrics) : Metrics :=
  mkMetrics (_nodes_expanded m) (_nodes_visited m) (_max_memory m) (_iterations m + 1).

(** [PathfindingAlgorithm._create_result]. *)
Definition _create_result (m : Metrics) (p : list waypoint) (fnd : bool)
           (error_message : option string) : PathfindingResult :=
  let r := PathfindingResult_init in
  mkResult p
           (match p with [] => path_length r | _ => calculate_path_length p end)
           (path_cost r)
           (_nodes_expanded m) (_nodes_visited m) (_max_memory m)
           fnd (_iterations m) (max_open_set_size r) (algorithm_data r) error_message.

(** [PathfindingAlgorithm.get_heuristic].  The Manhattan and the diagonal
    distance are Python ints; they are given here as the floats of the same
    value, which is what they become in the first sum or comparison with a
    cost.  The type shows in one place only: [final_threshold], in the data
    of an IDA* result whose first iteration succeeds, is then an int where
    this has the float of the same value. *)
Definition get_heuristic (node goal_node : pos) (heuristic_type : string) : float :=
  if String.eqb heuristic_type "manhattan" then manhattan_distance node goal_node
  else if String.eqb heuristic_type "euclidean" then euclidean_distance node goal_node
  else if String.eqb heuristic_type "diagonal" then diagonal_distance node goal_node
  else euclidean_distance node goal_node.

(** [PathfindingAlgorithm.validate_inputs]. *)
Definition validate_inputs (g : Grid) (start goal : pos) : option string :=
  if negb (is_valid_position g (fst start) (snd start)) then
    Some ("Start position " ++ Py.repr_pair start ++ " is outside grid bounds")%string
  else if negb (is_valid_position g (fst goal) (snd goal)) then
    Some ("Goal position " ++ Py.repr_pair goal ++ " is outside grid bounds")%string
  else if negb (is_walkable g (fst start) (snd start)) then
    Some ("Start position " ++ Py.repr_pair start ++ " is not walkable")%string
  else if negb (is_walkable g (fst goal) (snd goal)) then
    Some ("Goal position " ++ Py.repr_pair goal ++ " is not walkable")%string
  else None.

(** Truthiness of an [Optional[str]]: [None] and the empty string are falsy. *)
Definition truthy (s : option string) : bool :=
  match s with
  | Some s' => negb (String.eqb s' "")
  | None => false
  end.

(** How the opening lines of a [find_path] end: with a [return], or by
    entering the search on the grid [g]. *)
Inductive prologue_outcome : Type :=
| Returns (r : PathfindingResult) (g : Grid)
| Searches (g : Grid).

(** The opening lines of [AStar.find_path], which [BidirectionalAStar],
    [Dijkstra], [IDAStar] and [RecursiveBestFirstSearch] repeat word for word:
    validation, reset, node lookup and the [start == goal] test.  [ThetaStar],
    [LazyThetaStar] and [JumpPointSearch] make one more test between
    validation and reset; [gate] is [Some msg] when that test fails with
    [msg], and [None] when it passes or is absent. *)
Definition open_search (gate : option string) (g : Grid) (start goal : pos)
  : prologue_outcome :=
  let m := _start_timing in
  let error_msg := validate_inputs g start goal in
  if truthy error_msg then Returns (_create_result m [] false error_msg) g
  else
    match gate with
    | Some msg => Returns (_create_result m [] false (Some msg)) g
    | None =>
        let g := reset_pathfinding_data g in
        match node_at g start, node_at g goal with
        | Some _, Some _ =>
            if pos_eqb start goal
            then Returns (_create_result m [int_waypoint start] true None) g
            else Searches g
        | _, _ =>
            Returns (_create_result m [] false (Some "Invalid start or goal node")) g
        end
    end.

(** One turn of a search loop: it goes on in a new state, or the function
    returns. *)
Inductive step_result (S : Type) : Type :=
| Continue (st : S)
| Return (o : outcome (PathfindingResult * Grid)).

Arguments Continue {S} st.
Arguments Return {S} o.

(* ================================================================== *)
(** * The priority queue ([heapq] on a Python list) *)
(* ================================================================== *)

(** A frontier entry: the tuple [(key, id(node), node)]. *)
Record entry : Type := mkEntry {
  e_key : float;
  e_id : Z;
  e_node : pos
}.

(** Python's [<] on two such tuples: the first component that differs
    decides.  Two entries with the same [id] hold the same node object, so the
    comparison never reaches the third component with different nodes. *)
Definition entry_lt (a b : entry) : bool :=
  if negb (Py.eq (e_key a) (e_key b)) then Py.lt (e_key a) (e_key b)
  else if negb (e_id a =? e_id b) then e_id a <? e_id b
  else false.

(** [heapq.heappush]: the list below keeps the entries in insertion order;
    only the multiset of entries matters to [heappop]. *)
Definition heappush (h : list entry) (e : entry) : list entry := h ++ [e].

(** [heapq.heappop]: removes and returns the least entry (the heap invariant
    of [heapq] guarantees that the popped item is a minimum; when no key is a
    NaN the order on distinct tuples is total, so the minimum is determined up
    to identical tuples). *)
Fixpoint heappop (h : list entry) : option (entry * list entry) :=
  match h with
  | [] => None
  | e :: r =>
      match heappop r with
      | None => Some (e, [])
      | Some (m, r') => if entry_lt m e then Some (m, e :: r') else Some (e, r)
      end
  end.

(** A Python [set] of nodes, most recently added first. *)
Definition set_mem (p : pos) (s : list pos) : bool := existsb (pos_eqb p) s.
Definition set_add (p : pos) (s : list pos) : list pos :=
  if set_mem p s then s else p :: s.

Definition len {A} (l : list A) : Z := Z.of_nat (List.length l).

(** A Python [dict] keyed by positions. *)
Fixpoint pget {V} (d : list (pos * V)) (k : pos) : option V :=
  match d with
  | [] => None
  | (k', v) :: d' => if pos_eqb k' k then Some v else pget d' k
  end.

Definition pset {V} (d : list (pos * V)) (k : pos) (v : V) : list (pos * V) :=
  (k, v) :: filter (fun kv => negb (pos_eqb (fst kv) k)) d.

(* ================================================================== *)
(** * algorithms/classical/astar.py *)
(* ================================================================== *)

Module AStar.

Record state : Type := mkState {
  grid : Grid;
  open_set : list entry;
  closed_set : list pos;
  metrics : Metrics
}.

(** The body of [for neighbor in grid.get_neighbors(current_node)]. *)
Definition examine_neighbor (id : pos -> Z) (heuristic_type : string)
           (heuristic_weight : float) (goal_node current_node : pos)
           (st : state) (neighbor : pos) : state :=
  let m := _visit_node (metrics st) in
  if set_mem neighbor (closed_set st) then
    mkState (grid st) (open_set st) (closed_set st) m
  else
    match node_at (grid st) current_node, node_at (grid st) neighbor with
    | Some c, Some n =>
        let tentative_g :=
          PrimFloat.add (g_cost c) (get_movement_cost (grid st) current_node neighbor) in
        let new_node_branch := negb (in_open_set n) in
        let is_better_path := new_node_branch || Py.lt tentative_g (g_cost n) in
        let n1 :=
          if new_node_branch then
            set_in_open_set true
              (set_h_cost (get_heuristic neighbor goal_node heuristic_type) n)
          else n in
        if is_better_path then
          let n2 := set_g_cost tentative_g (set_parent (Some current_node) n1) in
          let n3 :=
            set_f_cost (PrimFloat.add (g_cost n2)
                          (PrimFloat.mul heuristic_weight (h_cost n2))) n2 in
          mkState (update_node (grid st) neighbor (fun _ => n3))
                  (heappush (open_set st) (mkEntry (f_cost n3) (id neighbor) neighbor))
                  (closed_set st) m
        else mkState (grid st) (open_set st) (closed_set st) m
    | _, _ => mkState (grid st) (open_set st) (closed_set st) m
    end.

(** One turn of the main loop [while open_set: ...] (an empty [open_set]
    ends the loop, and the function returns its last line).  [fuel] bounds
    the walk of [get_path]. *)
Definition step (fuel : nat) (id : pos -> Z) (heuristic_type : string)
           (heuristic_weight : float) (goal_node : pos) (st : state)
  : step_result state :=
  match heappop (open_set st) with
  | None =>
      Return (Done (_create_result (metrics st) [] false (Some "No path exists"), grid st))
  | Some (e, open') =>
      let m1 := _update_memory_usage (len (open_set st) + len (closed_set st))
                  (_increment_iteration (metrics st)) in
      let current_node := e_node e in
      let g1 := update_node (grid st) current_node (set_in_open_set false) in
      if pos_eqb current_node goal_node then
        Return (p <- get_path fuel g1 current_node ;;
                Done (_create_result m1 p true None, g1))
      else
        let closed' := set_add current_node (closed_set st) in
        let m2 := _expand_node m1 in
        Continue
          (fold_left (examine_neighbor id heuristic_type heuristic_weight
                        goal_node current_node)
                     (get_neighbors g1 current_node)
                     (mkState g1 open' closed' m2))
  end.

(** The main loop; [fuel] bounds the number of turns. *)
Fixpoint loop (fuel : nat) (id : pos -> Z) (heuristic_type : string)
         (heuristic_weight : float) (goal_node : pos) (st : state)
  : outcome (PathfindingResult * Grid) :=
  match step fuel id heuristic_type heuristic_weight goal_node st with
  | Return o => o
  | Continue st' =>
      match fuel with
      | O => OutOfFuel
      | S fuel' => loop fuel' id heuristic_type heuristic_weight goal_node st'
      end
  end.

(** The state in which the main loop is entered: the lines between the
    [start == goal] test and [while open_set], on the reset grid [g]. *)
Definition initial_state (id : pos -> Z) (heuristic_type : string)
           (heuristic_weight : float) (g : Grid) (start goal : pos) (start_node : GridNode)
  : state :=
  let h := get_heuristic start goal heuristic_type in
  let s1 := set_h_cost h (set_g_cost 0%float start_node) in
  let s2 := set_f_cost (PrimFloat.add (g_cost s1)
                          (PrimFloat.mul heuristic_weight (h_cost s1))) s1 in
  let s3 := set_in_open_set true s2 in
  let g := update_node g start (fun _ => s3) in
  mkState g (heappush [] (mkEntry (f_cost s3) (id start) start)) [] _start_timing.

(** [AStar.find_path].  The pair returned holds the result and the grid as
    the call leaves it (its nodes carry the scratch fields). *)
Definition find_path (fuel : nat) (id : pos -> Z) (heuristic_type : string)
           (heuristic_weight : float) (g : Grid) (start goal : pos)
  : outcome (PathfindingResult * Grid) :=
  match open_search None g start goal with
  | Returns r g => Done (r, g)
  | Searches g =>
      match node_at g start with
      | Some start_node =>
          loop fuel id heuristic_type heuristic_weight goal
               (initial_state id heuristic_type heuristic_weight g start goal start_node)
      | None => Raised "AttributeError"
      end
  end.

End AStar.

(** [WeightedAStar] of [astar.py]: a subclass of [AStar]. *)
Module WeightedAStar.

(** The weight kept by [__init__]: at least [1.0]. *)
Definition init_weight (heuristic_weight : float) : float :=
  if Py.lt heuristic_weight 1%float then 1%float else heuristic_weight.

Definition find_path (fuel : nat) (id : pos -> Z) (heuristic_type : string)
           (heuristic_weight : float) (g : Grid) (start goal : pos)
  : outcome (PathfindingResult * Grid) :=
  let w := init_weight heuristic_weight in
  '(result, g') <- AStar.find_path fuel id heuristic_type w g start goal ;;
  Done (set_data "optimality_bound" (DFloat w)
          (set_data "heuristic_weight" (DFloat w) result), g').

End WeightedAStar.

(* ================================================================== *)
(** * algorithms/classical/dijkstra.py *)
(* ================================================================== *)

Module Dijkstra.

Record state : Type := mkState {
  grid : Grid;
  open_set : list entry;
  visited_set : list pos;
  metrics : Metrics
}.

(** The body of [for neighbor in grid.get_neighbors(current_node)]. *)
Definition examine_neighbor (id : pos -> Z) (current_node : pos)
           (st : state) (neighbor : pos) : state :=
  let m := _visit_node (metrics st) in
  if set_mem neighbor (visited_set st) then
    mkState (grid st) (open_set st) (visited_set st) m
  else
    match node_at (grid st) current_node, node_at (grid st) neighbor with
    | Some c, Some n =>
        let distance :=
          PrimFloat.add (g_cost c) (get_movement_cost (grid st) current_node neighbor) in
        if Py.lt distance (g_cost n) then
          let n1 := set_parent (Some current_node)
                      (set_f_cost distance (set_g_cost distance n)) in
          mkState (update_node (grid st) neighbor (fun _ => n1))
                  (heappush (open_set st) (mkEntry distance (id neighbor) neighbor))
                  (visited_set st) m
        else mkState (grid st) (open_set st) (visited_set st) m
    | _, _ => mkState (grid st) (open_set st) (visited_set st) m
    end.

(** One turn of the main loop [while open_set: ...]. *)
Definition step (fuel : nat) (id : pos -> Z) (goal_node : pos) (st : state)
  : step_result state :=
  match heappop (open_set st) with
  | None =>
      Return (Done (_create_result (metrics st) [] false (Some "No path exists"), grid st))
  | Some (e, open') =>
      let m1 := _update_memory_usage (len (open_set st) + len (visited_set st))
                  (_increment_iteration (metrics st)) in
      let current_node := e_node e in
      if set_mem current_node (visited_set st) then
        Continue (mkState (grid st) open' (visited_set st) m1)
      else
        let visited' := set_add current_node (visited_set st) in
        let m2 := _expand_node m1 in
        if pos_eqb current_node goal_node then
          Return (p <- get_path fuel (grid st) current_node ;;
                  let result := _create_result m2 p true None in
                  match node_at (grid st) current_node with
                  | Some c =>
                      Done (set_data "shortest_distance" (DFloat (g_cost c)) result,
                            grid st)
                  | None => Raised "AttributeError"
                  end)
        else
          Continue
            (fold_left (examine_neighbor id current_node)
                       (get_neighbors (grid st) current_node)
                       (mkState (grid st) open' visited' m2))
  end.

(** The main loop; [fuel] bounds the number of turns. *)
Fixpoint loop (fuel : nat) (id : pos -> Z) (goal_node : pos) (st : state)
  : outcome (PathfindingResult * Grid) :=
  match step fuel id goal_node st with
  | Return o => o
  | Continue st' =>
      match fuel with
      | O => OutOfFuel
      | S fuel' => loop fuel' id goal_node st'
      end
  end.

(** The state in which the main loop is entered, on the reset grid [g]. *)
Definition initial_state (id : pos -> Z) (g : Grid) (start : pos) (start_node : GridNode)
  : state :=
  let s1 := set_f_cost 0%float (set_g_cost 0%float start_node) in
  let g := update_node g start (fun _ => s1) in
  mkState g (heappush [] (mkEntry (g_cost s1) (id start) start)) [] _start_timing.

(** [Dijkstra.find_path]. *)
Definition find_path (fuel : nat) (id : pos -> Z) (g : Grid) (start goal : pos)
  : outcome (PathfindingResult * Grid) :=
  match open_search None g start goal with
  | Returns r g => Done (r, g)
  | Searches g =>
      match node_at g start with
      | Some start_node => loop fuel id goal (initial_state id g start start_node)
      | None => Raised "AttributeError"
      end
  end.

End Dijkstra.

(** [UniformCostSearch]: a subclass of [Dijkstra]. *)
Module UniformCostSearch.

Definition find_path (fuel : nat) (id : pos -> Z) (g : Grid) (start goal : pos)
  : outcome (PathfindingResult * Grid) :=
  '(result, g') <- Dijkstra.find_path fuel id g start goal ;;
  Done (set_data "optimal" (DBool true)
          (set_data "search_type" (DStr "uniform_cost") result), g').

End UniformCostSearch.

(** [DijkstraAllPaths]: the distances to every reachable node, then the path
    to the goal. *)
Module DijkstraAllPaths.

Record state : Type := mkState {
  grid : Grid;
  open_set : list entry;
  visited_set : list pos;
  distances : list (pos * (float * option pos));
  metrics : Metrics
}.

(** The body of [for neighbor in grid.get_neighbors(current_node)]. *)
Definition examine_neighbor (id : pos -> Z) (current_node : pos)
           (st : state) (neighbor : pos) : state :=
  let m := _visit_node (metrics st) in
  if set_mem neighbor (visited_set st) then
    mkState (grid st) (open_set st) (visited_set st) (distances st) m
  else
    match node_at (grid st) current_node, node_at (grid st) neighbor with
    | Some c, Some n =>
        let distance :=
          PrimFloat.add (g_cost c) (get_movement_cost (grid st) current_node neighbor) in
        if Py.lt distance (g_cost n) then
          let n1 := set_parent (Some current_node) (set_g_cost distance n) in
          mkState (update_node (grid st) neighbor (fun _ => n1))
                  (heappush (open_set st) (mkEntry distance (id neighbor) neighbor))
                  (visited_set st) (distances st) m
        else mkState (grid st) (open_set st) (visited_set st) (distances st) m
    | _, _ => mkState (grid st) (open_set st) (visited_set st) (distances st) m
    end.

(** One turn of the loop [while open_set: ...] of [find_all_paths]: [None]
    when [open_set] is empty and the loop ends, the next state otherwise. *)
Definition step (id : pos -> Z) (st : state) : outcome (option state) :=
  match heappop (open_set st) with
  | None => Done None
  | Some (e, open') =>
      let m1 := _increment_iteration (metrics st) in
      let current_node := e_node e in
      if set_mem current_node (visited_set st) then
        Done (Some (mkState (grid st) open' (visited_set st) (distances st) m1))
      else
        let visited' := set_add current_node (visited_set st) in
        let m2 := _expand_node m1 in
        match node_at (grid st) current_node with
        | Some c =>
            let distances' := pset (distances st) current_node (g_cost c, parent c) in
            Done (Some (fold_left (examine_neighbor id current_node)
                                  (get_neighbors (grid st) current_node)
                                  (mkState (grid st) open' visited' distances' m2)))
        | None => Raised "AttributeError"
        end
  end.

(** The loop; [fuel] bounds the number of turns. *)
Fixpoint loop (fuel : nat) (id : pos -> Z) (st : state) : outcome state :=
  match step id st with
  | Done None => Done st
  | Done (Some st') =>
      match fuel with
      | O => OutOfFuel
      | S fuel' => loop fuel' id st'
      end
  | Raised e => Raised e
  | OutOfFuel => OutOfFuel
  end.

(** [find_all_paths]; the value returned also carries the grid and the
    counters as the call leaves them. *)
Definition find_all_paths (fuel : nat) (id : pos -> Z) (g : Grid) (start : pos)
  : outcome (list (pos * (float * option pos)) * Grid * Metrics) :=
  let m := _start_timing in
  if negb (is_valid_position g (fst start) (snd start))
     || negb (is_walkable g (fst start) (snd start))
  then Done ([], g, m)
  else
    let g := reset_pathfinding_data g in
    match node_at g start with
    | None => Done ([], g, m)
    | Some start_node =>
        let g := update_node g start (fun _ => set_g_cost 0%float start_node) in
        st <- loop fuel id (mkState g (heappush [] (mkEntry 0%float (id start) start))
                                    [] [] m) ;;
        Done (distances st, grid st, metrics st)
    end.

(** [DijkstraAllPaths.find_path]. *)
Definition find_path (fuel : nat) (id : pos -> Z) (g : Grid) (start goal : pos)
  : outcome (PathfindingResult * Grid) :=
  '(all_distances, g', m) <- find_all_paths fuel id g start ;;
  match pget all_distances goal with
  | None => Done (_create_result m [] false (Some "Goal not reachable"), g')
  | Some (goal_distance, _) =>
      match node_at g' goal with
      | Some _ =>
          p <- get_path fuel g' goal ;;
          let result := _create_result m p true None in
          let result := set_data "total_nodes_reached" (DInt (len all_distances)) result in
          Done (set_data "goal_distance" (DFloat goal_distance) result, g')
      | None => Done (_create_result m [] false (Some "Goal node not found"), g')
      end
  end.

End DijkstraAllPaths.

(* ================================================================== *)
(** * algorithms/optimized/ida_star.py *)
(* ================================================================== *)

Module IDAStar.

Inductive search_result : Type := FOUND | NOT_FOUND | CUTOFF.

(** The attributes of the algorithm object that [_search] writes.  [cutoffs]
    is a ghost field: the f-costs at which the current iteration was cut off,
    in the order they were met. *)
Record state : Type := mkState {
  next_threshold : float;
  solution_path : list pos;
  metrics : Metrics;
  cutoffs : list float
}.

(** The loop [for neighbor in grid.get_neighbors(node)] of [_search];
    [search] is the recursive call [self._search(grid, ...)]. *)
Fixpoint neighbors_loop
         (search : pos -> float -> list pos -> state -> outcome (search_result * state))
         (g : Grid) (node : pos) (g_cost : float) (path : list pos)
         (ns : list pos) (cutoff_occurred : bool) (st : state)
  : outcome (search_result * state) :=
  match ns with
  | [] => Done (if cutoff_occurred then CUTOFF else NOT_FOUND, st)
  | neighbor :: ns' =>
      let st := mkState (next_threshold st) (solution_path st)
                        (_visit_node (metrics st)) (cutoffs st) in
      if set_mem neighbor path
      then neighbors_loop search g node g_cost path ns' cutoff_occurred st
      else
        let move_cost := get_movement_cost g node neighbor in
        let new_g_cost := PrimFloat.add g_cost move_cost in
        let new_path := path ++ [neighbor] in
        match search neighbor new_g_cost new_path st with
        | Done (FOUND, st') => Done (FOUND, st')
        | Done (CUTOFF, st') => neighbors_loop search g node g_cost path ns' true st'
        | Done (NOT_FOUND, st') =>
            neighbors_loop search g node g_cost path ns' cutoff_occurred st'
        | Raised e => Raised e
        | OutOfFuel => OutOfFuel
        end
  end.

(** [IDAStar._search].  The function calls itself once per cell that it adds
    to the path, one interpreter frame each.  [depth] is the number of nested
    calls of [_search] that the interpreter's recursion limit still leaves
    room for: the call that would exceed it raises [RecursionError], which
    nothing in [ida_star.py] catches. *)
Fixpoint _search (depth : nat) (g : Grid) (heuristic_type : string) (goal_node : pos)
         (current_threshold : float) (node : pos) (g_cost : float) (path : list pos)
         (st : state) : outcome (search_result * state) :=
  match depth with
  | O => Raised "RecursionError"
  | S depth' =>
      let h_cost := get_heuristic node goal_node heuristic_type in
      let f_cost := PrimFloat.add g_cost h_cost in
      if Py.gt f_cost current_threshold then
        Done (CUTOFF, mkState (Py.min2 (next_threshold st) f_cost) (solution_path st)
                              (metrics st) (cutoffs st ++ [f_cost]))
      else if pos_eqb node goal_node then
        Done (FOUND, mkState (next_threshold st) path (metrics st) (cutoffs st))
      else
        let m1 := _expand_node (_update_memory_usage (len path) (metrics st)) in
        neighbors_loop (_search depth' g heuristic_type goal_node current_threshold)
                       g node g_cost path (get_neighbors g node) false
                       (mkState (next_threshold st) (solution_path st) m1 (cutoffs st))
  end.

(** What one run reports besides the result: the values [current_threshold]
    took at the start of the successive iterations, and for each completed
    iteration the f-costs at which it was cut off (ghost data). *)
Record trace : Type := mkTrace {
  thresholds : list float;
  cutoff_log : list (list float)
}.

Definition trace_cons (t : float) (cs : list float) (tr : trace) : trace :=
  mkTrace (t :: thresholds tr) (cs :: cutoff_log tr).

(** The loop [while iterations < self.max_iterations]; [remaining] is
    [max_iterations - iterations], and [depth] the room for recursion that
    each call of [_search] starts with. *)
Fixpoint iterate (remaining : nat) (depth : nat) (g : Grid) (heuristic_type : string)
         (max_iterations : Z) (start_node goal_node : pos) (current_threshold : float)
         (iterations : Z) (m : Metrics) : outcome (PathfindingResult * trace) :=
  match remaining with
  | O =>
      Done (_create_result m [] false
              (Some ("Maximum iterations (" ++ Py.repr_int max_iterations ++ ") exceeded")%string),
            mkTrace [] [])
  | S remaining' =>
      match _search depth g heuristic_type goal_node current_threshold start_node
                    0%float [start_node] (mkState Py.inf [] m []) with
      | Done (result, st) =>
          let iterations := iterations + 1 in
          let m := _increment_iteration (metrics st) in
          match result with
          | FOUND =>
              let p := map int_waypoint (solution_path st) in
              let r := _create_result m p true None in
              let r := set_data "final_threshold" (DFloat current_threshold) r in
              let r := set_data "ida_iterations" (DInt iterations) r in
              let r := set_data "memory_complexity" (DStr "O(d)") r in
              Done (r, mkTrace [current_threshold] [cutoffs st])
          | NOT_FOUND =>
              Done (_create_result m [] false (Some "No path exists"),
                    mkTrace [current_threshold] [cutoffs st])
          | CUTOFF =>
              match iterate remaining' depth g heuristic_type max_iterations start_node
                            goal_node (next_threshold st) iterations m with
              | Done (r, tr) => Done (r, trace_cons current_threshold (cutoffs st) tr)
              | Raised e => Raised e
              | OutOfFuel => OutOfFuel
              end
          end
      | Raised e => Raised e
      | OutOfFuel => OutOfFuel
      end
  end.

(** [IDAStar.find_path], with the trace of the run.  No loop of the method
    is unbounded; [depth] is the room for the recursion of [_search]. *)
Definition find_path_trace (depth : nat) (heuristic_type : string) (max_iterations : Z)
           (g : Grid) (start goal : pos) : outcome (PathfindingResult * Grid * trace) :=
  match open_search None g start goal with
  | Returns r g => Done (r, g, mkTrace [] [])
  | Searches g =>
      let m := _start_timing in
      let current_threshold := get_heuristic start goal heuristic_type in
      match iterate (Z.to_nat max_iterations) depth g heuristic_type max_iterations
                    start goal current_threshold 0 m with
      | Done (r, tr) => Done (r, g, tr)
      | Raised e => Raised e
      | OutOfFuel => OutOfFuel
      end
  end.

(** [IDAStar.find_path]. *)
Definition find_path (depth : nat) (heuristic_type : string) (max_iterations : Z)
           (g : Grid) (start goal : pos) : outcome (PathfindingResult * Grid) :=
  '(r, g', _) <- find_path_trace depth heuristic_type max_iterations g start goal ;;
  Done (r, g').

End IDAStar.

(** [MemoryBoundedAStar]: validates, then runs a fresh [IDAStar] with at most
    100 iterations; [depth] is the room for the recursion of its [_search]. *)
Module MemoryBoundedAStar.

Definition find_path (depth : nat) (heuristic_type : string) (memory_limit : Z)
           (g : Grid) (start goal : pos) : outcome (PathfindingResult * Grid) :=
  let m := _start_timing in
  let error_msg := validate_inputs g start goal in
  if truthy error_msg then Done (_create_result m [] false error_msg, g)
  else
    '(result, g') <- IDAStar.find_path depth heuristic_type 100 g start goal ;;
    if found result then
      Done (set_data "memory_limit" (DInt memory_limit)
              (set_data "memory_bounded" (DBool true) result), g')
    else Done (result, g').

End MemoryBoundedAStar.

(* ================================================================== *)
(** * Line of sight ([AngleGrid.has_line_of_sight] and its users) *)
(* ================================================================== *)

(** One turn of the [while True] loop after the two tests: the new
    [(x, y, error)]. *)
Definition los_step (dx dy x_step y_step : Z) (x y error : Z) : Z * Z * Z :=
  let error2 := 2 * error in
  let '(error, x) := if error2 >? - dy then (error - dy, x + x_step) else (error, x) in
  let '(error, y) := if error2 <? dx then (error + dx, y + y_step) else (error, y) in
  (x, y, error).

(** The [while True] loop of [has_line_of_sight]. *)
Fixpoint los_loop (fuel : nat) (g : Grid) (ix2 iy2 dx dy x_step y_step : Z)
         (x y error : Z) : outcome bool :=
  if negb (is_walkable g x y) then Done false
  else if (x =? ix2) && (y =? iy2) then Done true
  else
    match fuel with
    | O => OutOfFuel
    | S fuel' =>
        let '(x', y', error') := los_step dx dy x_step y_step x y error in
        los_loop fuel' g ix2 iy2 dx dy x_step y_step x' y' error'
    end.

(** The function on integer cells, after the [int(...)] conversions. *)
Definition line_of_sight_cells (fuel : nat) (g : Grid) (ix1 iy1 ix2 iy2 : Z) : outcome bool :=
  let dx := Z.abs (ix2 - ix1) in
  let dy := Z.abs (iy2 - iy1) in
  let x_step := if ix1 <? ix2 then 1 else -1 in
  let y_step := if iy1 <? iy2 then 1 else -1 in
  los_loop fuel g ix2 iy2 dx dy x_step y_step ix1 iy1 (dx - dy).

(** [int(x)] for a float [x]: the integer part, [OverflowError] for an
    infinity and [ValueError] for a NaN. *)
Definition int_of (x : float) : outcome Z :=
  match Py.int_of_float x with
  | Some z => Done z
  | None => if Py.eq x x then Raised "OverflowError" else Raised "ValueError"
  end.

(** [grid.has_line_of_sight(x1, y1, x2, y2)].  The method is defined by
    [AngleGrid] alone: on a grid of another class the attribute lookup
    raises [AttributeError].  The four conversions are made in the order
    [x1], [y1], [x2], [y2]. *)
Definition has_line_of_sight (fuel : nat) (g : Grid) (x1 y1 x2 y2 : float) : outcome bool :=
  match cls g with
  | CAngleGrid =>
      ix1 <- int_of x1 ;;
      iy1 <- int_of y1 ;;
      ix2 <- int_of x2 ;;
      iy2 <- int_of y2 ;;
      line_of_sight_cells fuel g ix1 iy1 ix2 iy2
  | _ => Raised "AttributeError"
  end.

(** The cells the loop of [has_line_of_sight] steps through on its way from
    [(ix1, iy1)] to [(ix2, iy2)], walkable or not: the same loop with the
    walkability test taken out. *)
Fixpoint walk_loop (fuel : nat) (ix2 iy2 dx dy x_step y_step : Z) (x y error : Z)
  : list pos :=
  (x, y) ::
  (if (x =? ix2) && (y =? iy2) then []
   else
     match fuel with
     | O => []
     | S fuel' =>
         let '(x', y', error') := los_step dx dy x_step y_step x y error in
         walk_loop fuel' ix2 iy2 dx dy x_step y_step x' y' error'
     end).

Definition walk (ix1 iy1 ix2 iy2 : Z) : list pos :=
  let dx := Z.abs (ix2 - ix1) in
  let dy := Z.abs (iy2 - iy1) in
  let x_step := if ix1 <? ix2 then 1 else -1 in
  let y_step := if iy1 <? iy2 then 1 else -1 in
  walk_loop (Z.to_nat (dx + dy)) ix2 iy2 dx dy x_step y_step ix1 iy1 (dx - dy).

(** [ThetaStar._line_of_sight_check(grid, start_coords, end_node)]. *)
Module ThetaStar.

Definition _line_of_sight_check (fuel : nat) (g : Grid) (start_coords : float * float)
           (end_node : pos) : outcome bool :=
  has_line_of_sight fuel g (fst start_coords) (snd start_coords)
                    (Py.float_of_int (fst end_node)) (Py.float_of_int (snd end_node)).

End ThetaStar.

(** The line-of-sight test of [LazyThetaStar.find_path], made when a node
    with parent coordinates [parent_coords] is expanded. *)
Module LazyThetaStar.

Definition line_of_sight_at_expansion (fuel : nat) (g : Grid)
           (parent_coords : float * float) (current_node : pos) : outcome bool :=
  has_line_of_sight fuel g (fst parent_coords) (snd parent_coords)
                    (Py.float_of_int (fst current_node)) (Py.float_of_int (snd current_node)).

End LazyThetaStar.

(** The two line-of-sight helpers of [incremental_phi_star.py]. *)
Module IncrementalPhiStar.

(** [_has_line_of_sight]: the body is [return True]. *)
Definition _has_line_of_sight (g : Grid) (from_node to_node : pos) : bool := true.

(** [_get_any_angle_cost]. *)
Definition _get_any_angle_cost (g : Grid) (from_node to_node : pos) : float :=
  if _has_line_of_sight g from_node to_node then
    let dx := fst to_node - fst from_node in
    let dy := snd to_node - snd from_node in
    Py.sqrt (Py.float_of_int (dx * dx + dy * dy))
  else get_movement_cost g from_node to_node.

End IncrementalPhiStar.

(* ================================================================== *)
(** * Sampling nodes ([core/node.py]) and [algorithms/sampling/rrt.py] *)
(* ================================================================== *)

(** A reference to a [SamplingNode] object: its index in the store of the
    objects allocated so far. *)
Definition ref : Type := nat.

Record SamplingNode : Type := mkSNode {
  s_x : float;
  s_y : float;
  s_parent : option ref;
  children : list ref;     (* a Python [set], in insertion order *)
  cost : float
}.

(** [SamplingNode.__init__]. *)
Definition new_sampling_node (x y : float) : SamplingNode := mkSNode x y None [] 0%float.

Definition store : Type := list SamplingNode.

Definition deref (s : store) (r : ref) : SamplingNode :=
  nth r s (new_sampling_node 0%float 0%float).

Definition assign (s : store) (r : ref) (f : SamplingNode -> SamplingNode) : store :=
  update s r f.

Definition alloc (s : store) (n : SamplingNode) : store * ref := (s ++ [n], List.length s).

Definition set_s_parent (p : option ref) (n : SamplingNode) : SamplingNode :=
  mkSNode (s_x n) (s_y n) p (children n) (cost n).
Definition set_children (c : list ref) (n : SamplingNode) : SamplingNode :=
  mkSNode (s_x n) (s_y n) (s_parent n) c (cost n).
Definition set_cost (c : float) (n : SamplingNode) : SamplingNode :=
  mkSNode (s_x n) (s_y n) (s_parent n) (children n) c.

(** [SamplingNode.distance_to]. *)
Definition distance_to (a b : SamplingNode) : float :=
  let dx := PrimFloat.sub (s_x a) (s_x b) in
  let dy := PrimFloat.sub (s_y a) (s_y b) in
  Py.sqrt (PrimFloat.add (PrimFloat.mul dx dx) (PrimFloat.mul dy dy)).

(** [SamplingNode.__eq__]: equality of positions within [1e-6]. *)
Definition node_eq (a b : SamplingNode) : bool :=
  Py.lt (PrimFloat.abs (PrimFloat.sub (s_x a) (s_x b))) 1e-6%float
  && Py.lt (PrimFloat.abs (PrimFloat.sub (s_y a) (s_y b))) 1e-6%float.

(** [round(x, 6)], as the integer number of millionths it denotes: the exact
    value of [x] times [10^6], rounded to nearest, ties to even. *)
Definition round6 (x : float) : option Z :=
  match Prim2SF x with
  | S754_zero _ => Some 0
  | S754_finite s m e =>
      let num := Zpos m * 1000000 in
      let '(q, r, d) :=
        if 0 <=? e then (num * 2 ^ e, 0, 1)
        else let d := 2 ^ (- e) in (num / d, num mod d, d) in
      let up := (d <? 2 * r) || ((2 * r =? d) && Z.odd q) in
      let n := if up then q + 1 else q in
      Some (if s then - n else n)
  | _ => None
  end.

(** [SamplingNode.__hash__] hashes the pair of rounded coordinates; two
    hashes are taken to agree exactly when these pairs agree. *)
Definition same_hash (a b : SamplingNode) : bool :=
  match round6 (s_x a), round6 (s_y a), round6 (s_x b), round6 (s_y b) with
  | Some ax, Some ay, Some bx, Some by_ => (ax =? bx) && (ay =? by_)
  | _, _, _, _ => false
  end.

(** The element of the set [set_] that a lookup of [c] finds, if any: same
    hash, and the same object or an equal one. *)
Definition set_find (s : store) (c : ref) (set_ : list ref) : option ref :=
  find (fun i => same_hash (deref s i) (deref s c)
                 && (Nat.eqb i c || node_eq (deref s i) (deref s c))) set_.

Fixpoint remove_ref (r : ref) (l : list ref) : list ref :=
  match l with
  | [] => []
  | i :: l' => if Nat.eqb i r then l' else i :: remove_ref r l'
  end.

(** [SamplingNode.add_child]: [self.children.add(child); child.parent = self]. *)
Definition add_child (s : store) (self child : ref) : store :=
  let s1 :=
    match set_find s child (children (deref s self)) with
    | Some _ => s
    | None => assign s self (fun n => set_children (children n ++ [child]) n)
    end in
  assign s1 child (set_s_parent (Some self)).

(** [SamplingNode.remove_child]. *)
Definition remove_child (s : store) (self child : ref) : store :=
  match set_find s child (children (deref s self)) with
  | Some found_ref =>
      let s1 := assign s self (fun n => set_children (remove_ref found_ref (children n)) n) in
      assign s1 child (set_s_parent None)
  | None => s
  end.

Module RRT.

(** [RRT] and its subclass [RRTStar], which carries a rewiring radius. *)
Inductive variant : Type :=
| Plain
| Star (rewiring_radius : float).

Record config : Type := mkConfig {
  step_size : float;
  max_iterations : Z;
  goal_bias : float;
  kind : variant
}.

(** The tree under construction: the object store, [self.nodes], the
    counters, and the number of values drawn so far from the random
    generator. *)
Record state : Type := mkState {
  objects : store;
  tree_nodes : list ref;
  metrics : Metrics;
  drawn : nat
}.

(** [random.uniform(a, b)] for ints [a], [b], given the value [r] of
    [random.random()]. *)
Definition uniform (a b : Z) (r : float) : float :=
  PrimFloat.add (Py.float_of_int a) (PrimFloat.mul (Py.float_of_int (b - a)) r).

(** [_is_collision_free]: the loop over [range(num_samples + 1)], [is_] being
    the values of [i] still to do. *)
Fixpoint collision_loop (g : Grid) (from_node to_node : SamplingNode) (num_samples : Z)
         (is_ : list Z) : outcome bool :=
  match is_ with
  | [] => Done true
  | i :: is' =>
      let t := PrimFloat.div (Py.float_of_int i) (Py.float_of_int num_samples) in
      let x := PrimFloat.add (s_x from_node)
                 (PrimFloat.mul t (PrimFloat.sub (s_x to_node) (s_x from_node))) in
      let y := PrimFloat.add (s_y from_node)
                 (PrimFloat.mul t (PrimFloat.sub (s_y to_node) (s_y from_node))) in
      match Py.round x, Py.round y with
      | Some grid_x, Some grid_y =>
          if negb (is_valid_position g grid_x grid_y) || negb (is_walkable g grid_x grid_y)
          then Done false
          else collision_loop g from_node to_node num_samples is'
      | _, _ => Raised "ValueError"
      end
  end.

Definition _is_collision_free (g : Grid) (from_node to_node : SamplingNode) : outcome bool :=
  match Py.int_of_float (PrimFloat.mul (distance_to from_node to_node) 2%float) with
  | Some n =>
      let num_samples := Z.max 10 n in
      collision_loop g from_node to_node num_samples (Py.range (num_samples + 1))
  | None => Raised "OverflowError"
  end.

(** [_find_nearest_node]. *)
Definition _find_nearest_node (s : store) (nodes : list ref) (sample : SamplingNode)
  : option ref :=
  match nodes with
  | [] => None
  | first :: rest =>
      Some (fst (fold_left
                   (fun (acc : ref * float) node =>
                      let distance := distance_to (deref s node) sample in
                      if Py.lt distance (snd acc) then (node, distance) else acc)
                   rest (first, distance_to (deref s first) sample)))
  end.

(** [RRT._extend_tree]: the new node is allocated only when the segment is
    collision-free (otherwise the Python object is dropped at once). *)
Definition RRT_extend_tree (cfg : config) (g : Grid) (s : store) (from_node : ref)
           (toward_sample : SamplingNode) : outcome (store * option ref) :=
  let f := deref s from_node in
  let dx := PrimFloat.sub (s_x toward_sample) (s_x f) in
  let dy := PrimFloat.sub (s_y toward_sample) (s_y f) in
  let distance := Py.sqrt (PrimFloat.add (PrimFloat.mul dx dx) (PrimFloat.mul dy dy)) in
  if Py.eq distance 0%float then Done (s, None)
  else
    let step_x := PrimFloat.mul (PrimFloat.div dx distance) (step_size cfg) in
    let step_y := PrimFloat.mul (PrimFloat.div dy distance) (step_size cfg) in
    let new_x := PrimFloat.add (s_x f) step_x in
    let new_y := PrimFloat.add (s_y f) step_y in
    let new_node := new_sampling_node new_x new_y in
    free <- _is_collision_free g f new_node ;;
    if free then
      let '(s1, r) := alloc s new_node in
      let s2 := assign s1 r (set_s_parent (Some from_node)) in
      let s3 := assign s2 r (set_cost (PrimFloat.add (cost f) (distance_to f new_node))) in
      Done (add_child s3 from_node r, Some r)
    else Done (s, None).

(** [RRTStar._find_nearby_nodes]. *)
Definition _find_nearby_nodes (s : store) (nodes : list ref) (node : ref) (radius : float)
  : list ref :=
  filter (fun existing_node =>
            negb (node_eq (deref s existing_node) (deref s node))
            && Py.le (distance_to (deref s existing_node) (deref s node)) radius)
         nodes.

(** [RRTStar._update_descendant_costs]; [fuel] bounds the recursion depth. *)
Fixpoint _update_descendant_costs (fuel : nat) (s : store) (node : ref) : outcome store :=
  match fuel with
  | O => OutOfFuel
  | S fuel' =>
      (fix children_loop (cs : list ref) (s : store) : outcome store :=
         match cs with
         | [] => Done s
         | child :: cs' =>
             let n := deref s node in
             let s1 := assign s child
                         (set_cost (PrimFloat.add (cost n) (distance_to n (deref s child)))) in
             match _update_descendant_costs fuel' s1 child with
             | Done s2 => children_loop cs' s2
             | Raised e => Raised e
             | OutOfFuel => OutOfFuel
             end
         end) (children (deref s node)) s
  end.

(** [RRTStar._rewire_tree]. *)
Fixpoint _rewire_tree (fuel : nat) (g : Grid) (s : store) (new_node : ref)
         (nearby_nodes : list ref) : outcome store :=
  match nearby_nodes with
  | [] => Done s
  | nearby_node :: rest =>
      match s_parent (deref s nearby_node) with
      | Some old_parent =>
          free <- _is_collision_free g (deref s new_node) (deref s nearby_node) ;;
          if free then
            let potential_cost :=
              PrimFloat.add (cost (deref s new_node))
                            (distance_to (deref s new_node) (deref s nearby_node)) in
            if Py.lt potential_cost (cost (deref s nearby_node)) then
              let s1 := remove_child s old_parent nearby_node in
              let s2 := add_child s1 new_node nearby_node in
              let s3 := assign s2 nearby_node (set_cost potential_cost) in
              s4 <- _update_descendant_costs fuel s3 nearby_node ;;
              _rewire_tree fuel g s4 new_node rest
            else _rewire_tree fuel g s new_node rest
          else _rewire_tree fuel g s new_node rest
      | None => _rewire_tree fuel g s new_node rest
      end
  end.

(** The loop of [RRTStar._extend_tree] that looks for the cheapest parent. *)
Fixpoint choose_parent (g : Grid) (s : store) (new_node : ref) (nearby_nodes : list ref)
         (best_parent : ref) (best_cost : float) : outcome (ref * float) :=
  match nearby_nodes with
  | [] => Done (best_parent, best_cost)
  | nearby_node :: rest =>
      free <- _is_collision_free g (deref s nearby_node) (deref s new_node) ;;
      if free then
        let potential_cost :=
          PrimFloat.add (cost (deref s nearby_node))
                        (distance_to (deref s nearby_node) (deref s new_node)) in
        if Py.lt potential_cost best_cost
        then choose_parent g s new_node rest nearby_node potential_cost
        else choose_parent g s new_node rest best_parent best_cost
      else choose_parent g s new_node rest best_parent best_cost
  end.

(** [RRTStar._extend_tree]. *)
Definition RRTStar_extend_tree (fuel : nat) (cfg : config) (rewiring_radius : float)
           (g : Grid) (s : store) (nodes : list ref) (from_node : ref)
           (toward_sample : SamplingNode) : outcome (store * option ref) :=
  '(s1, new_node_opt) <- RRT_extend_tree cfg g s from_node toward_sample ;;
  match new_node_opt with
  | Some new_node =>
      let nearby_nodes := _find_nearby_nodes s1 nodes new_node rewiring_radius in
      '(best_parent, best_cost) <-
        choose_parent g s1 new_node nearby_nodes from_node (cost (deref s1 new_node)) ;;
      let s2 :=
        if negb (node_eq (deref s1 best_parent) (deref s1 from_node)) then
          let sa := remove_child s1 from_node new_node in
          let sb := add_child sa best_parent new_node in
          assign sb new_node (set_cost best_cost)
        else s1 in
      s3 <- _rewire_tree fuel g s2 new_node nearby_nodes ;;
      Done (s3, Some new_node)
  | None => Done (s1, None)
  end.

(** Method dispatch: [self._extend_tree]. *)
Definition _extend_tree (fuel : nat) (cfg : config) (g : Grid) (s : store)
           (nodes : list ref) (from_node : ref) (toward_sample : SamplingNode)
  : outcome (store * option ref) :=
  match kind cfg with
  | Plain => RRT_extend_tree cfg g s from_node toward_sample
  | Star rewiring_radius =>
      RRTStar_extend_tree fuel cfg rewiring_radius g s nodes from_node toward_sample
  end.

(** [_construct_path]. *)
Fixpoint construct_path_loop (fuel : nat) (s : store) (current : option ref)
         (acc : list waypoint) : outcome (list waypoint) :=
  match current with
  | None => Done acc
  | Some r =>
      match fuel with
      | O => OutOfFuel
      | S fuel' =>
          let n := deref s r in
          construct_path_loop fuel' s (s_parent n) (float_waypoint (s_x n, s_y n) :: acc)
      end
  end.

Definition _construct_path (fuel : nat) (s : store) (goal_node : ref)
  : outcome (list waypoint) :=
  construct_path_loop fuel s (Some goal_node) [].

(** The loop [for iteration in range(self.max_iterations)]; [todo] holds the
    values of [iteration] still to come.  The value returned also carries
    the tree as the call leaves it. *)
Fixpoint iterate (fuel : nat) (cfg : config) (rng : nat -> float) (g : Grid)
         (goal_node : ref) (todo : list Z) (st : state)
  : outcome (PathfindingResult * state) :=
  match todo with
  | [] =>
      Done (_create_result (metrics st) [] false
              (Some ("No path found within " ++ Py.repr_int (max_iterations cfg)
                     ++ " iterations")%string), st)
  | iteration :: todo' =>
      let m := _update_memory_usage (len (tree_nodes st))
                 (_increment_iteration (metrics st)) in
      let s := objects st in
      let '(sample, drawn') :=
        if Py.lt (rng (drawn st)) (goal_bias cfg) then (deref s goal_node, S (drawn st))
        else
          let x := uniform 0 (width g - 1) (rng (S (drawn st))) in
          let y := uniform 0 (height g - 1) (rng (S (S (drawn st)))) in
          (new_sampling_node x y, S (S (S (drawn st)))) in
      match _find_nearest_node s (tree_nodes st) sample with
      | None => iterate fuel cfg rng g goal_node todo' (mkState s (tree_nodes st) m drawn')
      | Some nearest_node =>
          '(s1, new_node_opt) <-
            _extend_tree fuel cfg g s (tree_nodes st) nearest_node sample ;;
          match new_node_opt with
          | None =>
              iterate fuel cfg rng g goal_node todo' (mkState s1 (tree_nodes st) m drawn')
          | Some new_node =>
              let nodes' := tree_nodes st ++ [new_node] in
              let m := _expand_node m in
              let goal_threshold := 0.5%float in
              if Py.le (distance_to (deref s1 new_node) (deref s1 goal_node)) goal_threshold
              then
                free <- _is_collision_free g (deref s1 new_node) (deref s1 goal_node) ;;
                if free then
                  let s2 := assign s1 goal_node (set_s_parent (Some new_node)) in
                  let s3 := assign s2 goal_node
                              (set_cost (PrimFloat.add (cost (deref s2 new_node))
                                 (distance_to (deref s2 new_node) (deref s2 goal_node)))) in
                  p <- _construct_path fuel s3 goal_node ;;
                  let result := _create_result m p true None in
                  let result :=
                    set_data "iterations_used" (DInt (iteration + 1)) result in
                  let result := set_data "tree_size" (DInt (len nodes')) result in
                  let result :=
                    set_data "sampling_efficiency"
                      (DFloat (PrimFloat.div (Py.float_of_int (iteration + 1))
                                             (Py.float_of_int (max_iterations cfg))))
                      result in
                  Done (result, mkState s3 nodes' m drawn')
                else iterate fuel cfg rng g goal_node todo' (mkState s1 nodes' m drawn')
              else iterate fuel cfg rng g goal_node todo' (mkState s1 nodes' m drawn')
          end
      end
  end.

(** [RRT.find_path] (inherited unchanged by [RRTStar]).  [rng n] is the value
    of the [n]-th call of [random.random()] made during the call. *)
Definition find_path_state (fuel : nat) (cfg : config) (rng : nat -> float) (g : Grid)
           (start goal : pos) : outcome (PathfindingResult * state) :=
  let m := _start_timing in
  let error_msg := validate_inputs g start goal in
  if truthy error_msg then
    Done (_create_result m [] false error_msg, mkState [] [] m O)
  else
    let '(s, root) :=
      alloc [] (new_sampling_node (Py.float_of_int (fst start))
                                  (Py.float_of_int (snd start))) in
    let '(s, goal_node) :=
      alloc s (new_sampling_node (Py.float_of_int (fst goal))
                                 (Py.float_of_int (snd goal))) in
    iterate fuel cfg rng g goal_node (Py.range (max_iterations cfg))
            (mkState s [root] m O).

Definition find_path (fuel : nat) (cfg : config) (rng : nat -> float) (g : Grid)
           (start goal : pos) : outcome (PathfindingResult * Grid) :=
  '(r, _) <- find_path_state fuel cfg rng g start goal ;;
  Done (r, g).

End RRT.

(* ================================================================== *)
(** * The opening lines of the engines *)
(* ================================================================== *)

(** [isinstance(grid, AngleGrid)] and [isinstance(grid, DynamicGrid)]. *)
Definition is_AngleGrid (g : Grid) : bool :=
  match cls g with CAngleGrid => true | _ => false end.
Definition is_DynamicGrid (g : Grid) : bool :=
  match cls g with CDynamicGrid => true | _ => false end.

(** [result.algorithm_data[k] = v] on whatever the opening lines return. *)
Definition decorate (f : PathfindingResult -> PathfindingResult) (o : prologue_outcome)
  : prologue_outcome :=
  match o with
  | Returns r g => Returns (f r) g
  | Searches g => Searches g
  end.

(** The engines whose [find_path] opens with [validate_inputs]: all the
    subclasses of [PathfindingAlgorithm] but [DijkstraAllPaths] and the
    [WeightedAStar] of [weighted_astar.py]. *)
Inductive engine : Type :=
| EAStar | EWeightedAStar | EBidirectionalAStar
| EDijkstra | EUniformCostSearch
| EThetaStar | EBasicThetaStar | ELazyThetaStar | EIncrementalPhiStar
| EJumpPointSearch | EJumpPointSearchPlus
| EIDAStar | EMemoryBoundedAStar | ERecursiveBestFirstSearch
| ERRT | ERRTStar | ERRTConnect.

(** The opening lines of [find_path] in [ThetaStar] and [LazyThetaStar]. *)
Definition ThetaStar_open (g : Grid) (start goal : pos) : prologue_outcome :=
  open_search (if negb (is_AngleGrid g)
               then Some "Theta* requires AngleGrid for line-of-sight checks"
               else None) g start goal.

Definition LazyThetaStar_open (g : Grid) (start goal : pos) : prologue_outcome :=
  open_search (if negb (is_AngleGrid g) then Some "Lazy Theta* requires AngleGrid"
               else None) g start goal.

(** The opening lines of [JumpPointSearch.find_path]. *)
Definition JumpPointSearch_open (g : Grid) (start goal : pos) : prologue_outcome :=
  open_search (if negb (diagonal_movement g)
               then Some "JPS requires 8-directional movement" else None) g start goal.

(** The opening lines of [IncrementalPhiStar.find_path]: no reset here; it is
    made by [_initialize_search], which the call skips when it replans for
    the goal of the previous call. *)
Definition IncrementalPhiStar_open (g : Grid) (start goal : pos) : prologue_outcome :=
  let m := _start_timing in
  let error_msg := validate_inputs g start goal in
  if truthy error_msg then Returns (_create_result m [] false error_msg) g
  else if negb (is_DynamicGrid g) then
    Returns (_create_result m [] false (Some "Incremental Phi* requires DynamicGrid")) g
  else
    match node_at g start, node_at g goal with
    | Some _, Some _ =>
        if pos_eqb start goal
        then Returns (_create_result m [int_waypoint start] true None) g
        else Searches g
    | _, _ => Returns (_create_result m [] false (Some "Invalid start or goal node")) g
    end.

(** The opening lines of [find_path] in [RRT] (inherited by [RRTStar]) and in
    [RRTConnect]: validation only. *)
Definition sampling_open (g : Grid) (start goal : pos) : prologue_outcome :=
  let m := _start_timing in
  let error_msg := validate_inputs g start goal in
  if truthy error_msg then Returns (_create_result m [] false error_msg) g
  else Searches g.

(** The opening lines of [MemoryBoundedAStar.find_path]: its own validation,
    then those of the [IDAStar] it delegates to. *)
Definition MemoryBoundedAStar_open (g : Grid) (start goal : pos) : prologue_outcome :=
  let m := _start_timing in
  let error_msg := validate_inputs g start goal in
  if truthy error_msg then Returns (_create_result m [] false error_msg) g
  else
    decorate (fun result =>
                if found result
                then set_data "memory_limit" (DInt 10000)
                       (set_data "memory_bounded" (DBool true) result)
                else result)
             (open_search None g start goal).

(** What each engine's [find_path] does before its search starts (default
    constructor arguments where a returned datum depends on them). *)
Definition prologue (e : engine) (g : Grid) (start goal : pos) : prologue_outcome :=
  match e with
  | EAStar | EBidirectionalAStar | EDijkstra | EIDAStar | ERecursiveBestFirstSearch =>
      open_search None g start goal
  | EWeightedAStar =>
      decorate (fun r => set_data "optimality_bound" (DFloat 1.5%float)
                           (set_data "heuristic_weight" (DFloat 1.5%float) r))
               (open_search None g start goal)
  | EUniformCostSearch =>
      decorate (fun r => set_data "optimal" (DBool true)
                           (set_data "search_type" (DStr "uniform_cost") r))
               (open_search None g start goal)
  | EThetaStar => ThetaStar_open g start goal
  | EBasicThetaStar =>
      decorate (set_data "variant" (DStr "basic")) (ThetaStar_open g start goal)
  | ELazyThetaStar => LazyThetaStar_open g start goal
  | EIncrementalPhiStar => IncrementalPhiStar_open g start goal
  | EJumpPointSearch => JumpPointSearch_open g start goal
  | EJumpPointSearchPlus =>
      decorate (set_data "precomputed" (DBool true)) (JumpPointSearch_open g start goal)
  | EMemoryBoundedAStar => MemoryBoundedAStar_open g start goal
  | ERRT | ERRTStar | ERRTConnect => sampling_open g start goal
  end.

(** The engines whose [find_path] resets the grid before searching. *)
Definition resets_grid (e : engine) : bool :=
  match e with
  | EIncrementalPhiStar | ERRT | ERRTStar | ERRTConnect => false
  | _ => true
  end.

(** The capability test an engine makes after validation, if any. *)
Definition gate_passes (e : engine) (g : Grid) : bool :=
  match e with
  | EThetaStar | EBasicThetaStar | ELazyThetaStar => is_AngleGrid g
  | EIncrementalPhiStar => is_DynamicGrid g
  | EJumpPointSearch | EJumpPointSearchPlus => diagonal_movement g
  | _ => true
  end.

Definition is_sampling (e : engine) : bool :=
  match e with
  | ERRT | ERRTStar | ERRTConnect => true
  | _ => false
  end.

(* ================================================================== *)
(** * algorithms/classical/weighted_astar.py *)
(* ================================================================== *)

(** What a Python call can hand back in this code base. *)
Inductive py_value : Type :=
| VResult (r : PathfindingResult)
| VNone
| VPath (l : list pos).

Module StandaloneWeightedAStar.

(** [__init__] calls [super().__init__()] without the two arguments that
    [PathfindingAlgorithm.__init__] requires. *)
Definition init (weight : float) (heuristic : string) : outcome (float * string) :=
  Raised "TypeError".

Definition _heuristic (heuristic_type : string) (pos1 pos2 : pos) : float :=
  let '(x1, y1) := pos1 in
  let '(x2, y2) := pos2 in
  if String.eqb heuristic_type "manhattan" then
    Py.float_of_int (Z.abs (x2 - x1) + Z.abs (y2 - y1))
  else if String.eqb heuristic_type "euclidean" then
    Py.sqrt (Py.float_of_int ((x2 - x1) ^ 2 + (y2 - y1) ^ 2))
  else if String.eqb heuristic_type "octile" then
    let dx := Z.abs (x2 - x1) in
    let dy := Z.abs (y2 - y1) in
    PrimFloat.add (Py.float_of_int (Z.max dx dy))
      (PrimFloat.mul (PrimFloat.sub (Py.sqrt 2%float) 1%float)
                     (Py.float_of_int (Z.min dx dy)))
  else Py.float_of_int (Z.abs (x2 - x1) + Z.abs (y2 - y1)).

Definition _distance (pos1 pos2 : pos) : float :=
  let '(x1, y1) := pos1 in
  let '(x2, y2) := pos2 in
  Py.sqrt (Py.float_of_int ((x2 - x1) ^ 2 + (y2 - y1) ^ 2)).

Definition directions : list pos :=
  [(-1, -1); (-1, 0); (-1, 1); (0, -1); (0, 1); (1, -1); (1, 0); (1, 1)].

(** [_get_neighbors].  [is_obstacle] is the method [grid.is_obstacle] when
    the grid object has one; no grid class of [core/grid.py] does, and the
    call then raises [AttributeError]. *)
Fixpoint _get_neighbors_loop (is_obstacle : option (Z -> Z -> bool)) (g : Grid) (p : pos)
         (ds : list pos) (neighbors : list pos) : outcome (list pos) :=
  match ds with
  | [] => Done neighbors
  | (dx, dy) :: ds' =>
      let nx := fst p + dx in
      let ny := snd p + dy in
      if (0 <=? nx) && (nx <? width g) && (0 <=? ny) && (ny <? height g) then
        match is_obstacle with
        | Some f =>
            _get_neighbors_loop is_obstacle g p ds'
              (if negb (f nx ny) then neighbors ++ [(nx, ny)] else neighbors)
        | None => Raised "AttributeError"
        end
      else _get_neighbors_loop is_obstacle g p ds' neighbors
  end.

Definition _get_neighbors (is_obstacle : option (Z -> Z -> bool)) (g : Grid) (p : pos)
  : outcome (list pos) :=
  _get_neighbors_loop is_obstacle g p directions [].

(** [_reconstruct_path]. *)
Fixpoint reconstruct_loop (fuel : nat) (came_from : list (pos * pos)) (current : pos)
         (acc : list pos) : outcome (list pos) :=
  match pget came_from current with
  | None => Done acc
  | Some prev =>
      match fuel with
      | O => OutOfFuel
      | S fuel' => reconstruct_loop fuel' came_from prev (prev :: acc)
      end
  end.

Definition _reconstruct_path (fuel : nat) (came_from : list (pos * pos)) (current : pos)
  : outcome (list pos) :=
  reconstruct_loop fuel came_from current [current].

(** The heap entries are the tuples [(f_score, position)]. *)
Definition item_lt (a b : float * pos) : bool :=
  if negb (Py.eq (fst a) (fst b)) then Py.lt (fst a) (fst b)
  else if negb (fst (snd a) =? fst (snd b)) then fst (snd a) <? fst (snd b)
  else snd (snd a) <? snd (snd b).

Fixpoint pop_item (h : list (float * pos)) : option ((float * pos) * list (float * pos)) :=
  match h with
  | [] => None
  | e :: r =>
      match pop_item r with
      | None => Some (e, [])
      | Some (m, r') => if item_lt m e then Some (m, e :: r') else Some (e, r)
      end
  end.

Record state : Type := mkState {
  open_set : list (float * pos);
  closed_set : list pos;
  came_from : list (pos * pos);
  g_score : list (pos * float);
  f_score : list (pos * float)
}.

(** The body of [for neighbor in self._get_neighbors(grid, current)]. *)
Definition examine_neighbor (weight : float) (heuristic_type : string) (goal current : pos)
           (st : state) (neighbor : pos) : outcome state :=
  if set_mem neighbor (closed_set st) then Done st
  else
    match pget (g_score st) current with
    | None => Raised "KeyError"
    | Some gc =>
        let tentative_g := PrimFloat.add gc (_distance current neighbor) in
        let better :=
          match pget (g_score st) neighbor with
          | None => true
          | Some gn => Py.lt tentative_g gn
          end in
        if better then
          let f := PrimFloat.add tentative_g
                     (PrimFloat.mul weight (_heuristic heuristic_type neighbor goal)) in
          let open' :=
            if negb (existsb (fun item => pos_eqb neighbor (snd item)) (open_set st))
            then open_set st ++ [(f, neighbor)] else open_set st in
          Done (mkState open' (closed_set st) (pset (came_from st) neighbor current)
                        (pset (g_score st) neighbor tentative_g)
                        (pset (f_score st) neighbor f))
        else Done st
    end.

Fixpoint examine_all (weight : float) (heuristic_type : string) (goal current : pos)
         (st : state) (ns : list pos) : outcome state :=
  match ns with
  | [] => Done st
  | n :: ns' =>
      st' <- examine_neighbor weight heuristic_type goal current st n ;;
      examine_all weight heuristic_type goal current st' ns'
  end.

(** The loop [while open_set: ...] and the final [return None]. *)
Fixpoint loop (fuel : nat) (weight : float) (heuristic_type : string)
         (is_obstacle : option (Z -> Z -> bool)) (g : Grid) (goal : pos) (st : state)
  : outcome py_value :=
  match pop_item (open_set st) with
  | None => Done VNone
  | Some ((_, current), open') =>
      match fuel with
      | O => OutOfFuel
      | S fuel' =>
          if set_mem current (closed_set st) then
            loop fuel' weight heuristic_type is_obstacle g goal
                 (mkState open' (closed_set st) (came_from st) (g_score st) (f_score st))
          else
            let closed' := set_add current (closed_set st) in
            if pos_eqb current goal then
              p <- _reconstruct_path fuel' (came_from st) current ;;
              Done (VPath p)
            else
              ns <- _get_neighbors is_obstacle g current ;;
              st' <- examine_all weight heuristic_type goal current
                       (mkState open' closed' (came_from st) (g_score st) (f_score st)) ns ;;
              loop fuel' weight heuristic_type is_obstacle g goal st'
      end
  end.

(** [WeightedAStar.find_path] of [weighted_astar.py], on an object whose
    attributes [weight] and [heuristic_type] are set. *)
Definition find_path (fuel : nat) (weight : float) (heuristic_type : string)
           (is_obstacle : option (Z -> Z -> bool)) (g : Grid) (start goal : pos)
  : outcome py_value :=
  let f0 := PrimFloat.mul weight (_heuristic heuristic_type start goal) in
  loop fuel weight heuristic_type is_obstacle g goal
       (mkState [(f0, start)] [] [] [(start, 0%float)] [(start, f0)]).

End StandaloneWeightedAStar.

(* ================================================================== *)
(** * Identities of node objects *)
(* ================================================================== *)

(** The node objects of a grid of width [w], numbered in the order in which
    [_initialize_grid] creates them. *)
Definition creation_order (w : Z) (p : pos) : Z := snd p * w + fst p.


(* ================================================================== *)
(** * core/grid.py: obstacle patterns *)
(* ================================================================== *)

(** [Grid.clear_obstacles]. *)
Definition clear_obstacles (g : Grid) : Grid :=
  with_nodes g (map (map (set_node_walkable true)) (nodes g)).

(** The body of the inner loop of [Grid.add_maze_pattern] at the cell
    [(x, y)]. *)
Definition maze_cell (g : Grid) (y x : Z) : Grid :=
  if (x mod 2 =? 1) && (y mod 2 =? 1) then g
  else if (x mod 4 =? 0) || (y mod 4 =? 0) then set_walkable g x y false
  else g.

(** [Grid.add_maze_pattern]. *)
Definition add_maze_pattern (g : Grid) : Grid :=
  fold_left (fun g y => fold_left (fun g x => maze_cell g y x) (Py.range (width g)) g)
            (Py.range (height g)) g.

(** The loop of [Grid.add_random_obstacles]; [randint n] is the value of the
    [n]-th call of [random.randint] ([x] and [y] alternate), which raises
    when its range [0 .. width - 1] or [0 .. height - 1] is empty. *)
Fixpoint random_obstacles_loop (randint : nat -> Z) (drawn : nat) (todo : nat) (g : Grid)
  : outcome Grid :=
  match todo with
  | O => Done g
  | S todo' =>
      if (width g - 1 <? 0) || (height g - 1 <? 0) then Raised "ValueError"
      else
        let x := randint drawn in
        let y := randint (S drawn) in
        random_obstacles_loop randint (S (S drawn)) todo' (set_walkable g x y false)
  end.

(** [Grid.add_random_obstacles(obstacle_percentage)]. *)
Definition add_random_obstacles (obstacle_percentage : float) (randint : nat -> Z) (g : Grid)
  : outcome Grid :=
  let total_nodes := width g * height g in
  let bound := PrimFloat.mul (Py.float_of_int total_nodes) obstacle_percentage in
  match Py.int_of_float bound with
  | Some num_obstacles => random_obstacles_loop randint 0 (Z.to_nat num_obstacles) g
  | None => if Py.eq bound bound then Raised "OverflowError" else Raised "ValueError"
  end.

(** [del d[k]] on a dict keyed by positions, for a key that is present. *)
Definition pdel {V} (d : list (pos * V)) (k : pos) : list (pos * V) :=
  filter (fun kv => negb (pos_eqb (fst kv) k)) d.

(** [(float(x), float(y))] for a grid position. *)
Definition float_pair (p : pos) : float * float :=
  (Py.float_of_int (fst p), Py.float_of_int (snd p)).

(* ================================================================== *)
(** * algorithms/any_angle/theta_star.py: the search *)
(* ================================================================== *)

Module ThetaStarRun.

Record state : Type := mkState {
  grid : Grid;
  open_set : list entry;
  open_set_dict : list (pos * float);
  closed_set : list pos;
  metrics : Metrics
}.

(** [math.sqrt], which refuses a negative argument. *)
Definition math_sqrt (x : float) : outcome float :=
  if Py.lt x 0%float then Raised "ValueError" else Done (PrimFloat.sqrt x).

(** The test and the assignments that end both branches of the neighbour
    loop: [neighbor] is linked to [new_parent], whose coordinates are
    [(px, py)], at the cost [tentative_g]. *)
Definition connect (id : pos -> Z) (heuristic_type : string) (goal_node : pos)
           (st : state) (m : Metrics) (neighbor : pos) (n : GridNode)
           (new_parent : pos) (px py : float) (tentative_g : float) : state :=
  let queued :=
    match pget (open_set_dict st) neighbor with Some _ => true | None => false end in
  if negb queued || Py.lt tentative_g (g_cost n) then
    let n := set_parent (Some new_parent) n in
    let n := set_parent_coordinates px py n in
    let n := set_g_cost tentative_g n in
    let n := set_h_cost (get_heuristic neighbor goal_node heuristic_type) n in
    let n := set_f_cost (PrimFloat.add (g_cost n) (h_cost n)) n in
    let open' :=
      if negb queued
      then heappush (open_set st) (mkEntry (f_cost n) (id neighbor) neighbor)
      else open_set st in
    mkState (update_node (grid st) neighbor (fun _ => n)) open'
            (pset (open_set_dict st) neighbor (f_cost n)) (closed_set st) m
  else mkState (grid st) (open_set st) (open_set_dict st) (closed_set st) m.

(** The body of [for neighbor in grid.get_neighbors(current_node)].
    [square x] is the value of [x ** 2]; [fuel] bounds the walk of
    [has_line_of_sight]. *)
Definition examine_neighbor (fuel : nat) (square : float -> float) (id : pos -> Z)
           (heuristic_type : string) (goal_node current_node : pos)
           (st : state) (neighbor : pos) : outcome state :=
  let m := _visit_node (metrics st) in
  if set_mem neighbor (closed_set st) then
    Done (mkState (grid st) (open_set st) (open_set_dict st) (closed_set st) m)
  else
    match node_at (grid st) current_node, node_at (grid st) neighbor with
    | Some c, Some n =>
        let through_current :=
          let tentative_g :=
            PrimFloat.add (g_cost c)
                          (get_movement_cost (grid st) current_node neighbor) in
          Done (connect id heuristic_type goal_node st m neighbor n current_node
                        (fst (float_pair current_node)) (snd (float_pair current_node))
                        tentative_g) in
        match parent c with
        | Some current_parent =>
            match get_parent_coordinates c with
            | Some parent_coords =>
                los <- ThetaStar._line_of_sight_check fuel (grid st) parent_coords neighbor ;;
                if los then
                  let grandparent_x := fst parent_coords in
                  let grandparent_y := snd parent_coords in
                  distance <-
                    math_sqrt
                      (PrimFloat.add
                         (square (PrimFloat.sub (Py.float_of_int (fst neighbor))
                                                grandparent_x))
                         (square (PrimFloat.sub (Py.float_of_int (snd neighbor))
                                                grandparent_y))) ;;
                  match node_at (grid st) current_parent with
                  | Some p =>
                      Done (connect id heuristic_type goal_node st m neighbor n
                                    current_parent grandparent_x grandparent_y
                                    (PrimFloat.add (g_cost p) distance))
                  | None => Raised "AttributeError"
                  end
                else through_current
            | None => through_current
            end
        | None => through_current
        end
    | _, _ => Raised "AttributeError"
    end.

Fixpoint examine_all (fuel : nat) (square : float -> float) (id : pos -> Z)
         (heuristic_type : string) (goal_node current_node : pos)
         (ns : list pos) (st : state) : outcome state :=
  match ns with
  | [] => Done st
  | neighbor :: ns' =>
      st' <- examine_neighbor fuel square id heuristic_type goal_node current_node
                              st neighbor ;;
      examine_all fuel square id heuristic_type goal_node current_node ns' st'
  end.

(** [_reconstruct_theta_path]: for each node of the chain of parents, the
    coordinates stored as those of its parent, or its own when none are
    stored. *)
Fixpoint reconstruct_loop (fuel : nat) (g : Grid) (current : option pos)
         (acc : list waypoint) : outcome (list waypoint) :=
  match current with
  | None => Done acc
  | Some p =>
      match fuel with
      | O => OutOfFuel
      | S fuel' =>
          match node_at g p with
          | Some n =>
              let w :=
                match get_parent_coordinates n with
                | Some parent_coords => float_waypoint parent_coords
                | None => float_waypoint (float_pair p)
                end in
              reconstruct_loop fuel' g (parent n) (w :: acc)
          | None => Raised "AttributeError"
          end
      end
  end.

Definition _reconstruct_theta_path (fuel : nat) (g : Grid) (goal_node : pos)
  : outcome (list waypoint) :=
  reconstruct_loop fuel g (Some goal_node) [].

(** The loop [while open_set]; [fuel] bounds its turns, and the walks made
    during a turn. *)
Fixpoint loop (fuel : nat) (square : float -> float) (id : pos -> Z)
         (heuristic_type : string) (goal_node : pos) (st : state)
  : outcome (PathfindingResult * Grid) :=
  match heappop (open_set st) with
  | None => Done (_create_result (metrics st) [] false (Some "No path exists"), grid st)
  | Some (e, open') =>
      let m1 := _update_memory_usage (len (open_set st) + len (closed_set st))
                  (_increment_iteration (metrics st)) in
      let current_node := e_node e in
      let d :=
        match pget (open_set_dict st) current_node with
        | Some _ => pdel (open_set_dict st) current_node
        | None => open_set_dict st
        end in
      if pos_eqb current_node goal_node then
        p <- _reconstruct_theta_path fuel (grid st) current_node ;;
        Done (set_data "path_type" (DStr "any_angle") (_create_result m1 p true None),
              grid st)
      else
        let closed' := set_add current_node (closed_set st) in
        let m2 := _expand_node m1 in
        match fuel with
        | O => OutOfFuel
        | S fuel' =>
            st' <- examine_all fuel square id heuristic_type goal_node current_node
                               (get_neighbors (grid st) current_node)
                               (mkState (grid st) open' d closed' m2) ;;
            loop fuel' square id heuristic_type goal_node st'
        end
  end.

(** [ThetaStar.find_path]. *)
Definition find_path (fuel : nat) (square : float -> float) (id : pos -> Z)
           (heuristic_type : string) (g : Grid) (start goal : pos)
  : outcome (PathfindingResult * Grid) :=
  match ThetaStar_open g start goal with
  | Returns r g => Done (r, g)
  | Searches g =>
      match node_at g start with
      | Some start_node =>
          let s := set_g_cost 0%float start_node in
          let s := set_h_cost (get_heuristic start goal heuristic_type) s in
          let s := set_f_cost (PrimFloat.add (g_cost s) (h_cost s)) s in
          let s := set_parent None s in
          let s := set_parent_coordinates (fst (float_pair start)) (snd (float_pair start)) s in
          let g := update_node g start (fun _ => s) in
          loop fuel square id heuristic_type goal
               (mkState g (heappush [] (mkEntry (f_cost s) (id start) start))
                        (pset [] start (f_cost s)) [] _start_timing)
      | None => Raised "AttributeError"
      end
  end.

End ThetaStarRun.

(* ================================================================== *)
(** * algorithms/any_angle/incremental_phi_star.py *)
(* ================================================================== *)

Module IncrementalPhiStarRun.

(** An element of [open_set]: the tuple [( *key, id(node), node)] that
    [_update_vertex] and [_search] push, with its four components. *)
Definition queue_entry : Type := (float * float * Z * pos)%type.

(** The attributes of the engine, the grid, and the [rhs] of the grid's
    nodes ([DynamicNode.rhs], which [GridNode] does not have). *)
Record state : Type := mkState {
  grid : Grid;
  rhs : pos -> float;
  goal_node : option pos;
  open_set : list queue_entry;
  open_set_dict : list (pos * float);
  closed_set : list pos;
  inconsistent_nodes : list pos;
  metrics : Metrics
}.

(** [self.epsilon]. *)
Definition epsilon : float := 2.5%float.

(** [DynamicNode.is_consistent], on the two attributes it reads. *)
Definition is_consistent (g_cost rhs : float) : bool :=
  Py.lt (PrimFloat.abs (PrimFloat.sub g_cost rhs)) 1e-6%float.

(** [_calculate_key]. *)
Definition _calculate_key (heuristic_type : string) (st : state) (node start_node : pos)
  : outcome (float * float) :=
  match node_at (grid st) node with
  | Some n =>
      let min_g_rhs := Py.min2 (g_cost n) (rhs st node) in
      let h := get_heuristic node start_node heuristic_type in
      let k1 := PrimFloat.add min_g_rhs (PrimFloat.mul epsilon h) in
      let k2 := min_g_rhs in
      Done (k1, k2)
  | None => Raised "AttributeError"
  end.

(** [_update_vertex]. *)
Definition _update_vertex (id : pos -> Z) (heuristic_type : string) (st : state)
           (node start_node : pos) : outcome state :=
  let d :=
    match pget (open_set_dict st) node with
    | Some _ => pdel (open_set_dict st) node
    | None => open_set_dict st
    end in
  match node_at (grid st) node with
  | Some n =>
      if negb (is_consistent (g_cost n) (rhs st node)) then
        key <- _calculate_key heuristic_type st node start_node ;;
        Done (mkState (grid st) (rhs st) (goal_node st)
                      (open_set st ++ [(fst key, snd key, id node, node)])
                      (pset d node (fst key))
                      (closed_set st) (inconsistent_nodes st) (metrics st))
      else
        Done (mkState (grid st) (rhs st) (goal_node st) (open_set st) d
                      (closed_set st) (inconsistent_nodes st) (metrics st))
  | None => Raised "AttributeError"
  end.

(** [_initialize_search]: the reset of a [DynamicGrid] also puts every [rhs]
    back to [inf]. *)
Definition _initialize_search (id : pos -> Z) (heuristic_type : string) (g : Grid)
           (m : Metrics) (start_node goal_node : pos) : outcome state :=
  let g := reset_pathfinding_data g in
  let rhs0 : pos -> float := fun _ => Py.inf in
  let rhs1 : pos -> float := fun p => if pos_eqb p goal_node then 0%float else rhs0 p in
  let g := update_node g goal_node (set_g_cost Py.inf) in
  _update_vertex id heuristic_type
                 (mkState g rhs1 (Some goal_node) [] [] [] [] m) goal_node start_node.

(** [_top_key]: its unpacking [key, _, _ = self.open_set[0]] has three
    targets for a tuple of four. *)
Definition _top_key (open_set : list queue_entry) : outcome (float * float) :=
  match open_set with
  | [] => Done (Py.inf, Py.inf)
  | _ :: _ => Raised "ValueError"
  end.

(** Comparison of two keys, as tuples. *)
Definition key_lt (a b : float * float) : bool :=
  if Py.eq (fst a) (fst b)
  then (if Py.eq (snd a) (snd b) then false else Py.lt (snd a) (snd b))
  else Py.lt (fst a) (fst b).

(** The loop [for neighbor in grid.get_neighbors(current)] of
    [_reconstruct_any_angle_path]. *)
Definition best_next_of (g : Grid) (current : pos) : option pos :=
  fst (fold_left
         (fun (acc : option pos * float) neighbor =>
            match node_at g neighbor with
            | Some n => if Py.lt (g_cost n) (snd acc) then (Some neighbor, g_cost n) else acc
            | None => acc
            end)
         (get_neighbors g current) (None, Py.inf)).

(** [_reconstruct_any_angle_path]; [fuel] bounds the turns of its loop. *)
Fixpoint _reconstruct_any_angle_path (fuel : nat) (g : Grid) (current goal_node : pos)
         (path : list waypoint) : outcome (list waypoint) :=
  let goal_point :=
    float_waypoint (Py.float_of_int (fst goal_node), Py.float_of_int (snd goal_node)) in
  if pos_eqb current goal_node then Done (path ++ [goal_point])
  else
    match fuel with
    | O => OutOfFuel
    | S fuel' =>
        let path :=
          path ++ [float_waypoint (Py.float_of_int (fst current),
                                   Py.float_of_int (snd current))] in
        match best_next_of g current with
        | None => Done (path ++ [goal_point])
        | Some best_next => _reconstruct_any_angle_path fuel' g best_next goal_node path
        end
    end.

(** The lines of [_search] after its loop. *)
Definition search_epilogue (fuel : nat) (st : state) (start_node goal_node : pos)
  : outcome (PathfindingResult * state) :=
  match node_at (grid st) start_node with
  | Some s =>
      if Py.eq (g_cost s) Py.inf
      then Done (_create_result (metrics st) [] false (Some "No path exists"), st)
      else
        p <- _reconstruct_any_angle_path fuel (grid st) start_node goal_node [] ;;
        Done (_create_result (metrics st) p true None, st)
  | None => Raised "AttributeError"
  end.

(** [_search].  A turn of its loop gets as far as the third statement,
    [current_key, _, current_node = heapq.heappop(self.open_set)], which has
    three targets for a tuple of four: no turn is ever completed. *)
Definition _search (fuel : nat) (heuristic_type : string) (st : state)
           (start_node goal_node : pos) : outcome (PathfindingResult * state) :=
  match open_set st with
  | [] => search_epilogue fuel st start_node goal_node
  | _ :: _ =>
      top <- _top_key (open_set st) ;;
      start_key <- _calculate_key heuristic_type st start_node start_node ;;
      match node_at (grid st) start_node with
      | Some s =>
          if key_lt top start_key || negb (is_consistent (g_cost s) (rhs st start_node))
          then Raised "ValueError"
          else search_epilogue fuel st start_node goal_node
      | None => Raised "AttributeError"
      end
  end.

(** [find_path] on an engine as [__init__] leaves it: [self.goal_node] is
    [None], so the call initializes a new search. *)
Definition find_path (fuel : nat) (id : pos -> Z) (heuristic_type : string)
           (g : Grid) (start goal : pos) : outcome (PathfindingResult * Grid) :=
  match IncrementalPhiStar_open g start goal with
  | Returns r g => Done (r, g)
  | Searches g =>
      st <- _initialize_search id heuristic_type g _start_timing start goal ;;
      '(result, st') <- _search fuel heuristic_type st start goal ;;
      if found result then
        Done (set_data "epsilon" (DFloat epsilon)
                (set_data "incremental" (DBool true) result), grid st')
      else Done (result, grid st')
  end.

(** ** Later calls *)

(** The attributes a call of [find_path] leaves in the engine, for the next
    call to find. *)
Record attributes : Type := mkAttributes {
  a_goal_node : option pos;
  a_open_set : list queue_entry;
  a_open_set_dict : list (pos * float);
  a_closed_set : list pos;
  a_inconsistent_nodes : list pos
}.

(** The attributes as [__init__] leaves them. *)
Definition initial_attributes : attributes := mkAttributes None [] [] [] [].

Definition attributes_of (st : state) : attributes :=
  mkAttributes (goal_node st) (open_set st) (open_set_dict st) (closed_set st)
               (inconsistent_nodes st).

(** The engine with the attributes [a], at work on the grid [g] whose nodes
    have the [rhs] values [rhs_of]. *)
Definition with_attributes (a : attributes) (g : Grid) (rhs_of : pos -> float)
           (m : Metrics) : state :=
  mkState g rhs_of (a_goal_node a) (a_open_set a) (a_open_set_dict a) (a_closed_set a)
          (a_inconsistent_nodes a) m.

(** [node != self.goal_node]. *)
Definition differs (node : pos) (goal_node : option pos) : bool :=
  match goal_node with
  | Some t => negb (pos_eqb node t)
  | None => true
  end.

(** [_has_valid_search_data]: its [and] binds tighter than its [or]. *)
Definition _has_valid_search_data (a : attributes) : bool :=
  (match a_goal_node a with Some _ => true | None => false end
   && (0 <? len (a_open_set a)))
  || (0 <? len (a_closed_set a)).

(** [DynamicGrid.get_changed_nodes]; [cost_changed] gives the flag of that
    name of the node at each position. *)
Definition get_changed_nodes (g : Grid) (cost_changed : pos -> bool) : list pos :=
  filter cost_changed (List.concat (map (map position) (nodes g))).

Definition set_rhs (st : state) (node : pos) (v : float) : state :=
  mkState (grid st) (fun p => if pos_eqb p node then v else rhs st p) (goal_node st)
          (open_set st) (open_set_dict st) (closed_set st) (inconsistent_nodes st)
          (metrics st).

Definition set_inconsistent_nodes (st : state) (s : list pos) : state :=
  mkState (grid st) (rhs st) (goal_node st) (open_set st) (open_set_dict st)
          (closed_set st) s (metrics st).

(** The loop [for pred in old_neighbors] of [_handle_updates]. *)
Definition min_rhs_over (st : state) (node : pos) (old_neighbors : list pos) : float :=
  fold_left
    (fun min_rhs pred =>
       match node_at (grid st) pred with
       | Some p =>
           if negb (Py.eq (g_cost p) Py.inf) then
             let cost :=
               PrimFloat.add (g_cost p)
                             (IncrementalPhiStar._get_any_angle_cost (grid st) pred node) in
             Py.min2 min_rhs cost
           else min_rhs
       | None => min_rhs
       end)
    old_neighbors Py.inf.

(** The body of the loop [for node in changed_nodes] of
    [_handle_updates]. *)
Definition handle_changed (id : pos -> Z) (heuristic_type : string) (start_node : pos)
           (st : state) (node : pos) : outcome state :=
  let old_neighbors := get_neighbors (grid st) node in
  let st :=
    if differs node (goal_node st)
    then set_rhs st node (min_rhs_over st node old_neighbors)
    else st in
  st <- _update_vertex id heuristic_type st node start_node ;;
  Done (set_inconsistent_nodes st
          (fold_left (fun s neighbor =>
                        if differs neighbor (goal_node st) then set_add neighbor s else s)
                     (get_neighbors (grid st) node) (inconsistent_nodes st))).

Fixpoint update_all (id : pos -> Z) (heuristic_type : string) (start_node : pos)
         (nodes : list pos) (st : state) : outcome state :=
  match nodes with
  | [] => Done st
  | node :: nodes' =>
      st' <- _update_vertex id heuristic_type st node start_node ;;
      update_all id heuristic_type start_node nodes' st'
  end.

Fixpoint handle_all (id : pos -> Z) (heuristic_type : string) (start_node : pos)
         (changed_nodes : list pos) (st : state) : outcome state :=
  match changed_nodes with
  | [] => Done st
  | node :: changed_nodes' =>
      st' <- handle_changed id heuristic_type start_node st node ;;
      handle_all id heuristic_type start_node changed_nodes' st'
  end.

(** [_handle_updates].  [order s] is the order in which Python iterates the
    set [s]; the flags of the grid are all cleared at the end. *)
Definition _handle_updates (id : pos -> Z) (heuristic_type : string)
           (order : list pos -> list pos) (st : state) (changed_nodes : list pos)
           (start_node : pos) : outcome state :=
  st <- handle_all id heuristic_type start_node changed_nodes st ;;
  st <- update_all id heuristic_type start_node (order (inconsistent_nodes st)) st ;;
  Done (set_inconsistent_nodes st []).

(** The lines of [find_path] between its opening lines and [_search], on an
    engine with the attributes [a]: the state in which [_search] is entered,
    and the [cost_changed] flags of the grid at that point. *)
Definition enter_search (id : pos -> Z) (heuristic_type : string)
           (order : list pos -> list pos) (a : attributes) (g : Grid)
           (rhs_of : pos -> float) (cost_changed : pos -> bool) (start_node goal : pos)
  : outcome (state * (pos -> bool)) :=
  if differs goal (a_goal_node a) || negb (_has_valid_search_data a) then
    st <- _initialize_search id heuristic_type g _start_timing start_node goal ;;
    Done (st, fun _ => false)
  else
    match get_changed_nodes g cost_changed with
    | [] => Done (with_attributes a g rhs_of _start_timing, cost_changed)
    | changed_nodes =>
        st <- _handle_updates id heuristic_type order
                              (with_attributes a g rhs_of _start_timing)
                              changed_nodes start_node ;;
        Done (st, fun _ => false)
    end.

(** [find_path] on an engine with the attributes [a]. *)
Definition find_path_on (fuel : nat) (id : pos -> Z) (heuristic_type : string)
           (order : list pos -> list pos) (a : attributes) (g : Grid)
           (rhs_of : pos -> float) (cost_changed : pos -> bool) (start goal : pos)
  : outcome (PathfindingResult * Grid) :=
  match IncrementalPhiStar_open g start goal with
  | Returns r g => Done (r, g)
  | Searches g =>
      '(st, _) <- enter_search id heuristic_type order a g rhs_of cost_changed
                               start goal ;;
      '(result, st') <- _search fuel heuristic_type st start goal ;;
      if found result then
        Done (set_data "epsilon" (DFloat epsilon)
                (set_data "incremental" (DBool true) result), grid st')
      else Done (result, grid st')
  end.

(** [replan_after_changes] on an engine with the attributes [a]. *)
Definition replan_after_changes (fuel : nat) (id : pos -> Z) (heuristic_type : string)
           (order : list pos -> list pos) (a : attributes) (m : Metrics) (g : Grid)
           (rhs_of : pos -> float) (cost_changed : pos -> bool) (start : pos)
  : outcome (PathfindingResult * Grid) :=
  match a_goal_node a with
  | None => Done (_create_result m [] false (Some "No initial plan exists"), g)
  | Some goal =>
      match node_at g start with
      | None => Done (_create_result m [] false (Some "Invalid start position"), g)
      | Some _ =>
          st <- match get_changed_nodes g cost_changed with
                | [] => Done (with_attributes a g rhs_of m)
                | changed_nodes =>
                    _handle_updates id heuristic_type order (with_attributes a g rhs_of m)
                                    changed_nodes start
                end ;;
          '(result, st') <- _search fuel heuristic_type st start goal ;;
          Done (result, grid st')
      end
  end.

End IncrementalPhiStarRun.

(* ================================================================== *)
(** * algorithms/optimized/jump_point_search.py: the search *)
(* ================================================================== *)

Module JumpPointSearch.

(** [self.directions]. *)
Definition directions : list pos :=
  [(0, 1); (1, 1); (1, 0); (1, -1); (0, -1); (-1, -1); (-1, 0); (-1, 1)].

(** [_is_walkable]. *)
Definition _is_walkable (g : Grid) (x y : Z) : bool :=
  is_valid_position g x y && is_walkable g x y.

(** [_has_forced_neighbors]. *)
Definition _has_forced_neighbors (g : Grid) (x y dx dy : Z) : bool :=
  if negb (dx =? 0) && negb (dy =? 0) then
    (negb (_is_walkable g (x - dx) y) && _is_walkable g (x - dx) (y + dy))
    || (negb (_is_walkable g x (y - dy)) && _is_walkable g (x + dx) (y - dy))
  else if negb (dx =? 0) then
    (negb (_is_walkable g x (y + 1)) && _is_walkable g (x + dx) (y + 1))
    || (negb (_is_walkable g x (y - 1)) && _is_walkable g (x + dx) (y - 1))
  else
    (negb (_is_walkable g (x + 1) y) && _is_walkable g (x + 1) (y + dy))
    || (negb (_is_walkable g (x - 1) y) && _is_walkable g (x - 1) (y + dy)).

(** [_jump]; [fuel] bounds the depth of the recursion (the interpreter's own
    bound on that depth is not modelled). *)
Fixpoint _jump (fuel : nat) (g : Grid) (from direction goal : pos) : outcome (option pos) :=
  match fuel with
  | O => OutOfFuel
  | S fuel' =>
      let x := fst from in
      let y := snd from in
      let dx := fst direction in
      let dy := snd direction in
      let next_x := x + dx in
      let next_y := y + dy in
      if negb (_is_walkable g next_x next_y) then Done None
      else if pos_eqb (next_x, next_y) goal then Done (Some (next_x, next_y))
      else if _has_forced_neighbors g next_x next_y dx dy then Done (Some (next_x, next_y))
      else if negb (dx =? 0) && negb (dy =? 0) then
        horizontal <- _jump fuel' g (next_x, next_y) (dx, 0) goal ;;
        match horizontal with
        | Some _ => Done (Some (next_x, next_y))
        | None =>
            vertical <- _jump fuel' g (next_x, next_y) (0, dy) goal ;;
            match vertical with
            | Some _ => Done (Some (next_x, next_y))
            | None => _jump fuel' g (next_x, next_y) direction goal
            end
        end
      else _jump fuel' g (next_x, next_y) direction goal
  end.

(** [neighbors.append(d)] under the condition [c]. *)
Definition keep (c : bool) (d : pos) : list pos := if c then [d] else [].

(** [_prune_neighbors], for the node at [node]. *)
Definition _prune_neighbors (g : Grid) (node : pos) (dx dy : Z) : list pos :=
  let x := fst node in
  let y := snd node in
  if negb (dx =? 0) && negb (dy =? 0) then
    keep (_is_walkable g (x + dx) y) (dx, 0)
    ++ keep (_is_walkable g x (y + dy)) (0, dy)
    ++ keep (_is_walkable g (x + dx) (y + dy)) (dx, dy)
    ++ keep (negb (_is_walkable g (x - dx) y) && _is_walkable g (x - dx) (y + dy)) (- dx, dy)
    ++ keep (negb (_is_walkable g x (y - dy)) && _is_walkable g (x + dx) (y - dy)) (dx, - dy)
  else if negb (dx =? 0) then
    keep (_is_walkable g (x + dx) y) (dx, 0)
    ++ keep (negb (_is_walkable g x (y + 1)) && _is_walkable g (x + dx) (y + 1)) (dx, 1)
    ++ keep (negb (_is_walkable g x (y - 1)) && _is_walkable g (x + dx) (y - 1)) (dx, -1)
  else
    keep (_is_walkable g x (y + dy)) (0, dy)
    ++ keep (negb (_is_walkable g (x + 1) y) && _is_walkable g (x + 1) (y + dy)) (1, dy)
    ++ keep (negb (_is_walkable g (x - 1) y) && _is_walkable g (x - 1) (y + dy)) (-1, dy).

(** The normalisation of a component of the parent direction:
    [if d != 0: d = 1 if d > 0 else -1]. *)
Definition normalize (d : Z) : Z :=
  if negb (d =? 0) then (if d >? 0 then 1 else -1) else d.

(** [_get_neighbors], for the node at [node]: the directions to jump in. *)
Definition _get_neighbors (g : Grid) (node : pos) : outcome (list pos) :=
  match node_at g node with
  | Some n =>
      match parent n with
      | None =>
          Done (filter (fun d => _is_walkable g (fst node + fst d) (snd node + snd d))
                       directions)
      | Some p =>
          let parent_dx := normalize (fst node - fst p) in
          let parent_dy := normalize (snd node - snd p) in
          Done (_prune_neighbors g node parent_dx parent_dy)
      end
  | None => Raised "AttributeError"
  end.

Record state : Type := mkState {
  grid : Grid;
  open_set : list entry;
  closed_set : list pos;
  jump_points_found : Z;
  metrics : Metrics
}.

(** The body of [for direction in neighbors]. *)
Definition examine_direction (fuel : nat) (id : pos -> Z) (heuristic_type : string)
           (goal current_pos : pos) (st : state) (direction : pos) : outcome state :=
  jump <- _jump fuel (grid st) current_pos direction goal ;;
  match jump with
  | None => Done st
  | Some jump_point =>
      let found := jump_points_found st + 1 in
      match node_at (grid st) jump_point with
      | Some jump_node =>
          if negb (set_mem jump_point (closed_set st)) then
            let m := _visit_node (metrics st) in
            match node_at (grid st) current_pos with
            | Some c =>
                let dx := Z.abs (fst jump_point - fst current_pos) in
                let dy := Z.abs (snd jump_point - snd current_pos) in
                let cost :=
                  if (dx >? 0) && (dy >? 0)
                  then PrimFloat.mul (Py.float_of_int (Z.max dx dy)) (diagonal_cost (grid st))
                  else PrimFloat.mul (Py.float_of_int (dx + dy)) (straight_cost (grid st)) in
                let tentative_g := PrimFloat.add (g_cost c) cost in
                if Py.lt tentative_g (g_cost jump_node) then
                  let n1 := set_g_cost tentative_g (set_parent (Some current_pos) jump_node) in
                  let n2 := set_h_cost (get_heuristic jump_point goal heuristic_type) n1 in
                  let n3 := set_f_cost (PrimFloat.add (g_cost n2) (h_cost n2)) n2 in
                  Done (mkState (update_node (grid st) jump_point (fun _ => n3))
                                (heappush (open_set st)
                                          (mkEntry (f_cost n3) (id jump_point) jump_point))
                                (closed_set st) found m)
                else Done (mkState (grid st) (open_set st) (closed_set st) found m)
            | None => Raised "AttributeError"
            end
          else Done (mkState (grid st) (open_set st) (closed_set st) found (metrics st))
      | None => Done (mkState (grid st) (open_set st) (closed_set st) found (metrics st))
      end
  end.

Fixpoint examine_all (fuel : nat) (id : pos -> Z) (heuristic_type : string)
         (goal current_pos : pos) (neighbors : list pos) (st : state) : outcome state :=
  match neighbors with
  | [] => Done st
  | direction :: rest =>
      st' <- examine_direction fuel id heuristic_type goal current_pos st direction ;;
      examine_all fuel id heuristic_type goal current_pos rest st'
  end.

(** One turn of the loop [while open_set]; [fuel] bounds the walks and the
    jumps made during the turn. *)
Definition step (fuel : nat) (id : pos -> Z) (heuristic_type : string) (goal : pos)
           (st : state) : step_result state :=
  match heappop (open_set st) with
  | None =>
      Return (Done (_create_result (metrics st) [] false (Some "No path exists"), grid st))
  | Some (e, open') =>
      let m1 := _update_memory_usage (len (open_set st) + len (closed_set st))
                  (_increment_iteration (metrics st)) in
      let current_pos := e_node e in
      if set_mem current_pos (closed_set st) then
        Continue (mkState (grid st) open' (closed_set st) (jump_points_found st) m1)
      else
        let closed' := set_add current_pos (closed_set st) in
        let m2 := _expand_node m1 in
        if pos_eqb current_pos goal then
          Return (p <- get_path fuel (grid st) current_pos ;;
                  let result := _create_result m2 p true None in
                  let result :=
                    set_data "jump_points_found" (DInt (jump_points_found st)) result in
                  let cells := width (grid st) * height (grid st) in
                  if cells =? 0 then Raised "ZeroDivisionError"
                  else
                    Done (set_data "expansion_ratio"
                            (DFloat (PrimFloat.div (Py.float_of_int (len closed'))
                                                   (Py.float_of_int cells)))
                            result,
                          grid st))
        else
          match
            (neighbors <- _get_neighbors (grid st) current_pos ;;
             examine_all fuel id heuristic_type goal current_pos neighbors
                         (mkState (grid st) open' closed' (jump_points_found st) m2))
          with
          | Done st' => Continue st'
          | Raised e => Return (Raised e)
          | OutOfFuel => Return OutOfFuel
          end
  end.

(** The loop [while open_set]; [fuel] bounds its turns. *)
Fixpoint loop (fuel : nat) (id : pos -> Z) (heuristic_type : string) (goal : pos)
         (st : state) : outcome (PathfindingResult * Grid) :=
  match step fuel id heuristic_type goal st with
  | Return o => o
  | Continue st' =>
      match fuel with
      | O => OutOfFuel
      | S fuel' => loop fuel' id heuristic_type goal st'
      end
  end.

(** The state in which the loop is entered, on the reset grid [g]. *)
Definition initial_state (id : pos -> Z) (heuristic_type : string) (g : Grid)
           (start goal : pos) (start_node : GridNode) : state :=
  let s1 := set_g_cost 0%float start_node in
  let s2 := set_h_cost (get_heuristic start goal heuristic_type) s1 in
  let s3 := set_f_cost (PrimFloat.add (g_cost s2) (h_cost s2)) s2 in
  let g := update_node g start (fun _ => s3) in
  mkState g (heappush [] (mkEntry (f_cost s3) (id start) start)) [] 0 _start_timing.

(** [JumpPointSearch.find_path]. *)
Definition find_path (fuel : nat) (id : pos -> Z) (heuristic_type : string)
           (g : Grid) (start goal : pos) : outcome (PathfindingResult * Grid) :=
  match JumpPointSearch_open g start goal with
  | Returns r g => Done (r, g)
  | Searches g =>
      match node_at g start with
      | Some start_node =>
          loop fuel id heuristic_type goal
               (initial_state id heuristic_type g start goal start_node)
      | None => Raised "AttributeError"
      end
  end.

End JumpPointSearch.

(* ================================================================== *)
(** * algorithms/optimized/jump_point_search.py: [JumpPointSearchPlus] *)
(* ================================================================== *)

Module JumpPointSearchPlus.

(** [self.jump_distances]: for each walkable cell, the distance computed for
    each direction, in the order the two dicts are filled. *)
Definition table : Type := list (pos * list (pos * Z)).

(** The loop [while True] of [_compute_jump_distance], entered at the cell
    [(x, y)] with [distance] steps made; [fuel] bounds its turns. *)
Fixpoint jump_distance_loop (fuel : nat) (g : Grid) (x y distance dx dy : Z) : outcome Z :=
  match fuel with
  | O => OutOfFuel
  | S fuel' =>
      let x := x + dx in
      let y := y + dy in
      let distance := distance + 1 in
      if negb (JumpPointSearch._is_walkable g x y) then Done (-1)
      else if JumpPointSearch._has_forced_neighbors g x y dx dy then Done distance
      else if distance >? Z.max (width g) (height g) then Done (-1)
      else jump_distance_loop fuel' g x y distance dx dy
  end.

(** [_compute_jump_distance]. *)
Definition _compute_jump_distance (fuel : nat) (g : Grid) (start_x start_y dx dy : Z)
  : outcome Z :=
  jump_distance_loop fuel g start_x start_y 0 dx dy.

(** The loop [for dx, dy in self.directions] of
    [_precompute_jump_distances]. *)
Fixpoint directions_loop (fuel : nat) (g : Grid) (x y : Z) (ds : list pos)
         (row : list (pos * Z)) : outcome (list (pos * Z)) :=
  match ds with
  | [] => Done row
  | d :: ds' =>
      distance <- _compute_jump_distance fuel g x y (fst d) (snd d) ;;
      directions_loop fuel g x y ds' (row ++ [(d, distance)])
  end.

(** Its two outer loops, over the cells still to visit in row-major
    order. *)
Fixpoint cells_loop (fuel : nat) (g : Grid) (cells : list pos) (t : table) : outcome table :=
  match cells with
  | [] => Done t
  | c :: cells' =>
      if is_walkable g (fst c) (snd c) then
        row <- directions_loop fuel g (fst c) (snd c) JumpPointSearch.directions [] ;;
        cells_loop fuel g cells' (t ++ [(c, row)])
      else cells_loop fuel g cells' t
  end.

(** [_precompute_jump_distances]. *)
Definition _precompute_jump_distances (fuel : nat) (g : Grid) : outcome table :=
  cells_loop fuel g
             (flat_map (fun y => map (fun x => (x, y)) (Py.range (width g)))
                       (Py.range (height g)))
             [].

(** [JumpPointSearchPlus.find_path] on an engine whose [jump_distances] is
    [jump_distances].  The table is computed when there is none yet, and is
    never read. *)
Definition find_path (fuel : nat) (id : pos -> Z) (heuristic_type : string)
           (jump_distances : option table) (g : Grid) (start goal : pos)
  : outcome (PathfindingResult * Grid) :=
  _ <- match jump_distances with
       | None => _precompute_jump_distances fuel g
       | Some t => Done t
       end ;;
  '(result, g') <- JumpPointSearch.find_path fuel id heuristic_type g start goal ;;
  Done (set_data "precomputed" (DBool true) result, g').

End JumpPointSearchPlus.

(* ================================================================== *)
(** * algorithms/any_angle/theta_star.py: the other two engines *)
(* ================================================================== *)

(** [BasicThetaStar]: a subclass of [ThetaStar]. *)
Module BasicThetaStar.

Definition find_path (fuel : nat) (square : float -> float) (id : pos -> Z)
           (g : Grid) (start goal : pos) : outcome (PathfindingResult * Grid) :=
  '(result, g') <- ThetaStarRun.find_path fuel square id "euclidean" g start goal ;;
  Done (set_data "variant" (DStr "basic") result, g').

End BasicThetaStar.

Module LazyThetaStarRun.

(** [_recompute_path]. *)
Definition _recompute_path (g : Grid) (node : pos) : Grid :=
  match node_at g node with
  | Some n =>
      match parent n with
      | Some node_parent =>
          let best :=
            fold_left
              (fun (acc : option pos * float) neighbor =>
                 match node_at g neighbor with
                 | Some nb =>
                     match parent nb with
                     | Some _ =>
                         let cost :=
                           PrimFloat.add (g_cost nb) (get_movement_cost g neighbor node) in
                         if Py.lt cost (snd acc) then (Some neighbor, cost) else acc
                     | None => acc
                     end
                 | None => acc
                 end)
              (get_neighbors g node_parent) (None, Py.inf) in
          match fst best with
          | Some best_parent =>
              update_node g node
                (fun n =>
                   set_parent_coordinates (fst (float_pair best_parent))
                                          (snd (float_pair best_parent))
                     (set_g_cost (snd best) (set_parent (Some best_parent) n)))
          | None => g
          end
      | None => g
      end
  | None => g
  end.

(** The lazy evaluation made when [current_node] is taken from the queue:
    the line of sight to the parent is tested only for a node that has a
    grandparent and parent coordinates. *)
Definition lazy_evaluation (fuel : nat) (g : Grid) (current_node : pos) : outcome Grid :=
  match node_at g current_node with
  | Some c =>
      match parent c with
      | Some current_parent =>
          match node_at g current_parent with
          | Some p =>
              match parent p, get_parent_coordinates c with
              | Some _, Some parent_coords =>
                  los <- LazyThetaStar.line_of_sight_at_expansion fuel g parent_coords
                                                                  current_node ;;
                  if negb los then Done (_recompute_path g current_node) else Done g
              | _, _ => Done g
              end
          | None => Raised "AttributeError"
          end
      | None => Done g
      end
  | None => Raised "AttributeError"
  end.

(** The body of [for neighbor in grid.get_neighbors(current_node)]: the
    neighbour is linked to the current node, as in the second branch of
    [ThetaStar]. *)
Definition examine_neighbor (id : pos -> Z) (heuristic_type : string)
           (goal_node current_node : pos) (st : ThetaStarRun.state) (neighbor : pos)
  : ThetaStarRun.state :=
  let m := _visit_node (ThetaStarRun.metrics st) in
  let unchanged :=
    ThetaStarRun.mkState (ThetaStarRun.grid st) (ThetaStarRun.open_set st)
                         (ThetaStarRun.open_set_dict st) (ThetaStarRun.closed_set st) m in
  if set_mem neighbor (ThetaStarRun.closed_set st) then unchanged
  else
    match node_at (ThetaStarRun.grid st) current_node,
          node_at (ThetaStarRun.grid st) neighbor with
    | Some c, Some n =>
        let tentative_g :=
          PrimFloat.add (g_cost c)
                        (get_movement_cost (ThetaStarRun.grid st) current_node neighbor) in
        ThetaStarRun.connect id heuristic_type goal_node st m neighbor n current_node
                             (fst (float_pair current_node)) (snd (float_pair current_node))
                             tentative_g
    | _, _ => unchanged
    end.

(** The loop [while open_set]; [fuel] bounds its turns, and the walks made
    during a turn.  [_reconstruct_theta_path] has the text of the method of
    the same name of [ThetaStar]. *)
Fixpoint loop (fuel : nat) (id : pos -> Z) (heuristic_type : string) (goal_node : pos)
         (st : ThetaStarRun.state) : outcome (PathfindingResult * Grid) :=
  match heappop (ThetaStarRun.open_set st) with
  | None =>
      Done (_create_result (ThetaStarRun.metrics st) [] false (Some "No path exists"),
            ThetaStarRun.grid st)
  | Some (e, open') =>
      let m1 :=
        _update_memory_usage
          (len (ThetaStarRun.open_set st) + len (ThetaStarRun.closed_set st))
          (_increment_iteration (ThetaStarRun.metrics st)) in
      let current_node := e_node e in
      let d :=
        match pget (ThetaStarRun.open_set_dict st) current_node with
        | Some _ => pdel (ThetaStarRun.open_set_dict st) current_node
        | None => ThetaStarRun.open_set_dict st
        end in
      g1 <- lazy_evaluation fuel (ThetaStarRun.grid st) current_node ;;
      if pos_eqb current_node goal_node then
        p <- ThetaStarRun._reconstruct_theta_path fuel g1 current_node ;;
        Done (set_data "algorithm_type" (DStr "lazy") (_create_result m1 p true None), g1)
      else
        let closed' := set_add current_node (ThetaStarRun.closed_set st) in
        let m2 := _expand_node m1 in
        match fuel with
        | O => OutOfFuel
        | S fuel' =>
            loop fuel' id heuristic_type goal_node
                 (fold_left (examine_neighbor id heuristic_type goal_node current_node)
                            (get_neighbors g1 current_node)
                            (ThetaStarRun.mkState g1 open' d closed' m2))
        end
  end.

(** [LazyThetaStar.find_path]. *)
Definition find_path (fuel : nat) (id : pos -> Z) (heuristic_type : string)
           (g : Grid) (start goal : pos) : outcome (PathfindingResult * Grid) :=
  match LazyThetaStar_open g start goal with
  | Returns r g => Done (r, g)
  | Searches g =>
      match node_at g start with
      | Some start_node =>
          let s := set_g_cost 0%float start_node in
          let s := set_h_cost (get_heuristic start goal heuristic_type) s in
          let s := set_f_cost (PrimFloat.add (g_cost s) (h_cost s)) s in
          let s := set_parent_coordinates (fst (float_pair start)) (snd (float_pair start)) s in
          let g := update_node g start (fun _ => s) in
          loop fuel id heuristic_type goal
               (ThetaStarRun.mkState g (heappush [] (mkEntry (f_cost s) (id start) start))
                                     (pset [] start (f_cost s)) [] _start_timing)
      | None => Raised "AttributeError"
      end
  end.

End LazyThetaStarRun.

(* ================================================================== *)
(** * algorithms/classical/astar.py: [BidirectionalAStar] *)
(* ================================================================== *)

Module BidirectionalAStar.

(** The locals of [find_path].  An element of the two heaps is a tuple
    [(f_cost, direction, id(node), node)] whose second component is the same
    string in every element of one heap, so the tuples of a heap compare as
    the entries [(f_cost, id(node), node)] do. *)
Record state : Type := mkState {
  grid : Grid;
  forward_open : list entry;
  forward_closed : list pos;
  backward_open : list entry;
  backward_closed : list pos;
  forward_nodes : list pos;
  backward_nodes : list pos;
  metrics : Metrics
}.

Definition with_metrics (st : state) (m : Metrics) : state :=
  mkState (grid st) (forward_open st) (forward_closed st) (backward_open st)
          (backward_closed st) (forward_nodes st) (backward_nodes st) m.

(** The body of the neighbour loop of a forward step. *)
Definition examine_forward (id : pos -> Z) (heuristic_type : string)
           (goal_node current : pos) (st : state) (neighbor : pos) : state :=
  let m := _visit_node (metrics st) in
  if set_mem neighbor (forward_closed st) then with_metrics st m
  else
    match node_at (grid st) current, node_at (grid st) neighbor with
    | Some c, Some n =>
        let tentative_g :=
          PrimFloat.add (g_cost c) (get_movement_cost (grid st) current neighbor) in
        if negb (set_mem neighbor (forward_nodes st)) || Py.lt tentative_g (g_cost n) then
          let n1 := set_g_cost tentative_g (set_parent (Some current) n) in
          let n2 := set_h_cost (get_heuristic neighbor goal_node heuristic_type) n1 in
          let n3 := set_f_cost (PrimFloat.add (g_cost n2) (h_cost n2)) n2 in
          mkState (update_node (grid st) neighbor (fun _ => n3))
                  (heappush (forward_open st) (mkEntry (f_cost n3) (id neighbor) neighbor))
                  (forward_closed st) (backward_open st) (backward_closed st)
                  (set_add neighbor (forward_nodes st)) (backward_nodes st) m
        else with_metrics st m
    | _, _ => with_metrics st m
    end.

(** The body of the neighbour loop of a backward step: no parent is
    written, and the heuristic is taken to the start. *)
Definition examine_backward (id : pos -> Z) (heuristic_type : string)
           (start_node current : pos) (st : state) (neighbor : pos) : state :=
  let m := _visit_node (metrics st) in
  if set_mem neighbor (backward_closed st) then with_metrics st m
  else
    match node_at (grid st) current, node_at (grid st) neighbor with
    | Some c, Some n =>
        let tentative_g :=
          PrimFloat.add (g_cost c) (get_movement_cost (grid st) current neighbor) in
        if negb (set_mem neighbor (backward_nodes st)) || Py.lt tentative_g (g_cost n) then
          let n1 := set_g_cost tentative_g n in
          let n2 := set_h_cost (get_heuristic neighbor start_node heuristic_type) n1 in
          let n3 := set_f_cost (PrimFloat.add (g_cost n2) (h_cost n2)) n2 in
          mkState (update_node (grid st) neighbor (fun _ => n3))
                  (forward_open st) (forward_closed st)
                  (heappush (backward_open st) (mkEntry (f_cost n3) (id neighbor) neighbor))
                  (backward_closed st)
                  (forward_nodes st) (set_add neighbor (backward_nodes st)) m
        else with_metrics st m
    | _, _ => with_metrics st m
    end.

Definition nonempty {A} (l : list A) : bool :=
  match l with [] => false | _ :: _ => true end.

(** The lines after the loop when it was left at a meeting point. *)
Definition meet (fuel : nat) (st : state) (m : Metrics) (meeting_point : pos)
  : outcome (PathfindingResult * Grid) :=
  p <- get_path fuel (grid st) meeting_point ;;
  Done (_create_result m p true None, grid st).

(** One turn of the loop [while forward_open or backward_open]. *)
Definition step (fuel : nat) (id : pos -> Z) (heuristic_type : string)
           (start_node goal_node : pos) (st : state) : step_result state :=
  if negb (nonempty (forward_open st) || nonempty (backward_open st)) then
    Return (Done (_create_result (metrics st) [] false (Some "No path exists"), grid st))
  else
    let m1 :=
      _update_memory_usage
        (len (forward_open st) + len (backward_open st)
         + len (forward_closed st) + len (backward_closed st))
        (_increment_iteration (metrics st)) in
    if nonempty (forward_open st)
       && (negb (nonempty (backward_open st))
           || (len (forward_open st) <=? len (backward_open st)))
    then
      match heappop (forward_open st) with
      | Some (e, open') =>
          let current := e_node e in
          let closed' := set_add current (forward_closed st) in
          let m2 := _expand_node m1 in
          if set_mem current (backward_nodes st) then Return (meet fuel st m2 current)
          else
            Continue
              (fold_left (examine_forward id heuristic_type goal_node current)
                         (get_neighbors (grid st) current)
                         (mkState (grid st) open' closed' (backward_open st)
                                  (backward_closed st) (forward_nodes st)
                                  (backward_nodes st) m2))
      | None => Return (Raised "IndexError")
      end
    else if nonempty (backward_open st) then
      match heappop (backward_open st) with
      | Some (e, open') =>
          let current := e_node e in
          let closed' := set_add current (backward_closed st) in
          let m2 := _expand_node m1 in
          if set_mem current (forward_nodes st) then Return (meet fuel st m2 current)
          else
            Continue
              (fold_left (examine_backward id heuristic_type start_node current)
                         (get_neighbors (grid st) current)
                         (mkState (grid st) (forward_open st) (forward_closed st) open'
                                  closed' (forward_nodes st) (backward_nodes st) m2))
      | None => Return (Raised "IndexError")
      end
    else Continue (with_metrics st m1).

(** The loop; [fuel] bounds its turns. *)
Fixpoint loop (fuel : nat) (id : pos -> Z) (heuristic_type : string)
         (start_node goal_node : pos) (st : state) : outcome (PathfindingResult * Grid) :=
  match step fuel id heuristic_type start_node goal_node st with
  | Return o => o
  | Continue st' =>
      match fuel with
      | O => OutOfFuel
      | S fuel' => loop fuel' id heuristic_type start_node goal_node st'
      end
  end.

(** The state in which the loop is entered, on the reset grid [g]. *)
Definition initial_state (id : pos -> Z) (heuristic_type : string) (g : Grid)
           (start goal : pos) (start_node : GridNode) : outcome state :=
  let s1 := set_g_cost 0%float start_node in
  let s2 := set_h_cost (get_heuristic start goal heuristic_type) s1 in
  let s3 := set_f_cost (PrimFloat.add (g_cost s2) (h_cost s2)) s2 in
  let g := update_node g start (fun _ => s3) in
  match node_at g goal with
  | Some goal_node =>
      let t1 := set_g_cost 0%float goal_node in
      let t2 := set_h_cost (get_heuristic goal start heuristic_type) t1 in
      let t3 := set_f_cost (PrimFloat.add (g_cost t2) (h_cost t2)) t2 in
      let g := update_node g goal (fun _ => t3) in
      Done (mkState g (heappush [] (mkEntry (f_cost s3) (id start) start)) []
                    (heappush [] (mkEntry (f_cost t3) (id goal) goal)) []
                    [start] [goal] _start_timing)
  | None => Raised "AttributeError"
  end.

(** [BidirectionalAStar.find_path]. *)
Definition find_path (fuel : nat) (id : pos -> Z) (heuristic_type : string)
           (g : Grid) (start goal : pos) : outcome (PathfindingResult * Grid) :=
  match open_search None g start goal with
  | Returns r g => Done (r, g)
  | Searches g =>
      match node_at g start with
      | Some start_node =>
          st <- initial_state id heuristic_type g start goal start_node ;;
          loop fuel id heuristic_type start goal st
      | None => Raised "AttributeError"
      end
  end.

End BidirectionalAStar.

(* ================================================================== *)
(** * algorithms/optimized/ida_star.py: [RecursiveBestFirstSearch] *)
(* ================================================================== *)

Module RecursiveBestFirstSearch.

Record state : Type := mkState {
  grid : Grid;
  metrics : Metrics
}.

(** [n.f_cost] for the node at [p]. *)
Definition f_cost_at (g : Grid) (p : pos) : float :=
  match node_at g p with
  | Some n => f_cost n
  | None => Py.inf
  end.

(** [successors.sort(key=lambda n: n.f_cost)]: a stable sort that compares
    keys with [<].  Each element is put behind those already placed whose key
    is not above its own; when no key is a NaN this is the order
    [list.sort] produces. *)
Fixpoint insert_by_f (g : Grid) (x : pos) (l : list pos) : list pos :=
  match l with
  | [] => [x]
  | y :: l' =>
      if Py.lt (f_cost_at g x) (f_cost_at g y) then x :: l
      else y :: insert_by_f g x l'
  end.

Definition sort_by_f (g : Grid) (l : list pos) : list pos :=
  fold_left (fun acc x => insert_by_f g x acc) l [].

(** The body of [for neighbor in grid.get_neighbors(node)] of [_rbfs]. *)
Definition generate (heuristic_type : string) (goal_node node : pos)
           (acc : state * list pos) (neighbor : pos) : state * list pos :=
  let st := mkState (grid (fst acc)) (_visit_node (metrics (fst acc))) in
  let successors := snd acc in
  match node_at (grid st) node, node_at (grid st) neighbor with
  | Some c, Some n =>
      if match parent n with Some p => pos_eqb p node | None => false end
      then (st, successors)
      else
        let tentative_g :=
          PrimFloat.add (g_cost c) (get_movement_cost (grid st) node neighbor) in
        let st :=
          if Py.lt tentative_g (g_cost n) then
            let n1 := set_g_cost tentative_g (set_parent (Some node) n) in
            let n2 := set_h_cost (get_heuristic neighbor goal_node heuristic_type) n1 in
            let n3 :=
              set_f_cost (Py.max2 (PrimFloat.add (g_cost n2) (h_cost n2)) (f_cost c)) n2 in
            mkState (update_node (grid st) neighbor (fun _ => n3)) (metrics st)
          else st in
        (st, successors ++ [neighbor])
  | _, _ => (st, successors)
  end.

(** The loop [while True] of [_rbfs] over the sorted, non-empty list
    [successors]; [rbfs] is the recursive call [self._rbfs(grid, ...)], and
    [fuel] bounds the turns of the loop. *)
Fixpoint best_loop (rbfs : pos -> float -> state -> outcome (option pos * float * state))
         (fuel : nat) (f_limit : float) (successors : list pos) (st : state)
  : outcome (option pos * float * state) :=
  match fuel with
  | O => OutOfFuel
  | S fuel' =>
      match successors with
      | [] => Raised "IndexError"
      | best :: others =>
          let st := mkState (grid st) (_expand_node (metrics st)) in
          if Py.gt (f_cost_at (grid st) best) f_limit
          then Done (None, f_cost_at (grid st) best, st)
          else
            let alternative :=
              match others with
              | second :: _ => f_cost_at (grid st) second
              | [] => Py.inf
              end in
            '(result, new_f, st) <- rbfs best (Py.min2 f_limit alternative) st ;;
            let st :=
              mkState (update_node (grid st) best (set_f_cost new_f)) (metrics st) in
            match result with
            | Some _ => Done (result, f_cost_at (grid st) best, st)
            | None => best_loop rbfs fuel' f_limit (sort_by_f (grid st) successors) st
            end
      end
  end.

(** [_rbfs].  [depth] is the room the interpreter leaves for nested calls
    of [_rbfs] (the call beyond it raises [RecursionError]), and [fuel]
    bounds the turns of each [while True] loop. *)
Fixpoint _rbfs (depth fuel : nat) (heuristic_type : string) (goal_node : pos)
         (node : pos) (f_limit : float) (st : state)
  : outcome (option pos * float * state) :=
  match depth with
  | O => Raised "RecursionError"
  | S depth' =>
      let st := mkState (grid st) (_increment_iteration (metrics st)) in
      if Py.gt (f_cost_at (grid st) node) f_limit
      then Done (None, f_cost_at (grid st) node, st)
      else if pos_eqb node goal_node then Done (Some node, f_limit, st)
      else
        let '(st, successors) :=
          fold_left (generate heuristic_type goal_node node)
                    (get_neighbors (grid st) node) (st, []) in
        match successors with
        | [] => Done (None, Py.inf, st)
        | _ :: _ =>
            best_loop (_rbfs depth' fuel heuristic_type goal_node) fuel f_limit
                      (sort_by_f (grid st) successors) st
        end
  end.

(** [RecursiveBestFirstSearch.find_path]. *)
Definition find_path (depth fuel : nat) (heuristic_type : string)
           (g : Grid) (start goal : pos) : outcome (PathfindingResult * Grid) :=
  match open_search None g start goal with
  | Returns r g => Done (r, g)
  | Searches g =>
      match node_at g start with
      | Some start_node =>
          let s1 := set_g_cost 0%float start_node in
          let s2 := set_h_cost (get_heuristic start goal heuristic_type) s1 in
          let s3 := set_f_cost (PrimFloat.add (g_cost s2) (h_cost s2)) s2 in
          let g := update_node g start (fun _ => s3) in
          '(result, _, st) <-
            _rbfs depth fuel heuristic_type goal start Py.inf (mkState g _start_timing) ;;
          match result with
          | Some solution =>
              p <- get_path fuel (grid st) solution ;;
              Done (set_data "search_type" (DStr "recursive_best_first")
                      (_create_result (metrics st) p true None),
                    grid st)
          | None =>
              Done (_create_result (metrics st) [] false (Some "No path exists"), grid st)
          end
      | None => Raised "AttributeError"
      end
  end.

End RecursiveBestFirstSearch.

(* ================================================================== *)
(** * algorithms/sampling/rrt.py: [RRTConnect] *)
(* ================================================================== *)

Module RRTConnect.

Record config : Type := mkConfig {
  step_size : float;
  max_iterations : Z
}.

(** The two trees under construction, the object store, the counters, and
    the number of values drawn so far from the random generator. *)
Record state : Type := mkState {
  objects : store;
  start_tree : list ref;
  goal_tree : list ref;
  metrics : Metrics;
  drawn : nat
}.

(** [_sample_random_point]: two calls of [random.uniform]. *)
Definition _sample_random_point (rng : nat -> float) (drawn : nat) (g : Grid)
  : SamplingNode * nat :=
  let x := RRT.uniform 0 (width g - 1) (rng drawn) in
  let y := RRT.uniform 0 (height g - 1) (rng (S drawn)) in
  (new_sampling_node x y, S (S drawn)).

(** [min(tree, key=lambda node: node.distance_to(target))]: the first node
    at the least distance; [min] of an empty list raises. *)
Definition nearest_in (s : store) (tree : list ref) (target : SamplingNode) : outcome ref :=
  match RRT._find_nearest_node s tree target with
  | Some r => Done r
  | None => Raised "ValueError"
  end.

(** [_extend_toward_sample]: the new node is allocated only when the segment
    is collision-free (otherwise the Python object is dropped at once).  The
    value returned holds the store, the tree, the counters and the new
    node. *)
Definition _extend_toward_sample (cfg : config) (g : Grid) (s : store) (tree : list ref)
           (m : Metrics) (sample : SamplingNode)
  : outcome (store * list ref * Metrics * option ref) :=
  nearest <- nearest_in s tree sample ;;
  let nr := deref s nearest in
  let dx := PrimFloat.sub (s_x sample) (s_x nr) in
  let dy := PrimFloat.sub (s_y sample) (s_y nr) in
  let distance := Py.sqrt (PrimFloat.add (PrimFloat.mul dx dx) (PrimFloat.mul dy dy)) in
  if Py.eq distance 0%float then Done (s, tree, m, None)
  else
    let step_x := PrimFloat.mul (PrimFloat.div dx distance) (step_size cfg) in
    let step_y := PrimFloat.mul (PrimFloat.div dy distance) (step_size cfg) in
    let new_node :=
      new_sampling_node (PrimFloat.add (s_x nr) step_x) (PrimFloat.add (s_y nr) step_y) in
    free <- RRT._is_collision_free g nr new_node ;;
    if free then
      let '(s1, r) := alloc s new_node in
      let s2 := assign s1 r (set_s_parent (Some nearest)) in
      Done (add_child s2 nearest r, tree ++ [r], _expand_node m, Some r)
    else Done (s, tree, m, None).

(** [_connect_trees]. *)
Definition _connect_trees (g : Grid) (s : store) (target_tree : list ref)
           (source_node : ref) : outcome (option ref) :=
  nearest <- nearest_in s target_tree (deref s source_node) ;;
  free <- RRT._is_collision_free g (deref s source_node) (deref s nearest) ;;
  if free then Done (Some nearest) else Done None.

(** One loop of [_construct_bidirectional_path]: the positions from
    [current] up to the root of its tree, in that order. *)
Fixpoint to_root (fuel : nat) (s : store) (current : option ref) : outcome (list waypoint) :=
  match current with
  | None => Done []
  | Some r =>
      match fuel with
      | O => OutOfFuel
      | S fuel' =>
          let n := deref s r in
          rest <- to_root fuel' s (s_parent n) ;;
          Done (float_waypoint (s_x n, s_y n) :: rest)
      end
  end.

(** [_construct_bidirectional_path]. *)
Definition _construct_bidirectional_path (fuel : nat) (s : store)
           (start_connection goal_connection : ref) : outcome (list waypoint) :=
  start_path <- to_root fuel s (Some start_connection) ;;
  goal_path <- to_root fuel s (Some goal_connection) ;;
  Done (rev start_path ++ goal_path).

(** The result of a connection. *)
Definition connected_result (m : Metrics) (p : list waypoint)
           (start_tree goal_tree : list ref) : PathfindingResult :=
  let result := _create_result m p true None in
  let result := set_data "bidirectional" (DBool true) result in
  let result := set_data "start_tree_size" (DInt (len start_tree)) result in
  set_data "goal_tree_size" (DInt (len goal_tree)) result.

(** The loop [for iteration in range(self.max_iterations)]; [todo] holds the
    values of [iteration] still to come, and [fuel] bounds the walks to the
    roots. *)
Fixpoint iterate (fuel : nat) (cfg : config) (rng : nat -> float) (g : Grid)
         (todo : list Z) (st : state) : outcome (PathfindingResult * state) :=
  match todo with
  | [] =>
      Done (_create_result (metrics st) [] false
              (Some ("No connection found within " ++ Py.repr_int (max_iterations cfg)
                     ++ " iterations")%string), st)
  | iteration :: todo' =>
      let m := _update_memory_usage (len (start_tree st) + len (goal_tree st))
                 (_increment_iteration (metrics st)) in
      let '(sample, drawn') := _sample_random_point rng (drawn st) g in
      if iteration mod 2 =? 0 then
        '(s1, tree1, m1, new_node_opt) <-
          _extend_toward_sample cfg g (objects st) (start_tree st) m sample ;;
        let st1 := mkState s1 tree1 (goal_tree st) m1 drawn' in
        match new_node_opt with
        | Some new_node =>
            connection <- _connect_trees g s1 (goal_tree st) new_node ;;
            match connection with
            | Some c =>
                p <- _construct_bidirectional_path fuel s1 new_node c ;;
                Done (connected_result m1 p tree1 (goal_tree st), st1)
            | None => iterate fuel cfg rng g todo' st1
            end
        | None => iterate fuel cfg rng g todo' st1
        end
      else
        '(s1, tree1, m1, new_node_opt) <-
          _extend_toward_sample cfg g (objects st) (goal_tree st) m sample ;;
        let st1 := mkState s1 (start_tree st) tree1 m1 drawn' in
        match new_node_opt with
        | Some new_node =>
            connection <- _connect_trees g s1 (start_tree st) new_node ;;
            match connection with
            | Some c =>
                p <- _construct_bidirectional_path fuel s1 c new_node ;;
                Done (connected_result m1 p (start_tree st) tree1, st1)
            | None => iterate fuel cfg rng g todo' st1
            end
        | None => iterate fuel cfg rng g todo' st1
        end
  end.

(** [RRTConnect.find_path].  [rng n] is the value of the [n]-th call of
    [random.random()] made during the call. *)
Definition find_path (fuel : nat) (cfg : config) (rng : nat -> float) (g : Grid)
           (start goal : pos) : outcome (PathfindingResult * Grid) :=
  match sampling_open g start goal with
  | Returns r g => Done (r, g)
  | Searches g =>
      let '(s, start_root) :=
        alloc [] (new_sampling_node (Py.float_of_int (fst start))
                                    (Py.float_of_int (snd start))) in
      let '(s, goal_root) :=
        alloc s (new_sampling_node (Py.float_of_int (fst goal))
                                   (Py.float_of_int (snd goal))) in
      '(r, _) <- iterate fuel cfg rng g (Py.range (max_iterations cfg))
                         (mkState s [start_root] [goal_root] _start_timing O) ;;
      Done (r, g)
  end.

End RRTConnect.

(* ================================================================== *)
(** * The calls that hand out a result *)
(* ================================================================== *)

(** A call of [find_path] on one of the engines built on
    [PathfindingAlgorithm], with the arguments of the constructor that the
    call reads, or of [replan_after_changes], the other method that hands
    out a result.  [fuel] and [depth] are the bounds of the model, [id] gives
    the identities of the node objects, [rng] the values drawn from the
    random generator, [square x] the value of [x ** 2], and [order] the
    order in which a set is iterated.  A call on an [IncrementalPhiStar]
    comes with the attributes the engine holds and with the [rhs] and
    [cost_changed] of the nodes of the grid. *)
Inductive call : Type :=
| call_AStar (fuel : nat) (id : pos -> Z) (heuristic_type : string) (weight : float)
             (g : Grid) (start goal : pos)
| call_WeightedAStar (fuel : nat) (id : pos -> Z) (heuristic_type : string)
                     (weight : float) (g : Grid) (start goal : pos)
| call_BidirectionalAStar (fuel : nat) (id : pos -> Z) (heuristic_type : string)
                          (g : Grid) (start goal : pos)
| call_Dijkstra (fuel : nat) (id : pos -> Z) (g : Grid) (start goal : pos)
| call_UniformCostSearch (fuel : nat) (id : pos -> Z) (g : Grid) (start goal : pos)
| call_DijkstraAllPaths (fuel : nat) (id : pos -> Z) (g : Grid) (start goal : pos)
| call_IDAStar (depth : nat) (heuristic_type : string) (max_iterations : Z)
               (g : Grid) (start goal : pos)
| call_MemoryBoundedAStar (depth : nat) (heuristic_type : string) (memory_limit : Z)
                          (g : Grid) (start goal : pos)
| call_RecursiveBestFirstSearch (depth fuel : nat) (heuristic_type : string)
                                (g : Grid) (start goal : pos)
| call_ThetaStar (fuel : nat) (square : float -> float) (id : pos -> Z)
                 (heuristic_type : string) (g : Grid) (start goal : pos)
| call_BasicThetaStar (fuel : nat) (square : float -> float) (id : pos -> Z)
                      (g : Grid) (start goal : pos)
| call_LazyThetaStar (fuel : nat) (id : pos -> Z) (heuristic_type : string)
                     (g : Grid) (start goal : pos)
| call_JumpPointSearch (fuel : nat) (id : pos -> Z) (heuristic_type : string)
                       (g : Grid) (start goal : pos)
| call_JumpPointSearchPlus (fuel : nat) (id : pos -> Z) (heuristic_type : string)
                           (jump_distances : option JumpPointSearchPlus.table)
                           (g : Grid) (start goal : pos)
| call_RRT (fuel : nat) (cfg : RRT.config) (rng : nat -> float)
           (g : Grid) (start goal : pos)
| call_RRTConnect (fuel : nat) (cfg : RRTConnect.config) (rng : nat -> float)
                  (g : Grid) (start goal : pos)
| call_IncrementalPhiStar (fuel : nat) (id : pos -> Z) (heuristic_type : string)
                          (order : list pos -> list pos)
                          (a : IncrementalPhiStarRun.attributes)
                          (g : Grid) (rhs_of : pos -> float) (cost_changed : pos -> bool)
                          (start goal : pos)
| call_replan_after_changes (fuel : nat) (id : pos -> Z) (heuristic_type : string)
                            (order : list pos -> list pos)
                            (a : IncrementalPhiStarRun.attributes) (m : Metrics)
                            (g : Grid) (rhs_of : pos -> float)
                            (cost_changed : pos -> bool) (start : pos).

(** What the call gives: [RRT.find_path] is also that of [RRTStar], whose
    configuration carries a rewiring radius. *)
Definition run_call (c : call) : outcome (PathfindingResult * Grid) :=
  match c with
  | call_AStar fuel id ht w g start goal => AStar.find_path fuel id ht w g start goal
  | call_WeightedAStar fuel id ht w g start goal =>
      WeightedAStar.find_path fuel id ht w g start goal
  | call_BidirectionalAStar fuel id ht g start goal =>
      BidirectionalAStar.find_path fuel id ht g start goal
  | call_Dijkstra fuel id g start goal => Dijkstra.find_path fuel id g start goal
  | call_UniformCostSearch fuel id g start goal =>
      UniformCostSearch.find_path fuel id g start goal
  | call_DijkstraAllPaths fuel id g start goal =>
      DijkstraAllPaths.find_path fuel id g start goal
  | call_IDAStar depth ht mi g start goal => IDAStar.find_path depth ht mi g start goal
  | call_MemoryBoundedAStar depth ht ml g start goal =>
      MemoryBoundedAStar.find_path depth ht ml g start goal
  | call_RecursiveBestFirstSearch depth fuel ht g start goal =>
      RecursiveBestFirstSearch.find_path depth fuel ht g start goal
  | call_ThetaStar fuel square id ht g start goal =>
      ThetaStarRun.find_path fuel square id ht g start goal
  | call_BasicThetaStar fuel square id g start goal =>
      BasicThetaStar.find_path fuel square id g start goal
  | call_LazyThetaStar fuel id ht g start goal =>
      LazyThetaStarRun.find_path fuel id ht g start goal
  | call_JumpPointSearch fuel id ht g start goal =>
      JumpPointSearch.find_path fuel id ht g start goal
  | call_JumpPointSearchPlus fuel id ht t g start goal =>
      JumpPointSearchPlus.find_path fuel id ht t g start goal
  | call_RRT fuel cfg rng g start goal => RRT.find_path fuel cfg rng g start goal
  | call_RRTConnect fuel cfg rng g start goal =>
      RRTConnect.find_path fuel cfg rng g start goal
  | call_IncrementalPhiStar fuel id ht order a g rhs_of cost_changed start goal =>
      IncrementalPhiStarRun.find_path_on fuel id ht order a g rhs_of cost_changed
                                         start goal
  | call_replan_after_changes fuel id ht order a m g rhs_of cost_changed start =>
      IncrementalPhiStarRun.replan_after_changes fuel id ht order a m g rhs_of
                                                 cost_changed start
  end.

(* ================================================================== *)
(** * Properties *)
(* ================================================================== *)

Lemma pos_eqb_eq (a b : pos) : pos_eqb a b = true <-> a = b.
Proof.
  destruct a as [ax ay], b as [bx by_]; unfold pos_eqb; simpl.
  rewrite andb_true_iff, !Z.eqb_eq. split.
  - intros [-> ->]; reflexivity.
  - intros H; inversion H; auto.
Qed.

Lemma pos_eqb_refl (a : pos) : pos_eqb a a = true.
Proof. apply pos_eqb_eq; reflexivity. Qed.

Lemma pos_eqb_neq (a b : pos) : pos_eqb a b = false <-> a <> b.
Proof.
  rewrite <- pos_eqb_eq. destruct (pos_eqb a b); split; congruence.
Qed.


(* ------------------------------------------------------------------ *)
(** ** The line-of-sight walk *)
(* ------------------------------------------------------------------ *)

Section Bresenham.

Variables (ix2 iy2 dx dy x_step y_step : Z).
Hypothesis Hdx : 0 <= dx.
Hypothesis Hdy : 0 <= dy.
Hypothesis Hxs : x_step = 1 \/ x_step = -1.
Hypothesis Hys : y_step = 1 \/ y_step = -1.

(** The loop state when [a] steps remain along x and [b] along y. *)
Definition los_state (a b : Z) : Z * Z * Z :=
  (ix2 - x_step * a, iy2 - y_step * b, dx - dy + a * dy - b * dx).

Lemma los_state_at_end (a b : Z) :
  0 <= a -> 0 <= b ->
  ((ix2 - x_step * a =? ix2) && (iy2 - y_step * b =? iy2)) = (a =? 0) && (b =? 0).
Proof.
  intros Ha Hb. f_equal.
  - destruct (Z.eqb_spec a 0) as [-> | Hn].
    + rewrite Z.mul_0_r, Z.sub_0_r. apply Z.eqb_refl.
    + apply Z.eqb_neq. destruct Hxs as [-> | ->]; lia.
  - destruct (Z.eqb_spec b 0) as [-> | Hn].
    + rewrite Z.mul_0_r, Z.sub_0_r. apply Z.eqb_refl.
    + apply Z.eqb_neq. destruct Hys as [-> | ->]; lia.
Qed.

(** A turn of the loop moves to a state with fewer remaining steps and never
    oversteps the target on either axis. *)
Lemma los_step_state (a b : Z) :
  0 <= a <= dx -> 0 <= b <= dy -> 0 < a + b ->
  exists a' b',
    los_step dx dy x_step y_step (ix2 - x_step * a) (iy2 - y_step * b)
             (dx - dy + a * dy - b * dx) = los_state a' b'
    /\ 0 <= a' <= dx /\ 0 <= b' <= dy /\ a' + b' < a + b.
Proof.
  intros Ha Hb Hab. unfold los_step, los_state.
  destruct (Z.gtb_spec (2 * (dx - dy + a * dy - b * dx)) (- dy)) as [Hx | Hx];
    destruct (Z.ltb_spec (2 * (dx - dy + a * dy - b * dx)) dx) as [Hy | Hy].
  - assert (1 <= a) by nia. assert (1 <= b) by nia.
    exists (a - 1), (b - 1). split; [ f_equal; [ f_equal |]; ring | lia ].
  - assert (1 <= a) by nia.
    exists (a - 1), b. split; [ f_equal; [ f_equal |]; ring | lia ].
  - assert (1 <= b) by nia.
    exists a, (b - 1). split; [ f_equal; [ f_equal |]; ring | lia ].
  - exfalso. nia.
Qed.

Lemma walk_loop_last (fuel : nat) : forall a b,
  0 <= a <= dx -> 0 <= b <= dy -> a + b <= Z.of_nat fuel ->
  last (walk_loop fuel ix2 iy2 dx dy x_step y_step
                  (ix2 - x_step * a) (iy2 - y_step * b) (dx - dy + a * dy - b * dx))
       (0, 0) = (ix2, iy2).
Proof.
  induction fuel as [| fuel IH]; intros a b Ha Hb Hf.
  - assert (a = 0) by lia. assert (b = 0) by lia. subst. simpl.
    rewrite !Z.mul_0_r, !Z.sub_0_r, !Z.eqb_refl. reflexivity.
  - cbn [walk_loop]. rewrite los_state_at_end by lia.
    destruct (Z.eqb_spec a 0) as [-> | Ha0]; [ destruct (Z.eqb_spec b 0) as [-> | Hb0] |].
    + simpl. rewrite !Z.mul_0_r, !Z.sub_0_r. reflexivity.
    + cbn [andb].
      destruct (los_step_state 0 b) as (a' & b' & -> & Ha' & Hb' & Hlt); try lia.
      unfold los_state. specialize (IH a' b' Ha' Hb' ltac:(lia)).
      remember (walk_loop fuel _ _ _ _ _ _ _ _ _) as l eqn:El.
      destruct l; [ destruct fuel; discriminate | exact IH ].
    + cbn [andb].
      destruct (los_step_state a b) as (a' & b' & -> & Ha' & Hb' & Hlt); try lia.
      unfold los_state. specialize (IH a' b' Ha' Hb' ltac:(lia)).
      remember (walk_loop fuel _ _ _ _ _ _ _ _ _) as l eqn:El.
      destruct l; [ destruct fuel; discriminate | exact IH ].
Qed.

(** The early-exit loop answers what a check of every cell of the walk
    would answer, provided the walk gets to the target. *)
Lemma los_loop_walk (g : Grid) (fuel : nat) : forall x y e,
  last (walk_loop fuel ix2 iy2 dx dy x_step y_step x y e) (0, 0) = (ix2, iy2) ->
  los_loop fuel g ix2 iy2 dx dy x_step y_step x y e =
  Done (forallb (fun c => is_walkable g (fst c) (snd c))
                (walk_loop fuel ix2 iy2 dx dy x_step y_step x y e)).
Proof.
  induction fuel as [| fuel IH]; intros x y e Hlast.
  - simpl in *. destruct (is_walkable g x y); simpl; [| reflexivity ].
    destruct ((x =? ix2) && (y =? iy2)) eqn:E; [ reflexivity |].
    inversion Hlast; subst. rewrite !Z.eqb_refl in E. discriminate.
  - cbn [los_loop walk_loop forallb fst snd] in *.
    destruct (is_walkable g x y); cbn [negb andb]; [| reflexivity ].
    destruct ((x =? ix2) && (y =? iy2)) eqn:E; [ reflexivity |].
    destruct (los_step dx dy x_step y_step x y e) as [[x' y'] e'].
    apply IH.
    remember (walk_loop fuel _ _ _ _ _ _ x' y' e') as l eqn:El.
    destruct l; [ destruct fuel; discriminate | exact Hlast ].
Qed.

End Bresenham.

Lemma walk_last (ix1 iy1 ix2 iy2 : Z) :
  last (walk ix1 iy1 ix2 iy2) (0, 0) = (ix2, iy2).
Proof.
  unfold walk.
  set (dx := Z.abs (ix2 - ix1)). set (dy := Z.abs (iy2 - iy1)).
  set (xs := if ix1 <? ix2 then 1 else -1). set (ys := if iy1 <? iy2 then 1 else -1).
  assert (Hx : ix1 = ix2 - xs * dx).
  { subst xs dx. destruct (Z.ltb_spec ix1 ix2); lia. }
  assert (Hy : iy1 = iy2 - ys * dy).
  { subst ys dy. destruct (Z.ltb_spec iy1 iy2); lia. }
  assert (He : dx - dy = dx - dy + dx * dy - dy * dx) by ring.
  rewrite Hx at 1. rewrite Hy at 1. rewrite He.
  apply walk_loop_last; subst dx dy xs ys; try lia.
  - destruct (ix1 <? ix2); auto.
  - destruct (iy1 <? iy2); auto.
Qed.

Lemma walk_head (ix1 iy1 ix2 iy2 : Z) :
  exists rest, walk ix1 iy1 ix2 iy2 = (ix1, iy1) :: rest.
Proof. unfold walk. destruct (Z.to_nat _); simpl; eauto. Qed.

Lemma los_loop_mono (g : Grid) (ix2 iy2 dx dy xs ys : Z) (fuel : nat) :
  forall fuel' x y e b,
    los_loop fuel g ix2 iy2 dx dy xs ys x y e = Done b ->
    (fuel <= fuel')%nat ->
    los_loop fuel' g ix2 iy2 dx dy xs ys x y e = Done b.
Proof.
  induction fuel as [| fuel IH]; intros fuel' x y e b H Hle.
  - destruct fuel'; [ exact H |]. cbn [los_loop] in *.
    destruct (negb (is_walkable g x y)); [ exact H |].
    destruct ((x =? ix2) && (y =? iy2)); [ exact H | discriminate ].
  - destruct fuel' as [| fuel']; [ lia |]. cbn [los_loop] in *.
    destruct (negb (is_walkable g x y)); [ exact H |].
    destruct ((x =? ix2) && (y =? iy2)); [ exact H |].
    destruct (los_step dx dy xs ys x y e) as [[x' y'] e'].
    apply IH; [ exact H | lia ].
Qed.

(** The line-of-sight query on cells: with a bound of [|dx| + |dy|] turns of
    the loop (or any larger one) it returns, and it returns [true] exactly
    when every cell of the walk is walkable. *)
Lemma line_of_sight_cells_spec (g : Grid) (ix1 iy1 ix2 iy2 : Z) (fuel : nat) :
  (Z.to_nat (Z.abs (ix2 - ix1) + Z.abs (iy2 - iy1)) <= fuel)%nat ->
  line_of_sight_cells fuel g ix1 iy1 ix2 iy2 =
  Done (forallb (fun c => is_walkable g (fst c) (snd c)) (walk ix1 iy1 ix2 iy2)).
Proof.
  intros Hfuel. unfold line_of_sight_cells.
  eapply los_loop_mono; [| exact Hfuel ].
  apply los_loop_walk. apply (walk_last ix1 iy1 ix2 iy2).
Qed.

Lemma forallb_false_iff {A} (f : A -> bool) (l : list A) :
  forallb f l = false <-> exists c, In c l /\ f c = false.
Proof.
  induction l as [| a l IH]; simpl.
  - split; [ discriminate | intros (c & [] & _) ].
  - rewrite andb_false_iff, IH. split.
    + intros [Ha | (c & Hc & Hf)]; [ exists a; auto | exists c; auto ].
    + intros (c & [-> | Hc] & Hf); [ left; exact Hf | right; exists c; auto ].
Qed.

(** [AngleGrid.has_line_of_sight] on float arguments that convert to the
    cells [(ix1, iy1)] and [(ix2, iy2)]: it answers [False] exactly when some
    cell of its walk is unwalkable.  The function takes the grid and returns a
    boolean only: the grid is read through [is_walkable], never written. *)
Lemma has_line_of_sight_false_iff (g : Grid) (x1 y1 x2 y2 : float) (ix1 iy1 ix2 iy2 : Z)
      (fuel : nat) :
  cls g = CAngleGrid ->
  Py.int_of_float x1 = Some ix1 -> Py.int_of_float y1 = Some iy1 ->
  Py.int_of_float x2 = Some ix2 -> Py.int_of_float y2 = Some iy2 ->
  (Z.to_nat (Z.abs (ix2 - ix1) + Z.abs (iy2 - iy1)) <= fuel)%nat ->
  exists b, has_line_of_sight fuel g x1 y1 x2 y2 = Done b /\
            (b = false <->
             exists c, In c (walk ix1 iy1 ix2 iy2) /\ is_walkable g (fst c) (snd c) = false).
Proof.
  intros Hc H1 H2 H3 H4 Hfuel. unfold has_line_of_sight, int_of.
  rewrite Hc, H1, H2, H3, H4. cbn [bind].
  rewrite line_of_sight_cells_spec by exact Hfuel.
  eexists; split; [ reflexivity |]. apply forallb_false_iff.
Qed.

(* ------------------------------------------------------------------ *)
(** ** Movement costs *)
(* ------------------------------------------------------------------ *)

(** Two cells touch when they differ and are at most one step apart on each
    axis: each is one of the eight cells around the other. *)
Definition adjacent (a b : pos) : Prop :=
  Z.max (Z.abs (fst b - fst a)) (Z.abs (snd b - snd a)) = 1.

(** The adjacency of a map: the cells one move apart, which is any two cells
    that touch when [diagonal_movement] is set (8-connected), and those that
    share a side when it is not (4-connected).  It is the relation
    [get_neighbors] follows, walkability aside. *)
Definition connected (g : Grid) (a b : pos) : Prop :=
  if diagonal_movement g then adjacent a b
  else Z.abs (fst b - fst a) + Z.abs (snd b - snd a) = 1.

Lemma Grid_get_movement_cost_sym (g : Grid) (a b : pos) :
  Grid_get_movement_cost g a b = Grid_get_movement_cost g b a.
Proof.
  unfold Grid_get_movement_cost.
  replace (Z.abs (fst a - fst b)) with (Z.abs (fst b - fst a)) by lia.
  replace (Z.abs (snd a - snd b)) with (Z.abs (snd b - snd a)) by lia.
  reflexivity.
Qed.

Lemma Grid_get_movement_cost_cases (g : Grid) (a b : pos) :
  (adjacent a b /\ (Grid_get_movement_cost g a b = diagonal_cost g
                    \/ Grid_get_movement_cost g a b = straight_cost g))
  \/ (~ adjacent a b /\ Grid_get_movement_cost g a b = Py.inf).
Proof.
  unfold Grid_get_movement_cost, adjacent.
  destruct (Z.eqb_spec (Z.abs (fst b - fst a)) 1) as [Hx | Hx];
    destruct (Z.eqb_spec (Z.abs (snd b - snd a)) 1) as [Hy | Hy]; cbn [andb orb].
  - left. split; [ lia | auto ].
  - destruct (Z.eqb_spec (Z.abs (snd b - snd a)) 0) as [Hy0 | Hy0]; cbn [andb orb].
    + left. split; [ lia | auto ].
    + rewrite andb_false_r. right. split; [ lia | reflexivity ].
  - destruct (Z.eqb_spec (Z.abs (fst b - fst a)) 0) as [Hx0 | Hx0]; cbn [andb orb].
    + left. split; [ lia | auto ].
    + right. split; [ lia | reflexivity ].
  - rewrite andb_false_r.
    destruct (Z.eqb_spec (Z.abs (fst b - fst a)) 0); cbn [andb orb];
      right; (split; [ lia | reflexivity ]).
Qed.

Lemma dict_get_TERRAIN_COSTS (k : string) :
  In (dict_get TERRAIN_COSTS k 1%float)
     [1%float; 1.5%float; 2%float; 3%float; 4%float; Py.inf].
Proof.
  unfold TERRAIN_COSTS. cbn [dict_get].
  repeat match goal with
         | |- context [String.eqb ?s k] => destruct (String.eqb s k)
         end; simpl; auto 10.
Qed.

Lemma get_terrain_cost_values (g : Grid) (x y : Z) :
  In (get_terrain_cost g x y)
     [1%float; 1.5%float; 2%float; 3%float; 4%float; Py.inf].
Proof.
  unfold get_terrain_cost.
  destruct (is_valid_position g x y); [| simpl; auto 10 ].
  destruct (index (terrain g) y) as [row |]; [| simpl; auto 10 ].
  destruct (index row x) as [t |]; [| simpl; auto 10 ].
  apply dict_get_TERRAIN_COSTS.
Qed.

(* ------------------------------------------------------------------ *)
(** ** Results built by [_create_result] *)
(* ------------------------------------------------------------------ *)

(** [made m p f e r]: [r] is [_create_result(p, f, e)] under the counters
    [m], possibly followed by assignments to [algorithm_data]. *)
Inductive made (m : Metrics) (p : list waypoint) (f : bool) (e : option string)
  : PathfindingResult -> Prop :=
| made_create : made m p f e (_create_result m p f e)
| made_data k v r : made m p f e r -> made m p f e (set_data k v r).

#[local] Hint Constructors made : core.

(** The sum of the Euclidean lengths of the segments between consecutive
    waypoints, accumulated from [0.0] in path order. *)
Definition segment_length (a b : waypoint) : float :=
  let dx := num_sub (fst b) (fst a) in
  let dy := num_sub (snd b) (snd a) in
  Py.pow_half (to_float (num_add (num_mul dx dx) (num_mul dy dy))).

Fixpoint sum_segments_from (total : float) (p : list waypoint) : float :=
  match p with
  | a :: ((b :: _) as rest) => sum_segments_from (PrimFloat.add total (segment_length a b)) rest
  | _ => total
  end.

Definition sum_segments (p : list waypoint) : float := sum_segments_from 0%float p.

Lemma path_length_loop_sum (rest : list waypoint) : forall prev total,
  path_length_loop prev rest total = sum_segments_from total (prev :: rest).
Proof.
  induction rest as [| cur rest IH]; intros [x1 y1] total; [ reflexivity |].
  destruct cur as [x2 y2]. cbn [path_length_loop]. rewrite IH. reflexivity.
Qed.

Lemma calculate_path_length_sum (p : list waypoint) :
  calculate_path_length p = sum_segments p.
Proof.
  destruct p as [| a [| b rest]]; try reflexivity.
  unfold calculate_path_length. apply path_length_loop_sum.
Qed.

Lemma made_fields m p f e r :
  made m p f e r ->
  path r = p /\ found r = f /\ error_message r = e
  /\ path_cost r = 0%float /\ path_length r = sum_segments p
  /\ nodes_expanded r = _nodes_expanded m /\ nodes_visited r = _nodes_visited m
  /\ iterations r = _iterations m.
Proof.
  induction 1 as [| k v r _ IH].
  - cbn. repeat split. destruct p; [ reflexivity | apply calculate_path_length_sum ].
  - exact IH.
Qed.

(** The two shapes of a result: a failure with an empty path and a reason,
    or a success. *)
Definition result_shape (r : PathfindingResult) : Prop :=
  (exists m msg, made m [] false (Some msg) r /\ msg <> ""%string)
  \/ (exists m p, made m p true None r).

Lemma result_shape_data k v r : result_shape r -> result_shape (set_data k v r).
Proof.
  intros [(m & msg & H & Hm) | (m & p & H)]; [ left | right ]; eauto 6.
Qed.

Lemma result_shape_failure m msg :
  msg <> ""%string -> result_shape (_create_result m [] false (Some msg)).
Proof. intros H. left. eauto. Qed.

Lemma result_shape_success m p : result_shape (_create_result m p true None).
Proof. right. eauto. Qed.

#[local] Hint Resolve result_shape_data result_shape_failure result_shape_success : core.

(** What a failed result looks like. *)
Lemma result_shape_failed r :
  result_shape r -> found r = false ->
  path r = [] /\ exists msg, error_message r = Some msg /\ msg <> ""%string.
Proof.
  intros [(m & msg & H & Hm) | (m & p & H)] Hf;
    apply made_fields in H; destruct H as (Hp & Hfound & He & _).
  - split; [ exact Hp | eauto ].
  - congruence.
Qed.


(* ------------------------------------------------------------------ *)
(** ** Validation *)
(* ------------------------------------------------------------------ *)

Lemma validate_inputs_nonempty g start goal msg :
  validate_inputs g start goal = Some msg -> msg <> ""%string.
Proof.
  unfold validate_inputs.
  repeat match goal with
         | |- context [if ?c then _ else _] => destruct c
         end; intros H; inversion H; subst; simpl; discriminate.
Qed.

Lemma truthy_validate g start goal :
  truthy (validate_inputs g start goal) =
  match validate_inputs g start goal with Some _ => true | None => false end.
Proof.
  destruct (validate_inputs g start goal) as [msg |] eqn:E; [| reflexivity ].
  apply validate_inputs_nonempty in E. simpl.
  destruct (String.eqb_spec msg ""); [ contradiction | reflexivity ].
Qed.

Lemma validate_inputs_ok g start goal :
  validate_inputs g start goal = None <->
  is_valid_position g (fst start) (snd start) = true
  /\ is_valid_position g (fst goal) (snd goal) = true
  /\ is_walkable g (fst start) (snd start) = true
  /\ is_walkable g (fst goal) (snd goal) = true.
Proof.
  unfold validate_inputs.
  destruct (is_valid_position g (fst start) (snd start));
    destruct (is_valid_position g (fst goal) (snd goal));
    destruct (is_walkable g (fst start) (snd start));
    destruct (is_walkable g (fst goal) (snd goal)); simpl;
    split; try discriminate; try tauto; intros (? & ? & ? & ?); discriminate.
Qed.

(** An unwalkable end point that is inside the grid is reported with one of
    the two "not walkable" messages. *)
Lemma validate_inputs_unwalkable g start goal :
  is_valid_position g (fst start) (snd start) = true ->
  is_valid_position g (fst goal) (snd goal) = true ->
  is_walkable g (fst start) (snd start) = false
  \/ is_walkable g (fst goal) (snd goal) = false ->
  validate_inputs g start goal =
  Some (if is_walkable g (fst start) (snd start)
        then ("Goal position " ++ Py.repr_pair goal ++ " is not walkable")%string
        else ("Start position " ++ Py.repr_pair start ++ " is not walkable")%string).
Proof.
  intros Hs Hg H. unfold validate_inputs. rewrite Hs, Hg. cbn [negb].
  destruct (is_walkable g (fst start) (snd start)); cbn [negb]; [| reflexivity ].
  destruct H as [H | H]; [ discriminate |]. rewrite H. reflexivity.
Qed.

(* ------------------------------------------------------------------ *)
(** ** Reading and writing nodes of a grid *)
(* ------------------------------------------------------------------ *)

Lemma index_map {A B} (f : A -> B) (l : list A) (i : Z) :
  index (map f l) i = option_map f (index l i).
Proof.
  unfold index. destruct (i <? 0); [ reflexivity |].
  apply nth_error_map.
Qed.

Lemma nth_error_update_same {A} (f : A -> A) (l : list A) : forall i,
  nth_error (update l i f) i = option_map f (nth_error l i).
Proof.
  induction l as [| a l IH]; intros [| i]; simpl; auto.
Qed.

Lemma nth_error_update_other {A} (f : A -> A) (l : list A) : forall i j,
  i <> j -> nth_error (update l i f) j = nth_error l j.
Proof.
  induction l as [| a l IH]; intros [| i] [| j] H; simpl; auto; try congruence.
Qed.

Lemma is_valid_position_with_nodes g ns x y :
  is_valid_position (with_nodes g ns) x y = is_valid_position g x y.
Proof. reflexivity. Qed.

Lemma node_at_reset g p :
  node_at (reset_pathfinding_data g) p = option_map reset (node_at g p).
Proof.
  unfold node_at, get_node, reset_pathfinding_data.
  rewrite is_valid_position_with_nodes.
  destruct (is_valid_position g (fst p) (snd p)); [| reflexivity ].
  cbn [nodes with_nodes]. rewrite index_map.
  destruct (index (nodes g) (snd p)) as [row |]; cbn [option_map]; [| reflexivity ].
  apply index_map.
Qed.

Lemma is_walkable_reset g x y :
  is_walkable (reset_pathfinding_data g) x y = is_walkable g x y.
Proof.
  unfold is_walkable. change (get_node ?g x y) with (node_at g (x, y)).
  rewrite node_at_reset. destruct (node_at g (x, y)); reflexivity.
Qed.

Lemma reset_idempotent n : reset (reset n) = reset n.
Proof. reflexivity. Qed.

Lemma reset_pathfinding_data_idempotent g :
  reset_pathfinding_data (reset_pathfinding_data g) = reset_pathfinding_data g.
Proof.
  unfold reset_pathfinding_data, with_nodes. cbn. f_equal.
  rewrite map_map. apply map_ext. intros row. rewrite map_map. reflexivity.
Qed.

Lemma node_at_update_node_same g p f :
  node_at (update_node g p f) p = option_map f (node_at g p).
Proof.
  unfold node_at, update_node, get_node.
  destruct (is_valid_position g (fst p) (snd p)) eqn:Hv; [| rewrite Hv; reflexivity ].
  rewrite is_valid_position_with_nodes, Hv. cbn [nodes with_nodes].
  unfold is_valid_position in Hv.
  apply andb_true_iff in Hv as [Hv Hy2]. apply andb_true_iff in Hv as [Hv Hy1].
  apply andb_true_iff in Hv as [Hx1 Hx2].
  unfold index.
  destruct (Z.ltb_spec (snd p) 0); [ lia |]. destruct (Z.ltb_spec (fst p) 0); [ lia |].
  rewrite nth_error_update_same.
  destruct (nth_error (nodes g) (Z.to_nat (snd p))) as [row |]; cbn [option_map];
    [| reflexivity ].
  apply nth_error_update_same.
Qed.

Lemma node_at_update_node_other g p q f :
  p <> q -> node_at (update_node g p f) q = node_at g q.
Proof.
  intros Hpq. unfold node_at, update_node, get_node.
  destruct (is_valid_position g (fst p) (snd p)) eqn:Hv; [| reflexivity ].
  rewrite is_valid_position_with_nodes.
  destruct (is_valid_position g (fst q) (snd q)) eqn:Hq; [| reflexivity ].
  cbn [nodes with_nodes].
  unfold is_valid_position in Hv, Hq.
  repeat match goal with
         | H : _ && _ = true |- _ => apply andb_true_iff in H; destruct H
         | H : (_ <=? _) = true |- _ => apply Z.leb_le in H
         | H : (_ <? _) = true |- _ => apply Z.ltb_lt in H
         end.
  unfold index.
  destruct (Z.ltb_spec (snd q) 0); [ lia |]. destruct (Z.ltb_spec (fst q) 0); [ lia |].
  destruct (Z.eq_dec (snd p) (snd q)) as [Ey | Ny].
  - rewrite Ey, nth_error_update_same.
    destruct (nth_error (nodes g) (Z.to_nat (snd q))) as [row |]; cbn [option_map];
      [| reflexivity ].
    apply nth_error_update_other.
    intros E. apply Hpq. destruct p, q; simpl in *. f_equal; lia.
  - rewrite nth_error_update_other; [ reflexivity | lia ].
Qed.

Lemma is_valid_position_update_node g p f x y :
  is_valid_position (update_node g p f) x y = is_valid_position g x y.
Proof.
  unfold update_node. destruct (is_valid_position g (fst p) (snd p)); reflexivity.
Qed.

Lemma node_at_valid g p n :
  node_at g p = Some n -> is_valid_position g (fst p) (snd p) = true.
Proof.
  unfold node_at, get_node. destruct (is_valid_position g (fst p) (snd p)); congruence.
Qed.

Lemma is_walkable_node g x y :
  is_walkable g x y = true -> exists n, node_at g (x, y) = Some n.
Proof.
  unfold is_walkable, node_at. cbn [fst snd].
  destruct (get_node g x y) as [n |]; [ eauto | discriminate ].
Qed.

(* ------------------------------------------------------------------ *)
(** ** The opening lines of [find_path] *)
(* ------------------------------------------------------------------ *)

Lemma valid_nodes_after_reset g start goal :
  validate_inputs g start goal = None ->
  exists ns ng,
    node_at (reset_pathfinding_data g) start = Some ns
    /\ node_at (reset_pathfinding_data g) goal = Some ng.
Proof.
  intros H. apply validate_inputs_ok in H as (_ & _ & Hs & Hg).
  apply is_walkable_node in Hs as [ns Hs]. apply is_walkable_node in Hg as [ng Hg].
  rewrite <- surjective_pairing in Hs, Hg.
  exists (reset ns), (reset ng). rewrite !node_at_reset, Hs, Hg. auto.
Qed.

Lemma open_search_eq gate g start goal :
  open_search gate g start goal =
  match validate_inputs g start goal with
  | Some msg => Returns (_create_result _start_timing [] false (Some msg)) g
  | None =>
      match gate with
      | Some msg => Returns (_create_result _start_timing [] false (Some msg)) g
      | None =>
          if pos_eqb start goal
          then Returns (_create_result _start_timing [int_waypoint start] true None)
                       (reset_pathfinding_data g)
          else Searches (reset_pathfinding_data g)
      end
  end.
Proof.
  unfold open_search. rewrite truthy_validate.
  destruct (validate_inputs g start goal) as [msg |] eqn:E; [ reflexivity |].
  destruct gate; [ reflexivity |].
  destruct (valid_nodes_after_reset _ _ _ E) as (ns & ng & -> & ->). reflexivity.
Qed.

Lemma sampling_open_eq g start goal :
  sampling_open g start goal =
  match validate_inputs g start goal with
  | Some msg => Returns (_create_result _start_timing [] false (Some msg)) g
  | None => Searches g
  end.
Proof.
  unfold sampling_open. rewrite truthy_validate.
  destruct (validate_inputs g start goal); reflexivity.
Qed.

Lemma IncrementalPhiStar_open_eq g start goal :
  IncrementalPhiStar_open g start goal =
  match validate_inputs g start goal with
  | Some msg => Returns (_create_result _start_timing [] false (Some msg)) g
  | None =>
      if negb (is_DynamicGrid g) then
        Returns (_create_result _start_timing [] false
                   (Some "Incremental Phi* requires DynamicGrid")) g
      else if pos_eqb start goal
      then Returns (_create_result _start_timing [int_waypoint start] true None) g
      else Searches g
  end.
Proof.
  unfold IncrementalPhiStar_open. rewrite truthy_validate.
  destruct (validate_inputs g start goal) as [msg |] eqn:E; [ reflexivity |].
  destruct (negb (is_DynamicGrid g)); [ reflexivity |].
  apply validate_inputs_ok in E as (_ & _ & Hs & Hg).
  apply is_walkable_node in Hs as [ns Hs]. apply is_walkable_node in Hg as [ng Hg].
  rewrite <- surjective_pairing in Hs, Hg. rewrite Hs, Hg. reflexivity.
Qed.

(** When validation fails, every engine returns the same failure, built by
    [_create_result] before any counter has moved, and leaves the grid as it
    was. *)
Lemma prologue_invalid e g start goal msg :
  validate_inputs g start goal = Some msg ->
  exists r, prologue e g start goal = Returns r g
            /\ made _start_timing [] false (Some msg) r.
Proof.
  intros H.
  destruct e; unfold prologue, ThetaStar_open, LazyThetaStar_open, JumpPointSearch_open,
      MemoryBoundedAStar_open;
    rewrite ?open_search_eq, ?sampling_open_eq, ?IncrementalPhiStar_open_eq,
            ?truthy_validate, ?H; cbn [decorate]; eexists; split; try reflexivity; auto.
Qed.

(** With valid end points, the gate passed and [start = goal], every grid
    engine returns the one-point path at once. *)
Lemma prologue_start_is_goal e g p :
  validate_inputs g p p = None -> gate_passes e g = true -> is_sampling e = false ->
  exists r g', prologue e g p p = Returns r g'
               /\ made _start_timing [int_waypoint p] true None r.
Proof.
  intros H Hgate Hs.
  destruct e; try discriminate Hs; cbn [gate_passes] in Hgate;
    unfold prologue, ThetaStar_open, LazyThetaStar_open, JumpPointSearch_open,
      MemoryBoundedAStar_open;
    rewrite ?open_search_eq, ?IncrementalPhiStar_open_eq, ?truthy_validate, ?H, ?Hgate,
            ?pos_eqb_refl;
    cbn [negb decorate found _create_result]; do 2 eexists; split; try reflexivity; auto.
Qed.

(** An engine that resets the grid enters its search on the reset grid. *)
Lemma prologue_searches_reset e g start goal g' :
  resets_grid e = true -> prologue e g start goal = Searches g' ->
  g' = reset_pathfinding_data g.
Proof.
  intros Hr.
  destruct e; try discriminate Hr;
    unfold prologue, ThetaStar_open, LazyThetaStar_open, JumpPointSearch_open,
      MemoryBoundedAStar_open;
    rewrite ?open_search_eq, ?truthy_validate;
    destruct (validate_inputs g start goal);
    repeat match goal with
           | |- context [if ?c then _ else _] => destruct c
           end; cbn [decorate]; intros H; inversion H; reflexivity.
Qed.

(** The engines that do not reset enter their search on the caller's grid. *)
Lemma prologue_searches_no_reset e g start goal g' :
  resets_grid e = false -> prologue e g start goal = Searches g' -> g' = g.
Proof.
  intros Hr.
  destruct e; try discriminate Hr; unfold prologue;
    rewrite ?sampling_open_eq, ?IncrementalPhiStar_open_eq;
    destruct (validate_inputs g start goal);
    repeat match goal with
           | |- context [if ?c then _ else _] => destruct c
           end; intros H; inversion H; reflexivity.
Qed.

(* ------------------------------------------------------------------ *)
(** ** Every result the engines return is well formed *)
(* ------------------------------------------------------------------ *)

Ltac outcome_inv :=
  repeat match goal with
         | H : Done _ = Done _ |- _ => inversion H; subst; clear H
         | H : Raised _ = Done _ |- _ => discriminate H
         | H : OutOfFuel = Done _ |- _ => discriminate H
         | H : bind ?m _ = Done _ |- _ =>
             let E := fresh "E" in
             let v := fresh "v" in
             destruct m as [v | |] eqn:E; cbn [bind] in H;
             [ try (destruct v as [? ?]) | |]
         | H : (let '(_, _) := ?x in _) = Done _ |- _ => destruct x
         end.

Lemma prologue_returns_shape e g start goal r g' :
  prologue e g start goal = Returns r g' -> result_shape r.
Proof.
  destruct (validate_inputs g start goal) as [msg |] eqn:E.
  - destruct (prologue_invalid e g start goal msg E) as (r0 & -> & Hm).
    intros H; inversion H; subst. left. exists _start_timing, msg.
    split; [ exact Hm | eapply validate_inputs_nonempty; eauto ].
  - destruct e; unfold prologue, ThetaStar_open, LazyThetaStar_open,
      JumpPointSearch_open, MemoryBoundedAStar_open;
      rewrite ?open_search_eq, ?sampling_open_eq, ?IncrementalPhiStar_open_eq,
        ?truthy_validate, ?E;
      repeat match goal with
             | |- context [if ?c then _ else _] => destruct c
             end; cbn [decorate found _create_result];
      intros H; inversion H; subst; auto;
      repeat apply result_shape_data; auto; apply result_shape_failure; discriminate.
Qed.

Lemma AStar_loop_shape id ht w goal (fuel : nat) : forall st r g',
  AStar.loop fuel id ht w goal st = Done (r, g') -> result_shape r.
Proof.
  induction fuel as [| fuel IH]; intros st r g' H; cbn [AStar.loop] in H;
    unfold AStar.step in H;
    destruct (heappop (AStar.open_set st)) as [[e open'] |]; outcome_inv;
    try (apply result_shape_failure; discriminate);
    (destruct (pos_eqb (e_node e) goal); outcome_inv; eauto).
Qed.

Lemma AStar_find_path_shape fuel id ht w g start goal r g' :
  AStar.find_path fuel id ht w g start goal = Done (r, g') -> result_shape r.
Proof.
  unfold AStar.find_path.
  destruct (open_search None g start goal) as [r0 g0 | g0] eqn:E.
  - intros H; inversion H; subst.
    apply (prologue_returns_shape EAStar g start goal r g'). exact E.
  - destruct (node_at g0 start); [| discriminate ]. apply AStar_loop_shape.
Qed.

Lemma WeightedAStar_find_path_shape fuel id ht w g start goal r g' :
  WeightedAStar.find_path fuel id ht w g start goal = Done (r, g') -> result_shape r.
Proof.
  unfold WeightedAStar.find_path. intros H. outcome_inv.
  match goal with E : AStar.find_path _ _ _ _ _ _ _ = _ |- _ =>
    apply AStar_find_path_shape in E end. auto.
Qed.

Lemma Dijkstra_loop_shape id goal (fuel : nat) : forall st r g',
  Dijkstra.loop fuel id goal st = Done (r, g') -> result_shape r.
Proof.
  induction fuel as [| fuel IH]; intros st r g' H; cbn [Dijkstra.loop] in H;
    unfold Dijkstra.step in H;
    destruct (heappop (Dijkstra.open_set st)) as [[e open'] |]; outcome_inv;
    try (apply result_shape_failure; discriminate);
    (destruct (set_mem (e_node e) (Dijkstra.visited_set st)); [ outcome_inv; eauto |]);
    (destruct (pos_eqb (e_node e) goal); [| outcome_inv; eauto ]);
    outcome_inv;
    (destruct (node_at (Dijkstra.grid st) (e_node e)); outcome_inv; auto).
Qed.

Lemma Dijkstra_find_path_shape fuel id g start goal r g' :
  Dijkstra.find_path fuel id g start goal = Done (r, g') -> result_shape r.
Proof.
  unfold Dijkstra.find_path.
  destruct (open_search None g start goal) as [r0 g0 | g0] eqn:E.
  - intros H; inversion H; subst.
    apply (prologue_returns_shape EDijkstra g start goal r g'). exact E.
  - destruct (node_at g0 start); [| discriminate ]. apply Dijkstra_loop_shape.
Qed.

Lemma UniformCostSearch_find_path_shape fuel id g start goal r g' :
  UniformCostSearch.find_path fuel id g start goal = Done (r, g') -> result_shape r.
Proof.
  unfold UniformCostSearch.find_path. intros H. outcome_inv.
  match goal with E : Dijkstra.find_path _ _ _ _ _ = _ |- _ =>
    apply Dijkstra_find_path_shape in E end. auto.
Qed.

Lemma repr_int_message_nonempty (pre post : string) (z : Z) :
  (String "M"%char pre ++ Py.repr_int z ++ post)%string <> ""%string.
Proof. simpl. discriminate. Qed.

Lemma IDAStar_iterate_shape fuel g ht mi start goal (remaining : nat) :
  forall thr its m r tr,
    IDAStar.iterate remaining fuel g ht mi start goal thr its m = Done (r, tr) ->
    result_shape r.
Proof.
  induction remaining as [| remaining IH]; intros thr its m r tr H;
    cbn [IDAStar.iterate] in H.
  - outcome_inv. apply result_shape_failure. simpl. discriminate.
  - destruct (IDAStar._search fuel g ht goal thr start 0%float [start] _)
      as [[res st] | |]; try discriminate.
    destruct res; outcome_inv; auto.
    + apply result_shape_failure. discriminate.
    + destruct (IDAStar.iterate remaining fuel g ht mi start goal _ _ _)
        as [[r0 tr0] | |] eqn:E; outcome_inv. eauto.
Qed.

Lemma IDAStar_find_path_shape depth ht mi g start goal r g' :
  IDAStar.find_path depth ht mi g start goal = Done (r, g') -> result_shape r.
Proof.
  unfold IDAStar.find_path, IDAStar.find_path_trace.
  destruct (open_search None g start goal) as [r0 g0 | g0] eqn:E; cbn [bind].
  - intros H; inversion H; subst.
    apply (prologue_returns_shape EIDAStar g start goal r g'). exact E.
  - destruct (IDAStar.iterate _ _ _ _ _ _ _ _ _ _) as [[r0 tr0] | |] eqn:E2;
      cbn [bind]; intros H; outcome_inv.
    eapply IDAStar_iterate_shape; eauto.
Qed.

Lemma MemoryBoundedAStar_find_path_shape depth ht ml g start goal r g' :
  MemoryBoundedAStar.find_path depth ht ml g start goal = Done (r, g') -> result_shape r.
Proof.
  unfold MemoryBoundedAStar.find_path. rewrite truthy_validate.
  destruct (validate_inputs g start goal) as [msg |] eqn:E.
  - intros H; outcome_inv. apply result_shape_failure.
    eapply validate_inputs_nonempty; eauto.
  - intros H. outcome_inv.
    match goal with E : IDAStar.find_path _ _ _ _ _ _ = _ |- _ =>
      apply IDAStar_find_path_shape in E end.
    match goal with H : (if found ?r then _ else _) = _ |- _ => destruct (found r) end;
      outcome_inv; auto.
Qed.

Lemma RRT_iterate_shape fuel cfg rng g goal_node (todo : list Z) :
  forall st r st',
    RRT.iterate fuel cfg rng g goal_node todo st = Done (r, st') -> result_shape r.
Proof.
  induction todo as [| iteration todo IH]; intros st r st' H; cbn [RRT.iterate] in H.
  - outcome_inv. apply result_shape_failure. simpl. discriminate.
  - destruct (if Py.lt _ _ then _ else _) as [sample drawn'].
    destruct (RRT._find_nearest_node _ _ _) as [nearest |]; [| eauto ].
    outcome_inv.
    match goal with H : match ?o with Some _ => _ | None => _ end = _ |- _ =>
      destruct o as [new_node |] end; [| eauto ].
    destruct (Py.le _ _); [| eauto ].
    outcome_inv.
    match goal with H : (if ?b then _ else _) = _ |- _ => destruct b end; [| eauto ].
    outcome_inv. auto 6.
Qed.

Lemma RRT_find_path_shape fuel cfg rng g start goal r g' :
  RRT.find_path fuel cfg rng g start goal = Done (r, g') -> result_shape r.
Proof.
  unfold RRT.find_path, RRT.find_path_state. rewrite truthy_validate.
  destruct (validate_inputs g start goal) as [msg |] eqn:E; cbn [bind].
  - intros H; outcome_inv. apply result_shape_failure.
    eapply validate_inputs_nonempty; eauto.
  - cbn [alloc]. intros H. outcome_inv.
    eapply RRT_iterate_shape; eauto.
Qed.

(* ------------------------------------------------------------------ *)
(** ** The cells of a grid *)
(* ------------------------------------------------------------------ *)

(** Every position inside the bounds of the grid, row by row. *)
Definition all_cells (g : Grid) : list pos :=
  flat_map (fun y => map (fun x => (x, y)) (Py.range (width g))) (Py.range (height g)).

Lemma in_range (n z : Z) : In z (Py.range n) <-> 0 <= z < n.
Proof.
  unfold Py.range. rewrite in_map_iff. split.
  - intros (i & <- & Hi). apply in_seq in Hi. lia.
  - intros H. exists (Z.to_nat z). split; [ lia | apply in_seq; lia ].
Qed.

Lemma valid_in_all_cells g p :
  is_valid_position g (fst p) (snd p) = true <-> In p (all_cells g).
Proof.
  unfold is_valid_position, all_cells. rewrite in_flat_map.
  rewrite !andb_true_iff, !Z.leb_le, !Z.ltb_lt. split.
  - intros [[[Hx1 Hx2] Hy1] Hy2]. exists (snd p). split; [ apply in_range; lia |].
    apply in_map_iff. exists (fst p). split; [ destruct p; reflexivity | apply in_range; lia ].
  - intros (y & Hy & Hin). apply in_map_iff in Hin as (x & <- & Hx).
    apply in_range in Hy, Hx. cbn. lia.
Qed.

Lemma get_neighbors_walkable g p q :
  In q (get_neighbors g p) -> is_walkable g (fst q) (snd q) = true.
Proof.
  unfold get_neighbors. rewrite in_flat_map. intros (d & _ & Hq).
  destruct (is_walkable g (fst p + fst d) (snd p + snd d)) eqn:Hw; [| contradiction ].
  destruct (get_node g (fst p + fst d) (snd p + snd d)); [| contradiction ].
  destruct Hq as [<- | []]. exact Hw.
Qed.

Lemma is_walkable_valid g x y :
  is_walkable g x y = true -> is_valid_position g x y = true.
Proof.
  intros H. apply is_walkable_node in H as [n H].
  apply node_at_valid in H. exact H.
Qed.

Lemma get_neighbors_in_cells g p q :
  In q (get_neighbors g p) -> In q (all_cells g).
Proof.
  intros H. apply valid_in_all_cells. apply is_walkable_valid.
  eapply get_neighbors_walkable; eauto.
Qed.

Lemma set_mem_In p s : set_mem p s = true <-> In p s.
Proof.
  unfold set_mem. rewrite existsb_exists. split.
  - intros (q & Hq & E). apply pos_eqb_eq in E. subst. exact Hq.
  - intros H. exists p. split; [ exact H | apply pos_eqb_refl ].
Qed.

Lemma set_mem_false p s : set_mem p s = false <-> ~ In p s.
Proof.
  rewrite <- set_mem_In. destruct (set_mem p s); split; congruence.
Qed.

(* ------------------------------------------------------------------ *)
(** ** IDA*: the depth-first search returns, and what it cuts off *)
(* ------------------------------------------------------------------ *)

Section IDAStarSearch.

Variables (g : Grid) (heuristic_type : string) (goal_node : pos) (thr : float).

(** [grows st st' new]: between [st] and [st'] the search met the cut-off
    f-costs [new], each above the threshold, and folded them into
    [next_threshold] with [min]. *)
Definition grows (st st' : IDAStar.state) (new : list float) : Prop :=
  IDAStar.cutoffs st' = IDAStar.cutoffs st ++ new
  /\ IDAStar.next_threshold st' = fold_left Py.min2 new (IDAStar.next_threshold st)
  /\ Forall (fun c => Py.gt c thr = true) new.

Lemma grows_refl st st' :
  IDAStar.cutoffs st' = IDAStar.cutoffs st ->
  IDAStar.next_threshold st' = IDAStar.next_threshold st ->
  grows st st' [].
Proof. intros H1 H2. repeat split; [ rewrite app_nil_r | |]; auto. Qed.

Lemma grows_trans st1 st2 st3 n1 n2 :
  grows st1 st2 n1 -> grows st2 st3 n2 -> grows st1 st3 (n1 ++ n2).
Proof.
  intros (Ha & Hb & Hc) (Ha' & Hb' & Hc'). repeat split.
  - rewrite Ha', Ha, app_assoc. reflexivity.
  - rewrite Hb', Hb, fold_left_app. reflexivity.
  - apply Forall_app; auto.
Qed.

(** What a terminating call of [_search] (or of its neighbour loop started
    with the flag [co]) guarantees. *)
Definition search_post (co : bool) (st : IDAStar.state)
           (o : outcome (IDAStar.search_result * IDAStar.state)) : Prop :=
  exists res st' new,
    o = Done (res, st') /\ grows st st' new
    /\ (res = IDAStar.CUTOFF -> co = true \/ new <> []).

Lemma neighbors_loop_post search node gc path :
  (forall neighbor c st,
      ~ In neighbor path -> In neighbor (all_cells g) ->
      search_post false st (search neighbor c (path ++ [neighbor]) st)) ->
  forall ns co st,
    (forall n, In n ns -> In n (all_cells g)) ->
    search_post co st (IDAStar.neighbors_loop search g node gc path ns co st).
Proof.
  intros Hsearch. induction ns as [| n ns IH]; intros co st Hns; cbn [IDAStar.neighbors_loop].
  - exists (if co then IDAStar.CUTOFF else IDAStar.NOT_FOUND), st, [].
    split; [ reflexivity |]. split; [ apply grows_refl; reflexivity |].
    destruct co; [ auto | discriminate ].
  - set (st1 := IDAStar.mkState _ _ _ _).
    assert (Hst1 : grows st st1 []) by (apply grows_refl; reflexivity).
    assert (Hns' : forall n0, In n0 ns -> In n0 (all_cells g)) by (intros; apply Hns; right; auto).
    destruct (set_mem n path) eqn:Hmem.
    + destruct (IH co st1 Hns') as (res & st' & new & -> & Hg & Hc).
      exists res, st', new. split; [ reflexivity |].
      split; [ apply (grows_trans _ _ _ [] new Hst1 Hg) | exact Hc ].
    + apply set_mem_false in Hmem.
      destruct (Hsearch n (PrimFloat.add gc (get_movement_cost g node n)) st1 Hmem
                        (Hns n (or_introl eq_refl)))
        as (res & st2 & new & -> & Hg & Hc).
      pose proof (grows_trans _ _ _ [] new Hst1 Hg) as Hg1. cbn [app] in Hg1.
      destruct res.
      * exists IDAStar.FOUND, st2, new. split; [ reflexivity |].
        split; [ exact Hg1 | discriminate ].
      * destruct (IH co st2 Hns') as (res & st3 & new' & -> & Hg' & Hc').
        exists res, st3, (new ++ new'). split; [ reflexivity |].
        split; [ apply (grows_trans _ _ _ _ _ Hg1 Hg') |].
        intros Hr. destruct (Hc' Hr) as [? | Hn]; [ auto | right ].
        destruct new; [ exact Hn | discriminate ].
      * destruct (IH true st2 Hns') as (res & st3 & new' & -> & Hg' & Hc').
        exists res, st3, (new ++ new'). split; [ reflexivity |].
        split; [ apply (grows_trans _ _ _ _ _ Hg1 Hg') |].
        intros _. right. destruct (Hc eq_refl) as [? | Hn]; [ discriminate |].
        destruct new; [ contradiction | discriminate ].
Qed.

(** With a recursion bound of at least the number of cells not yet on the
    path, plus one, [_search] returns. *)
Lemma search_returns (fuel : nat) : forall node gc path st,
  NoDup path -> incl path (all_cells g) ->
  (List.length (all_cells g) + 1 <= fuel + List.length path)%nat ->
  search_post false st
    (IDAStar._search fuel g heuristic_type goal_node thr node gc path st).
Proof.
  induction fuel as [| fuel IH]; intros node gc path st Hnd Hincl Hlen.
  - pose proof (NoDup_incl_length Hnd Hincl). lia.
  - cbn [IDAStar._search].
    destruct (Py.gt (PrimFloat.add gc (get_heuristic node goal_node heuristic_type)) thr)
      eqn:Hgt.
    + eexists _, _, [_]. split; [ reflexivity |]. split.
      * repeat split; cbn; auto.
      * intros _. right. discriminate.
    + destruct (pos_eqb node goal_node).
      * eexists _, _, []. split; [ reflexivity |]. split.
        -- apply grows_refl; reflexivity.
        -- discriminate.
      * set (st1 := IDAStar.mkState _ _ _ _).
        destruct (neighbors_loop_post
                    (IDAStar._search fuel g heuristic_type goal_node thr) node gc path)
          with (ns := get_neighbors g node) (co := false) (st := st1)
          as (res & st' & new & -> & Hg & Hc).
        -- intros n c st0 Hn Hin. apply IH.
           ++ apply NoDup_app; [ exact Hnd | repeat constructor; auto |].
              intros x Hx [<- | []]. contradiction.
           ++ intros x Hx. apply in_app_iff in Hx as [Hx | [<- | []]]; auto.
           ++ rewrite length_app. simpl. lia.
        -- intros n Hn. eapply get_neighbors_in_cells; eauto.
        -- exists res, st', new. split; [ reflexivity |]. split; [| exact Hc ].
           apply (grows_trans st st1 st' [] new); [ apply grows_refl; reflexivity | exact Hg ].
Qed.

(** Whatever room the recursion has, a call of [_search] (or of its
    neighbour loop started with the flag [co]) ends: it returns, with the
    cut-off costs folded into [next_threshold], or it raises
    [RecursionError]. *)
Definition search_ends (co : bool) (st : IDAStar.state)
           (o : outcome (IDAStar.search_result * IDAStar.state)) : Prop :=
  match o with
  | Done (res, st') =>
      exists new, grows st st' new /\ (res = IDAStar.CUTOFF -> co = true \/ new <> [])
  | Raised e => e = "RecursionError"
  | OutOfFuel => False
  end.

Lemma search_ends_after st st1 pre co co' o :
  grows st st1 pre -> (co' = true -> co = true \/ pre <> []) ->
  search_ends co' st1 o -> search_ends co st o.
Proof.
  intros Hg Hco. destruct o as [[res st'] | e |]; cbn; auto.
  intros (new & Hg' & Hc). exists (pre ++ new).
  split; [ eapply grows_trans; eauto |].
  intros Hr. destruct (Hc Hr) as [H | H].
  - destruct (Hco H) as [? | Hp]; [ auto | right ].
    destruct pre; [ contradiction | discriminate ].
  - right. destruct pre; [ exact H | discriminate ].
Qed.

Lemma neighbors_loop_ends search node gc path :
  (forall neighbor c st, search_ends false st (search neighbor c (path ++ [neighbor]) st)) ->
  forall ns co st,
    search_ends co st (IDAStar.neighbors_loop search g node gc path ns co st).
Proof.
  intros Hsearch. induction ns as [| n ns IH]; intros co st; cbn [IDAStar.neighbors_loop].
  - exists []. split; [ apply grows_refl; reflexivity |].
    destruct co; [ auto | discriminate ].
  - set (st1 := IDAStar.mkState _ _ _ _).
    assert (Hst1 : grows st st1 []) by (apply grows_refl; reflexivity).
    destruct (set_mem n path).
    + apply (search_ends_after st st1 [] co co); auto.
    + pose proof (Hsearch n (PrimFloat.add gc (get_movement_cost g node n)) st1) as Hrec.
      destruct (search n _ (path ++ [n]) st1) as [[res st2] | e |]; cbn in Hrec;
        [| exact Hrec | exact Hrec ].
      destruct Hrec as (new & Hg & Hc).
      pose proof (grows_trans _ _ _ [] new Hst1 Hg) as Hg1. cbn [app] in Hg1.
      destruct res.
      * exists new. split; [ exact Hg1 | discriminate ].
      * apply (search_ends_after st st2 new co co); auto.
      * apply (search_ends_after st st2 new co true); auto.
        intros _. right. destruct (Hc eq_refl) as [? | Hn]; [ discriminate | exact Hn ].
Qed.

Lemma search_always_ends (depth : nat) : forall node gc path st,
  search_ends false st
    (IDAStar._search depth g heuristic_type goal_node thr node gc path st).
Proof.
  induction depth as [| depth IH]; intros node gc path st; cbn [IDAStar._search];
    [ reflexivity |].
  destruct (Py.gt (PrimFloat.add gc (get_heuristic node goal_node heuristic_type)) thr)
    eqn:Hgt.
  - exists [PrimFloat.add gc (get_heuristic node goal_node heuristic_type)].
    split; [| intros _; right; discriminate ].
    repeat split; cbn; auto.
  - destruct (pos_eqb node goal_node).
    + exists []. split; [ apply grows_refl; reflexivity | discriminate ].
    + set (st1 := IDAStar.mkState _ _ _ _).
      apply (search_ends_after st st1 [] false false);
        [ apply grows_refl; reflexivity | auto |].
      apply neighbors_loop_ends. intros n c st0. apply IH.
Qed.

End IDAStarSearch.

(* ------------------------------------------------------------------ *)
(** ** The order on floats *)
(* ------------------------------------------------------------------ *)

Section FloatOrder.

Ltac sf_cases :=
  unfold SFltb, SFleb, SFcompare;
  repeat match goal with
         | x : spec_float |- _ => destruct x as [[|] | [|] | | [|] ? ?]
         end; simpl; try congruence.

Ltac sf_compare :=
  repeat match goal with
         | |- context [Z.compare ?a ?b] => destruct (Z.compare_spec a b); subst
         end; simpl; try congruence; try lia;
  repeat match goal with
         | |- context [Z.compare ?a ?a] => rewrite Z.compare_refl; simpl
         end; try congruence;
  repeat match goal with
         | |- context [Pos.compare_cont Eq ?a ?b] => change (Pos.compare_cont Eq a b) with (Pos.compare a b)
         end;
  repeat match goal with
         | |- context [Pos.compare ?a ?b] => destruct (Pos.compare_spec a b); subst
         end; simpl; try congruence; try lia.

Lemma SFltb_trans x y z : SFltb x y = true -> SFltb y z = true -> SFltb x z = true.
Proof. sf_cases; sf_compare. Qed.

Lemma SFleb_trans x y z : SFleb x y = true -> SFleb y z = true -> SFleb x z = true.
Proof. sf_cases; sf_compare. Qed.

Lemma SFltb_leb x y : SFltb x y = true -> SFleb x y = true.
Proof. unfold SFltb, SFleb. destruct (SFcompare x y) as [[] |]; congruence. Qed.

Lemma SFltb_num_r x y : SFltb x y = true -> SFleb y y = true.
Proof. sf_cases; sf_compare. Qed.

Lemma SF_not_ltb_leb x y :
  SFleb x x = true -> SFleb y y = true -> SFltb y x = false -> SFleb x y = true.
Proof. sf_cases; sf_compare. Qed.

Lemma SFleb_inf x : SFleb (S754_infinity false) x = true -> x = S754_infinity false.
Proof. sf_cases. Qed.

Lemma SFltb_inf x y : SFltb x y = true -> SFltb x (S754_infinity false) = true.
Proof. sf_cases. Qed.

Lemma float_lt_trans x y z : Py.lt x y = true -> Py.lt y z = true -> Py.lt x z = true.
Proof. unfold Py.lt. rewrite !FloatAxioms.ltb_spec. apply SFltb_trans. Qed.

Lemma float_le_trans x y z : Py.le x y = true -> Py.le y z = true -> Py.le x z = true.
Proof. unfold Py.le. rewrite !FloatAxioms.leb_spec. apply SFleb_trans. Qed.

Lemma float_lt_le x y : Py.lt x y = true -> Py.le x y = true.
Proof. unfold Py.lt, Py.le. rewrite FloatAxioms.ltb_spec, FloatAxioms.leb_spec. apply SFltb_leb. Qed.

(** A float that exceeds another one is a number (not a NaN). *)
Lemma float_gt_num t c : Py.gt c t = true -> Py.le c c = true.
Proof.
  unfold Py.gt, Py.le. rewrite FloatAxioms.ltb_spec, FloatAxioms.leb_spec. apply SFltb_num_r.
Qed.

Lemma float_not_lt_le x y :
  Py.le x x = true -> Py.le y y = true -> Py.lt y x = false -> Py.le x y = true.
Proof.
  unfold Py.lt, Py.le. rewrite FloatAxioms.ltb_spec, !FloatAxioms.leb_spec.
  apply SF_not_ltb_leb.
Qed.

Lemma float_inf_le x : Py.le Py.inf x = true -> x = Py.inf.
Proof.
  unfold Py.le, Py.inf. rewrite FloatAxioms.leb_spec. intros H.
  change (Prim2SF infinity) with (S754_infinity false) in H.
  apply SFleb_inf in H.
  rewrite <- (FloatAxioms.SF2Prim_Prim2SF x), H. reflexivity.
Qed.

Lemma float_lt_inf x y : Py.lt x y = true -> Py.lt x Py.inf = true.
Proof.
  unfold Py.lt, Py.inf. rewrite !FloatAxioms.ltb_spec.
  change (Prim2SF infinity) with (S754_infinity false). apply SFltb_inf.
Qed.

End FloatOrder.

(** [min] folded over a list of numbers: the result is a lower bound of the
    list and of the starting value, and is one of them. *)
Lemma fold_min2_lower_bound (cs : list float) : forall x,
  Py.le x x = true -> Forall (fun c => Py.le c c = true) cs ->
  Py.le (fold_left Py.min2 cs x) x = true
  /\ Forall (fun c => Py.le (fold_left Py.min2 cs x) c = true) cs
  /\ (fold_left Py.min2 cs x = x \/ In (fold_left Py.min2 cs x) cs).
Proof.
  induction cs as [| c cs IH]; intros x Hx Hcs; cbn [fold_left].
  - auto.
  - inversion Hcs as [| c' cs' Hc Hcs']; subst.
    assert (Hm : Py.le (Py.min2 x c) (Py.min2 x c) = true)
      by (unfold Py.min2; destruct (Py.lt c x); auto).
    assert (Hmx : Py.le (Py.min2 x c) x = true).
    { unfold Py.min2. destruct (Py.lt c x) eqn:E; [ apply float_lt_le; exact E | exact Hx ]. }
    assert (Hmc : Py.le (Py.min2 x c) c = true).
    { unfold Py.min2. destruct (Py.lt c x) eqn:E; [ exact Hc |].
      apply float_not_lt_le; auto. }
    destruct (IH (Py.min2 x c) Hm Hcs') as (H1 & H2 & H3).
    split; [ eapply float_le_trans; eauto |]. split.
    + constructor; [ eapply float_le_trans; eauto | exact H2 ].
    + destruct H3 as [H3 | H3]; [| right; right; exact H3 ].
      rewrite H3. unfold Py.min2. destruct (Py.lt c x); [ right; left | left ]; reflexivity.
Qed.

(** The next threshold of IDA*: the least of the cut-off f-costs. *)
Lemma next_threshold_is_min (t : float) (cs : list float) :
  cs <> [] -> Forall (fun c => Py.gt c t = true) cs ->
  In (fold_left Py.min2 cs Py.inf) cs
  /\ Forall (fun c => Py.le (fold_left Py.min2 cs Py.inf) c = true) cs
  /\ Py.lt t (fold_left Py.min2 cs Py.inf) = true.
Proof.
  intros Hne Hgt.
  assert (Hnum : Forall (fun c => Py.le c c = true) cs).
  { eapply Forall_impl; [| exact Hgt ]. intros c Hc. exact (float_gt_num t c Hc). }
  destruct (fold_min2_lower_bound cs Py.inf eq_refl Hnum) as (_ & Hlb & Hin).
  assert (Hin' : In (fold_left Py.min2 cs Py.inf) cs).
  { destruct Hin as [E | Hin]; [| exact Hin ].
    destruct cs as [| c cs']; [ contradiction |].
    inversion Hlb as [| ? ? Hc _]; subst. rewrite E in Hc.
    apply float_inf_le in Hc. rewrite E, <- Hc. left; reflexivity. }
  split; [ exact Hin' |]. split; [ exact Hlb |].
  rewrite Forall_forall in Hgt. apply (Hgt _ Hin').
Qed.

(* ------------------------------------------------------------------ *)
(** ** IDA*: the sequence of thresholds *)
(* ------------------------------------------------------------------ *)

(** What the trace of a run started at threshold [t] looks like: an
    iteration that is not the last one was cut off somewhere, all its cut-off
    f-costs exceed [t], and the next iteration runs at their minimum. *)
Inductive trace_ok : float -> list float -> list (list float) -> Prop :=
| trace_stop t : trace_ok t [] []
| trace_last t cs : trace_ok t [t] [cs]
| trace_step t cs ts css :
    cs <> [] -> Forall (fun c => Py.gt c t = true) cs ->
    trace_ok (fold_left Py.min2 cs Py.inf) ts css ->
    trace_ok t (t :: ts) (cs :: css).

(** Successive thresholds grow (strictly, hence also weakly). *)
Fixpoint thresholds_increase (ts : list float) : Prop :=
  match ts with
  | a :: ((b :: _) as rest) =>
      Py.lt a b = true /\ Py.le a b = true /\ thresholds_increase rest
  | _ => True
  end.

(** Each threshold after the first is one of the f-costs at which the
    previous iteration was cut off; all of these exceeded the previous
    threshold and none is below the new one. *)
Fixpoint thresholds_from_cutoffs (ts : list float) (css : list (list float)) : Prop :=
  match ts, css with
  | a :: ((b :: _) as rest), cs :: css' =>
      In b cs
      /\ Forall (fun c => Py.gt c a = true /\ Py.le b c = true) cs
      /\ thresholds_from_cutoffs rest css'
  | _, _ => True
  end.

Lemma trace_ok_head t ts css :
  trace_ok t ts css -> ts = [] \/ exists ts', ts = t :: ts'.
Proof. destruct 1; eauto. Qed.

Lemma trace_ok_increase t ts css :
  trace_ok t ts css -> thresholds_increase ts /\ thresholds_from_cutoffs ts css.
Proof.
  induction 1 as [t | t cs | t cs ts css Hne Hgt Htr [IH1 IH2]]; cbn; auto.
  destruct (trace_ok_head _ _ _ Htr) as [-> | (ts' & ->)]; [ cbn; auto |].
  destruct (next_threshold_is_min t cs Hne Hgt) as (Hin & Hlb & Hlt).
  split.
  - split; [ exact Hlt |]. split; [ apply float_lt_le; exact Hlt | exact IH1 ].
  - split; [ exact Hin |]. split; [| exact IH2 ].
    rewrite Forall_forall in *. intros x Hx. split; [ apply Hgt | apply Hlb ]; exact Hx.
Qed.

Lemma IDAStar_iterate_returns fuel g ht mi start goal :
  (List.length (all_cells g) <= fuel)%nat -> In start (all_cells g) ->
  forall remaining thr its m,
  exists r tr,
    IDAStar.iterate remaining fuel g ht mi start goal thr its m = Done (r, tr)
    /\ trace_ok thr (IDAStar.thresholds tr) (IDAStar.cutoff_log tr)
    /\ (List.length (IDAStar.thresholds tr) <= remaining)%nat.
Proof.
  intros Hfuel Hstart. induction remaining as [| remaining IH]; intros thr its m;
    cbn [IDAStar.iterate].
  - eexists _, _. split; [ reflexivity |]. split; [ constructor | cbn; lia ].
  - destruct (search_returns g ht goal thr fuel start 0%float [start]
                (IDAStar.mkState Py.inf [] m []))
      as (res & st & new & -> & (Hc & Hn & Hgt) & Hcut).
    + repeat constructor. intros [].
    + intros x [<- | []]. exact Hstart.
    + cbn. lia.
    + cbn in Hc, Hn. destruct res.
      * eexists _, _. split; [ reflexivity |]. split; [ constructor | cbn; lia ].
      * eexists _, _. split; [ reflexivity |]. split; [ constructor | cbn; lia ].
      * destruct (IH (IDAStar.next_threshold st) (its + 1)
                     (_increment_iteration (IDAStar.metrics st)))
          as (r & tr & -> & Htr & Hlen).
        eexists _, _. split; [ reflexivity |]. cbn. split; [| lia ].
        destruct (Hcut eq_refl) as [? | Hne]; [ discriminate |].
        rewrite Hc. rewrite Hn in Htr. constructor; auto.
Qed.

Lemma all_cells_reset g : all_cells (reset_pathfinding_data g) = all_cells g.
Proof. reflexivity. Qed.

(** The outer loop ends whatever room the recursion has: it returns a trace
    of the shape above, or a call of [_search] has raised
    [RecursionError]. *)
Lemma IDAStar_iterate_ends depth g ht mi start goal :
  forall remaining thr its m,
    match IDAStar.iterate remaining depth g ht mi start goal thr its m with
    | Done (r, tr) =>
        trace_ok thr (IDAStar.thresholds tr) (IDAStar.cutoff_log tr)
        /\ (List.length (IDAStar.thresholds tr) <= remaining)%nat
    | Raised e => e = "RecursionError"
    | OutOfFuel => False
    end.
Proof.
  induction remaining as [| remaining IH]; intros thr its m; cbn [IDAStar.iterate].
  - split; [ constructor | cbn; lia ].
  - pose proof (search_always_ends g ht goal thr depth start 0%float [start]
                  (IDAStar.mkState Py.inf [] m [])) as Hs.
    destruct (IDAStar._search depth g ht goal thr start 0%float [start] _)
      as [[res st] | e |]; cbn in Hs; [| exact Hs | exact Hs ].
    destruct Hs as (new & (Hc & Hn & Hgt) & Hcut). cbn in Hc, Hn.
    destruct res.
    + split; [ constructor | cbn; lia ].
    + split; [ constructor | cbn; lia ].
    + specialize (IH (IDAStar.next_threshold st) (its + 1)
                     (_increment_iteration (IDAStar.metrics st))).
      destruct (IDAStar.iterate remaining depth g ht mi start goal _ _ _)
        as [[r tr] | e |]; [| exact IH | exact IH ].
      destruct IH as [Htr Hlen]. cbn. split; [| lia ].
      destruct (Hcut eq_refl) as [? | Hne]; [ discriminate |].
      rewrite Hc. rewrite Hn in Htr. constructor; auto.
Qed.

(** How a run of [IDAStar.find_path] ends.  It always ends: it returns, or
    the recursion of [_search] has run into the interpreter's limit; and the
    latter happens only when the limit leaves room for fewer nested calls
    than the map has cells. *)
Lemma IDAStar_run_ends ht mi g start goal (depth : nat) :
  match IDAStar.find_path_trace depth ht mi g start goal with
  | Done (r, g', tr) =>
      Z.of_nat (List.length (IDAStar.thresholds tr)) <= Z.max 0 mi
      /\ exists t, trace_ok t (IDAStar.thresholds tr) (IDAStar.cutoff_log tr)
  | Raised e => e = "RecursionError" /\ (depth < List.length (all_cells g))%nat
  | OutOfFuel => False
  end.
Proof.
  unfold IDAStar.find_path_trace. rewrite open_search_eq.
  destruct (validate_inputs g start goal) as [msg |] eqn:E.
  { cbn. split; [ lia | exists 0%float; constructor ]. }
  destruct (pos_eqb start goal).
  { cbn. split; [ lia | exists 0%float; constructor ]. }
  pose proof (IDAStar_iterate_ends depth (reset_pathfinding_data g) ht mi start goal
                (Z.to_nat mi) (get_heuristic start goal ht) 0 _start_timing) as He.
  destruct (IDAStar.iterate _ _ _ _ _ _ _ _ _ _) as [[r tr] | e |] eqn:Hit.
  - destruct He as [Htr Hlen]. split; [ lia | eauto ].
  - split; [ exact He |].
    destruct (Nat.lt_ge_cases depth (List.length (all_cells g))) as [Hlt | Hge];
      [ exact Hlt | exfalso ].
    apply validate_inputs_ok in E as (Hs & _). apply valid_in_all_cells in Hs.
    destruct (IDAStar_iterate_returns depth (reset_pathfinding_data g) ht mi start goal
                Hge Hs (Z.to_nat mi) (get_heuristic start goal ht) 0 _start_timing)
      as (r & tr & Hr & _).
    rewrite Hr in Hit. discriminate Hit.
  - exact He.
Qed.

(** C6.  Every run of IDA* ends, for every heuristic.  It makes at most
    [max_iterations] outer iterations, and when it returns, the thresholds of
    its successive iterations increase and each new threshold is the least of
    the f-costs that exceeded the previous one.  The only other way it ends
    is the [RecursionError] of a [_search] nested deeper than the interpreter
    allows, which takes a map with more cells than there is room for nested
    calls. *)
Theorem IDAStar_thresholds_increase_and_run_ends
        (heuristic_type : string) (max_iterations : Z) (g : Grid) (start goal : pos)
        (depth : nat) :
  match IDAStar.find_path_trace depth heuristic_type max_iterations g start goal with
  | Done (r, g', tr) =>
      Z.of_nat (List.length (IDAStar.thresholds tr)) <= Z.max 0 max_iterations
      /\ thresholds_increase (IDAStar.thresholds tr)
      /\ thresholds_from_cutoffs (IDAStar.thresholds tr) (IDAStar.cutoff_log tr)
  | Raised e => e = "RecursionError" /\ (depth < List.length (all_cells g))%nat
  | OutOfFuel => False
  end.
Proof.
  pose proof (IDAStar_run_ends heuristic_type max_iterations g start goal depth) as H.
  destruct (IDAStar.find_path_trace depth heuristic_type max_iterations g start goal)
    as [[[r g'] tr] | e |]; [| exact H | exact H ].
  destruct H as [Hlen [t Htr]]. split; [ exact Hlen |].
  apply trace_ok_increase in Htr. exact Htr.
Qed.

(** Two runs.  On a 3x3 map with the centre blocked, room for nine nested
    calls is enough: the run returns in its third iteration, each made at a
    higher threshold.  On a corridor of four cells, room for two nested calls is
    not: the first iteration already raises. *)
Lemma IDAStar_two_runs :
  (exists r g' tr,
      IDAStar.find_path_trace 9 "euclidean" 1000000
        (set_walkable (Grid_init CGrid 3 3) 1 1 false) (0, 0) (2, 2)
      = Done (r, g', tr)
      /\ found r = true /\ List.length (IDAStar.thresholds tr) = 3%nat)
  /\ IDAStar.find_path_trace 2 "euclidean" 1000000 (Grid_init CGrid 4 1) (0, 0) (3, 0)
     = Raised "RecursionError".
Proof.
  split; [| vm_compute; reflexivity ].
  eexists _, _, _. split; [ vm_compute; reflexivity |]. split; reflexivity.
Qed.

(* ------------------------------------------------------------------ *)
(** ** The movement cost *)
(* ------------------------------------------------------------------ *)

(** C7, as the code has it.  On every grid class, with the step costs the
    constructors set ([sqrt 2] and [1.0]), the movement cost is symmetric and
    non-negative, and it is infinite between two cells that do not touch.
    [get_movement_cost] never reads [diagonal_movement]: on an 8-connected
    map, where the cells that touch are the adjacent ones, the cost is
    infinite whenever the two cells are not adjacent; on any map the base
    cost of two cells that touch at a corner is [diagonal_cost], also when
    the map is 4-connected and no move leads from one to the other. *)
Theorem movement_cost_symmetric_nonnegative (g : Grid) (a b : pos) :
  diagonal_cost g = Py.sqrt 2%float -> straight_cost g = 1%float ->
  get_movement_cost g a b = get_movement_cost g b a
  /\ Py.le 0%float (get_movement_cost g a b) = true
  /\ (~ adjacent a b -> get_movement_cost g a b = Py.inf)
  /\ (diagonal_movement g = true -> ~ connected g a b ->
      get_movement_cost g a b = Py.inf)
  /\ (Z.abs (fst b - fst a) = 1 -> Z.abs (snd b - snd a) = 1 ->
      Grid_get_movement_cost g a b = diagonal_cost g
      /\ (cls g <> CWeightedGrid -> get_movement_cost g a b = diagonal_cost g)).
Proof.
  intros Hd Hs.
  assert (H3 : get_movement_cost g a b = get_movement_cost g b a
               /\ Py.le 0%float (get_movement_cost g a b) = true
               /\ (~ adjacent a b -> get_movement_cost g a b = Py.inf)).
  { unfold get_movement_cost, WeightedGrid_get_movement_cost.
    rewrite (Grid_get_movement_cost_sym g b a).
    pose proof (get_terrain_cost_values g (fst a) (snd a)) as Ha.
    pose proof (get_terrain_cost_values g (fst b) (snd b)) as Hb.
    cbn [In] in Ha, Hb.
    repeat match goal with H : _ \/ _ |- _ => destruct H as [H | H] end;
      try contradiction;
      (destruct (Grid_get_movement_cost_cases g a b) as [[Hadj [Hc | Hc]] | [Hadj Hc]];
       rewrite Hc, ?Hd, ?Hs; destruct (cls g); rewrite <- ?Ha, <- ?Hb;
       (split; [ reflexivity | split; [ reflexivity |] ]);
       first [ reflexivity | intros; contradiction ]). }
  destruct H3 as (H1 & H2 & H3).
  split; [ exact H1 |]. split; [ exact H2 |]. split; [ exact H3 |]. split.
  - intros Hdiag Hn. apply H3. unfold connected in Hn. rewrite Hdiag in Hn. exact Hn.
  - intros Hx Hy.
    assert (Hbase : Grid_get_movement_cost g a b = diagonal_cost g).
    { unfold Grid_get_movement_cost. rewrite Hx, Hy. reflexivity. }
    split; [ exact Hbase |].
    intros Hc. unfold get_movement_cost. destruct (cls g); try exact Hbase.
    contradiction.
Qed.

(** The theorem at a weighted grid with a patch of mud, for a diagonal move. *)
Lemma movement_cost_witness :
  let g := set_terrain (Grid_init CWeightedGrid 3 3) 1 1 "mud" in
  get_movement_cost g (0, 0) (1, 1) = get_movement_cost g (1, 1) (0, 0)
  /\ Py.le 0%float (get_movement_cost g (0, 0) (1, 1)) = true
  /\ (~ adjacent (0, 0) (1, 1) -> get_movement_cost g (0, 0) (1, 1) = Py.inf)
  /\ (diagonal_movement g = true -> ~ connected g (0, 0) (1, 1) ->
      get_movement_cost g (0, 0) (1, 1) = Py.inf)
  /\ (Z.abs (fst (1, 1) - fst (0, 0)) = 1 -> Z.abs (snd (1, 1) - snd (0, 0)) = 1 ->
      Grid_get_movement_cost g (0, 0) (1, 1) = diagonal_cost g
      /\ (cls g <> CWeightedGrid -> get_movement_cost g (0, 0) (1, 1) = diagonal_cost g)).
Proof.
  apply (movement_cost_symmetric_nonnegative
           (set_terrain (Grid_init CWeightedGrid 3 3) 1 1 "mud") (0, 0) (1, 1));
    reflexivity.
Defined.

(** An open 2x2 grid made 4-connected, as by [grid.diagonal_movement = False]
    on a [Grid(2, 2)]. *)
Definition four_connected_grid : Grid :=
  with_diagonal_movement (Grid_init CGrid 2 2) false.

(** On that grid the cells (0, 0) and (1, 1) are not adjacent: no move leads
    from one to the other, and [get_neighbors] of (0, 0) does not list
    (1, 1).  Yet [get_movement_cost] prices the pair at [sqrt 2], which is
    not [inf] for Python's [==]. *)
Lemma diagonal_pair_is_priced_on_a_four_connected_grid :
  ~ connected four_connected_grid (0, 0) (1, 1)
  /\ get_neighbors four_connected_grid (0, 0) = [(0, 1); (1, 0)]
  /\ get_movement_cost four_connected_grid (0, 0) (1, 1) = Py.sqrt 2%float
  /\ Py.eq (get_movement_cost four_connected_grid (0, 0) (1, 1)) Py.inf = false
  /\ get_movement_cost four_connected_grid (0, 0) (1, 1) <> Py.inf.
Proof.
  split; [ cbn; lia |]. split; [ reflexivity |]. split; [ reflexivity |].
  split; [ reflexivity |].
  intros H.
  assert (E : Py.eq (get_movement_cost four_connected_grid (0, 0) (1, 1)) Py.inf = false)
    by reflexivity.
  rewrite H in E. discriminate E.
Qed.

(* ------------------------------------------------------------------ *)
(** ** Predicates on the results of a call *)
(* ------------------------------------------------------------------ *)

(** [returns_only P o]: if the call returns a result, the result satisfies
    [P]. *)
Definition returns_only (P : PathfindingResult -> Prop)
           (o : outcome (PathfindingResult * Grid)) : Prop :=
  forall r g', o = Done (r, g') -> P r.


(* ------------------------------------------------------------------ *)
(** ** Unwalkable end points *)
(* ------------------------------------------------------------------ *)

(** The message [validate_inputs] gives for an unwalkable end point. *)
Definition not_walkable_message (g : Grid) (start goal : pos) : string :=
  if is_walkable g (fst start) (snd start)
  then ("Goal position " ++ Py.repr_pair goal ++ " is not walkable")%string
  else ("Start position " ++ Py.repr_pair start ++ " is not walkable")%string.

(** C9, as the code has it.  When the start or the goal is inside the grid
    but unwalkable, every engine that validates returns at once, before any
    node is expanded and without touching the grid, a failure whose reason is
    the sentence "Start position (x, y) is not walkable" (or "Goal position
    ..."). *)
Theorem unwalkable_endpoint_is_rejected (e : engine) (g : Grid) (start goal : pos) :
  is_valid_position g (fst start) (snd start) = true ->
  is_valid_position g (fst goal) (snd goal) = true ->
  is_walkable g (fst start) (snd start) = false
  \/ is_walkable g (fst goal) (snd goal) = false ->
  exists r,
    prologue e g start goal = Returns r g
    /\ found r = false /\ path r = []
    /\ error_message r = Some (not_walkable_message g start goal)
    /\ nodes_expanded r = 0.
Proof.
  intros Hs Hg Hw.
  pose proof (validate_inputs_unwalkable g start goal Hs Hg Hw) as Hv.
  destruct (prologue_invalid e g start goal _ Hv) as (r & Hr & Hm).
  exists r. split; [ exact Hr |].
  apply made_fields in Hm as (Hp & Hf & He & _ & _ & Hn & _).
  repeat split; assumption.
Qed.

(** A 2x1 grid whose first cell is blocked. *)
Definition blocked_start_grid : Grid := set_walkable (Grid_init CGrid 2 1) 0 0 false.

Lemma unwalkable_endpoint_witness :
  exists r,
    prologue EJumpPointSearch blocked_start_grid (0, 0) (1, 0) = Returns r blocked_start_grid
    /\ found r = false /\ path r = []
    /\ error_message r = Some (not_walkable_message blocked_start_grid (0, 0) (1, 0))
    /\ nodes_expanded r = 0.
Proof.
  apply (unwalkable_endpoint_is_rejected EJumpPointSearch blocked_start_grid (0, 0) (1, 0));
    [ reflexivity | reflexivity | left; reflexivity ].
Defined.

(** A 2x1 grid whose second cell is blocked. *)
Definition blocked_goal_grid : Grid := set_walkable (Grid_init CGrid 2 1) 1 0 false.

(** The reason reported for a blocked start is a sentence naming the cell,
    not the word "Unwalkable".  [DijkstraAllPaths] does not validate: with a
    blocked goal it expands the start node and then reports "Goal not
    reachable". *)
Lemma unwalkable_reason_is_a_sentence :
  (exists r g',
      AStar.find_path 0 (fun _ => 0) "euclidean" 1%float blocked_start_grid (0, 0) (1, 0)
      = Done (r, g')
      /\ found r = false
      /\ error_message r = Some "Start position (0, 0) is not walkable"
      /\ error_message r <> Some "Unwalkable")
  /\ (exists r g',
         DijkstraAllPaths.find_path 1 (creation_order 2) blocked_goal_grid (0, 0) (1, 0)
         = Done (r, g')
         /\ found r = false
         /\ error_message r = Some "Goal not reachable"
         /\ nodes_expanded r = 1).
Proof.
  split.
  - eexists _, _. split; [ reflexivity |]. cbn. repeat split. discriminate.
  - eexists _, _. split; [ vm_compute; reflexivity |]. cbn. auto.
Qed.

(* ------------------------------------------------------------------ *)
(** ** The opening lines and the modelled [find_path] functions agree *)
(* ------------------------------------------------------------------ *)

Lemma AStar_returns_early fuel id ht w g start goal r g' :
  prologue EAStar g start goal = Returns r g' ->
  AStar.find_path fuel id ht w g start goal = Done (r, g').
Proof. unfold prologue, AStar.find_path. intros ->. reflexivity. Qed.

Lemma Dijkstra_returns_early fuel id g start goal r g' :
  prologue EDijkstra g start goal = Returns r g' ->
  Dijkstra.find_path fuel id g start goal = Done (r, g').
Proof. unfold prologue, Dijkstra.find_path. intros ->. reflexivity. Qed.

Lemma IDAStar_returns_early fuel ht mi g start goal r g' :
  prologue EIDAStar g start goal = Returns r g' ->
  IDAStar.find_path fuel ht mi g start goal = Done (r, g').
Proof.
  unfold prologue, IDAStar.find_path, IDAStar.find_path_trace. intros ->. reflexivity.
Qed.

Lemma WeightedAStar_returns_early fuel id ht g start goal r g' :
  prologue EWeightedAStar g start goal = Returns r g' ->
  WeightedAStar.find_path fuel id ht 1.5%float g start goal = Done (r, g').
Proof.
  unfold prologue, WeightedAStar.find_path, AStar.find_path.
  destruct (open_search None g start goal); cbn [decorate]; intros H; inversion H.
  reflexivity.
Qed.

Lemma UniformCostSearch_returns_early fuel id g start goal r g' :
  prologue EUniformCostSearch g start goal = Returns r g' ->
  UniformCostSearch.find_path fuel id g start goal = Done (r, g').
Proof.
  unfold prologue, UniformCostSearch.find_path, Dijkstra.find_path.
  destruct (open_search None g start goal); cbn [decorate]; intros H; inversion H.
  reflexivity.
Qed.

Lemma MemoryBoundedAStar_returns_early fuel ht g start goal r g' :
  prologue EMemoryBoundedAStar g start goal = Returns r g' ->
  MemoryBoundedAStar.find_path fuel ht 10000 g start goal = Done (r, g').
Proof.
  unfold prologue, MemoryBoundedAStar_open, MemoryBoundedAStar.find_path,
    IDAStar.find_path, IDAStar.find_path_trace.
  destruct (truthy (validate_inputs g start goal)); [ intros H; inversion H; reflexivity |].
  destruct (open_search None g start goal); cbn [decorate bind]; intros H; inversion H.
  destruct (found r0); reflexivity.
Qed.

Lemma RRT_returns_early fuel cfg rng g start goal r g' :
  prologue ERRT g start goal = Returns r g' ->
  RRT.find_path fuel cfg rng g start goal = Done (r, g').
Proof.
  unfold prologue, sampling_open, RRT.find_path, RRT.find_path_state.
  destruct (truthy (validate_inputs g start goal)); intros H; inversion H. reflexivity.
Qed.

(* ------------------------------------------------------------------ *)
(** ** [start == goal] *)
(* ------------------------------------------------------------------ *)

(** The sampling engines count an expansion for every node they add, and
    add one before they can report success. *)
Lemma RRT_iterate_found_expands fuel cfg rng g goal_node (todo : list Z) :
  forall st r st',
    0 <= _nodes_expanded (RRT.metrics st) ->
    RRT.iterate fuel cfg rng g goal_node todo st = Done (r, st') ->
    found r = true -> 1 <= nodes_expanded r.
Proof.
  induction todo as [| iteration todo IH]; intros st r st' Hm H Hf; cbn [RRT.iterate] in H.
  - outcome_inv. discriminate Hf.
  - destruct (if Py.lt _ _ then _ else _) as [sample drawn'].
    destruct (RRT._find_nearest_node _ _ _) as [nearest |];
      [| eapply IH; [| exact H | exact Hf ]; exact Hm ].
    outcome_inv.
    match goal with H : match ?o with Some _ => _ | None => _ end = _ |- _ =>
      destruct o as [new_node |] end;
      [| eapply IH; [| eassumption | exact Hf ]; exact Hm ].
    destruct (Py.le _ _);
      [| eapply IH; [| eassumption | exact Hf ]; cbn; lia ].
    outcome_inv.
    match goal with H : (if ?b then _ else _) = _ |- _ => destruct b end;
      [| eapply IH; [| eassumption | exact Hf ]; cbn; lia ].
    outcome_inv. cbn. lia.
Qed.

Lemma RRT_found_expands fuel cfg rng g start goal r g' :
  RRT.find_path fuel cfg rng g start goal = Done (r, g') ->
  found r = true -> 1 <= nodes_expanded r.
Proof.
  unfold RRT.find_path, RRT.find_path_state.
  destruct (truthy (validate_inputs g start goal)); cbn [bind alloc].
  - intros H Hf. outcome_inv. discriminate Hf.
  - intros H Hf. outcome_inv.
    eapply RRT_iterate_found_expands; [| eassumption | exact Hf ]. cbn. lia.
Qed.

(** C2, as the code has it.  For a valid, walkable [p], every grid engine
    that validates and whose capability test passes answers
    [find_path(p, p)] at once with the one-point path, length and cost zero
    and no node expanded.  [RRT] and [RRT*] have no such shortcut: a success
    of theirs has expanded a node. *)
Theorem start_equals_goal (e : engine) (g : Grid) (p : pos) :
  validate_inputs g p p = None -> gate_passes e g = true -> is_sampling e = false ->
  (exists r g',
      prologue e g p p = Returns r g'
      /\ found r = true /\ path r = [int_waypoint p]
      /\ path_length r = 0%float /\ path_cost r = 0%float /\ nodes_expanded r = 0)
  /\ (forall fuel cfg rng r g',
         RRT.find_path fuel cfg rng g p p = Done (r, g') ->
         found r = true -> 1 <= nodes_expanded r).
Proof.
  intros Hv Hgate Hs. split.
  - destruct (prologue_start_is_goal e g p Hv Hgate Hs) as (r & g' & Hr & Hm).
    exists r, g'. split; [ exact Hr |].
    apply made_fields in Hm as (Hp & Hf & _ & Hc & Hl & Hn & _).
    repeat split; assumption.
  - intros fuel cfg rng r g'. apply RRT_found_expands.
Qed.

Lemma start_equals_goal_witness :
  (exists r g',
      prologue ELazyThetaStar (Grid_init CAngleGrid 3 3) (1, 1) (1, 1) = Returns r g'
      /\ found r = true /\ path r = [int_waypoint (1, 1)]
      /\ path_length r = 0%float /\ path_cost r = 0%float /\ nodes_expanded r = 0)
  /\ (forall fuel cfg rng r g',
         RRT.find_path fuel cfg rng (Grid_init CAngleGrid 3 3) (1, 1) (1, 1) = Done (r, g') ->
         found r = true -> 1 <= nodes_expanded r).
Proof.
  apply (start_equals_goal ELazyThetaStar (Grid_init CAngleGrid 3 3) (1, 1));
    reflexivity.
Defined.

(** [RRT()] with its default arguments: step 1.0, 10000 iterations, goal
    bias 0.1. *)
Definition default_RRT : RRT.config := RRT.mkConfig 1%float 10000 0.1%float RRT.Plain.

(** [RRT()] on an open 3x3 grid, asked for a path from the centre to the
    centre, when the generator keeps returning 0.5: every sample is the
    centre itself, no node is ever added, and the call reports a failure.
    [DijkstraAllPaths] from (0, 0) to (0, 0) on an open 2x2 grid finds the
    one-point path after expanding all four nodes. *)
Lemma start_equals_goal_without_shortcut :
  (exists r g',
      RRT.find_path 0 default_RRT (fun _ => 0.5%float) (Grid_init CGrid 3 3) (1, 1) (1, 1)
      = Done (r, g')
      /\ found r = false /\ path r = []
      /\ error_message r = Some "No path found within 10000 iterations")
  /\ (exists r g',
         DijkstraAllPaths.find_path 6 (creation_order 2) (Grid_init CGrid 2 2) (0, 0) (0, 0)
         = Done (r, g')
         /\ found r = true /\ path r = [int_waypoint (0, 0)] /\ nodes_expanded r = 4).
Proof.
  split.
  - eexists _, _. split; [ vm_compute; reflexivity |]. cbn. auto.
  - eexists _, _. split; [ vm_compute; reflexivity |]. cbn. auto.
Qed.

(* ------------------------------------------------------------------ *)
(** ** Line of sight in Incremental Phi* *)
(* ------------------------------------------------------------------ *)

(** A 3x1 dynamic grid whose middle cell is blocked. *)
Definition wall_grid : Grid := set_walkable (Grid_init CDynamicGrid 3 1) 1 0 false.

(** The same obstacles on a grid with the any-angle capability. *)
Definition angle_wall_grid : Grid := set_walkable (Grid_init CAngleGrid 3 1) 1 0 false.

(** C4, as the code has it.  On a map with the any-angle capability (an
    [AngleGrid]), for two points whose coordinates [int] converts,
    [has_line_of_sight] answers, and it answers [False] exactly when a cell
    of its walk from the first point to the second is unwalkable; it reads
    the map and returns a boolean, nothing else.  It is the test that
    Theta* (through [_line_of_sight_check]) and Lazy Theta* make, and both,
    like Basic Theta*, turn away a map of another class.  Incremental Phi*
    does not make it: the maps it accepts are [DynamicGrid]s, which have no
    such query, and its own [_has_line_of_sight] answers [True] for every
    pair of nodes without reading the map. *)
Theorem line_of_sight_is_the_test_of_the_theta_engines :
  (forall (g : Grid) (x1 y1 x2 y2 : float) (ix1 iy1 ix2 iy2 : Z) (fuel : nat),
      cls g = CAngleGrid ->
      Py.int_of_float x1 = Some ix1 -> Py.int_of_float y1 = Some iy1 ->
      Py.int_of_float x2 = Some ix2 -> Py.int_of_float y2 = Some iy2 ->
      (Z.to_nat (Z.abs (ix2 - ix1) + Z.abs (iy2 - iy1)) <= fuel)%nat ->
      exists b, has_line_of_sight fuel g x1 y1 x2 y2 = Done b /\
                (b = false <->
                 exists c, In c (walk ix1 iy1 ix2 iy2)
                           /\ is_walkable g (fst c) (snd c) = false))
  /\ (forall fuel g coords node,
         ThetaStar._line_of_sight_check fuel g coords node
         = has_line_of_sight fuel g (fst coords) (snd coords)
             (Py.float_of_int (fst node)) (Py.float_of_int (snd node)))
  /\ (forall fuel g coords node,
         LazyThetaStar.line_of_sight_at_expansion fuel g coords node
         = has_line_of_sight fuel g (fst coords) (snd coords)
             (Py.float_of_int (fst node)) (Py.float_of_int (snd node)))
  /\ (forall e g start goal,
         e = EThetaStar \/ e = EBasicThetaStar \/ e = ELazyThetaStar ->
         validate_inputs g start goal = None -> cls g <> CAngleGrid ->
         exists r, prologue e g start goal = Returns r g
                   /\ found r = false /\ path r = [])
  /\ (forall g, is_DynamicGrid g = true ->
         forall fuel x1 y1 x2 y2,
           has_line_of_sight fuel g x1 y1 x2 y2 = Raised "AttributeError")
  /\ (forall g from_node to_node,
         IncrementalPhiStar._has_line_of_sight g from_node to_node = true).
Proof.
  split; [ exact has_line_of_sight_false_iff |].
  split; [ reflexivity |]. split; [ reflexivity |]. split; [| split ].
  - intros e g start goal He Hv Hc.
    assert (Hgate : is_AngleGrid g = false)
      by (unfold is_AngleGrid; destruct (cls g); congruence).
    destruct He as [-> | [-> | ->]]; unfold prologue, ThetaStar_open, LazyThetaStar_open;
      rewrite open_search_eq, Hv, Hgate; cbn [negb decorate];
      eexists; (split; [ reflexivity |]); split; reflexivity.
  - intros g Hd fuel x1 y1 x2 y2. unfold has_line_of_sight, is_DynamicGrid in *.
    destruct (cls g); try discriminate Hd. reflexivity.
  - reflexivity.
Qed.

(** The first part at a blocked pair of an [AngleGrid]: the query returns
    [False]. *)
Lemma line_of_sight_witness :
  exists b, has_line_of_sight 2 angle_wall_grid 0%float 0%float 2%float 0%float = Done b /\
            (b = false <->
             exists c, In c (walk 0 0 2 0)
                       /\ is_walkable angle_wall_grid (fst c) (snd c) = false).
Proof.
  apply (proj1 line_of_sight_is_the_test_of_the_theta_engines
               angle_wall_grid 0%float 0%float 2%float 0%float 0 0 2 0 2%nat);
    reflexivity.
Defined.

(** The test of Incremental Phi* is another one.  Between (0, 0) and (2, 0) lies
    the blocked cell (1, 0).  On the [AngleGrid] the map's query answers
    [False], and [IncrementalPhiStar._has_line_of_sight], handed the same
    map and pair, answers [True]: it is not that query.  On the
    [DynamicGrid], the only class of map that [IncrementalPhiStar.find_path]
    accepts, the query does not exist, and the engine's own test answers
    [True] again, so that [_get_any_angle_cost] prices the blocked segment at
    its Euclidean length. *)
Lemma phi_star_has_a_line_of_sight_test_of_its_own :
  In (1, 0) (walk 0 0 2 0)
  /\ is_walkable angle_wall_grid 1 0 = false /\ is_walkable wall_grid 1 0 = false
  /\ has_line_of_sight 2 angle_wall_grid 0%float 0%float 2%float 0%float = Done false
  /\ IncrementalPhiStar._has_line_of_sight angle_wall_grid (0, 0) (2, 0) = true
  /\ gate_passes EIncrementalPhiStar wall_grid = true
  /\ gate_passes EIncrementalPhiStar angle_wall_grid = false
  /\ has_line_of_sight 2 wall_grid 0%float 0%float 2%float 0%float
     = Raised "AttributeError"
  /\ IncrementalPhiStar._has_line_of_sight wall_grid (0, 0) (2, 0) = true
  /\ IncrementalPhiStar._get_any_angle_cost wall_grid (0, 0) (2, 0) = 2%float.
Proof.
  repeat split; try reflexivity. vm_compute. auto.
Qed.

(* ------------------------------------------------------------------ *)
(** ** The cost equation in the RRT* tree *)
(* ------------------------------------------------------------------ *)

(** [cost(node) = cost(parent) + dist(parent, node)] at the node [r] of the
    store [s] (true of a node without parent). *)
Definition cost_equation (s : store) (r : ref) : bool :=
  match s_parent (deref s r) with
  | None => true
  | Some p =>
      Py.eq (cost (deref s r))
            (PrimFloat.add (cost (deref s p)) (distance_to (deref s p) (deref s r)))
  end.

(** [RRTStar(max_iterations=n)] with the other arguments at their defaults
    (step 1.0, goal bias 0.1, rewiring radius 2.0). *)
Definition RRTStar_with (n : Z) : RRT.config :=
  RRT.mkConfig 1%float n 0.1%float (RRT.Star 2%float).

(** Eighteen values of [random.random()]: three per iteration, the first
    above the goal bias, the other two placing the samples (0, 4), (4, 1),
    (4, 1), (4, 1), (2.25, 1) and (0.5, 0.25) on an open 9x9 grid. *)
Definition rewiring_draws : list float :=
  [0.5; 0; 0.5;  0.5; 0.5; 0.125;  0.5; 0.5; 0.125;  0.5; 0.5; 0.125;
   0.5; 0.28125; 0.125;  0.5; 0.0625; 0.03125]%float.

Definition rewiring_rng (n : nat) : float := nth n rewiring_draws 0.5%float.

(** The tree after [n] iterations of that run, from (0, 0) towards (8, 8). *)
Definition rewiring_run (n : Z) : outcome (PathfindingResult * RRT.state) :=
  RRT.find_path_state 50 (RRTStar_with n) rewiring_rng (Grid_init CGrid 9 9) (0, 0) (8, 8).

Definition tree_of (o : outcome (PathfindingResult * RRT.state)) : store * list ref :=
  match o with
  | Done (_, st) => (RRT.objects st, RRT.tree_nodes st)
  | _ => ([], [])
  end.

(** C8 at a failing input.  After five iterations the tree holds two nodes,
    5 and 6, at the same point (3, 1), both with parent 4, and the cost
    equation holds at every node; but node 6 is missing from the children of
    node 4, whose set already held the equal node 5.  The sixth iteration adds
    node 7 and rewires node 4 through it: the cost of node 4 drops, the update
    of its descendants reaches node 5 only, and node 6 keeps its old cost. *)
Theorem rewiring_misses_a_descendant :
  (let '(s, nodes) := tree_of (rewiring_run 5) in
   nodes = [0; 2; 3; 4; 5; 6]%nat
   /\ forallb (cost_equation s) nodes = true
   /\ s_parent (deref s 5%nat) = Some 4%nat /\ s_parent (deref s 6%nat) = Some 4%nat
   /\ children (deref s 4%nat) = [5%nat])
  /\
  (let '(s, nodes) := tree_of (rewiring_run 6) in
   nodes = [0; 2; 3; 4; 5; 6; 7]%nat
   /\ s_parent (deref s 4%nat) = Some 7%nat
   /\ s_parent (deref s 6%nat) = Some 4%nat
   /\ cost (deref s 4%nat) = 2.2360679774997898%float
   /\ distance_to (deref s 4%nat) (deref s 6%nat) = 1%float
   /\ cost (deref s 6%nat) = 3.4142135623730949%float
   /\ cost_equation s 5%nat = true
   /\ cost_equation s 6%nat = false).
Proof.
  vm_compute. repeat split.
Qed.

(* ------------------------------------------------------------------ *)
(** ** The priority queue *)
(* ------------------------------------------------------------------ *)

Lemma heappop_In h e h' :
  heappop h = Some (e, h') -> forall x, In x h <-> x = e \/ In x h'.
Proof.
  revert e h'. induction h as [| a h IH]; intros e h' H x; [ discriminate |].
  cbn [heappop] in H. destruct (heappop h) as [[m r'] |] eqn:E.
  - specialize (IH m r' eq_refl).
    destruct (entry_lt m a); inversion H; subst; cbn [In]; rewrite ?IH; intuition.
  - inversion H; subst. destruct h; [| cbn in E; destruct (heappop h); [ destruct p; destruct (entry_lt _ _) |]; discriminate ].
    cbn [In]. intuition.
Qed.

Lemma heappop_count (f : entry -> bool) h e h' :
  heappop h = Some (e, h') ->
  List.length (filter f h) = ((if f e then 1 else 0) + List.length (filter f h'))%nat.
Proof.
  revert e h'. induction h as [| a h IH]; intros e h' H; [ discriminate |].
  cbn [heappop] in H. destruct (heappop h) as [[m r'] |] eqn:E.
  - specialize (IH m r' eq_refl).
    destruct (entry_lt m a); inversion H; subst; cbn [filter].
    + destruct (f a); cbn [List.length]; rewrite IH; destruct (f e); lia.
    + destruct (f e); cbn [List.length]; lia.
  - inversion H; subst. destruct h; [| cbn in E; destruct (heappop h); [ destruct p; destruct (entry_lt _ _) |]; discriminate ].
    cbn. destruct (f e); reflexivity.
Qed.

Lemma heappop_None h : heappop h = None -> h = [].
Proof.
  destruct h as [| a h]; [ reflexivity |]. cbn.
  destruct (heappop h) as [[m r'] |]; [ destruct (entry_lt m a) |]; discriminate.
Qed.

(** The tuple order on entries whose keys are numbers, read on the
    specification of the floats. *)
Definition sf_entry_lt (x y : spec_float) (i j : Z) : bool :=
  if negb (SFeqb x y) then SFltb x y
  else if negb (i =? j) then i <? j
  else false.

Lemma entry_lt_spec (a b : entry) :
  entry_lt a b = sf_entry_lt (Prim2SF (e_key a)) (Prim2SF (e_key b)) (e_id a) (e_id b).
Proof.
  unfold entry_lt, sf_entry_lt, Py.eq, Py.lt.
  rewrite FloatAxioms.eqb_spec, FloatAxioms.ltb_spec. reflexivity.
Qed.

Section EntryOrder.

Ltac sf_cases3 :=
  unfold sf_entry_lt, SFeqb, SFltb, SFleb, SFcompare;
  repeat match goal with
         | x : spec_float |- _ => destruct x as [[|] | [|] | | [|] ? ?]
         end; cbn [negb]; try congruence.

Ltac cmp_cases :=
  repeat match goal with
         | |- context [Z.compare ?a ?b] => destruct (Z.compare_spec a b); subst
         end; cbn [negb CompOpp]; try congruence; try lia;
  repeat match goal with
         | |- context [Z.compare ?a ?a] => rewrite Z.compare_refl; cbn [negb CompOpp]
         end; try congruence;
  repeat match goal with
         | |- context [Pos.compare_cont Eq ?a ?b] =>
             change (Pos.compare_cont Eq a b) with (Pos.compare a b)
         end;
  repeat match goal with
         | |- context [Pos.compare ?a ?b] => destruct (Pos.compare_spec a b); subst
         end; cbn [negb CompOpp]; try congruence; try lia;
  repeat match goal with
         | |- context [Z.eqb ?a ?b] => destruct (Z.eqb_spec a b); subst
         end; cbn [negb]; try congruence; try lia;
  repeat match goal with
         | |- context [Z.ltb ?a ?b] => destruct (Z.ltb_spec a b)
         end; try congruence; try lia.

Lemma sf_entry_lt_irrefl x i : sf_entry_lt x x i i = false.
Proof. sf_cases3; cmp_cases. Qed.

Lemma sf_entry_lt_asym x y i j :
  sf_entry_lt x y i j = true -> sf_entry_lt y x j i = false.
Proof. sf_cases3; cmp_cases. Qed.

Lemma sf_entry_lt_negtrans x y z i j k :
  SFleb x x = true -> SFleb y y = true -> SFleb z z = true ->
  sf_entry_lt x y i j = false -> sf_entry_lt y z j k = false ->
  sf_entry_lt x z i k = false.
Proof. sf_cases3; cmp_cases. Qed.

Lemma sf_entry_tie x y i j :
  SFeqb x y = true -> sf_entry_lt x y i j = false -> j <= i.
Proof. sf_cases3; cmp_cases. Qed.

End EntryOrder.

(** A key that is a number (not a NaN). *)
Definition key_is_number (e : entry) : Prop := Py.le (e_key e) (e_key e) = true.

(** The popped entry is a least one: no entry of the queue is smaller. *)
Lemma heappop_least h : forall e h',
  heappop h = Some (e, h') -> Forall key_is_number h ->
  forall x, In x h -> entry_lt x e = false.
Proof.
  induction h as [| a h IH]; intros e h' H Hnum x Hx; [ discriminate |].
  pose proof (Forall_inv Hnum) as Ha. pose proof (Forall_inv_tail Hnum) as Hh.
  cbn [heappop] in H. destruct (heappop h) as [[m r'] |] eqn:E.
  - specialize (IH m r' eq_refl Hh).
    destruct (entry_lt m a) eqn:Hma; injection H as <- <-.
    + destruct Hx as [<- | Hx]; [| apply IH; exact Hx ].
      rewrite entry_lt_spec in *. apply sf_entry_lt_asym. exact Hma.
    + destruct Hx as [<- | Hx].
      * rewrite entry_lt_spec. apply sf_entry_lt_irrefl.
      * specialize (IH x Hx).
        assert (Hm : In m h) by (apply (heappop_In _ _ _ E); left; reflexivity).
        rewrite Forall_forall in Hh.
        pose proof (Hh x Hx) as Hxn. pose proof (Hh m Hm) as Hmn.
        unfold key_is_number, Py.le in *. rewrite FloatAxioms.leb_spec in *.
        rewrite entry_lt_spec in *.
        eapply sf_entry_lt_negtrans; [ | exact Hmn | | exact IH | exact Hma ];
          assumption.
  - apply heappop_None in E. subst h. injection H as <- <-.
    destruct Hx as [<- | []]. rewrite entry_lt_spec. apply sf_entry_lt_irrefl.
Qed.

(* ------------------------------------------------------------------ *)
(** ** The parent links and the closed set *)
(* ------------------------------------------------------------------ *)

Definition parent_of (g : Grid) (p : pos) : option pos :=
  match node_at g p with
  | Some n => parent n
  | None => None
  end.

Definition has_node (g : Grid) (p : pos) : Prop := node_at g p <> None.

(** Along the closed set, read from the most recently closed node back, the
    parent of a node was closed before the node itself. *)
Fixpoint chain_closed (g : Grid) (cl : list pos) : Prop :=
  match cl with
  | [] => True
  | p :: rest => (forall q, parent_of g p = Some q -> In q rest) /\ chain_closed g rest
  end.

(** The invariant of the A* and Dijkstra loops. *)
Record search_inv (g : Grid) (open : list entry) (closed : list pos) : Prop := {
  inv_open : forall e, In e open -> has_node g (e_node e);
  inv_closed : forall p, In p closed -> has_node g p;
  inv_parent : forall p q, parent_of g p = Some q -> In q closed;
  inv_chain : chain_closed g closed
}.

(** The two components of the loop measure: the cells not yet closed, and
    the queue entries whose node is closed already. *)
Definition unclosed (g : Grid) (closed : list pos) : nat :=
  List.length (filter (fun p => negb (set_mem p closed)) (all_cells g)).

Definition stale (open : list entry) (closed : list pos) : nat :=
  List.length (filter (fun e => set_mem (e_node e) closed) open).

Lemma all_cells_update_node g p f : all_cells (update_node g p f) = all_cells g.
Proof.
  unfold update_node. destruct (is_valid_position g (fst p) (snd p)); reflexivity.
Qed.

Lemma has_node_update_node g p f q : has_node (update_node g p f) q <-> has_node g q.
Proof.
  unfold has_node. destruct (pos_eqb p q) eqn:E.
  - apply pos_eqb_eq in E. subst q. rewrite node_at_update_node_same.
    destruct (node_at g p); cbn; split; congruence.
  - apply pos_eqb_neq in E. rewrite node_at_update_node_other by exact E. tauto.
Qed.

Lemma parent_of_update_node_other g p f q :
  p <> q -> parent_of (update_node g p f) q = parent_of g q.
Proof. intros H. unfold parent_of. rewrite node_at_update_node_other by exact H. reflexivity. Qed.

Lemma parent_of_update_node_keep g p f q :
  (forall n, parent (f n) = parent n) ->
  parent_of (update_node g p f) q = parent_of g q.
Proof.
  intros Hf. destruct (pos_eqb p q) eqn:E.
  - apply pos_eqb_eq in E. subst q. unfold parent_of. rewrite node_at_update_node_same.
    destruct (node_at g p); cbn; auto.
  - apply pos_eqb_neq in E. apply parent_of_update_node_other. exact E.
Qed.

Lemma chain_closed_ext g g' cl :
  (forall p, In p cl -> parent_of g' p = parent_of g p) ->
  chain_closed g cl -> chain_closed g' cl.
Proof.
  induction cl as [| p rest IH]; intros Hext H; [ exact I |].
  destruct H as [Hp Hrest]. split.
  - intros q Hq. apply Hp. rewrite <- Hext; [ exact Hq | left; reflexivity ].
  - apply IH; [| exact Hrest ]. intros p' Hp'. apply Hext. right. exact Hp'.
Qed.

Lemma search_inv_update_keep g open closed p f :
  (forall n, parent (f n) = parent n) ->
  search_inv g open closed -> search_inv (update_node g p f) open closed.
Proof.
  intros Hf [Ho Hc Hp Hch]. constructor.
  - intros e He. apply has_node_update_node. auto.
  - intros q Hq. apply has_node_update_node. auto.
  - intros q r. rewrite parent_of_update_node_keep by exact Hf. apply Hp.
  - eapply chain_closed_ext; [| exact Hch ].
    intros q _. apply parent_of_update_node_keep. exact Hf.
Qed.

(** Walking the parent links from a closed node ends within as many steps
    as there are closed nodes. *)
Lemma get_path_loop_closed g (cl : list pos) :
  chain_closed g cl -> (forall p, In p cl -> has_node g p) ->
  forall p fuel acc, In p cl -> (List.length cl <= fuel)%nat ->
  exists path, get_path_loop fuel g (Some p) acc = Done path.
Proof.
  induction cl as [| p0 rest IH]; intros Hch Hn p fuel acc Hin Hfuel; [ contradiction |].
  destruct Hch as [Hp0 Hrest].
  assert (Hn' : forall q, In q rest -> has_node g q) by (intros; apply Hn; right; auto).
  destruct Hin as [<- | Hin].
  - destruct fuel as [| fuel]; [ cbn in Hfuel; lia |]. cbn [get_path_loop].
    pose proof (Hn p0 (or_introl eq_refl)) as Hnode. unfold has_node in Hnode.
    destruct (node_at g p0) as [n |] eqn:E; [| contradiction ].
    destruct (parent n) as [q |] eqn:Eq.
    + apply (IH Hrest Hn'); [| cbn in Hfuel; lia ].
      apply Hp0. unfold parent_of. rewrite E. exact Eq.
    + eexists. destruct fuel; reflexivity.
  - apply (IH Hrest Hn'); [ exact Hin | cbn in Hfuel; lia ].
Qed.

Lemma get_path_returns g open closed p fuel :
  search_inv g open closed -> has_node g p -> (S (List.length closed) <= fuel)%nat ->
  exists path, get_path fuel g p = Done path.
Proof.
  intros [Ho Hc Hp Hch] Hnode Hfuel. unfold get_path.
  destruct fuel as [| fuel]; [ lia |]. cbn [get_path_loop].
  unfold has_node in Hnode. destruct (node_at g p) as [n |] eqn:E; [| contradiction ].
  destruct (parent n) as [q |] eqn:Eq.
  - apply (get_path_loop_closed g closed Hch Hc); [| lia ].
    apply (Hp p). unfold parent_of. rewrite E. exact Eq.
  - eexists. destruct fuel; reflexivity.
Qed.

(** Relaxing an open neighbour through a closed node keeps the invariant and
    adds no stale entry. *)
Lemma relax_inv g open closed neighbor current n' e :
  search_inv g open closed -> In current closed -> set_mem neighbor closed = false ->
  has_node g neighbor -> parent n' = Some current -> e_node e = neighbor ->
  search_inv (update_node g neighbor (fun _ => n')) (heappush open e) closed
  /\ stale (heappush open e) closed = stale open closed.
Proof.
  intros [Ho Hc Hp Hch] Hcur Hmem Hnode Hpar He.
  apply set_mem_false in Hmem. split.
  - constructor.
    + intros x Hx. apply has_node_update_node. unfold heappush in Hx.
      apply in_app_iff in Hx as [Hx | [<- | []]]; [ auto | rewrite He; exact Hnode ].
    + intros q Hq. apply has_node_update_node. auto.
    + intros p q Hpq. destruct (pos_eqb neighbor p) eqn:E.
      * apply pos_eqb_eq in E. subst p. unfold parent_of in Hpq.
        rewrite node_at_update_node_same in Hpq.
        destruct (node_at g neighbor); cbn in Hpq; [| discriminate ].
        rewrite Hpar in Hpq. inversion Hpq; subst. exact Hcur.
      * apply pos_eqb_neq in E. rewrite parent_of_update_node_other in Hpq by exact E.
        eapply Hp; eauto.
    + eapply chain_closed_ext; [| exact Hch ].
      intros q Hq. apply parent_of_update_node_other. intros ->. contradiction.
  - unfold stale, heappush. rewrite filter_app, length_app. cbn [filter].
    rewrite He. apply set_mem_false in Hmem. rewrite Hmem. cbn. lia.
Qed.

(** What one pass of the neighbour loop may change. *)
Record relaxed (g : Grid) (open : list entry) (closed : list pos)
       (g' : Grid) (open' : list entry) (closed' : list pos) : Prop := {
  rel_closed : closed' = closed;
  rel_cells : all_cells g' = all_cells g;
  rel_nodes : forall q, has_node g' q <-> has_node g q;
  rel_inv : search_inv g' open' closed';
  rel_stale : stale open' closed' = stale open closed
}.

Lemma relaxed_refl g open closed :
  search_inv g open closed -> relaxed g open closed g open closed.
Proof. intros H. constructor; auto. tauto. Qed.

Lemma relaxed_trans g1 o1 c1 g2 o2 c2 g3 o3 c3 :
  relaxed g1 o1 c1 g2 o2 c2 -> relaxed g2 o2 c2 g3 o3 c3 -> relaxed g1 o1 c1 g3 o3 c3.
Proof.
  intros [A1 A2 A3 A4 A5] [B1 B2 B3 B4 B5]. constructor.
  - congruence.
  - congruence.
  - intros q. rewrite B3. apply A3.
  - exact B4.
  - subst. rewrite B5. exact A5.
Qed.

Lemma relaxed_relax g open closed neighbor current n' e :
  search_inv g open closed -> In current closed -> set_mem neighbor closed = false ->
  has_node g neighbor -> parent n' = Some current -> e_node e = neighbor ->
  relaxed g open closed (update_node g neighbor (fun _ => n')) (heappush open e) closed.
Proof.
  intros Hinv Hcur Hmem Hnode Hpar He.
  destruct (relax_inv g open closed neighbor current n' e Hinv Hcur Hmem Hnode Hpar He)
    as [H1 H2].
  constructor; auto.
  - apply all_cells_update_node.
  - intros q. apply has_node_update_node.
Qed.

Lemma AStar_examine_neighbor_relaxed id ht w goal current st neighbor :
  search_inv (AStar.grid st) (AStar.open_set st) (AStar.closed_set st) ->
  In current (AStar.closed_set st) -> has_node (AStar.grid st) neighbor ->
  let st' := AStar.examine_neighbor id ht w goal current st neighbor in
  relaxed (AStar.grid st) (AStar.open_set st) (AStar.closed_set st)
          (AStar.grid st') (AStar.open_set st') (AStar.closed_set st').
Proof.
  intros Hinv Hcur Hnode. unfold AStar.examine_neighbor.
  destruct (set_mem neighbor (AStar.closed_set st)) eqn:Hmem;
    [ apply relaxed_refl; exact Hinv |].
  destruct (node_at (AStar.grid st) current) as [c |]; [| apply relaxed_refl; exact Hinv ].
  destruct (node_at (AStar.grid st) neighbor) as [n |]; [| apply relaxed_refl; exact Hinv ].
  destruct (negb (in_open_set n) || Py.lt _ _); [| apply relaxed_refl; exact Hinv ].
  cbn [AStar.grid AStar.open_set AStar.closed_set].
  eapply relaxed_relax; eauto.
Qed.

Lemma AStar_neighbors_relaxed id ht w goal current (ns : list pos) : forall st,
  search_inv (AStar.grid st) (AStar.open_set st) (AStar.closed_set st) ->
  In current (AStar.closed_set st) ->
  (forall n, In n ns -> has_node (AStar.grid st) n) ->
  let st' := fold_left (AStar.examine_neighbor id ht w goal current) ns st in
  relaxed (AStar.grid st) (AStar.open_set st) (AStar.closed_set st)
          (AStar.grid st') (AStar.open_set st') (AStar.closed_set st').
Proof.
  induction ns as [| n ns IH]; intros st Hinv Hcur Hns; cbn [fold_left].
  - apply relaxed_refl. exact Hinv.
  - pose proof (AStar_examine_neighbor_relaxed id ht w goal current st n Hinv Hcur
                  (Hns n (or_introl eq_refl))) as H1. cbv zeta in H1.
    eapply relaxed_trans; [ exact H1 |].
    apply IH.
    + apply (rel_inv _ _ _ _ _ _ H1).
    + rewrite (rel_closed _ _ _ _ _ _ H1). exact Hcur.
    + intros q Hq. apply (rel_nodes _ _ _ _ _ _ H1). apply Hns. right. exact Hq.
Qed.

Lemma set_add_In p q s : In q (set_add p s) <-> q = p \/ In q s.
Proof.
  unfold set_add. destruct (set_mem p s) eqn:E; cbn [In].
  - apply set_mem_In in E. split; [ auto | intros [-> | H]; auto ].
  - split; intros [H | H]; auto.
Qed.

Lemma filter_length_lt {A} (f f' : A -> bool) (l : list A) (x : A) :
  In x l -> f x = true -> f' x = false ->
  (forall y, f' y = true -> f y = true) ->
  (List.length (filter f' l) < List.length (filter f l))%nat.
Proof.
  intros Hin Hfx Hf'x Himp.
  assert (Hle : forall l0, (List.length (filter f' l0) <= List.length (filter f l0))%nat).
  { induction l0 as [| a l0 IH]; cbn; [ lia |].
    destruct (f' a) eqn:E; [ rewrite (Himp a E); cbn; lia |].
    destruct (f a); cbn; lia. }
  induction l as [| a l IH]; [ contradiction |].
  destruct Hin as [-> | Hin]; cbn [filter].
  - rewrite Hfx, Hf'x. cbn. specialize (Hle l). lia.
  - specialize (IH Hin). destruct (f' a) eqn:E; [ rewrite (Himp a E); cbn; lia |].
    destruct (f a); cbn; lia.
Qed.

Lemma unclosed_set_add g current closed :
  set_mem current closed = false -> In current (all_cells g) ->
  (unclosed g (set_add current closed) < unclosed g closed)%nat.
Proof.
  intros Hmem Hin. unfold unclosed.
  apply (filter_length_lt _ _ _ current Hin).
  - rewrite Hmem. reflexivity.
  - apply negb_false_iff. apply set_mem_In. apply set_add_In. left. reflexivity.
  - intros y Hy. apply negb_true_iff in Hy. apply negb_true_iff.
    apply set_mem_false in Hy. apply set_mem_false. intros H. apply Hy.
    apply set_add_In. right. exact H.
Qed.

Lemma has_node_in_cells g p : has_node g p -> In p (all_cells g).
Proof.
  unfold has_node. intros H. destruct (node_at g p) as [n |] eqn:E; [| contradiction ].
  apply valid_in_all_cells. eapply node_at_valid; eauto.
Qed.

Lemma search_inv_close g open open' closed current :
  search_inv g open closed -> has_node g current ->
  (forall e, In e open' -> In e open) ->
  search_inv g open' (set_add current closed).
Proof.
  intros [Ho Hc Hp Hch] Hnode Hsub. constructor.
  - intros e He. apply Ho. apply Hsub. exact He.
  - intros p Hpin. apply set_add_In in Hpin as [-> | Hpin]; auto.
  - intros p q Hpq. apply set_add_In. right. eapply Hp; eauto.
  - unfold set_add. destruct (set_mem current closed); [ exact Hch |].
    split; [| exact Hch ]. intros q Hq. eapply Hp; eauto.
Qed.

(** The order on the loop measure. *)
Definition measure_lt (m' m : nat * nat) : Prop :=
  (fst m' < fst m)%nat \/ (fst m' = fst m /\ (snd m' < snd m)%nat).

Definition AStar_measure (st : AStar.state) : nat * nat :=
  (unclosed (AStar.grid st) (AStar.closed_set st),
   stale (AStar.open_set st) (AStar.closed_set st)).

Definition AStar_inv (st : AStar.state) : Prop :=
  search_inv (AStar.grid st) (AStar.open_set st) (AStar.closed_set st).

(** One turn of the A* loop either returns (given enough fuel for the walk
    back along the parents), or goes on in a state of smaller measure. *)
Lemma AStar_step_cases id ht w goal st :
  AStar_inv st ->
  (exists k, forall fuel, (k <= fuel)%nat ->
      exists r g', AStar.step fuel id ht w goal st = Return (Done (r, g')))
  \/ (exists st', (forall fuel, AStar.step fuel id ht w goal st = Continue st')
                  /\ AStar_inv st' /\ measure_lt (AStar_measure st') (AStar_measure st)).
Proof.
  intros Hinv. unfold AStar.step.
  destruct (heappop (AStar.open_set st)) as [[e open'] |] eqn:Hpop.
  2:{ left. exists O. intros fuel _. eauto. }
  pose proof (heappop_In _ _ _ Hpop) as HIn.
  assert (Hcur : has_node (AStar.grid st) (e_node e)).
  { apply (inv_open _ _ _ Hinv). apply HIn. left. reflexivity. }
  set (g1 := update_node (AStar.grid st) (e_node e) (set_in_open_set false)).
  assert (Hinv1 : search_inv g1 (AStar.open_set st) (AStar.closed_set st)).
  { apply search_inv_update_keep; [ reflexivity | exact Hinv ]. }
  assert (Hcur1 : has_node g1 (e_node e)) by (apply has_node_update_node; exact Hcur).
  destruct (pos_eqb (e_node e) goal) eqn:Hgoal.
  - left. exists (S (List.length (AStar.closed_set st))). intros fuel Hfuel.
    destruct (get_path_returns g1 _ _ (e_node e) fuel Hinv1 Hcur1 Hfuel) as [p Hp].
    rewrite Hp. cbn [bind]. eauto.
  - right. eexists. split; [ intros fuel; reflexivity |].
    set (closed' := set_add (e_node e) (AStar.closed_set st)).
    set (st1 := AStar.mkState g1 open' closed' _).
    assert (Hinv1' : AStar_inv st1).
    { unfold AStar_inv. cbn. apply (search_inv_close g1 (AStar.open_set st));
        [ exact Hinv1 | exact Hcur1 |]. intros x Hx. apply HIn. right. exact Hx. }
    pose proof (AStar_neighbors_relaxed id ht w goal (e_node e)
                  (get_neighbors g1 (e_node e)) st1 Hinv1') as Hrel.
    cbv zeta in Hrel. cbn [AStar.grid AStar.open_set AStar.closed_set st1] in Hrel.
    specialize (Hrel ltac:(apply set_add_In; left; reflexivity)).
    specialize (Hrel ltac:(intros n Hn; apply get_neighbors_walkable in Hn;
                           apply is_walkable_node in Hn as [x Hx];
                           rewrite <- surjective_pairing in Hx;
                           unfold has_node; rewrite Hx; discriminate)).
    destruct Hrel as [R1 R2 R3 R4 R5].
    split; [ exact R4 |].
    unfold measure_lt, AStar_measure. cbn [fst snd].
    match goal with |- context [unclosed (AStar.grid ?s') (AStar.closed_set ?s')] =>
      assert (Hu : unclosed (AStar.grid s') (AStar.closed_set s') = unclosed g1 closed')
        by (unfold unclosed; rewrite R2, R1; reflexivity);
      assert (Hs : stale (AStar.open_set s') (AStar.closed_set s') = stale open' closed')
        by exact R5
    end.
    assert (Hu0 : unclosed (AStar.grid st) (AStar.closed_set st)
                  = unclosed g1 (AStar.closed_set st))
      by (unfold unclosed, g1; rewrite all_cells_update_node; reflexivity).
    rewrite Hu, Hs, Hu0.
    destruct (set_mem (e_node e) (AStar.closed_set st)) eqn:Hmem.
    + right. unfold closed', set_add. rewrite Hmem. split; [ reflexivity |].
      unfold stale. rewrite (heappop_count _ _ _ _ Hpop). rewrite Hmem. lia.
    + left. apply unclosed_set_add; [ exact Hmem |].
      apply has_node_in_cells. exact Hcur1.
Qed.

Lemma AStar_loop_returns id ht w goal : forall u s st,
  AStar_measure st = (u, s) -> AStar_inv st ->
  exists k, forall fuel, (k <= fuel)%nat ->
    exists r g', AStar.loop fuel id ht w goal st = Done (r, g').
Proof.
  induction u as [u IHu] using lt_wf_ind.
  induction s as [s IHs] using lt_wf_ind.
  intros st Hm Hinv.
  destruct (AStar_step_cases id ht w goal st Hinv)
    as [[k Hk] | (st' & Hstep & Hinv' & Hlt)].
  - exists k. intros fuel Hfuel. destruct (Hk fuel Hfuel) as (r & g' & Hr).
    destruct fuel; cbn [AStar.loop]; rewrite Hr; eauto.
  - rewrite Hm in Hlt. destruct (AStar_measure st') as [u' s'] eqn:Hm'.
    assert (Hrec : exists k', forall fuel, (k' <= fuel)%nat ->
               exists r g', AStar.loop fuel id ht w goal st' = Done (r, g')).
    { destruct Hlt as [Hlt | [Heq Hlt]]; cbn [fst snd] in *.
      - eapply (IHu u' Hlt); eauto.
      - subst u'. eapply (IHs s' Hlt); eauto. }
    destruct Hrec as [k' Hk']. exists (S k'). intros fuel Hfuel.
    destruct fuel as [| fuel]; [ lia |]. cbn [AStar.loop]. rewrite Hstep.
    apply Hk'. lia.
Qed.

Lemma parent_of_reset g p : parent_of (reset_pathfinding_data g) p = None.
Proof.
  unfold parent_of. rewrite node_at_reset. destruct (node_at g p); reflexivity.
Qed.

(** The invariant holds when a loop is entered: on the reset grid, with the
    start node alone in the queue and no parent link set. *)
Lemma search_inv_initial g start start_node f e :
  node_at (reset_pathfinding_data g) start = Some start_node ->
  parent (f start_node) = None -> e_node e = start ->
  search_inv (update_node (reset_pathfinding_data g) start (fun _ => f start_node))
             (heappush [] e) [].
Proof.
  intros Hnode Hpar He.
  assert (Hp : forall p, parent_of (update_node (reset_pathfinding_data g) start
                                      (fun _ => f start_node)) p = None).
  { intros p. destruct (pos_eqb start p) eqn:E.
    - apply pos_eqb_eq in E. subst p. unfold parent_of.
      rewrite node_at_update_node_same, Hnode. exact Hpar.
    - apply pos_eqb_neq in E. rewrite parent_of_update_node_other by exact E.
      apply parent_of_reset. }
  constructor.
  - intros x [<- | []]. rewrite He. apply has_node_update_node.
    unfold has_node. rewrite Hnode. discriminate.
  - intros p [].
  - intros p q Hpq. rewrite Hp in Hpq. discriminate.
  - exact I.
Qed.

(** [AStar.find_path] returns: there is a bound on the loop turns beyond
    which the model always sees the end of the call. *)
Lemma AStar_find_path_returns id ht w g start goal :
  exists k, forall fuel, (k <= fuel)%nat ->
    exists r g', AStar.find_path fuel id ht w g start goal = Done (r, g').
Proof.
  unfold AStar.find_path. rewrite open_search_eq.
  destruct (validate_inputs g start goal) as [msg |] eqn:E;
    [ exists O; intros; eauto |].
  destruct (pos_eqb start goal); [ exists O; intros; eauto |].
  destruct (valid_nodes_after_reset g start goal E) as (ns & ng & Hs & Hg).
  rewrite Hs.
  set (st0 := AStar.initial_state id ht w (reset_pathfinding_data g) start goal ns).
  destruct (AStar_measure st0) as [u s] eqn:Hm.
  apply (AStar_loop_returns id ht w goal u s st0 Hm).
  unfold AStar_inv, st0, AStar.initial_state. cbn [AStar.grid AStar.open_set AStar.closed_set].
  apply (search_inv_initial g start ns
           (fun n => set_in_open_set true
                       (set_f_cost _ (set_h_cost _ (set_g_cost 0%float n)))));
    [ exact Hs | | reflexivity ].
  cbn. pose proof (parent_of_reset g start) as Hp. unfold parent_of in Hp.
  rewrite Hs in Hp. exact Hp.
Qed.

(* ------------------------------------------------------------------ *)
(** ** Dijkstra returns *)
(* ------------------------------------------------------------------ *)

Lemma Dijkstra_examine_neighbor_relaxed id current st neighbor :
  search_inv (Dijkstra.grid st) (Dijkstra.open_set st) (Dijkstra.visited_set st) ->
  In current (Dijkstra.visited_set st) -> has_node (Dijkstra.grid st) neighbor ->
  let st' := Dijkstra.examine_neighbor id current st neighbor in
  relaxed (Dijkstra.grid st) (Dijkstra.open_set st) (Dijkstra.visited_set st)
          (Dijkstra.grid st') (Dijkstra.open_set st') (Dijkstra.visited_set st').
Proof.
  intros Hinv Hcur Hnode. unfold Dijkstra.examine_neighbor.
  destruct (set_mem neighbor (Dijkstra.visited_set st)) eqn:Hmem;
    [ apply relaxed_refl; exact Hinv |].
  destruct (node_at (Dijkstra.grid st) current) as [c |];
    [| apply relaxed_refl; exact Hinv ].
  destruct (node_at (Dijkstra.grid st) neighbor) as [n |];
    [| apply relaxed_refl; exact Hinv ].
  destruct (Py.lt _ _); [| apply relaxed_refl; exact Hinv ].
  cbn [Dijkstra.grid Dijkstra.open_set Dijkstra.visited_set].
  eapply relaxed_relax; eauto.
Qed.

Lemma Dijkstra_neighbors_relaxed id current (ns : list pos) : forall st,
  search_inv (Dijkstra.grid st) (Dijkstra.open_set st) (Dijkstra.visited_set st) ->
  In current (Dijkstra.visited_set st) ->
  (forall n, In n ns -> has_node (Dijkstra.grid st) n) ->
  let st' := fold_left (Dijkstra.examine_neighbor id current) ns st in
  relaxed (Dijkstra.grid st) (Dijkstra.open_set st) (Dijkstra.visited_set st)
          (Dijkstra.grid st') (Dijkstra.open_set st') (Dijkstra.visited_set st').
Proof.
  induction ns as [| n ns IH]; intros st Hinv Hcur Hns; cbn [fold_left].
  - apply relaxed_refl. exact Hinv.
  - pose proof (Dijkstra_examine_neighbor_relaxed id current st n Hinv Hcur
                  (Hns n (or_introl eq_refl))) as H1. cbv zeta in H1.
    eapply relaxed_trans; [ exact H1 |].
    apply IH.
    + apply (rel_inv _ _ _ _ _ _ H1).
    + rewrite (rel_closed _ _ _ _ _ _ H1). exact Hcur.
    + intros q Hq. apply (rel_nodes _ _ _ _ _ _ H1). apply Hns. right. exact Hq.
Qed.

Definition Dijkstra_measure (st : Dijkstra.state) : nat * nat :=
  (unclosed (Dijkstra.grid st) (Dijkstra.visited_set st),
   stale (Dijkstra.open_set st) (Dijkstra.visited_set st)).

Definition Dijkstra_inv (st : Dijkstra.state) : Prop :=
  search_inv (Dijkstra.grid st) (Dijkstra.open_set st) (Dijkstra.visited_set st).

Lemma search_inv_pop g open open' closed :
  search_inv g open closed -> (forall e, In e open' -> In e open) ->
  search_inv g open' closed.
Proof.
  intros [Ho Hc Hp Hch] Hsub. constructor; auto.
Qed.

Lemma Dijkstra_step_cases id goal st :
  Dijkstra_inv st ->
  (exists k, forall fuel, (k <= fuel)%nat ->
      exists r g', Dijkstra.step fuel id goal st = Return (Done (r, g')))
  \/ (exists st', (forall fuel, Dijkstra.step fuel id goal st = Continue st')
                  /\ Dijkstra_inv st'
                  /\ measure_lt (Dijkstra_measure st') (Dijkstra_measure st)).
Proof.
  intros Hinv. unfold Dijkstra.step.
  destruct (heappop (Dijkstra.open_set st)) as [[e open'] |] eqn:Hpop.
  2:{ left. exists O. intros fuel _. eauto. }
  pose proof (heappop_In _ _ _ Hpop) as HIn.
  assert (Hsub : forall x, In x open' -> In x (Dijkstra.open_set st))
    by (intros x Hx; apply HIn; right; exact Hx).
  assert (Hcur : has_node (Dijkstra.grid st) (e_node e)).
  { apply (inv_open _ _ _ Hinv). apply HIn. left. reflexivity. }
  destruct (set_mem (e_node e) (Dijkstra.visited_set st)) eqn:Hmem.
  - right. eexists. split; [ intros fuel; reflexivity |]. split.
    + unfold Dijkstra_inv. cbn. eapply search_inv_pop; eauto.
    + right. unfold Dijkstra_measure.
      cbn [fst snd Dijkstra.grid Dijkstra.open_set Dijkstra.visited_set].
      split; [ reflexivity |].
      unfold stale. rewrite (heappop_count _ _ _ _ Hpop). rewrite Hmem. lia.
  - destruct (pos_eqb (e_node e) goal) eqn:Hgoal.
    + left. exists (S (List.length (Dijkstra.visited_set st))). intros fuel Hfuel.
      destruct (get_path_returns _ _ _ (e_node e) fuel Hinv Hcur Hfuel) as [p Hp].
      rewrite Hp. cbn [bind]. unfold has_node in Hcur.
      destruct (node_at (Dijkstra.grid st) (e_node e)); [ eauto | contradiction ].
    + right. eexists. split; [ intros fuel; reflexivity |].
      set (visited' := set_add (e_node e) (Dijkstra.visited_set st)).
      set (st1 := Dijkstra.mkState (Dijkstra.grid st) open' visited' _).
      assert (Hinv1 : Dijkstra_inv st1).
      { unfold Dijkstra_inv. cbn.
        apply (search_inv_close _ (Dijkstra.open_set st)); auto. }
      pose proof (Dijkstra_neighbors_relaxed id (e_node e)
                    (get_neighbors (Dijkstra.grid st) (e_node e)) st1 Hinv1) as Hrel.
      cbv zeta in Hrel.
      cbn [Dijkstra.grid Dijkstra.open_set Dijkstra.visited_set st1] in Hrel.
      specialize (Hrel ltac:(apply set_add_In; left; reflexivity)).
      specialize (Hrel ltac:(intros n Hn; apply get_neighbors_walkable in Hn;
                             apply is_walkable_node in Hn as [x Hx];
                             rewrite <- surjective_pairing in Hx;
                             unfold has_node; rewrite Hx; discriminate)).
      destruct Hrel as [R1 R2 R3 R4 R5].
      split; [ exact R4 |].
      left. unfold Dijkstra_measure. cbn [fst snd].
      match goal with
      | |- context [unclosed (Dijkstra.grid ?s') (Dijkstra.visited_set ?s')] =>
          assert (Hu : unclosed (Dijkstra.grid s') (Dijkstra.visited_set s')
                       = unclosed (Dijkstra.grid st) visited')
            by (unfold unclosed; rewrite R2, R1; reflexivity)
      end.
      rewrite Hu. apply unclosed_set_add; [ exact Hmem |].
      apply has_node_in_cells. exact Hcur.
Qed.

Lemma Dijkstra_loop_returns id goal : forall u s st,
  Dijkstra_measure st = (u, s) -> Dijkstra_inv st ->
  exists k, forall fuel, (k <= fuel)%nat ->
    exists r g', Dijkstra.loop fuel id goal st = Done (r, g').
Proof.
  induction u as [u IHu] using lt_wf_ind.
  induction s as [s IHs] using lt_wf_ind.
  intros st Hm Hinv.
  destruct (Dijkstra_step_cases id goal st Hinv)
    as [[k Hk] | (st' & Hstep & Hinv' & Hlt)].
  - exists k. intros fuel Hfuel. destruct (Hk fuel Hfuel) as (r & g' & Hr).
    destruct fuel; cbn [Dijkstra.loop]; rewrite Hr; eauto.
  - rewrite Hm in Hlt. destruct (Dijkstra_measure st') as [u' s'] eqn:Hm'.
    assert (Hrec : exists k', forall fuel, (k' <= fuel)%nat ->
               exists r g', Dijkstra.loop fuel id goal st' = Done (r, g')).
    { destruct Hlt as [Hlt | [Heq Hlt]]; cbn [fst snd] in *.
      - eapply (IHu u' Hlt); eauto.
      - subst u'. eapply (IHs s' Hlt); eauto. }
    destruct Hrec as [k' Hk']. exists (S k'). intros fuel Hfuel.
    destruct fuel as [| fuel]; [ lia |]. cbn [Dijkstra.loop]. rewrite Hstep.
    apply Hk'. lia.
Qed.

Lemma Dijkstra_find_path_returns id g start goal :
  exists k, forall fuel, (k <= fuel)%nat ->
    exists r g', Dijkstra.find_path fuel id g start goal = Done (r, g').
Proof.
  unfold Dijkstra.find_path. rewrite open_search_eq.
  destruct (validate_inputs g start goal) as [msg |] eqn:E;
    [ exists O; intros; eauto |].
  destruct (pos_eqb start goal); [ exists O; intros; eauto |].
  destruct (valid_nodes_after_reset g start goal E) as (ns & ng & Hs & Hg).
  rewrite Hs.
  set (st0 := Dijkstra.initial_state id (reset_pathfinding_data g) start ns).
  destruct (Dijkstra_measure st0) as [u s] eqn:Hm.
  apply (Dijkstra_loop_returns id goal u s st0 Hm).
  unfold Dijkstra_inv, st0, Dijkstra.initial_state.
  cbn [Dijkstra.grid Dijkstra.open_set Dijkstra.visited_set].
  apply (search_inv_initial g start ns
           (fun n => set_f_cost 0%float (set_g_cost 0%float n)));
    [ exact Hs | | reflexivity ].
  cbn. pose proof (parent_of_reset g start) as Hp. unfold parent_of in Hp.
  rewrite Hs in Hp. exact Hp.
Qed.

(* ------------------------------------------------------------------ *)
(** ** [DijkstraAllPaths] returns *)
(* ------------------------------------------------------------------ *)

Lemma DijkstraAllPaths_find_path_shape fuel id g start goal r g' :
  DijkstraAllPaths.find_path fuel id g start goal = Done (r, g') -> result_shape r.
Proof.
  unfold DijkstraAllPaths.find_path.
  destruct (DijkstraAllPaths.find_all_paths fuel id g start) as [[[all g0] m] | |];
    cbn [bind]; try discriminate.
  destruct (pget all goal) as [[d q] |].
  - destruct (node_at g0 goal).
    + destruct (get_path fuel g0 goal); cbn [bind]; intros H; inversion H; auto.
    + intros H; inversion H. apply result_shape_failure. discriminate.
  - intros H; inversion H. apply result_shape_failure. discriminate.
Qed.

Lemma DijkstraAllPaths_examine_neighbor_relaxed id current st neighbor :
  search_inv (DijkstraAllPaths.grid st) (DijkstraAllPaths.open_set st)
             (DijkstraAllPaths.visited_set st) ->
  In current (DijkstraAllPaths.visited_set st) ->
  has_node (DijkstraAllPaths.grid st) neighbor ->
  let st' := DijkstraAllPaths.examine_neighbor id current st neighbor in
  relaxed (DijkstraAllPaths.grid st) (DijkstraAllPaths.open_set st)
          (DijkstraAllPaths.visited_set st)
          (DijkstraAllPaths.grid st') (DijkstraAllPaths.open_set st')
          (DijkstraAllPaths.visited_set st').
Proof.
  intros Hinv Hcur Hnode. unfold DijkstraAllPaths.examine_neighbor.
  destruct (set_mem neighbor (DijkstraAllPaths.visited_set st)) eqn:Hmem;
    [ apply relaxed_refl; exact Hinv |].
  destruct (node_at (DijkstraAllPaths.grid st) current) as [c |];
    [| apply relaxed_refl; exact Hinv ].
  destruct (node_at (DijkstraAllPaths.grid st) neighbor) as [n |];
    [| apply relaxed_refl; exact Hinv ].
  destruct (Py.lt _ _); [| apply relaxed_refl; exact Hinv ].
  cbn [DijkstraAllPaths.grid DijkstraAllPaths.open_set DijkstraAllPaths.visited_set].
  eapply relaxed_relax; eauto.
Qed.

Lemma DijkstraAllPaths_neighbors_relaxed id current (ns : list pos) : forall st,
  search_inv (DijkstraAllPaths.grid st) (DijkstraAllPaths.open_set st)
             (DijkstraAllPaths.visited_set st) ->
  In current (DijkstraAllPaths.visited_set st) ->
  (forall n, In n ns -> has_node (DijkstraAllPaths.grid st) n) ->
  let st' := fold_left (DijkstraAllPaths.examine_neighbor id current) ns st in
  relaxed (DijkstraAllPaths.grid st) (DijkstraAllPaths.open_set st)
          (DijkstraAllPaths.visited_set st)
          (DijkstraAllPaths.grid st') (DijkstraAllPaths.open_set st')
          (DijkstraAllPaths.visited_set st').
Proof.
  induction ns as [| n ns IH]; intros st Hinv Hcur Hns; cbn [fold_left].
  - apply relaxed_refl. exact Hinv.
  - pose proof (DijkstraAllPaths_examine_neighbor_relaxed id current st n Hinv Hcur
                  (Hns n (or_introl eq_refl))) as H1. cbv zeta in H1.
    eapply relaxed_trans; [ exact H1 |].
    apply IH.
    + apply (rel_inv _ _ _ _ _ _ H1).
    + rewrite (rel_closed _ _ _ _ _ _ H1). exact Hcur.
    + intros q Hq. apply (rel_nodes _ _ _ _ _ _ H1). apply Hns. right. exact Hq.
Qed.

Definition DijkstraAllPaths_measure (st : DijkstraAllPaths.state) : nat * nat :=
  (unclosed (DijkstraAllPaths.grid st) (DijkstraAllPaths.visited_set st),
   stale (DijkstraAllPaths.open_set st) (DijkstraAllPaths.visited_set st)).

Definition DijkstraAllPaths_inv (st : DijkstraAllPaths.state) : Prop :=
  search_inv (DijkstraAllPaths.grid st) (DijkstraAllPaths.open_set st)
             (DijkstraAllPaths.visited_set st).

Lemma DijkstraAllPaths_step_cases id st :
  DijkstraAllPaths_inv st ->
  DijkstraAllPaths.step id st = Done None
  \/ (exists st', DijkstraAllPaths.step id st = Done (Some st')
                  /\ DijkstraAllPaths_inv st'
                  /\ measure_lt (DijkstraAllPaths_measure st') (DijkstraAllPaths_measure st)).
Proof.
  intros Hinv. unfold DijkstraAllPaths.step.
  destruct (heappop (DijkstraAllPaths.open_set st)) as [[e open'] |] eqn:Hpop;
    [| left; reflexivity ].
  right.
  pose proof (heappop_In _ _ _ Hpop) as HIn.
  assert (Hsub : forall x, In x open' -> In x (DijkstraAllPaths.open_set st))
    by (intros x Hx; apply HIn; right; exact Hx).
  assert (Hcur : has_node (DijkstraAllPaths.grid st) (e_node e)).
  { apply (inv_open _ _ _ Hinv). apply HIn. left. reflexivity. }
  destruct (set_mem (e_node e) (DijkstraAllPaths.visited_set st)) eqn:Hmem.
  - eexists. split; [ reflexivity |]. split.
    + unfold DijkstraAllPaths_inv. cbn. eapply search_inv_pop; eauto.
    + right. unfold DijkstraAllPaths_measure.
      cbn [fst snd DijkstraAllPaths.grid DijkstraAllPaths.open_set
           DijkstraAllPaths.visited_set].
      split; [ reflexivity |].
      unfold stale. rewrite (heappop_count _ _ _ _ Hpop). rewrite Hmem. lia.
  - pose proof Hcur as Hnode. unfold has_node in Hnode.
    destruct (node_at (DijkstraAllPaths.grid st) (e_node e)) as [c |] eqn:Hc;
      [| contradiction ].
    eexists. split; [ reflexivity |].
    set (visited' := set_add (e_node e) (DijkstraAllPaths.visited_set st)).
    set (st1 := DijkstraAllPaths.mkState (DijkstraAllPaths.grid st) open' visited' _ _).
    assert (Hinv1 : DijkstraAllPaths_inv st1).
    { unfold DijkstraAllPaths_inv. cbn.
      apply (search_inv_close _ (DijkstraAllPaths.open_set st)); auto. }
    pose proof (DijkstraAllPaths_neighbors_relaxed id (e_node e)
                  (get_neighbors (DijkstraAllPaths.grid st) (e_node e)) st1 Hinv1) as Hrel.
    cbv zeta in Hrel.
    cbn [DijkstraAllPaths.grid DijkstraAllPaths.open_set DijkstraAllPaths.visited_set st1]
      in Hrel.
    specialize (Hrel ltac:(apply set_add_In; left; reflexivity)).
    specialize (Hrel ltac:(intros n Hn; apply get_neighbors_walkable in Hn;
                           apply is_walkable_node in Hn as [x Hx];
                           rewrite <- surjective_pairing in Hx;
                           unfold has_node; rewrite Hx; discriminate)).
    destruct Hrel as [R1 R2 R3 R4 R5].
    split; [ exact R4 |].
    left. unfold DijkstraAllPaths_measure. cbn [fst snd].
    match goal with
    | |- context [unclosed (DijkstraAllPaths.grid ?s') (DijkstraAllPaths.visited_set ?s')] =>
        assert (Hu : unclosed (DijkstraAllPaths.grid s') (DijkstraAllPaths.visited_set s')
                     = unclosed (DijkstraAllPaths.grid st) visited')
          by (unfold unclosed; rewrite R2, R1; reflexivity)
    end.
    rewrite Hu. apply unclosed_set_add; [ exact Hmem |].
    apply has_node_in_cells. exact Hcur.
Qed.

(** The loop ends, in a state that satisfies the invariant and that no
    longer depends on the fuel. *)
Lemma DijkstraAllPaths_loop_returns id : forall u s st,
  DijkstraAllPaths_measure st = (u, s) -> DijkstraAllPaths_inv st ->
  exists k st', DijkstraAllPaths_inv st'
    /\ forall fuel, (k <= fuel)%nat -> DijkstraAllPaths.loop fuel id st = Done st'.
Proof.
  induction u as [u IHu] using lt_wf_ind.
  induction s as [s IHs] using lt_wf_ind.
  intros st Hm Hinv.
  destruct (DijkstraAllPaths_step_cases id st Hinv)
    as [Hend | (st' & Hstep & Hinv' & Hlt)].
  - exists O, st. split; [ exact Hinv |]. intros fuel _.
    destruct fuel; cbn [DijkstraAllPaths.loop]; rewrite Hend; reflexivity.
  - rewrite Hm in Hlt. destruct (DijkstraAllPaths_measure st') as [u' s'] eqn:Hm'.
    assert (Hrec : exists k' st'', DijkstraAllPaths_inv st''
               /\ forall fuel, (k' <= fuel)%nat ->
                    DijkstraAllPaths.loop fuel id st' = Done st'').
    { destruct Hlt as [Hlt | [Heq Hlt]]; cbn [fst snd] in *.
      - eapply (IHu u' Hlt); eauto.
      - subst u'. eapply (IHs s' Hlt); eauto. }
    destruct Hrec as (k' & st'' & Hinv'' & Hk'). exists (S k'), st''.
    split; [ exact Hinv'' |]. intros fuel Hfuel.
    destruct fuel as [| fuel]; [ lia |]. cbn [DijkstraAllPaths.loop]. rewrite Hstep.
    apply Hk'. lia.
Qed.

Lemma DijkstraAllPaths_find_path_returns id g start goal :
  exists k, forall fuel, (k <= fuel)%nat ->
    exists r g', DijkstraAllPaths.find_path fuel id g start goal = Done (r, g').
Proof.
  unfold DijkstraAllPaths.find_path, DijkstraAllPaths.find_all_paths.
  destruct (negb (is_valid_position g (fst start) (snd start))
            || negb (is_walkable g (fst start) (snd start)));
    [ exists O; intros; cbn; eauto |].
  destruct (node_at (reset_pathfinding_data g) start) as [ns |] eqn:Hs;
    [| exists O; intros; cbn; eauto ].
  set (st0 := DijkstraAllPaths.mkState _ _ _ _ _).
  destruct (DijkstraAllPaths_measure st0) as [u s] eqn:Hm.
  destruct (DijkstraAllPaths_loop_returns id u s st0 Hm) as (k & st' & Hinv & Hk).
  { unfold DijkstraAllPaths_inv, st0.
    cbn [DijkstraAllPaths.grid DijkstraAllPaths.open_set DijkstraAllPaths.visited_set].
    apply (search_inv_initial g start ns (set_g_cost 0%float)); [ exact Hs | | reflexivity ].
    cbn. pose proof (parent_of_reset g start) as Hp. unfold parent_of in Hp.
    rewrite Hs in Hp. exact Hp. }
  exists (Nat.max k (S (List.length (DijkstraAllPaths.visited_set st')))).
  intros fuel Hfuel. rewrite (Hk fuel) by lia. cbn [bind].
  destruct (pget (DijkstraAllPaths.distances st') goal) as [[d q] |]; [| eauto ].
  destruct (node_at (DijkstraAllPaths.grid st') goal) as [n |] eqn:Hn; [| eauto ].
  destruct (get_path_returns _ _ _ goal fuel Hinv) as [p Hp];
    [ unfold has_node; rewrite Hn; discriminate | lia |].
  rewrite Hp. cbn [bind]. eauto.
Qed.

(* ------------------------------------------------------------------ *)
(** ** Ties in the frontier *)
(* ------------------------------------------------------------------ *)

Lemma AStar_examine_neighbor_closed id ht w goal current st n :
  AStar.closed_set (AStar.examine_neighbor id ht w goal current st n) = AStar.closed_set st.
Proof.
  unfold AStar.examine_neighbor.
  repeat match goal with
         | |- context [match ?x with _ => _ end] => destruct x
         end; reflexivity.
Qed.

Lemma AStar_neighbors_closed id ht w goal current (ns : list pos) : forall st,
  AStar.closed_set (fold_left (AStar.examine_neighbor id ht w goal current) ns st)
  = AStar.closed_set st.
Proof.
  induction ns as [| n ns IH]; intros st; [ reflexivity |].
  cbn [fold_left]. rewrite IH. apply AStar_examine_neighbor_closed.
Qed.

(** C3, as the code has it.  Each turn of the A* and Dijkstra loops dequeues
    a least entry of the frontier in the tuple order [(key, id(node))]: no
    entry is smaller, and among the entries with the key of the dequeued one
    the dequeued one has the least [id].  The order of insertion plays no
    part. *)
Theorem frontier_ties_are_broken_by_id :
  (forall fuel id ht w goal st e open',
      heappop (AStar.open_set st) = Some (e, open') ->
      Forall key_is_number (AStar.open_set st) ->
      (forall x, In x (AStar.open_set st) ->
                 entry_lt x e = false
                 /\ (Py.eq (e_key x) (e_key e) = true -> e_id e <= e_id x))
      /\ (pos_eqb (e_node e) goal = false ->
          exists st', AStar.step fuel id ht w goal st = Continue st'
                      /\ In (e_node e) (AStar.closed_set st')))
  /\
  (forall h e h',
      heappop h = Some (e, h') -> Forall key_is_number h ->
      forall x, In x h ->
                entry_lt x e = false
                /\ (Py.eq (e_key x) (e_key e) = true -> e_id e <= e_id x)).
Proof.
  assert (Hheap : forall h e h',
             heappop h = Some (e, h') -> Forall key_is_number h ->
             forall x, In x h ->
                       entry_lt x e = false
                       /\ (Py.eq (e_key x) (e_key e) = true -> e_id e <= e_id x)).
  { intros h e h' Hpop Hnum x Hx.
    pose proof (heappop_least h e h' Hpop Hnum x Hx) as Hle.
    split; [ exact Hle |]. intros Heq. rewrite entry_lt_spec in Hle.
    unfold Py.eq in Heq. rewrite FloatAxioms.eqb_spec in Heq.
    eapply sf_entry_tie; eauto. }
  split; [| exact Hheap ].
  intros fuel id ht w goal st e open' Hpop Hnum. split.
  - apply (Hheap _ _ _ Hpop Hnum).
  - intros Hgoal. unfold AStar.step. rewrite Hpop, Hgoal. eexists. split; [ reflexivity |].
    rewrite AStar_neighbors_closed. cbn. apply set_add_In. left. reflexivity.
Qed.

(** A frontier of three entries, two of them tied. *)
Definition tied_frontier : list entry :=
  [mkEntry 1%float 2 (0, 1); mkEntry 1%float 1 (1, 0); mkEntry (Py.sqrt 2%float) 3 (1, 1)].

(** An A* state with that frontier, on an open 2x2 grid. *)
Definition tied_state : AStar.state :=
  AStar.mkState (Grid_init CGrid 2 2) tied_frontier [] _start_timing.

Lemma frontier_ties_witness :
  Forall (fun x => entry_lt x (mkEntry 1%float 1 (1, 0)) = false
                   /\ (Py.eq (e_key x) 1%float = true -> 1 <= e_id x))
         tied_frontier
  /\ exists st', AStar.step 0 (creation_order 2) "euclidean" 1%float (1, 1) tied_state
                 = Continue st'
                 /\ In (1, 0) (AStar.closed_set st').
Proof.
  destruct frontier_ties_are_broken_by_id as [HA _].
  destruct (HA 0%nat (creation_order 2) "euclidean" 1%float (1, 1) tied_state
               (mkEntry 1%float 1 (1, 0))
               [mkEntry 1%float 2 (0, 1); mkEntry (Py.sqrt 2%float) 3 (1, 1)]
               eq_refl ltac:(repeat constructor)) as [H1 H2].
  split.
  - apply Forall_forall. exact H1.
  - apply H2. reflexivity.
Defined.

(** The frontier of Dijkstra on the grid [g], after the turn that expands the
    start node. *)
Definition frontier_after_start (id : pos -> Z) (g : Grid) (start goal : pos)
  : list entry :=
  let g := reset_pathfinding_data g in
  match node_at g start with
  | Some n =>
      match Dijkstra.step 0 id goal (Dijkstra.initial_state id g start n) with
      | Continue st => Dijkstra.open_set st
      | Return _ => []
      end
  | None => []
  end.

(** The same for A* with the Euclidean heuristic and weight 1. *)
Definition AStar_frontier_after_start (id : pos -> Z) (g : Grid) (start goal : pos)
  : list entry :=
  let g := reset_pathfinding_data g in
  match node_at g start with
  | Some n =>
      match AStar.step 0 id "euclidean" 1%float goal
                       (AStar.initial_state id "euclidean" 1%float g start goal n) with
      | Continue st => AStar.open_set st
      | Return _ => []
      end
  | None => []
  end.

(** A 3x3 grid with the centre blocked. *)
Definition ring_grid : Grid := set_walkable (Grid_init CGrid 3 3) 1 1 false.

(** "First in, first out among equal keys": the dequeued entry has no entry
    with the same key in front of it in insertion order. *)
Definition dequeues_first_inserted (h : list entry) : Prop :=
  forall e h', heappop h = Some (e, h') ->
  forall l1 l2, h = l1 ++ e :: l2 ->
  Forall (fun x => Py.eq (e_key x) (e_key e) = false) l1.

(** Whatever the ids of the node objects are, the two ties of Dijkstra on an
    open 2x2 grid, from (0, 0) and from (1, 1), cannot both be resolved in
    insertion order: the two runs insert (0, 1) and (1, 0) in opposite
    orders. *)
Lemma no_id_makes_ties_fifo (id : pos -> Z) :
  id (0, 1) <> id (1, 0) ->
  ~ (dequeues_first_inserted (frontier_after_start id (Grid_init CGrid 2 2) (0, 0) (1, 1))
     /\ dequeues_first_inserted (frontier_after_start id (Grid_init CGrid 2 2) (1, 1) (0, 0))).
Proof.
  intros Hid [HA HB].
  assert (EA : frontier_after_start id (Grid_init CGrid 2 2) (0, 0) (1, 1)
               = [mkEntry 1%float (id (0, 1)) (0, 1); mkEntry 1%float (id (1, 0)) (1, 0);
                  mkEntry (Py.sqrt 2%float) (id (1, 1)) (1, 1)]) by reflexivity.
  assert (EB : frontier_after_start id (Grid_init CGrid 2 2) (1, 1) (0, 0)
               = [mkEntry 1%float (id (1, 0)) (1, 0); mkEntry 1%float (id (0, 1)) (0, 1);
                  mkEntry (Py.sqrt 2%float) (id (0, 0)) (0, 0)]) by reflexivity.
  rewrite EA in HA. rewrite EB in HB. clear EA EB.
  destruct (Z.lt_total (id (0, 1)) (id (1, 0))) as [Hlt | [Heq | Hgt]];
    [| contradiction |].
  - specialize (HB (mkEntry 1%float (id (0, 1)) (0, 1))
                   [mkEntry 1%float (id (1, 0)) (1, 0);
                    mkEntry (Py.sqrt 2%float) (id (0, 0)) (0, 0)]).
    assert (Hpop : heappop [mkEntry 1%float (id (1, 0)) (1, 0);
                            mkEntry 1%float (id (0, 1)) (0, 1);
                            mkEntry (Py.sqrt 2%float) (id (0, 0)) (0, 0)]
                   = Some (mkEntry 1%float (id (0, 1)) (0, 1),
                           [mkEntry 1%float (id (1, 0)) (1, 0);
                            mkEntry (Py.sqrt 2%float) (id (0, 0)) (0, 0)])).
    { cbn [heappop]. unfold entry_lt. cbn [e_key e_id].
      change (Py.eq (Py.sqrt 2) 1) with false. change (Py.lt (Py.sqrt 2) 1) with false.
      cbn [negb e_key e_id]. change (Py.eq 1 1) with true. cbn [negb].
      destruct (Z.eqb_spec (id (0, 1)) (id (1, 0))); [ lia |]. cbn [negb].
      destruct (Z.ltb_spec (id (0, 1)) (id (1, 0))); [ reflexivity | lia ]. }
    specialize (HB Hpop [mkEntry 1%float (id (1, 0)) (1, 0)]
                   [mkEntry (Py.sqrt 2%float) (id (0, 0)) (0, 0)] eq_refl).
    apply Forall_inv in HB. cbn in HB. discriminate HB.
  - specialize (HA (mkEntry 1%float (id (1, 0)) (1, 0))
                   [mkEntry 1%float (id (0, 1)) (0, 1);
                    mkEntry (Py.sqrt 2%float) (id (1, 1)) (1, 1)]).
    assert (Hpop : heappop [mkEntry 1%float (id (0, 1)) (0, 1);
                            mkEntry 1%float (id (1, 0)) (1, 0);
                            mkEntry (Py.sqrt 2%float) (id (1, 1)) (1, 1)]
                   = Some (mkEntry 1%float (id (1, 0)) (1, 0),
                           [mkEntry 1%float (id (0, 1)) (0, 1);
                            mkEntry (Py.sqrt 2%float) (id (1, 1)) (1, 1)])).
    { cbn [heappop]. unfold entry_lt. cbn [e_key e_id].
      change (Py.eq (Py.sqrt 2) 1) with false. change (Py.lt (Py.sqrt 2) 1) with false.
      cbn [negb e_key e_id]. change (Py.eq 1 1) with true. cbn [negb].
      destruct (Z.eqb_spec (id (1, 0)) (id (0, 1))); [ lia |]. cbn [negb].
      destruct (Z.ltb_spec (id (1, 0)) (id (0, 1))); [ reflexivity | lia ]. }
    specialize (HA Hpop [mkEntry 1%float (id (0, 1)) (0, 1)]
                   [mkEntry (Py.sqrt 2%float) (id (1, 1)) (1, 1)] eq_refl).
    apply Forall_inv in HA. cbn in HA. discriminate HA.
Qed.

(** From (0, 0) to (1, 1) on an open 2x2 grid, Dijkstra inserts (0, 1) and
    then (1, 0), both at distance 1.0; with the node ids in creation order
    ((1, 0) was created before (0, 1)) the next turn dequeues (1, 0), the one
    inserted second.  From (1, 0) to (1, 2) around the blocked centre of a
    3x3 grid, A* inserts (2, 1) before (0, 1), both with the least key
    [2 * sqrt 2]; the next turn dequeues (0, 1).  And whatever the ids of the
    two node objects are, one of the two runs of Dijkstra between opposite
    corners of the 2x2 grid dequeues the entry inserted second. *)
Lemma tie_dequeues_later_insertion :
  frontier_after_start (creation_order 2) (Grid_init CGrid 2 2) (0, 0) (1, 1)
  = [mkEntry 1%float 2 (0, 1); mkEntry 1%float 1 (1, 0);
     mkEntry (Py.sqrt 2%float) 3 (1, 1)]
  /\ heappop (frontier_after_start (creation_order 2) (Grid_init CGrid 2 2) (0, 0) (1, 1))
     = Some (mkEntry 1%float 1 (1, 0),
             [mkEntry 1%float 2 (0, 1); mkEntry (Py.sqrt 2%float) 3 (1, 1)])
  /\ map (fun e => (e_key e, e_node e))
         (AStar_frontier_after_start (creation_order 3) ring_grid (1, 0) (1, 2))
     = [(3.2360679774997898%float, (2, 0)); (3.2360679774997898%float, (0, 0));
        (2.8284271247461903%float, (2, 1)); (2.8284271247461903%float, (0, 1))]
  /\ option_map (fun r => e_node (fst r))
       (heappop (AStar_frontier_after_start (creation_order 3) ring_grid (1, 0) (1, 2)))
     = Some (0, 1)
  /\ (forall id : pos -> Z,
         id (0, 1) <> id (1, 0) ->
         ~ (dequeues_first_inserted
              (frontier_after_start id (Grid_init CGrid 2 2) (0, 0) (1, 1))
            /\ dequeues_first_inserted
                 (frontier_after_start id (Grid_init CGrid 2 2) (1, 1) (0, 0)))).
Proof.
  split; [ reflexivity |]. split; [ reflexivity |]. split; [ vm_compute; reflexivity |].
  split; [ vm_compute; reflexivity |]. exact no_id_makes_ties_fifo.
Qed.

(* ------------------------------------------------------------------ *)
(** ** Failed searches *)
(* ------------------------------------------------------------------ *)

(** A failed result has an empty path and a non-empty reason. *)
Definition failure_is_reported (r : PathfindingResult) : Prop :=
  found r = false ->
  path r = [] /\ exists msg, error_message r = Some msg /\ msg <> ""%string.

(** [returns_with P run]: beyond some bound on the parameter of [run] (the
    fuel of a loop, or the depth of recursion that the interpreter admits)
    the call returns a result, raising nothing, and the result satisfies
    [P]. *)
Definition returns_with (P : PathfindingResult -> Prop)
           (run : nat -> outcome (PathfindingResult * Grid)) : Prop :=
  exists k, forall fuel, (k <= fuel)%nat -> exists r g', run fuel = Done (r, g') /\ P r.

Lemma returns_with_of_shape (P : PathfindingResult -> Prop)
      (run : nat -> outcome (PathfindingResult * Grid)) :
  (forall r, result_shape r -> P r) ->
  (exists k, forall fuel, (k <= fuel)%nat -> exists r g', run fuel = Done (r, g')) ->
  (forall fuel r g', run fuel = Done (r, g') -> result_shape r) ->
  returns_with P run.
Proof.
  intros HP [k Hk] Hshape. exists k. intros fuel Hfuel.
  destruct (Hk fuel Hfuel) as (r & g' & Hr). exists r, g'. split; [ exact Hr |].
  apply HP. eapply Hshape; eauto.
Qed.

Lemma returns_with_shape (run : nat -> outcome (PathfindingResult * Grid)) :
  (exists k, forall fuel, (k <= fuel)%nat -> exists r g', run fuel = Done (r, g')) ->
  (forall fuel r g', run fuel = Done (r, g') -> result_shape r) ->
  returns_with failure_is_reported run.
Proof.
  apply returns_with_of_shape. intros r Hr Hf. apply result_shape_failed; assumption.
Qed.

Lemma WeightedAStar_find_path_returns id ht w g start goal :
  exists k, forall fuel, (k <= fuel)%nat ->
    exists r g', WeightedAStar.find_path fuel id ht w g start goal = Done (r, g').
Proof.
  unfold WeightedAStar.find_path.
  destruct (AStar_find_path_returns id ht (WeightedAStar.init_weight w) g start goal)
    as [k Hk].
  exists k. intros fuel Hfuel. destruct (Hk fuel Hfuel) as (r & g' & ->).
  cbn [bind]. eauto.
Qed.

Lemma UniformCostSearch_find_path_returns id g start goal :
  exists k, forall fuel, (k <= fuel)%nat ->
    exists r g', UniformCostSearch.find_path fuel id g start goal = Done (r, g').
Proof.
  unfold UniformCostSearch.find_path.
  destruct (Dijkstra_find_path_returns id g start goal) as [k Hk].
  exists k. intros fuel Hfuel. destruct (Hk fuel Hfuel) as (r & g' & ->).
  cbn [bind]. eauto.
Qed.

(** With room for as many nested calls of [_search] as the grid has cells,
    IDA* returns. *)
Lemma IDAStar_find_path_returns ht mi g start goal :
  exists k, forall depth, (k <= depth)%nat ->
    exists r g', IDAStar.find_path depth ht mi g start goal = Done (r, g').
Proof.
  exists (List.length (all_cells g)). intros fuel Hfuel.
  unfold IDAStar.find_path, IDAStar.find_path_trace. rewrite open_search_eq.
  destruct (validate_inputs g start goal) as [msg |] eqn:E; [ cbn [bind]; eauto |].
  destruct (pos_eqb start goal); [ cbn [bind]; eauto |].
  apply validate_inputs_ok in E as (Hs & _).
  apply valid_in_all_cells in Hs.
  destruct (IDAStar_iterate_returns fuel (reset_pathfinding_data g) ht mi start goal
              Hfuel Hs (Z.to_nat mi) (get_heuristic start goal ht) 0 _start_timing)
    as (r & tr & -> & _).
  cbn [bind]. eauto.
Qed.

Lemma MemoryBoundedAStar_find_path_returns ht ml g start goal :
  exists k, forall depth, (k <= depth)%nat ->
    exists r g', MemoryBoundedAStar.find_path depth ht ml g start goal = Done (r, g').
Proof.
  destruct (IDAStar_find_path_returns ht 100 g start goal) as [k Hk].
  exists k. intros fuel Hfuel. unfold MemoryBoundedAStar.find_path.
  destruct (truthy (validate_inputs g start goal)); [ eauto |].
  destruct (Hk fuel Hfuel) as (r & g' & ->). cbn [bind].
  destruct (found r); eauto.
Qed.

(* ------------------------------------------------------------------ *)
(** ** The shape of what the other engines return *)
(* ------------------------------------------------------------------ *)

Lemma BidirectionalAStar_loop_shape id ht start goal (fuel : nat) : forall st r g',
  BidirectionalAStar.loop fuel id ht start goal st = Done (r, g') -> result_shape r.
Proof.
  assert (Hmeet : forall f st m p r g',
             BidirectionalAStar.meet f st m p = Done (r, g') -> result_shape r).
  { intros f st m p r g' H. unfold BidirectionalAStar.meet in H. outcome_inv. auto. }
  induction fuel as [| fuel IH]; intros st r g' H; cbn [BidirectionalAStar.loop] in H;
    unfold BidirectionalAStar.step in H;
    repeat match type of H with
           | context [if ?c then _ else _] => destruct c
           | context [match heappop ?h with _ => _ end] =>
               destruct (heappop h) as [[? ?] |]
           end;
    outcome_inv; eauto;
    try (apply result_shape_failure; discriminate).
Qed.

Lemma BidirectionalAStar_find_path_shape fuel id ht g start goal r g' :
  BidirectionalAStar.find_path fuel id ht g start goal = Done (r, g') -> result_shape r.
Proof.
  unfold BidirectionalAStar.find_path.
  destruct (open_search None g start goal) as [r0 g0 | g0] eqn:E.
  - intros H; inversion H; subst.
    apply (prologue_returns_shape EBidirectionalAStar g start goal r g'). exact E.
  - destruct (node_at g0 start); [| discriminate ].
    intros H. outcome_inv. eapply BidirectionalAStar_loop_shape; eauto.
Qed.

Lemma ThetaStar_loop_shape square id ht goal (fuel : nat) : forall st r g',
  ThetaStarRun.loop fuel square id ht goal st = Done (r, g') -> result_shape r.
Proof.
  induction fuel as [| fuel IH]; intros st r g' H; cbn [ThetaStarRun.loop] in H;
    destruct (heappop (ThetaStarRun.open_set st)) as [[e open'] |]; outcome_inv;
    try (apply result_shape_failure; discriminate);
    (destruct (pos_eqb (e_node e) goal); outcome_inv; eauto).
Qed.

Lemma ThetaStar_find_path_shape fuel square id ht g start goal r g' :
  ThetaStarRun.find_path fuel square id ht g start goal = Done (r, g') -> result_shape r.
Proof.
  unfold ThetaStarRun.find_path.
  destruct (ThetaStar_open g start goal) as [r0 g0 | g0] eqn:E.
  - intros H; inversion H; subst.
    apply (prologue_returns_shape EThetaStar g start goal r g'). exact E.
  - destruct (node_at g0 start); [| discriminate ]. apply ThetaStar_loop_shape.
Qed.

Lemma BasicThetaStar_find_path_shape fuel square id g start goal r g' :
  BasicThetaStar.find_path fuel square id g start goal = Done (r, g') -> result_shape r.
Proof.
  unfold BasicThetaStar.find_path. intros H. outcome_inv.
  match goal with E : ThetaStarRun.find_path _ _ _ _ _ _ _ = _ |- _ =>
    apply ThetaStar_find_path_shape in E end. auto.
Qed.

Lemma LazyThetaStar_loop_shape id ht goal (fuel : nat) : forall st r g',
  LazyThetaStarRun.loop fuel id ht goal st = Done (r, g') -> result_shape r.
Proof.
  induction fuel as [| fuel IH]; intros st r g' H; cbn [LazyThetaStarRun.loop] in H;
    destruct (heappop (ThetaStarRun.open_set st)) as [[e open'] |]; outcome_inv;
    try (apply result_shape_failure; discriminate);
    (destruct (pos_eqb (e_node e) goal); outcome_inv; eauto).
Qed.

Lemma LazyThetaStar_find_path_shape fuel id ht g start goal r g' :
  LazyThetaStarRun.find_path fuel id ht g start goal = Done (r, g') -> result_shape r.
Proof.
  unfold LazyThetaStarRun.find_path.
  destruct (LazyThetaStar_open g start goal) as [r0 g0 | g0] eqn:E.
  - intros H; inversion H; subst.
    apply (prologue_returns_shape ELazyThetaStar g start goal r g'). exact E.
  - destruct (node_at g0 start); [| discriminate ]. apply LazyThetaStar_loop_shape.
Qed.

Lemma JumpPointSearch_loop_shape id ht goal (fuel : nat) : forall st r g',
  JumpPointSearch.loop fuel id ht goal st = Done (r, g') -> result_shape r.
Proof.
  induction fuel as [| fuel IH]; intros st r g' H; cbn [JumpPointSearch.loop] in H;
    unfold JumpPointSearch.step in H;
    destruct (heappop (JumpPointSearch.open_set st)) as [[e open'] |]; outcome_inv;
    try (apply result_shape_failure; discriminate);
    (destruct (set_mem (e_node e) (JumpPointSearch.closed_set st)); [ outcome_inv; eauto |]);
    (destruct (pos_eqb (e_node e) goal);
     [ outcome_inv;
       match goal with H : (if ?c then _ else _) = _ |- _ => destruct c end;
       outcome_inv; auto
     | match type of H with
       | context [match ?o with Done _ => _ | Raised _ => _ | OutOfFuel => _ end] =>
           destruct o
       end; outcome_inv; eauto ]).
Qed.

Lemma JumpPointSearch_find_path_shape fuel id ht g start goal r g' :
  JumpPointSearch.find_path fuel id ht g start goal = Done (r, g') -> result_shape r.
Proof.
  unfold JumpPointSearch.find_path.
  destruct (JumpPointSearch_open g start goal) as [r0 g0 | g0] eqn:E.
  - intros H; inversion H; subst.
    apply (prologue_returns_shape EJumpPointSearch g start goal r g'). exact E.
  - destruct (node_at g0 start); [| discriminate ]. apply JumpPointSearch_loop_shape.
Qed.

Lemma JumpPointSearchPlus_find_path_shape fuel id ht t g start goal r g' :
  JumpPointSearchPlus.find_path fuel id ht t g start goal = Done (r, g') -> result_shape r.
Proof.
  unfold JumpPointSearchPlus.find_path. intros H. outcome_inv.
  match goal with E : JumpPointSearch.find_path _ _ _ _ _ _ = _ |- _ =>
    apply JumpPointSearch_find_path_shape in E end. auto.
Qed.

Lemma RecursiveBestFirstSearch_find_path_shape depth fuel ht g start goal r g' :
  RecursiveBestFirstSearch.find_path depth fuel ht g start goal = Done (r, g') ->
  result_shape r.
Proof.
  unfold RecursiveBestFirstSearch.find_path.
  destruct (open_search None g start goal) as [r0 g0 | g0] eqn:E.
  - intros H; inversion H; subst.
    apply (prologue_returns_shape ERecursiveBestFirstSearch g start goal r g'). exact E.
  - destruct (node_at g0 start); [| discriminate ].
    intros H. outcome_inv.
    match goal with H : match ?o with Some _ => _ | None => _ end = _ |- _ =>
      destruct o end; outcome_inv; auto.
    apply result_shape_failure. discriminate.
Qed.

Lemma RRTConnect_iterate_shape fuel cfg rng g (todo : list Z) : forall st r st',
  RRTConnect.iterate fuel cfg rng g todo st = Done (r, st') -> result_shape r.
Proof.
  induction todo as [| iteration todo IH]; intros st r st' H;
    cbn [RRTConnect.iterate] in H.
  - outcome_inv. apply result_shape_failure. simpl. discriminate.
  - unfold RRTConnect._sample_random_point in H. cbv zeta in H.
    destruct (iteration mod 2 =? 0); outcome_inv;
      match goal with H : match ?o with Some _ => _ | None => _ end = _ |- _ =>
        destruct o as [new_node |] end; eauto;
      outcome_inv;
      match goal with H : match ?o with Some _ => _ | None => _ end = _ |- _ =>
        destruct o as [c |] end; eauto;
      outcome_inv; unfold RRTConnect.connected_result; auto 6.
Qed.

Lemma RRTConnect_find_path_shape fuel cfg rng g start goal r g' :
  RRTConnect.find_path fuel cfg rng g start goal = Done (r, g') -> result_shape r.
Proof.
  unfold RRTConnect.find_path.
  destruct (sampling_open g start goal) as [r0 g0 | g0] eqn:E.
  - intros H; inversion H; subst.
    apply (prologue_returns_shape ERRTConnect g start goal r g'). exact E.
  - cbn [alloc]. intros H. outcome_inv. eapply RRTConnect_iterate_shape; eauto.
Qed.

Lemma IncrementalPhiStar_search_shape fuel ht st start goal r st' :
  IncrementalPhiStarRun._search fuel ht st start goal = Done (r, st') -> result_shape r.
Proof.
  assert (Hep : forall r st',
             IncrementalPhiStarRun.search_epilogue fuel st start goal = Done (r, st') ->
             result_shape r).
  { intros r0 st0 H. unfold IncrementalPhiStarRun.search_epilogue in H.
    destruct (node_at _ start); [| discriminate ].
    destruct (Py.eq _ _); outcome_inv; auto. apply result_shape_failure. discriminate. }
  unfold IncrementalPhiStarRun._search.
  destruct (IncrementalPhiStarRun.open_set st); [ apply Hep |].
  cbn [IncrementalPhiStarRun._top_key bind]. discriminate.
Qed.

Lemma IncrementalPhiStar_find_path_on_shape fuel id ht order a g rhs_of cc start goal r g' :
  IncrementalPhiStarRun.find_path_on fuel id ht order a g rhs_of cc start goal
  = Done (r, g') ->
  result_shape r.
Proof.
  unfold IncrementalPhiStarRun.find_path_on.
  destruct (IncrementalPhiStar_open g start goal) as [r0 g0 | g0] eqn:E.
  - intros H; inversion H; subst.
    apply (prologue_returns_shape EIncrementalPhiStar g start goal r g'). exact E.
  - intros H. outcome_inv.
    match goal with E : IncrementalPhiStarRun._search _ _ _ _ _ = _ |- _ =>
      apply IncrementalPhiStar_search_shape in E end.
    match goal with H : (if found ?r then _ else _) = _ |- _ => destruct (found r) end;
      outcome_inv; auto.
Qed.

Lemma IncrementalPhiStar_find_path_shape fuel id ht g start goal r g' :
  IncrementalPhiStarRun.find_path fuel id ht g start goal = Done (r, g') ->
  result_shape r.
Proof.
  unfold IncrementalPhiStarRun.find_path.
  destruct (IncrementalPhiStar_open g start goal) as [r0 g0 | g0] eqn:E.
  - intros H; inversion H; subst.
    apply (prologue_returns_shape EIncrementalPhiStar g start goal r g'). exact E.
  - intros H. outcome_inv.
    match goal with E : IncrementalPhiStarRun._search _ _ _ _ _ = _ |- _ =>
      apply IncrementalPhiStar_search_shape in E end.
    match goal with H : (if found ?r then _ else _) = _ |- _ => destruct (found r) end;
      outcome_inv; auto.
Qed.

Lemma IncrementalPhiStar_replan_shape fuel id ht order a m g rhs_of cc start r g' :
  IncrementalPhiStarRun.replan_after_changes fuel id ht order a m g rhs_of cc start
  = Done (r, g') ->
  result_shape r.
Proof.
  unfold IncrementalPhiStarRun.replan_after_changes.
  destruct (IncrementalPhiStarRun.a_goal_node a) as [goal |].
  - destruct (node_at g start).
    + intros H. outcome_inv.
      eapply IncrementalPhiStar_search_shape; eauto.
    + intros H. outcome_inv. apply result_shape_failure. discriminate.
  - intros H. outcome_inv. apply result_shape_failure. discriminate.
Qed.


Lemma run_call_shape c r g' : run_call c = Done (r, g') -> result_shape r.
Proof.
  destruct c; cbn [run_call]; intros H.
  - eapply AStar_find_path_shape; eauto.
  - eapply WeightedAStar_find_path_shape; eauto.
  - eapply BidirectionalAStar_find_path_shape; eauto.
  - eapply Dijkstra_find_path_shape; eauto.
  - eapply UniformCostSearch_find_path_shape; eauto.
  - eapply DijkstraAllPaths_find_path_shape; eauto.
  - eapply IDAStar_find_path_shape; eauto.
  - eapply MemoryBoundedAStar_find_path_shape; eauto.
  - eapply RecursiveBestFirstSearch_find_path_shape; eauto.
  - eapply ThetaStar_find_path_shape; eauto.
  - eapply BasicThetaStar_find_path_shape; eauto.
  - eapply LazyThetaStar_find_path_shape; eauto.
  - eapply JumpPointSearch_find_path_shape; eauto.
  - eapply JumpPointSearchPlus_find_path_shape; eauto.
  - eapply RRT_find_path_shape; eauto.
  - eapply RRTConnect_find_path_shape; eauto.
  - eapply IncrementalPhiStar_find_path_on_shape; eauto.
  - eapply IncrementalPhiStar_replan_shape; eauto.
Qed.

(** A fresh [IncrementalPhiStar] is the engine with the attributes of
    [__init__]. *)
Lemma IncrementalPhiStar_first_call fuel id ht order g rhs_of cost_changed start goal :
  IncrementalPhiStarRun.find_path_on fuel id ht order IncrementalPhiStarRun.initial_attributes
                                     g rhs_of cost_changed start goal
  = IncrementalPhiStarRun.find_path fuel id ht g start goal.
Proof.
  unfold IncrementalPhiStarRun.find_path_on, IncrementalPhiStarRun.find_path,
    IncrementalPhiStarRun.enter_search.
  destruct (IncrementalPhiStar_open g start goal) as [r0 g0 | g0]; [ reflexivity |].
  cbn [IncrementalPhiStarRun.differs IncrementalPhiStarRun.a_goal_node
       IncrementalPhiStarRun.initial_attributes orb].
  destruct (IncrementalPhiStarRun._initialize_search _ _ _ _ _ _); reflexivity.
Qed.

(** The engines at work on small grids: a 3x3 grid whose centre is blocked
    (plain, and with the any-angle capability), the 3x1 grids cut by a wall,
    and a free 3x1 grid.  The node at [(x, y)] is given the identity
    [x + 8 y]; the random generator returns 0.5. *)
Lemma the_other_engines_at_work :
  let id : pos -> Z := fun p => fst p + 8 * snd p in
  let ring := set_walkable (Grid_init CGrid 3 3) 1 1 false in
  let angle_ring := set_walkable (Grid_init CAngleGrid 3 3) 1 1 false in
  let answer (o : outcome (PathfindingResult * Grid)) :=
    match o with
    | Done (r, _) => Done (found r, path r, error_message r)
    | Raised e => Raised e
    | OutOfFuel => OutOfFuel
    end in
  answer (BidirectionalAStar.find_path 9 id "euclidean" ring (0, 0) (2, 2))
  = Done (true, [int_waypoint (0, 0); int_waypoint (1, 0); int_waypoint (2, 1)], None)
  /\ answer (BidirectionalAStar.find_path 9 id "euclidean" wall_grid (0, 0) (2, 0))
     = Done (false, [], Some "No path exists"%string)
  /\ answer (LazyThetaStarRun.find_path 9 id "euclidean" angle_ring (0, 0) (2, 2))
     = Done (true,
             [float_waypoint (0, 0); float_waypoint (0, 0); float_waypoint (1, 0);
              float_waypoint (2, 1)]%float, None)
  /\ answer (LazyThetaStarRun.find_path 9 id "euclidean" angle_wall_grid (0, 0) (2, 0))
     = Done (false, [], Some "No path exists"%string)
  /\ answer (BasicThetaStar.find_path 9 (fun x => PrimFloat.mul x x) id angle_ring
               (0, 0) (2, 2))
     = Done (true, [float_waypoint (0, 0); float_waypoint (0, 0); float_waypoint (2, 1)]%float,
             None)
  /\ answer (JumpPointSearchPlus.find_path 9 id "euclidean" None ring (0, 0) (2, 2))
     = Done (true,
             [int_waypoint (0, 0); int_waypoint (1, 0); int_waypoint (2, 1);
              int_waypoint (2, 2)], None)
  /\ answer (RecursiveBestFirstSearch.find_path 3 9 "euclidean" (Grid_init CGrid 3 1)
               (0, 0) (2, 0))
     = Done (true, [int_waypoint (0, 0); int_waypoint (1, 0); int_waypoint (2, 0)], None)
  /\ answer (RecursiveBestFirstSearch.find_path 3 9 "euclidean" wall_grid (0, 0) (2, 0))
     = Done (false, [], Some "No path exists"%string)
  /\ answer (RecursiveBestFirstSearch.find_path 2 9 "euclidean" (Grid_init CGrid 3 1)
               (0, 0) (2, 0))
     = Raised "RecursionError"
  /\ answer (RRTConnect.find_path 9 (RRTConnect.mkConfig 1%float 10) (fun _ => 0.5%float)
               (Grid_init CGrid 3 1) (0, 0) (2, 0))
     = Done (true, [float_waypoint (0, 0); float_waypoint (1, 0); float_waypoint (2, 0)]%float,
             None)
  /\ answer (RRTConnect.find_path 9 (RRTConnect.mkConfig 1%float 3) (fun _ => 0.5%float)
               wall_grid (0, 0) (2, 0))
     = Done (false, [], Some "No connection found within 3 iterations"%string).
Proof. vm_compute. repeat split. Qed.

(** Failures are reported as such.  When validation fails, every engine
    that validates returns at once a result with [found = False], an empty
    path and the (non-empty) message of [validate_inputs]; whatever else the
    opening lines return has that shape when it is a failure.  The calls of
    A*, weighted A* (the class of [astar.py]), Dijkstra, uniform cost search
    and all-paths Dijkstra always return a result, raising nothing, and a
    failed one has an empty path and a non-empty reason; so it is with IDA*
    and memory-bounded A* when the interpreter leaves room for as many
    nested calls of [_search] as the grid has cells (with less room they can
    raise [RecursionError]).  Every result that any call returns has that
    shape too. *)
Theorem failed_search_reports_failure :
  (forall e g start goal msg,
      validate_inputs g start goal = Some msg ->
      exists r, prologue e g start goal = Returns r g
                /\ found r = false /\ path r = []
                /\ error_message r = Some msg /\ msg <> ""%string)
  /\ (forall e g start goal r g',
         prologue e g start goal = Returns r g' -> failure_is_reported r)
  /\ (forall id ht w g start goal,
         returns_with failure_is_reported
           (fun fuel => AStar.find_path fuel id ht w g start goal))
  /\ (forall id ht w g start goal,
         returns_with failure_is_reported
           (fun fuel => WeightedAStar.find_path fuel id ht w g start goal))
  /\ (forall id g start goal,
         returns_with failure_is_reported
           (fun fuel => Dijkstra.find_path fuel id g start goal))
  /\ (forall id g start goal,
         returns_with failure_is_reported
           (fun fuel => UniformCostSearch.find_path fuel id g start goal))
  /\ (forall ht mi g start goal,
         returns_with failure_is_reported
           (fun depth => IDAStar.find_path depth ht mi g start goal))
  /\ (forall ht ml g start goal,
         returns_with failure_is_reported
           (fun depth => MemoryBoundedAStar.find_path depth ht ml g start goal))
  /\ (forall id g start goal,
         returns_with failure_is_reported
           (fun fuel => DijkstraAllPaths.find_path fuel id g start goal))
  /\ (forall c, returns_only failure_is_reported (run_call c)).
Proof.
  split; [| split ].
  - intros e g start goal msg Hv.
    destruct (prologue_invalid e g start goal msg Hv) as (r & Hr & Hm).
    exists r. split; [ exact Hr |].
    apply made_fields in Hm as (Hp & Hf & He & _).
    repeat split; try assumption. eapply validate_inputs_nonempty; eauto.
  - intros e g start goal r g' Hr Hf.
    apply result_shape_failed; [| exact Hf ]. eapply prologue_returns_shape; eauto.
  - split; [ intros; apply returns_with_shape;
               [ apply AStar_find_path_returns
               | intros; eapply AStar_find_path_shape; eauto ] |].
    split; [ intros; apply returns_with_shape;
               [ apply WeightedAStar_find_path_returns
               | intros; eapply WeightedAStar_find_path_shape; eauto ] |].
    split; [ intros; apply returns_with_shape;
               [ apply Dijkstra_find_path_returns
               | intros; eapply Dijkstra_find_path_shape; eauto ] |].
    split; [ intros; apply returns_with_shape;
               [ apply UniformCostSearch_find_path_returns
               | intros; eapply UniformCostSearch_find_path_shape; eauto ] |].
    split; [ intros; apply returns_with_shape;
               [ apply IDAStar_find_path_returns
               | intros; eapply IDAStar_find_path_shape; eauto ] |].
    split; [ intros; apply returns_with_shape;
               [ apply MemoryBoundedAStar_find_path_returns
               | intros; eapply MemoryBoundedAStar_find_path_shape; eauto ] |].
    split; [ intros; apply returns_with_shape;
               [ apply DijkstraAllPaths_find_path_returns
               | intros; eapply DijkstraAllPaths_find_path_shape; eauto ] |].
    intros c r g' Hr Hf.
    apply result_shape_failed; [| exact Hf ]. eapply run_call_shape; eauto.
Qed.

(** The class [WeightedAStar] of [classical/weighted_astar.py].  Its
    constructor raises [TypeError].  On an object that has its two attributes
    all the same, [find_path] with a goal outside a 1x1 grid returns [None],
    which is no [PathfindingResult]; so it does when a wall separates start
    and goal on a grid object that has an [is_obstacle] method; and on a grid
    of [core/grid.py], which has none, the first neighbour inside the grid
    raises [AttributeError]. *)
Lemma standalone_WeightedAStar_returns_None :
  StandaloneWeightedAStar.init 1.5%float "euclidean" = Raised "TypeError"
  /\ StandaloneWeightedAStar.find_path 1 1.5%float "euclidean" None
       (Grid_init CGrid 1 1) (0, 0) (5, 5) = Done VNone
  /\ ~ (exists r, StandaloneWeightedAStar.find_path 1 1.5%float "euclidean" None
                    (Grid_init CGrid 1 1) (0, 0) (5, 5) = Done (VResult r))
  /\ StandaloneWeightedAStar.find_path 1 1.5%float "euclidean"
       (Some (fun x y => negb (is_walkable wall_grid x y))) wall_grid (0, 0) (2, 0)
     = Done VNone
  /\ StandaloneWeightedAStar.find_path 1 1.5%float "euclidean" None
       (Grid_init CGrid 2 1) (0, 0) (1, 0) = Raised "AttributeError".
Proof.
  split; [ reflexivity |]. split; [ reflexivity |]. split.
  - intros [r H]. discriminate H.
  - split; reflexivity.
Qed.

(** C1 at a failing input.  On the 3x1 dynamic grid whose middle cell is
    blocked, (0, 0) and (2, 0) are valid and walkable, the grid is of the
    class [IncrementalPhiStar] asks for, and (0, 0) has no neighbour at all:
    the search has nothing to explore and should report that no path exists,
    as [Dijkstra] does on this grid.  A fresh [IncrementalPhiStar] raises
    [ValueError] instead, whatever its heuristic: [_initialize_search]
    queues the goal as a tuple of four, and the loop test of [_search] calls
    [_top_key], which unpacks it into three names. *)
Theorem IncrementalPhiStar_raises_where_the_search_fails :
  validate_inputs wall_grid (0, 0) (2, 0) = None
  /\ gate_passes EIncrementalPhiStar wall_grid = true
  /\ get_neighbors wall_grid (0, 0) = []
  /\ (forall fuel id heuristic_type,
        IncrementalPhiStarRun.find_path fuel id heuristic_type wall_grid (0, 0) (2, 0)
        = Raised "ValueError")
  /\ (forall id, exists r g',
        Dijkstra.find_path 1 id wall_grid (0, 0) (2, 0) = Done (r, g')
        /\ found r = false /\ path r = []
        /\ error_message r = Some "No path exists"%string).
Proof.
  split; [ reflexivity |]. split; [ reflexivity |]. split; [ reflexivity |].
  split; [ intros fuel id heuristic_type; reflexivity |].
  intros id. eexists _, _. split; [ reflexivity |]. repeat split.
Qed.

(* ------------------------------------------------------------------ *)
(** ** The costs in a result *)
(* ------------------------------------------------------------------ *)


(* ------------------------------------------------------------------ *)
(** ** The reset of the scratch fields *)
(* ------------------------------------------------------------------ *)

(** The scratch fields of a node as [GridNode.reset] leaves them. *)
Definition scratch_is_clean (n : GridNode) : Prop :=
  g_cost n = Py.inf /\ h_cost n = 0%float /\ f_cost n = Py.inf
  /\ parent n = None /\ visited n = false /\ in_open_set n = false.

(** The result of a call, without the grid it leaves behind. *)
Definition result_of (o : outcome (PathfindingResult * Grid)) : outcome PathfindingResult :=
  match o with
  | Done (r, _) => Done r
  | Raised e => Raised e
  | OutOfFuel => OutOfFuel
  end.

Lemma result_of_bind (o : outcome (PathfindingResult * Grid))
      (f : PathfindingResult -> PathfindingResult) :
  result_of ('(r, g') <- o ;; Done (f r, g'))
  = match result_of o with
    | Done r => Done (f r)
    | Raised e => Raised e
    | OutOfFuel => OutOfFuel
    end.
Proof. destruct o as [[r g'] | |]; reflexivity. Qed.

Lemma validate_inputs_reset g start goal :
  validate_inputs (reset_pathfinding_data g) start goal = validate_inputs g start goal.
Proof.
  unfold validate_inputs. rewrite !is_walkable_reset. reflexivity.
Qed.

Lemma open_search_reset gate g start goal :
  open_search gate (reset_pathfinding_data g) start goal
  = match open_search gate g start goal with
    | Returns r g' =>
        Returns r (match validate_inputs g start goal, gate with
                   | None, None => g'
                   | _, _ => reset_pathfinding_data g
                   end)
    | Searches g' => Searches g'
    end.
Proof.
  rewrite !open_search_eq, validate_inputs_reset, reset_pathfinding_data_idempotent.
  destruct (validate_inputs g start goal); [ reflexivity |].
  destruct gate; [ reflexivity |]. destruct (pos_eqb start goal); reflexivity.
Qed.

Lemma AStar_ignores_scratch fuel id ht w g start goal :
  result_of (AStar.find_path fuel id ht w g start goal)
  = result_of (AStar.find_path fuel id ht w (reset_pathfinding_data g) start goal).
Proof.
  unfold AStar.find_path. rewrite open_search_reset.
  destruct (open_search None g start goal); reflexivity.
Qed.

Lemma Dijkstra_ignores_scratch fuel id g start goal :
  result_of (Dijkstra.find_path fuel id g start goal)
  = result_of (Dijkstra.find_path fuel id (reset_pathfinding_data g) start goal).
Proof.
  unfold Dijkstra.find_path. rewrite open_search_reset.
  destruct (open_search None g start goal); reflexivity.
Qed.

Lemma IDAStar_ignores_scratch depth ht mi g start goal :
  result_of (IDAStar.find_path depth ht mi g start goal)
  = result_of (IDAStar.find_path depth ht mi (reset_pathfinding_data g) start goal).
Proof.
  unfold IDAStar.find_path, IDAStar.find_path_trace. rewrite open_search_reset.
  destruct (open_search None g start goal) as [r0 g0 | g0]; [ reflexivity |].
  destruct (IDAStar.iterate _ _ _ _ _ _ _ _ _ _) as [[r tr] | |]; reflexivity.
Qed.

Lemma DijkstraAllPaths_ignores_scratch fuel id g start goal :
  result_of (DijkstraAllPaths.find_path fuel id g start goal)
  = result_of (DijkstraAllPaths.find_path fuel id (reset_pathfinding_data g) start goal).
Proof.
  unfold DijkstraAllPaths.find_path, DijkstraAllPaths.find_all_paths.
  rewrite is_walkable_reset, reset_pathfinding_data_idempotent.
  change (is_valid_position (reset_pathfinding_data g) (fst start) (snd start))
    with (is_valid_position g (fst start) (snd start)).
  destruct (negb (is_valid_position g (fst start) (snd start))
            || negb (is_walkable g (fst start) (snd start))); reflexivity.
Qed.

Lemma is_AngleGrid_reset g : is_AngleGrid (reset_pathfinding_data g) = is_AngleGrid g.
Proof. reflexivity. Qed.

Lemma is_DynamicGrid_reset g : is_DynamicGrid (reset_pathfinding_data g) = is_DynamicGrid g.
Proof. reflexivity. Qed.

Lemma diagonal_movement_reset g :
  diagonal_movement (reset_pathfinding_data g) = diagonal_movement g.
Proof. reflexivity. Qed.

(** A search that opens with [open_search] and goes on from the grid it is
    handed gives the result it gives on the reset grid. *)
Lemma open_search_ignores_scratch gate g start goal
      (search : Grid -> outcome (PathfindingResult * Grid)) :
  result_of match open_search gate g start goal with
            | Returns r g' => Done (r, g')
            | Searches g' => search g'
            end
  = result_of match open_search gate (reset_pathfinding_data g) start goal with
              | Returns r g' => Done (r, g')
              | Searches g' => search g'
              end.
Proof.
  rewrite open_search_reset.
  destruct (open_search gate g start goal); reflexivity.
Qed.

Lemma BidirectionalAStar_ignores_scratch fuel id ht g start goal :
  result_of (BidirectionalAStar.find_path fuel id ht g start goal)
  = result_of (BidirectionalAStar.find_path fuel id ht (reset_pathfinding_data g)
                 start goal).
Proof. apply open_search_ignores_scratch. Qed.

Lemma RecursiveBestFirstSearch_ignores_scratch depth fuel ht g start goal :
  result_of (RecursiveBestFirstSearch.find_path depth fuel ht g start goal)
  = result_of (RecursiveBestFirstSearch.find_path depth fuel ht (reset_pathfinding_data g)
                 start goal).
Proof. apply open_search_ignores_scratch. Qed.

Lemma ThetaStar_ignores_scratch fuel square id ht g start goal :
  result_of (ThetaStarRun.find_path fuel square id ht g start goal)
  = result_of (ThetaStarRun.find_path fuel square id ht (reset_pathfinding_data g)
                 start goal).
Proof.
  unfold ThetaStarRun.find_path, ThetaStar_open. rewrite is_AngleGrid_reset.
  apply open_search_ignores_scratch.
Qed.

Lemma LazyThetaStar_ignores_scratch fuel id ht g start goal :
  result_of (LazyThetaStarRun.find_path fuel id ht g start goal)
  = result_of (LazyThetaStarRun.find_path fuel id ht (reset_pathfinding_data g)
                 start goal).
Proof.
  unfold LazyThetaStarRun.find_path, LazyThetaStar_open. rewrite is_AngleGrid_reset.
  apply open_search_ignores_scratch.
Qed.

Lemma JumpPointSearch_ignores_scratch fuel id ht g start goal :
  result_of (JumpPointSearch.find_path fuel id ht g start goal)
  = result_of (JumpPointSearch.find_path fuel id ht (reset_pathfinding_data g)
                 start goal).
Proof.
  unfold JumpPointSearch.find_path, JumpPointSearch_open. rewrite diagonal_movement_reset.
  apply open_search_ignores_scratch.
Qed.

Lemma JPS_is_walkable_reset g x y :
  JumpPointSearch._is_walkable (reset_pathfinding_data g) x y
  = JumpPointSearch._is_walkable g x y.
Proof.
  unfold JumpPointSearch._is_walkable. rewrite is_walkable_reset. reflexivity.
Qed.

Lemma precompute_jump_distances_reset fuel g :
  JumpPointSearchPlus._precompute_jump_distances fuel (reset_pathfinding_data g)
  = JumpPointSearchPlus._precompute_jump_distances fuel g.
Proof.
  assert (Hforced : forall x y dx dy,
             JumpPointSearch._has_forced_neighbors (reset_pathfinding_data g) x y dx dy
             = JumpPointSearch._has_forced_neighbors g x y dx dy).
  { intros. unfold JumpPointSearch._has_forced_neighbors.
    rewrite !JPS_is_walkable_reset. reflexivity. }
  assert (Hloop : forall (f : nat) x y distance dx dy,
             JumpPointSearchPlus.jump_distance_loop f (reset_pathfinding_data g)
                                                    x y distance dx dy
             = JumpPointSearchPlus.jump_distance_loop f g x y distance dx dy).
  { induction f as [| f IH]; intros; cbn [JumpPointSearchPlus.jump_distance_loop];
      [ reflexivity |].
    rewrite JPS_is_walkable_reset, Hforced, IH. reflexivity. }
  assert (Hdirs : forall ds x y row,
             JumpPointSearchPlus.directions_loop fuel (reset_pathfinding_data g) x y ds row
             = JumpPointSearchPlus.directions_loop fuel g x y ds row).
  { induction ds as [| d ds IH]; intros; cbn [JumpPointSearchPlus.directions_loop];
      [ reflexivity |].
    unfold JumpPointSearchPlus._compute_jump_distance. rewrite Hloop.
    destruct (JumpPointSearchPlus.jump_distance_loop _ _ _ _ _ _ _); cbn [bind]; auto. }
  assert (Hcells : forall cells t,
             JumpPointSearchPlus.cells_loop fuel (reset_pathfinding_data g) cells t
             = JumpPointSearchPlus.cells_loop fuel g cells t).
  { induction cells as [| c cells IH]; intros; cbn [JumpPointSearchPlus.cells_loop];
      [ reflexivity |].
    rewrite is_walkable_reset, Hdirs.
    destruct (is_walkable g (fst c) (snd c)); [| apply IH ].
    destruct (JumpPointSearchPlus.directions_loop _ _ _ _ _ _); cbn [bind]; auto. }
  unfold JumpPointSearchPlus._precompute_jump_distances. apply Hcells.
Qed.

Lemma JumpPointSearchPlus_ignores_scratch fuel id ht t g start goal :
  result_of (JumpPointSearchPlus.find_path fuel id ht t g start goal)
  = result_of (JumpPointSearchPlus.find_path fuel id ht t (reset_pathfinding_data g)
                 start goal).
Proof.
  unfold JumpPointSearchPlus.find_path.
  replace (match t with
           | Some t0 => Done t0
           | None => JumpPointSearchPlus._precompute_jump_distances
                       fuel (reset_pathfinding_data g)
           end)
    with (match t with
          | Some t0 => Done t0
          | None => JumpPointSearchPlus._precompute_jump_distances fuel g
          end)
    by (destruct t; [ reflexivity | symmetry; apply precompute_jump_distances_reset ]).
  destruct (match t with Some t0 => Done t0 | None => _ end); cbn [bind];
    [| reflexivity | reflexivity ].
  rewrite !result_of_bind, <- JumpPointSearch_ignores_scratch. reflexivity.
Qed.

Lemma IncrementalPhiStar_ignores_scratch fuel id ht g start goal :
  result_of (IncrementalPhiStarRun.find_path fuel id ht g start goal)
  = result_of (IncrementalPhiStarRun.find_path fuel id ht (reset_pathfinding_data g)
                 start goal).
Proof.
  unfold IncrementalPhiStarRun.find_path.
  rewrite !IncrementalPhiStar_open_eq, validate_inputs_reset, is_DynamicGrid_reset.
  destruct (validate_inputs g start goal); [ reflexivity |].
  destruct (negb (is_DynamicGrid g)); [ reflexivity |].
  destruct (pos_eqb start goal); [ reflexivity |].
  unfold IncrementalPhiStarRun._initialize_search.
  rewrite reset_pathfinding_data_idempotent. reflexivity.
Qed.

(** The capability test failed: the call returns a failure and leaves the
    grid as it was. *)
Lemma prologue_gate_fails e g start goal :
  validate_inputs g start goal = None -> gate_passes e g = false ->
  exists r, prologue e g start goal = Returns r g /\ found r = false.
Proof.
  intros Hv Hgate.
  destruct e; try discriminate Hgate; cbn [gate_passes] in Hgate;
    unfold prologue, ThetaStar_open, LazyThetaStar_open, JumpPointSearch_open;
    rewrite ?open_search_eq, ?IncrementalPhiStar_open_eq, ?Hv, ?Hgate;
    cbn [negb decorate]; eexists; split; reflexivity.
Qed.

(** What [_update_vertex] and [_handle_updates] leave alone: the grid. *)
Lemma update_vertex_grid id ht st node start st' :
  IncrementalPhiStarRun._update_vertex id ht st node start = Done st' ->
  IncrementalPhiStarRun.grid st' = IncrementalPhiStarRun.grid st.
Proof.
  unfold IncrementalPhiStarRun._update_vertex.
  destruct (node_at _ node); [| discriminate ].
  destruct (negb _); intros H; outcome_inv; reflexivity.
Qed.

Lemma update_all_grid id ht start (nodes : list pos) : forall st st',
  IncrementalPhiStarRun.update_all id ht start nodes st = Done st' ->
  IncrementalPhiStarRun.grid st' = IncrementalPhiStarRun.grid st.
Proof.
  induction nodes as [| node nodes IH]; intros st st' H;
    cbn [IncrementalPhiStarRun.update_all] in H.
  - injection H as <-. reflexivity.
  - destruct (IncrementalPhiStarRun._update_vertex id ht st node start)
      as [st1 | |] eqn:E; cbn [bind] in H; try discriminate H.
    apply IH in H. apply update_vertex_grid in E. congruence.
Qed.

Lemma handle_all_grid id ht start (changed : list pos) : forall st st',
  IncrementalPhiStarRun.handle_all id ht start changed st = Done st' ->
  IncrementalPhiStarRun.grid st' = IncrementalPhiStarRun.grid st.
Proof.
  induction changed as [| node changed IH]; intros st st' H;
    cbn [IncrementalPhiStarRun.handle_all] in H.
  - injection H as <-. reflexivity.
  - destruct (IncrementalPhiStarRun.handle_changed id ht start st node)
      as [st1 | |] eqn:E; cbn [bind] in H; try discriminate H.
    apply IH in H. rewrite H. unfold IncrementalPhiStarRun.handle_changed in E.
    destruct (IncrementalPhiStarRun._update_vertex id ht _ node start)
      as [st2 | |] eqn:E2; cbn [bind] in E; try discriminate E.
    injection E as <-. apply update_vertex_grid in E2.
    cbn [IncrementalPhiStarRun.set_inconsistent_nodes IncrementalPhiStarRun.grid].
    rewrite E2. destruct (IncrementalPhiStarRun.differs _ _); reflexivity.
Qed.

Lemma handle_updates_grid id ht order st changed start st' :
  IncrementalPhiStarRun._handle_updates id ht order st changed start = Done st' ->
  IncrementalPhiStarRun.grid st' = IncrementalPhiStarRun.grid st.
Proof.
  unfold IncrementalPhiStarRun._handle_updates. intros H.
  destruct (IncrementalPhiStarRun.handle_all id ht start changed st)
    as [st1 | |] eqn:E1; cbn [bind] in H; try discriminate H.
  destruct (IncrementalPhiStarRun.update_all id ht start _ st1)
    as [st2 | |] eqn:E2; cbn [bind] in H; try discriminate H.
  injection H as <-.
  cbn [IncrementalPhiStarRun.set_inconsistent_nodes IncrementalPhiStarRun.grid].
  apply update_all_grid in E2. apply handle_all_grid in E1. congruence.
Qed.

(** [_initialize_search] hands over the reset grid. *)
Lemma initialize_search_clean id ht g m start goal st :
  IncrementalPhiStarRun._initialize_search id ht g m start goal = Done st ->
  forall p n, node_at (IncrementalPhiStarRun.grid st) p = Some n -> scratch_is_clean n.
Proof.
  unfold IncrementalPhiStarRun._initialize_search. intros H.
  apply update_vertex_grid in H. cbn [IncrementalPhiStarRun.grid] in H. rewrite H.
  intros p n Hn. destruct (pos_eqb p goal) eqn:E.
  - apply pos_eqb_eq in E. subst p.
    rewrite node_at_update_node_same, node_at_reset in Hn.
    destruct (node_at g goal) as [n0 |]; [| discriminate Hn ].
    injection Hn as <-. repeat split.
  - apply pos_eqb_neq in E.
    rewrite node_at_update_node_other, node_at_reset in Hn by congruence.
    destruct (node_at g p) as [n0 |]; [| discriminate Hn ].
    injection Hn as <-. repeat split.
Qed.

(** A grid of the class [IncrementalPhiStar] asks for, on which an earlier
    search has left a cost of 5.0 in the node (0, 0). *)
Definition dirty_dynamic_grid : Grid :=
  update_node (Grid_init CDynamicGrid 2 1) (0, 0) (set_g_cost 5%float).

(** The attributes of an [IncrementalPhiStar] whose first call, from (0, 0)
    to (1, 0) on a 2x1 grid, has initialized a search: the goal is recorded
    and queued. *)
Definition attributes_after_first_call (id : pos -> Z) : IncrementalPhiStarRun.attributes :=
  match IncrementalPhiStarRun._initialize_search id "euclidean"
          (Grid_init CDynamicGrid 2 1) _start_timing (0, 0) (1, 0) with
  | Done st => IncrementalPhiStarRun.attributes_of st
  | _ => IncrementalPhiStarRun.initial_attributes
  end.

(** The sampling planners read the walkability of the grid and its size,
    and nothing else of it. *)
Lemma collision_loop_reset g a b n (is_ : list Z) :
  RRT.collision_loop (reset_pathfinding_data g) a b n is_ = RRT.collision_loop g a b n is_.
Proof.
  induction is_ as [| i is_ IH]; cbn [RRT.collision_loop]; [ reflexivity |].
  rewrite IH.
  destruct (Py.round _) as [grid_x |]; [| reflexivity ].
  destruct (Py.round _) as [grid_y |]; [| reflexivity ].
  rewrite is_walkable_reset. reflexivity.
Qed.

Lemma is_collision_free_reset g a b :
  RRT._is_collision_free (reset_pathfinding_data g) a b = RRT._is_collision_free g a b.
Proof.
  unfold RRT._is_collision_free. destruct (Py.int_of_float _); [| reflexivity ].
  apply collision_loop_reset.
Qed.

Lemma RRT_extend_tree_reset cfg g s from_node sample :
  RRT.RRT_extend_tree cfg (reset_pathfinding_data g) s from_node sample
  = RRT.RRT_extend_tree cfg g s from_node sample.
Proof. unfold RRT.RRT_extend_tree. rewrite is_collision_free_reset. reflexivity. Qed.

Lemma choose_parent_reset g s new_node (nearby : list ref) : forall best_parent best_cost,
  RRT.choose_parent (reset_pathfinding_data g) s new_node nearby best_parent best_cost
  = RRT.choose_parent g s new_node nearby best_parent best_cost.
Proof.
  induction nearby as [| nearby_node rest IH]; intros; cbn [RRT.choose_parent];
    [ reflexivity |].
  rewrite is_collision_free_reset, !IH. reflexivity.
Qed.

Lemma rewire_tree_reset fuel g new_node (nearby : list ref) : forall s,
  RRT._rewire_tree fuel (reset_pathfinding_data g) s new_node nearby
  = RRT._rewire_tree fuel g s new_node nearby.
Proof.
  induction nearby as [| nearby_node rest IH]; intros s; cbn [RRT._rewire_tree];
    [ reflexivity |].
  rewrite is_collision_free_reset, IH.
  destruct (s_parent _); [| reflexivity ].
  destruct (RRT._is_collision_free g _ _) as [[|] | |]; cbn [bind]; try reflexivity.
  destruct (Py.lt _ _); [| reflexivity ].
  destruct (RRT._update_descendant_costs _ _ _); cbn [bind]; auto.
Qed.

Lemma extend_tree_reset fuel cfg g s nodes from_node sample :
  RRT._extend_tree fuel cfg (reset_pathfinding_data g) s nodes from_node sample
  = RRT._extend_tree fuel cfg g s nodes from_node sample.
Proof.
  unfold RRT._extend_tree, RRT.RRTStar_extend_tree. rewrite RRT_extend_tree_reset.
  destruct (RRT.kind cfg) as [| radius]; [ reflexivity |].
  destruct (RRT.RRT_extend_tree cfg g s from_node sample) as [[s1 [new_node |]] | |];
    cbn [bind]; try reflexivity.
  rewrite choose_parent_reset.
  destruct (RRT.choose_parent _ _ _ _ _ _) as [[best_parent best_cost] | |];
    cbn [bind]; try reflexivity.
  rewrite rewire_tree_reset. reflexivity.
Qed.

Lemma RRT_iterate_reset fuel cfg rng g goal_node (todo : list Z) : forall st,
  RRT.iterate fuel cfg rng (reset_pathfinding_data g) goal_node todo st
  = RRT.iterate fuel cfg rng g goal_node todo st.
Proof.
  induction todo as [| iteration todo IH]; intros st; cbn [RRT.iterate];
    [ reflexivity |].
  change (width (reset_pathfinding_data g)) with (width g).
  change (height (reset_pathfinding_data g)) with (height g).
  destruct (if Py.lt _ _ then _ else _) as [sample drawn'].
  destruct (RRT._find_nearest_node _ _ _) as [nearest |]; [| apply IH ].
  rewrite extend_tree_reset.
  destruct (RRT._extend_tree _ _ _ _ _ _ _) as [[s1 [new_node |]] | |];
    cbn [bind]; try reflexivity; [| apply IH ].
  destruct (Py.le _ _); [| apply IH ].
  rewrite is_collision_free_reset.
  destruct (RRT._is_collision_free g _ _) as [[|] | |]; cbn [bind]; try reflexivity.
  apply IH.
Qed.

Lemma RRT_ignores_scratch fuel cfg rng g start goal :
  result_of (RRT.find_path fuel cfg rng g start goal)
  = result_of (RRT.find_path fuel cfg rng (reset_pathfinding_data g) start goal).
Proof.
  unfold RRT.find_path, RRT.find_path_state. rewrite validate_inputs_reset.
  destruct (truthy (validate_inputs g start goal)); [ reflexivity |].
  cbn [alloc]. rewrite RRT_iterate_reset.
  destruct (RRT.iterate _ _ _ _ _ _ _) as [[r st] | |]; reflexivity.
Qed.

Lemma RRTConnect_extend_reset cfg g s tree m sample :
  RRTConnect._extend_toward_sample cfg (reset_pathfinding_data g) s tree m sample
  = RRTConnect._extend_toward_sample cfg g s tree m sample.
Proof.
  unfold RRTConnect._extend_toward_sample.
  destruct (RRTConnect.nearest_in s tree sample); cbn [bind]; try reflexivity.
  rewrite is_collision_free_reset. reflexivity.
Qed.

Lemma RRTConnect_connect_reset g s tree source :
  RRTConnect._connect_trees (reset_pathfinding_data g) s tree source
  = RRTConnect._connect_trees g s tree source.
Proof.
  unfold RRTConnect._connect_trees.
  destruct (RRTConnect.nearest_in _ _ _); cbn [bind]; try reflexivity.
  rewrite is_collision_free_reset. reflexivity.
Qed.

Lemma RRTConnect_iterate_reset fuel cfg rng g (todo : list Z) : forall st,
  RRTConnect.iterate fuel cfg rng (reset_pathfinding_data g) todo st
  = RRTConnect.iterate fuel cfg rng g todo st.
Proof.
  induction todo as [| iteration todo IH]; intros st; cbn [RRTConnect.iterate];
    [ reflexivity |].
  unfold RRTConnect._sample_random_point.
  change (width (reset_pathfinding_data g)) with (width g).
  change (height (reset_pathfinding_data g)) with (height g).
  cbv zeta. rewrite !RRTConnect_extend_reset.
  destruct (iteration mod 2 =? 0);
    (destruct (RRTConnect._extend_toward_sample _ _ _ _ _ _)
       as [[[[s1 tree1] m1] [new_node |]] | |]; cbn [bind]; try reflexivity;
     [| apply IH ]);
    rewrite RRTConnect_connect_reset;
    (destruct (RRTConnect._connect_trees _ _ _ _) as [[c |] | |]; cbn [bind];
     try reflexivity; apply IH).
Qed.

Lemma RRTConnect_ignores_scratch fuel cfg rng g start goal :
  result_of (RRTConnect.find_path fuel cfg rng g start goal)
  = result_of (RRTConnect.find_path fuel cfg rng (reset_pathfinding_data g) start goal).
Proof.
  unfold RRTConnect.find_path. rewrite !sampling_open_eq, validate_inputs_reset.
  destruct (validate_inputs g start goal); [ reflexivity |].
  cbn [alloc]. rewrite RRTConnect_iterate_reset.
  destruct (RRTConnect.iterate _ _ _ _ _ _) as [[r st] | |]; reflexivity.
Qed.

Lemma RRTConnect_returns_the_grid fuel cfg rng g start goal r g' :
  RRTConnect.find_path fuel cfg rng g start goal = Done (r, g') -> g' = g.
Proof.
  unfold RRTConnect.find_path. rewrite sampling_open_eq.
  destruct (validate_inputs g start goal).
  - intros H. injection H as _ <-. reflexivity.
  - cbn [alloc]. destruct (RRTConnect.iterate _ _ _ _ _ _) as [[r0 st] | |];
      cbn [bind]; intros H; inversion H; reflexivity.
Qed.

(** C5, as the code has it.  The engines that reset enter their search on
    the reset grid, every node of which has clean scratch fields; a call
    whose validation or capability test fails returns a failure and leaves
    the grid as it was.  The sampling engines make no reset: they enter
    their search on the grid as the caller left it, and [RRT] and
    [RRTConnect] return it untouched.  Whether the engine resets or not, the
    result of a call is that of the same call on the reset grid: for A*,
    weighted A*, bidirectional A*, Dijkstra, uniform cost search, all-paths
    Dijkstra, IDA*, memory-bounded A*, recursive best-first search, Theta*,
    basic Theta*, lazy Theta*, jump point search and JPS+, for [RRT] (and
    [RRTStar]) and [RRTConnect], and for the first call of an
    [IncrementalPhiStar].  [IncrementalPhiStar] resets inside
    [_initialize_search]: when the goal is not that of the engine's previous
    search, or the engine holds no search data, [_search] is entered on the
    reset grid; when it replans for the same goal, [_search] is entered on
    the grid as the caller left it. *)
Theorem search_starts_from_reset_scratch :
  (forall e g start goal g',
      resets_grid e = true -> prologue e g start goal = Searches g' ->
      g' = reset_pathfinding_data g
      /\ forall p n, node_at g' p = Some n -> scratch_is_clean n)
  /\ (forall e g start goal g',
         is_sampling e = true -> prologue e g start goal = Searches g' -> g' = g)
  /\ (forall e g start goal,
         validate_inputs g start goal <> None \/ gate_passes e g = false ->
         exists r, prologue e g start goal = Returns r g /\ found r = false)
  /\ (forall fuel id ht w g start goal,
         result_of (AStar.find_path fuel id ht w g start goal)
         = result_of (AStar.find_path fuel id ht w (reset_pathfinding_data g) start goal))
  /\ (forall fuel id ht w g start goal,
         result_of (WeightedAStar.find_path fuel id ht w g start goal)
         = result_of (WeightedAStar.find_path fuel id ht w (reset_pathfinding_data g)
                        start goal))
  /\ (forall fuel id ht g start goal,
         result_of (BidirectionalAStar.find_path fuel id ht g start goal)
         = result_of (BidirectionalAStar.find_path fuel id ht (reset_pathfinding_data g)
                        start goal))
  /\ (forall fuel id g start goal,
         result_of (Dijkstra.find_path fuel id g start goal)
         = result_of (Dijkstra.find_path fuel id (reset_pathfinding_data g) start goal))
  /\ (forall fuel id g start goal,
         result_of (UniformCostSearch.find_path fuel id g start goal)
         = result_of (UniformCostSearch.find_path fuel id (reset_pathfinding_data g)
                        start goal))
  /\ (forall fuel id g start goal,
         result_of (DijkstraAllPaths.find_path fuel id g start goal)
         = result_of (DijkstraAllPaths.find_path fuel id (reset_pathfinding_data g)
                        start goal))
  /\ (forall depth ht mi g start goal,
         result_of (IDAStar.find_path depth ht mi g start goal)
         = result_of (IDAStar.find_path depth ht mi (reset_pathfinding_data g) start goal))
  /\ (forall depth ht ml g start goal,
         result_of (MemoryBoundedAStar.find_path depth ht ml g start goal)
         = result_of (MemoryBoundedAStar.find_path depth ht ml (reset_pathfinding_data g)
                        start goal))
  /\ (forall depth fuel ht g start goal,
         result_of (RecursiveBestFirstSearch.find_path depth fuel ht g start goal)
         = result_of (RecursiveBestFirstSearch.find_path depth fuel ht
                        (reset_pathfinding_data g) start goal))
  /\ (forall fuel square id ht g start goal,
         result_of (ThetaStarRun.find_path fuel square id ht g start goal)
         = result_of (ThetaStarRun.find_path fuel square id ht (reset_pathfinding_data g)
                        start goal))
  /\ (forall fuel square id g start goal,
         result_of (BasicThetaStar.find_path fuel square id g start goal)
         = result_of (BasicThetaStar.find_path fuel square id (reset_pathfinding_data g)
                        start goal))
  /\ (forall fuel id ht g start goal,
         result_of (LazyThetaStarRun.find_path fuel id ht g start goal)
         = result_of (LazyThetaStarRun.find_path fuel id ht (reset_pathfinding_data g)
                        start goal))
  /\ (forall fuel id ht g start goal,
         result_of (JumpPointSearch.find_path fuel id ht g start goal)
         = result_of (JumpPointSearch.find_path fuel id ht (reset_pathfinding_data g)
                        start goal))
  /\ (forall fuel id ht t g start goal,
         result_of (JumpPointSearchPlus.find_path fuel id ht t g start goal)
         = result_of (JumpPointSearchPlus.find_path fuel id ht t (reset_pathfinding_data g)
                        start goal))
  /\ (forall fuel cfg rng g start goal,
         result_of (RRT.find_path fuel cfg rng g start goal)
         = result_of (RRT.find_path fuel cfg rng (reset_pathfinding_data g) start goal))
  /\ (forall fuel cfg rng g start goal,
         result_of (RRTConnect.find_path fuel cfg rng g start goal)
         = result_of (RRTConnect.find_path fuel cfg rng (reset_pathfinding_data g)
                        start goal))
  /\ (forall fuel id ht g start goal,
         result_of (IncrementalPhiStarRun.find_path fuel id ht g start goal)
         = result_of (IncrementalPhiStarRun.find_path fuel id ht (reset_pathfinding_data g)
                        start goal))
  /\ (forall fuel cfg rng g start goal r g',
         RRT.find_path fuel cfg rng g start goal = Done (r, g') -> g' = g)
  /\ (forall fuel cfg rng g start goal r g',
         RRTConnect.find_path fuel cfg rng g start goal = Done (r, g') -> g' = g)
  /\ (forall id ht order a g rhs_of cost_changed start goal st cost_changed',
         IncrementalPhiStarRun.differs goal (IncrementalPhiStarRun.a_goal_node a)
         || negb (IncrementalPhiStarRun._has_valid_search_data a) = true ->
         IncrementalPhiStarRun.enter_search id ht order a g rhs_of cost_changed start goal
         = Done (st, cost_changed') ->
         forall p n, node_at (IncrementalPhiStarRun.grid st) p = Some n ->
                     scratch_is_clean n)
  /\ (forall id ht order a g rhs_of cost_changed start goal st cost_changed',
         IncrementalPhiStarRun.a_goal_node a = Some goal ->
         IncrementalPhiStarRun._has_valid_search_data a = true ->
         IncrementalPhiStarRun.enter_search id ht order a g rhs_of cost_changed start goal
         = Done (st, cost_changed') ->
         IncrementalPhiStarRun.grid st = g).
Proof.
  split.
  { intros e g start goal g' Hr Hp.
    apply (prologue_searches_reset e g start goal g' Hr) in Hp. subst g'.
    split; [ reflexivity |]. intros p n Hn. rewrite node_at_reset in Hn.
    destruct (node_at g p) as [n0 |]; [| discriminate Hn ].
    injection Hn as <-. repeat split. }
  split.
  { intros e g start goal g' Hs. apply prologue_searches_no_reset.
    destruct e; try discriminate Hs; reflexivity. }
  split.
  { intros e g start goal [Hv | Hgate].
    - destruct (validate_inputs g start goal) as [msg |] eqn:E; [| congruence ].
      destruct (prologue_invalid e g start goal msg E) as (r & Hr & Hm).
      exists r. split; [ exact Hr |]. apply made_fields in Hm. tauto.
    - destruct (validate_inputs g start goal) as [msg |] eqn:E.
      + destruct (prologue_invalid e g start goal msg E) as (r & Hr & Hm).
        exists r. split; [ exact Hr |]. apply made_fields in Hm. tauto.
      + apply prologue_gate_fails; assumption. }
  split; [ intros; apply AStar_ignores_scratch |].
  split.
  { intros. unfold WeightedAStar.find_path. rewrite !result_of_bind.
    rewrite <- AStar_ignores_scratch. reflexivity. }
  split; [ intros; apply BidirectionalAStar_ignores_scratch |].
  split; [ intros; apply Dijkstra_ignores_scratch |].
  split.
  { intros. unfold UniformCostSearch.find_path. rewrite !result_of_bind.
    rewrite <- Dijkstra_ignores_scratch. reflexivity. }
  split; [ intros; apply DijkstraAllPaths_ignores_scratch |].
  split; [ intros; apply IDAStar_ignores_scratch |].
  split.
  { intros depth ht ml g start goal.
    unfold MemoryBoundedAStar.find_path. rewrite validate_inputs_reset.
    destruct (truthy (validate_inputs g start goal)); [ reflexivity |].
    pose proof (IDAStar_ignores_scratch depth ht 100 g start goal) as H.
    destruct (IDAStar.find_path depth ht 100 g start goal) as [[r1 g1] | |];
      destruct (IDAStar.find_path depth ht 100 (reset_pathfinding_data g) start goal)
        as [[r2 g2] | |]; cbn [result_of] in H; try discriminate H;
      cbn [bind]; [| exact H | reflexivity ].
    injection H as <-. destruct (found r1); reflexivity. }
  split; [ intros; apply RecursiveBestFirstSearch_ignores_scratch |].
  split; [ intros; apply ThetaStar_ignores_scratch |].
  split.
  { intros. unfold BasicThetaStar.find_path. rewrite !result_of_bind.
    rewrite <- ThetaStar_ignores_scratch. reflexivity. }
  split; [ intros; apply LazyThetaStar_ignores_scratch |].
  split; [ intros; apply JumpPointSearch_ignores_scratch |].
  split; [ intros; apply JumpPointSearchPlus_ignores_scratch |].
  split; [ intros; apply RRT_ignores_scratch |].
  split; [ intros; apply RRTConnect_ignores_scratch |].
  split; [ intros; apply IncrementalPhiStar_ignores_scratch |].
  split.
  { intros fuel cfg rng g start goal r g'. unfold RRT.find_path.
    destruct (RRT.find_path_state fuel cfg rng g start goal) as [[r0 st] | |];
      cbn [bind]; intros H; inversion H; reflexivity. }
  split; [ intros *; apply RRTConnect_returns_the_grid |].
  split.
  { intros id ht order a g rhs_of cc start goal st cc' Hnew H.
    unfold IncrementalPhiStarRun.enter_search in H. rewrite Hnew in H.
    destruct (IncrementalPhiStarRun._initialize_search id ht g _start_timing start goal)
      as [st0 | |] eqn:E; cbn [bind] in H; try discriminate H.
    injection H as <- _. eapply initialize_search_clean; eauto. }
  intros id ht order a g rhs_of cc start goal st cc' Hgoal Hvalid H.
  unfold IncrementalPhiStarRun.enter_search in H.
  rewrite Hgoal, Hvalid in H. cbn [IncrementalPhiStarRun.differs] in H.
  rewrite pos_eqb_refl in H. cbn [negb orb] in H.
  destruct (IncrementalPhiStarRun.get_changed_nodes g cc) as [| c changed].
  - injection H as <- _. reflexivity.
  - destruct (IncrementalPhiStarRun._handle_updates _ _ _ _ _ _) as [st0 | |] eqn:E;
      cbn [bind] in H; try discriminate H.
    injection H as <- _. apply handle_updates_grid in E. exact E.
Qed.

(** A 2x1 grid on which an earlier search has left a cost of 5.0 in the
    node (0, 0). *)
Definition dirty_grid : Grid :=
  update_node (Grid_init CGrid 2 1) (0, 0) (set_g_cost 5%float).

Lemma search_starts_from_reset_scratch_witness :
  prologue EDijkstra dirty_grid (0, 0) (1, 0) = Searches (reset_pathfinding_data dirty_grid)
  /\ (forall p n, node_at (reset_pathfinding_data dirty_grid) p = Some n ->
                  scratch_is_clean n).
Proof.
  split; [ reflexivity |].
  destruct search_starts_from_reset_scratch as [H _].
  exact (proj2 (H EDijkstra dirty_grid (0, 0) (1, 0) (reset_pathfinding_data dirty_grid)
                  eq_refl eq_refl)).
Defined.

(** Two calls that search on stale scratch fields.  [RRT] (step 1.0, goal
    bias 0.1) from (0, 0) to (1, 0) on the dirty grid, when the generator
    returns 0.0: the first sample is the goal, the tree reaches it, the call
    succeeds, and the node (0, 0) of the grid still carries the cost 5.0 of
    the earlier search; no reset was made.  And an [IncrementalPhiStar]
    whose previous call had the goal (1, 0), called again for that goal on
    the dirty dynamic grid: the end points are valid, the grid is of the
    right class, no node is flagged as changed, and [_search] is entered on
    the grid as it is, with the cost 5.0 still in the node (0, 0). *)
Lemma RRT_searches_on_stale_scratch :
  (prologue ERRT dirty_grid (0, 0) (1, 0) = Searches dirty_grid
   /\ exists r g',
        RRT.find_path 4 (RRT.mkConfig 1%float 5 0.1%float RRT.Plain) (fun _ => 0%float)
                      dirty_grid (0, 0) (1, 0) = Done (r, g')
        /\ found r = true
        /\ option_map g_cost (node_at g' (0, 0)) = Some 5%float
        /\ option_map g_cost (node_at (reset_pathfinding_data dirty_grid) (0, 0))
           = Some Py.inf
        /\ g' <> reset_pathfinding_data dirty_grid)
  /\ (forall id order,
        prologue EIncrementalPhiStar dirty_dynamic_grid (0, 0) (1, 0)
        = Searches dirty_dynamic_grid
        /\ IncrementalPhiStarRun.a_goal_node (attributes_after_first_call id) = Some (1, 0)
        /\ IncrementalPhiStarRun._has_valid_search_data (attributes_after_first_call id)
           = true
        /\ exists st cost_changed,
             IncrementalPhiStarRun.enter_search
               id "euclidean" order (attributes_after_first_call id) dirty_dynamic_grid
               (fun _ => Py.inf) (fun _ => false) (0, 0) (1, 0)
             = Done (st, cost_changed)
             /\ IncrementalPhiStarRun.grid st = dirty_dynamic_grid
             /\ option_map g_cost (node_at (IncrementalPhiStarRun.grid st) (0, 0))
                = Some 5%float).
Proof.
  split.
  - split; [ reflexivity |].
    eexists _, _. split; [ vm_compute; reflexivity |].
    split; [ reflexivity |]. split; [ reflexivity |]. split; [ reflexivity |].
    intros H. apply (f_equal (fun g => option_map g_cost (node_at g (0, 0)))) in H.
    vm_compute in H. discriminate H.
  - intros id order. split; [ reflexivity |]. split; [ reflexivity |].
    split; [ reflexivity |]. eexists _, _. split; [ reflexivity |].
    split; reflexivity.
Qed.

(* ================================================================== *)
(** * Further properties of the grid *)
(* ================================================================== *)

Lemma get_node_update_node g p f x y :
  get_node (update_node g p f) x y
  = if pos_eqb (x, y) p then option_map f (get_node g x y) else get_node g x y.
Proof.
  change (get_node ?h x y) with (node_at h (x, y)).
  destruct (pos_eqb (x, y) p) eqn:E.
  - apply pos_eqb_eq in E. subst p. apply node_at_update_node_same.
  - apply pos_eqb_neq in E. apply node_at_update_node_other. congruence.
Qed.

Lemma get_node_set_walkable g a b w x y :
  get_node (set_walkable g a b w) x y
  = if pos_eqb (x, y) (a, b) then option_map (set_node_walkable w) (get_node g x y)
    else get_node g x y.
Proof.
  unfold set_walkable. destruct (get_node g a b) as [n |] eqn:E.
  - apply get_node_update_node.
  - destruct (pos_eqb (x, y) (a, b)) eqn:E2; [| reflexivity ].
    apply pos_eqb_eq in E2. injection E2 as -> ->. rewrite E. reflexivity.
Qed.

Lemma is_walkable_set_walkable g a b w x y :
  is_walkable (set_walkable g a b w) x y
  = if pos_eqb (x, y) (a, b)
    then match get_node g x y with Some _ => w | None => false end
    else is_walkable g x y.
Proof.
  unfold is_walkable. rewrite get_node_set_walkable.
  destruct (pos_eqb (x, y) (a, b)); [| reflexivity ].
  destruct (get_node g x y); reflexivity.
Qed.

Lemma get_node_valid g x y n : get_node g x y = Some n -> is_valid_position g x y = true.
Proof. unfold get_node. destruct (is_valid_position g x y); [ auto | discriminate ]. Qed.

(** A grid is rectangular when [nodes] has [height] rows of [width] nodes,
    as [_initialize_grid] builds it. *)
Definition rectangular (g : Grid) : Prop :=
  List.length (nodes g) = Z.to_nat (height g)
  /\ Forall (fun row => List.length row = Z.to_nat (width g)) (nodes g).

Lemma length_range n : List.length (Py.range n) = Z.to_nat n.
Proof. unfold Py.range. rewrite length_map, length_seq. reflexivity. Qed.

Lemma rectangular_Grid_init c w h : rectangular (Grid_init c w h).
Proof.
  unfold rectangular, Grid_init, _initialize_grid. cbn [nodes height width]. split.
  - rewrite length_map. apply length_range.
  - apply Forall_forall. intros row Hrow. apply in_map_iff in Hrow as (y & <- & _).
    rewrite length_map. apply length_range.
Qed.

Lemma length_update {A} (f : A -> A) (l : list A) : forall i,
  List.length (update l i f) = List.length l.
Proof. induction l as [| a l IH]; intros [| i]; simpl; auto. Qed.

Lemma Forall_update {A} (P : A -> Prop) (f : A -> A) (l : list A) :
  (forall a, P a -> P (f a)) -> forall i, Forall P l -> Forall P (update l i f).
Proof.
  intros Hf. induction l as [| a l IH]; intros [| i] H; simpl; auto;
    inversion H; subst; constructor; auto.
Qed.

Lemma rectangular_update_node g p f : rectangular g -> rectangular (update_node g p f).
Proof.
  intros [Hh Hw]. unfold update_node.
  destruct (is_valid_position g (fst p) (snd p)); [| split; assumption ].
  split; cbn [nodes with_nodes height width].
  - rewrite length_update. exact Hh.
  - apply Forall_update; [| exact Hw ]. intros row Hrow. rewrite length_update. exact Hrow.
Qed.

Lemma rectangular_set_walkable g x y w : rectangular g -> rectangular (set_walkable g x y w).
Proof.
  intros H. unfold set_walkable. destruct (get_node g x y); [| exact H ].
  apply rectangular_update_node. exact H.
Qed.

Lemma rectangular_get_node g x y :
  rectangular g -> is_valid_position g x y = true -> exists n, get_node g x y = Some n.
Proof.
  intros [Hh Hw] Hv. unfold get_node. rewrite Hv.
  unfold is_valid_position in Hv.
  apply andb_true_iff in Hv as [Hv Hy2]. apply andb_true_iff in Hv as [Hv Hy1].
  apply andb_true_iff in Hv as [Hx1 Hx2].
  apply Z.leb_le in Hx1, Hy1. apply Z.ltb_lt in Hx2, Hy2.
  unfold index. destruct (Z.ltb_spec y 0); [ lia |].
  destruct (nth_error (nodes g) (Z.to_nat y)) as [row |] eqn:Erow.
  - destruct (Z.ltb_spec x 0); [ lia |].
    assert (Hlen : List.length row = Z.to_nat (width g)).
    { rewrite Forall_forall in Hw. apply Hw. eapply nth_error_In; eauto. }
    destruct (nth_error row (Z.to_nat x)) as [n |] eqn:En; [ eauto |].
    apply nth_error_None in En. lia.
  - apply nth_error_None in Erow. lia.
Qed.

(** X1.  [set_walkable] and [is_walkable] round trip: on a rectangular grid
    the flag written at a position inside the grid is the one read back; no
    other position changes; and a write outside the grid changes nothing. *)
Theorem set_walkable_round_trip (g : Grid) (a b : Z) (w : bool) :
  rectangular g ->
  (is_valid_position g a b = true -> is_walkable (set_walkable g a b w) a b = w)
  /\ (forall x y, (x, y) <> (a, b) ->
                  is_walkable (set_walkable g a b w) x y = is_walkable g x y)
  /\ (is_valid_position g a b = false -> set_walkable g a b w = g)
  /\ rectangular (set_walkable g a b w).
Proof.
  intros Hr. split; [| split; [| split ] ].
  - intros Hv. rewrite is_walkable_set_walkable, pos_eqb_refl.
    destruct (rectangular_get_node g a b Hr Hv) as [n ->]. reflexivity.
  - intros x y Hne. rewrite is_walkable_set_walkable.
    apply pos_eqb_neq in Hne. rewrite Hne. reflexivity.
  - intros Hv. unfold set_walkable, get_node. rewrite Hv. reflexivity.
  - apply rectangular_set_walkable. exact Hr.
Qed.

Lemma set_walkable_round_trip_witness :
  (is_valid_position (Grid_init CGrid 3 2) 2 1 = true ->
   is_walkable (set_walkable (Grid_init CGrid 3 2) 2 1 false) 2 1 = false)
  /\ (forall x y, (x, y) <> (2, 1) ->
                  is_walkable (set_walkable (Grid_init CGrid 3 2) 2 1 false) x y
                  = is_walkable (Grid_init CGrid 3 2) x y)
  /\ (is_valid_position (Grid_init CGrid 3 2) 2 1 = false ->
      set_walkable (Grid_init CGrid 3 2) 2 1 false = Grid_init CGrid 3 2)
  /\ rectangular (set_walkable (Grid_init CGrid 3 2) 2 1 false).
Proof.
  apply (set_walkable_round_trip (Grid_init CGrid 3 2) 2 1 false).
  apply rectangular_Grid_init.
Defined.

(* ------------------------------------------------------------------ *)
(** ** Neighbours *)
(* ------------------------------------------------------------------ *)

(** The moves [get_neighbors] considers: one step along an axis, and, when
    [diagonal_movement] is set, one step along both. *)
Definition step_allowed (g : Grid) (p q : pos) : Prop :=
  let dx := Z.abs (fst q - fst p) in
  let dy := Z.abs (snd q - snd p) in
  if diagonal_movement g then Z.max dx dy = 1 else dx + dy = 1.

Definition directions_of (g : Grid) : list pos :=
  if diagonal_movement g then directions4 ++ directions_diag else directions4.

Lemma get_neighbors_In g p q :
  In q (get_neighbors g p)
  <-> is_walkable g (fst q) (snd q) = true
      /\ In (fst q - fst p, snd q - snd p) (directions_of g).
Proof.
  unfold get_neighbors. fold (directions_of g). rewrite in_flat_map. split.
  - intros (d & Hd & Hq).
    destruct (is_walkable g (fst p + fst d) (snd p + snd d)) eqn:Hw; [| contradiction ].
    destruct (get_node g (fst p + fst d) (snd p + snd d)); [| contradiction ].
    destruct Hq as [<- | []]. cbn [fst snd]. split; [ exact Hw |].
    replace (fst p + fst d - fst p) with (fst d) by lia.
    replace (snd p + snd d - snd p) with (snd d) by lia.
    rewrite <- surjective_pairing. exact Hd.
  - intros [Hw Hd]. exists (fst q - fst p, snd q - snd p). split; [ exact Hd |].
    cbn [fst snd].
    replace (fst p + (fst q - fst p)) with (fst q) by lia.
    replace (snd p + (snd q - snd p)) with (snd q) by lia.
    rewrite Hw. pose proof Hw as Hn. apply is_walkable_node in Hn as [n Hn].
    unfold node_at in Hn. cbn [fst snd] in Hn. rewrite Hn. left. symmetry. apply surjective_pairing.
Qed.

Lemma directions_of_allowed g p q :
  In (fst q - fst p, snd q - snd p) (directions_of g) <-> step_allowed g p q.
Proof.
  unfold directions_of, step_allowed, directions4, directions_diag.
  destruct (diagonal_movement g); cbn [app In]; split.
  - intros H. repeat destruct H as [H | H]; try contradiction;
      injection H as Hx Hy; lia.
  - intros H.
    assert (Hc : (fst q - fst p = 0 \/ fst q - fst p = 1 \/ fst q - fst p = -1)
                 /\ (snd q - snd p = 0 \/ snd q - snd p = 1 \/ snd q - snd p = -1)
                 /\ ~ (fst q - fst p = 0 /\ snd q - snd p = 0)) by lia.
    destruct Hc as ([Hx | [Hx | Hx]] & [Hy | [Hy | Hy]] & Hne); rewrite Hx, Hy;
      try (exfalso; apply Hne; split; assumption); auto 10.
  - intros H. repeat destruct H as [H | H]; try contradiction;
      injection H as Hx Hy; lia.
  - intros H.
    assert (Hc : (fst q - fst p = 0 /\ (snd q - snd p = 1 \/ snd q - snd p = -1))
                 \/ (snd q - snd p = 0 /\ (fst q - fst p = 1 \/ fst q - fst p = -1)))
      by lia.
    destruct Hc as [[Hx [Hy | Hy]] | [Hy [Hx | Hx]]]; rewrite Hx, Hy; auto 10.
Qed.

Lemma NoDup_directions_of g : NoDup (directions_of g).
Proof.
  unfold directions_of, directions4, directions_diag.
  destruct (diagonal_movement g); cbn [app];
    repeat (constructor; [ cbn [In]; intros H;
                           repeat destruct H as [H | H]; try discriminate H; try contradiction
                         |]); constructor.
Qed.

Lemma get_neighbors_as_map g p :
  get_neighbors g p
  = map (fun d => (fst p + fst d, snd p + snd d))
        (filter (fun d => is_walkable g (fst p + fst d) (snd p + snd d)) (directions_of g)).
Proof.
  unfold get_neighbors. fold (directions_of g).
  induction (directions_of g) as [| d ds IH]; [ reflexivity |].
  cbn [flat_map filter]. rewrite IH.
  destruct (is_walkable g (fst p + fst d) (snd p + snd d)) eqn:Hw; [| reflexivity ].
  apply is_walkable_node in Hw as [n Hn]. unfold node_at in Hn. cbn [fst snd] in Hn.
  rewrite Hn. reflexivity.
Qed.

Lemma NoDup_map_injective {A B} (f : A -> B) (l : list A) :
  (forall a b, f a = f b -> a = b) -> NoDup l -> NoDup (map f l).
Proof.
  intros Hinj. induction 1 as [| a l Ha Hl IH]; cbn [map]; constructor; [| exact IH ].
  intros Hin. apply in_map_iff in Hin as (b & Hb & Hin). apply Hinj in Hb. subst b.
  contradiction.
Qed.

(** X2.  What [get_neighbors] returns: exactly the walkable cells one
    allowed step away (eight directions, or four when [diagonal_movement] is
    off), each once, and never the cell itself; all of them lie inside the
    grid. *)
Theorem get_neighbors_characterised (g : Grid) (p : pos) :
  (forall q, In q (get_neighbors g p)
             <-> is_walkable g (fst q) (snd q) = true /\ step_allowed g p q)
  /\ NoDup (get_neighbors g p)
  /\ ~ In p (get_neighbors g p)
  /\ (forall q, In q (get_neighbors g p) -> is_valid_position g (fst q) (snd q) = true)
  /\ (List.length (get_neighbors g p) <= 8)%nat.
Proof.
  assert (Hiff : forall q, In q (get_neighbors g p)
                           <-> is_walkable g (fst q) (snd q) = true /\ step_allowed g p q).
  { intros q. rewrite get_neighbors_In, directions_of_allowed. reflexivity. }
  split; [ exact Hiff |]. split; [| split; [| split ] ].
  - rewrite get_neighbors_as_map. apply NoDup_map_injective.
    + intros [a b] [c d] H. injection H as H1 H2. cbn [fst snd] in *. f_equal; lia.
    + apply NoDup_filter. apply NoDup_directions_of.
  - intros H. apply Hiff in H as [_ H]. unfold step_allowed in H.
    destruct (diagonal_movement g); lia.
  - intros q H. apply Hiff in H as [H _]. apply is_walkable_valid. exact H.
  - rewrite get_neighbors_as_map, length_map.
    etransitivity; [ apply filter_length_le |].
    unfold directions_of. destruct (diagonal_movement g); simpl; lia.
Qed.

(** X3.  The neighbour relation is symmetric between walkable cells. *)
Theorem get_neighbors_symmetric (g : Grid) (p q : pos) :
  is_walkable g (fst p) (snd p) = true ->
  In q (get_neighbors g p) -> In p (get_neighbors g q).
Proof.
  intros Hp Hq. rewrite get_neighbors_In, directions_of_allowed in *.
  destruct Hq as [_ Hq]. split; [ exact Hp |].
  unfold step_allowed in *. destruct (diagonal_movement g); lia.
Qed.

Lemma get_neighbors_symmetric_witness :
  is_walkable (Grid_init CGrid 2 2) 0 0 = true /\ In (0, 0) (get_neighbors (Grid_init CGrid 2 2) (1, 1)).
Proof.
  split; [ reflexivity |].
  apply (get_neighbors_symmetric (Grid_init CGrid 2 2) (0, 0) (1, 1)).
  - reflexivity.
  - vm_compute. auto.
Defined.

(** The price of an allowed step. *)
Lemma allowed_step_cost (g : Grid) (p q : pos) :
  step_allowed g p q ->
  Grid_get_movement_cost g p q
  = if (Z.abs (fst q - fst p) =? 1) && (Z.abs (snd q - snd p) =? 1)
    then diagonal_cost g else straight_cost g.
Proof.
  intros H. unfold Grid_get_movement_cost.
  destruct ((Z.abs (fst q - fst p) =? 1) && (Z.abs (snd q - snd p) =? 1)) eqn:E;
    [ reflexivity |].
  unfold step_allowed in H.
  assert (Hs : ((Z.abs (fst q - fst p) =? 1) && (Z.abs (snd q - snd p) =? 0))
               || ((Z.abs (fst q - fst p) =? 0) && (Z.abs (snd q - snd p) =? 1)) = true).
  { apply andb_false_iff in E.
    destruct (diagonal_movement g);
      destruct (Z.eqb_spec (Z.abs (fst q - fst p)) 1);
      destruct (Z.eqb_spec (Z.abs (snd q - snd p)) 1);
      destruct (Z.eqb_spec (Z.abs (fst q - fst p)) 0);
      destruct (Z.eqb_spec (Z.abs (snd q - snd p)) 0);
      cbn; try reflexivity; destruct E as [E | E]; try discriminate E; lia. }
  rewrite Hs. reflexivity.
Qed.

(** X4.  A move to a neighbour has a finite price on the plain grids: the
    straight or the diagonal cost of the grid, never the [inf] of an invalid
    move. *)
Theorem neighbor_move_has_a_price (g : Grid) (p q : pos) :
  In q (get_neighbors g p) ->
  Grid_get_movement_cost g p q
  = if (Z.abs (fst q - fst p) =? 1) && (Z.abs (snd q - snd p) =? 1)
    then diagonal_cost g else straight_cost g.
Proof.
  intros H. apply get_neighbors_In in H as [_ H]. apply directions_of_allowed in H.
  apply allowed_step_cost. exact H.
Qed.

Lemma neighbor_move_has_a_price_witness :
  Grid_get_movement_cost (Grid_init CGrid 2 2) (0, 0) (1, 1)
  = if (Z.abs (fst (1, 1) - fst (0, 0)) =? 1) && (Z.abs (snd (1, 1) - snd (0, 0)) =? 1)
    then diagonal_cost (Grid_init CGrid 2 2) else straight_cost (Grid_init CGrid 2 2).
Proof.
  apply (neighbor_move_has_a_price (Grid_init CGrid 2 2) (0, 0) (1, 1)).
  vm_compute. auto 10.
Defined.

(* ------------------------------------------------------------------ *)
(** ** Obstacle patterns *)
(* ------------------------------------------------------------------ *)

(** Blocking the cells of a list that satisfy a test. *)
Definition block_cells (blk : pos -> bool) (cells : list pos) (g : Grid) : Grid :=
  fold_left (fun g c => if blk c then set_walkable g (fst c) (snd c) false else g) cells g.

Lemma is_walkable_block_cells blk cells : forall g x y,
  is_walkable (block_cells blk cells g) x y
  = is_walkable g x y && negb (existsb (fun c => pos_eqb (x, y) c && blk c) cells).
Proof.
  unfold block_cells.
  induction cells as [| c cells IH]; intros g x y; cbn [fold_left existsb].
  - rewrite andb_true_r. reflexivity.
  - rewrite IH. destruct (blk c) eqn:Hb.
    + rewrite is_walkable_set_walkable. rewrite <- surjective_pairing.
      destruct (pos_eqb (x, y) c) eqn:E; cbn [andb orb negb].
      * rewrite andb_false_r. destruct (get_node g x y); reflexivity.
      * reflexivity.
    + rewrite andb_false_r. reflexivity.
Qed.

Lemma width_set_walkable g x y w : width (set_walkable g x y w) = width g.
Proof.
  unfold set_walkable, update_node. destruct (get_node g x y); [| reflexivity ].
  destruct (is_valid_position g (fst (x, y)) (snd (x, y))); reflexivity.
Qed.

Lemma height_set_walkable g x y w : height (set_walkable g x y w) = height g.
Proof.
  unfold set_walkable, update_node. destruct (get_node g x y); [| reflexivity ].
  destruct (is_valid_position g (fst (x, y)) (snd (x, y))); reflexivity.
Qed.

Lemma width_block_cells blk cells : forall g, width (block_cells blk cells g) = width g.
Proof.
  unfold block_cells. induction cells as [| c cells IH]; intros g; cbn [fold_left];
    [ reflexivity |].
  rewrite IH. destruct (blk c); [ apply width_set_walkable | reflexivity ].
Qed.

(** The cells that [add_maze_pattern] turns into walls. *)
Definition maze_wall (c : pos) : bool := (fst c mod 4 =? 0) || (snd c mod 4 =? 0).

Lemma maze_cell_block g y x :
  maze_cell g y x = block_cells maze_wall [(x, y)] g.
Proof.
  unfold maze_cell, block_cells, maze_wall. cbn [fold_left fst snd].
  destruct (Z.eqb_spec (x mod 2) 1) as [Hx |]; [| reflexivity ].
  destruct (Z.eqb_spec (y mod 2) 1) as [Hy |]; [| reflexivity ].
  cbn [andb].
  assert (x mod 4 <> 0).
  { intros H4. rewrite (Z.div_mod x 4) in Hx by lia. rewrite H4 in Hx.
    replace (4 * (x / 4) + 0) with ((2 * (x / 4)) * 2) in Hx by lia.
    rewrite Z.mod_mul in Hx by lia. discriminate. }
  assert (y mod 4 <> 0).
  { intros H4. rewrite (Z.div_mod y 4) in Hy by lia. rewrite H4 in Hy.
    replace (4 * (y / 4) + 0) with ((2 * (y / 4)) * 2) in Hy by lia.
    rewrite Z.mod_mul in Hy by lia. discriminate. }
  destruct (Z.eqb_spec (x mod 4) 0); [ contradiction |].
  destruct (Z.eqb_spec (y mod 4) 0); [ contradiction |]. reflexivity.
Qed.

Lemma block_cells_app blk l1 l2 g :
  block_cells blk (l1 ++ l2) g = block_cells blk l2 (block_cells blk l1 g).
Proof. unfold block_cells. apply fold_left_app. Qed.

Lemma maze_row_block y (xs : list Z) : forall g,
  fold_left (fun g x => maze_cell g y x) xs g
  = block_cells maze_wall (map (fun x => (x, y)) xs) g.
Proof.
  induction xs as [| x xs IH]; intros g; [ reflexivity |].
  cbn [fold_left map]. rewrite IH, maze_cell_block.
  change ((x, y) :: map (fun x0 => (x0, y)) xs) with ([(x, y)] ++ map (fun x0 => (x0, y)) xs).
  rewrite block_cells_app. reflexivity.
Qed.

Lemma add_maze_pattern_block g :
  add_maze_pattern g
  = block_cells maze_wall
      (flat_map (fun y => map (fun x => (x, y)) (Py.range (width g))) (Py.range (height g))) g.
Proof.
  unfold add_maze_pattern.
  assert (H : forall (ys : list Z) g0, width g0 = width g ->
            fold_left (fun g y => fold_left (fun g x => maze_cell g y x) (Py.range (width g)) g)
                      ys g0
            = block_cells maze_wall
                (flat_map (fun y => map (fun x => (x, y)) (Py.range (width g))) ys) g0).
  { induction ys as [| y ys IH]; intros g0 Hw; [ reflexivity |].
    cbn [fold_left flat_map]. rewrite block_cells_app, Hw, maze_row_block.
    apply IH. rewrite width_block_cells. exact Hw. }
  apply H. reflexivity.
Qed.

Lemma existsb_cells g (f : pos -> bool) x y :
  existsb (fun c => pos_eqb (x, y) c && f c)
          (flat_map (fun y => map (fun x => (x, y)) (Py.range (width g))) (Py.range (height g)))
  = is_valid_position g x y && f (x, y).
Proof.
  destruct (is_valid_position g x y) eqn:Hv; cbn [andb].
  - destruct (f (x, y)) eqn:Hf.
    + apply existsb_exists. exists (x, y). rewrite pos_eqb_refl, Hf. split; [| reflexivity ].
      apply (valid_in_all_cells g (x, y)). exact Hv.
    + apply not_true_is_false. intros H. apply existsb_exists in H as (c & _ & Hc).
      apply andb_true_iff in Hc as [Hc1 Hc2]. apply pos_eqb_eq in Hc1. subst c. congruence.
  - apply not_true_is_false. intros H. apply existsb_exists in H as (c & Hin & Hc).
    apply andb_true_iff in Hc as [Hc1 _]. apply pos_eqb_eq in Hc1. subst c.
    apply in_flat_map in Hin as (y' & Hy & Hin). apply in_map_iff in Hin as (x' & E & Hx).
    injection E as -> ->. apply in_range in Hx, Hy.
    unfold is_valid_position in Hv.
    destruct (Z.leb_spec 0 x), (Z.ltb_spec x (width g)), (Z.leb_spec 0 y),
      (Z.ltb_spec y (height g)); cbn in Hv; try discriminate; lia.
Qed.

(** A cell that is walkable after the pattern is off the lattice. *)
Lemma maze_walkable_off_lattice (g : Grid) (x y : Z) :
  is_walkable (add_maze_pattern g) x y = true -> x mod 4 <> 0 /\ y mod 4 <> 0.
Proof.
  rewrite add_maze_pattern_block, is_walkable_block_cells, existsb_cells.
  unfold maze_wall. cbn [fst snd]. intros H. apply andb_true_iff in H as [Hw H].
  apply is_walkable_valid in Hw. rewrite Hw in H. cbn [andb] in H.
  apply negb_true_iff, orb_false_iff in H as [Hx Hy].
  apply Z.eqb_neq in Hx, Hy. auto.
Qed.

(** X5.  After [add_maze_pattern] a cell is walkable exactly when it was
    walkable before and neither of its coordinates is a multiple of four:
    the pattern is a lattice of walls on every fourth row and column (the
    test for odd coordinates never spares a cell of the lattice). *)
Theorem add_maze_pattern_walls (g : Grid) (x y : Z) :
  is_walkable (add_maze_pattern g) x y
  = is_walkable g x y && negb ((x mod 4 =? 0) || (y mod 4 =? 0)).
Proof.
  rewrite add_maze_pattern_block, is_walkable_block_cells, existsb_cells.
  unfold maze_wall. cbn [fst snd].
  destruct (is_walkable g x y) eqn:Hw; [| reflexivity ].
  apply is_walkable_valid in Hw. rewrite Hw. reflexivity.
Qed.

(** [reachable g p q]: [q] can be reached from [p] by moves to neighbours. *)
Inductive reachable (g : Grid) : pos -> pos -> Prop :=
| reach_refl p : reachable g p p
| reach_step p q r : reachable g p q -> In r (get_neighbors g q) -> reachable g p r.

Lemma reachable_walkable g p q :
  is_walkable g (fst p) (snd p) = true -> reachable g p q ->
  is_walkable g (fst q) (snd q) = true.
Proof.
  intros Hp. induction 1 as [| p q r _ _ Hr]; [ exact Hp |].
  apply get_neighbors_In in Hr as [Hr _]. exact Hr.
Qed.

Lemma same_block (x x' : Z) :
  x mod 4 <> 0 -> x' mod 4 <> 0 -> Z.abs (x' - x) <= 1 -> x' / 4 = x / 4.
Proof.
  intros H H' Hd.
  pose proof (Z.div_mod x 4 ltac:(lia)). pose proof (Z.div_mod x' 4 ltac:(lia)).
  pose proof (Z.mod_pos_bound x 4 ltac:(lia)). pose proof (Z.mod_pos_bound x' 4 ltac:(lia)).
  lia.
Qed.

(** X6.  The maze pattern has no doors: from a walkable cell of a grid
    patterned by [add_maze_pattern], moves to neighbours never leave the 3x3
    room between two wall lines, so cells of different rooms are not
    connected. *)
Theorem maze_rooms_are_closed (g : Grid) (p q : pos) :
  is_walkable (add_maze_pattern g) (fst p) (snd p) = true ->
  reachable (add_maze_pattern g) p q ->
  fst q / 4 = fst p / 4 /\ snd q / 4 = snd p / 4.
Proof.
  intros Hp Hreach. induction Hreach as [| p q r Hpq IH Hr]; [ split; reflexivity |].
  specialize (IH Hp). destruct IH as [IHx IHy].
  pose proof (reachable_walkable _ _ _ Hp Hpq) as Hq.
  apply get_neighbors_In in Hr as [Hr Hd]. apply directions_of_allowed in Hd.
  apply maze_walkable_off_lattice in Hq as [Hqx Hqy].
  apply maze_walkable_off_lattice in Hr as [Hrx Hry].
  assert (Hs : Z.abs (fst r - fst q) <= 1 /\ Z.abs (snd r - snd q) <= 1).
  { unfold step_allowed in Hd. destruct (diagonal_movement _); lia. }
  destruct Hs as [Hsx Hsy].
  rewrite <- IHx, <- IHy. split; apply same_block; assumption.
Qed.

Lemma maze_rooms_are_closed_witness :
  fst (2, 3) / 4 = fst (1, 1) / 4 /\ snd (2, 3) / 4 = snd (1, 1) / 4.
Proof.
  apply (maze_rooms_are_closed (Grid_init CGrid 9 9) (1, 1) (2, 3)).
  - reflexivity.
  - apply (reach_step _ _ (2, 2)); [| vm_compute; auto 10 ].
    apply (reach_step _ _ (1, 1)); [ apply reach_refl | vm_compute; auto 10 ].
Defined.

Lemma node_at_map_nodes g (f : GridNode -> GridNode) p :
  node_at (with_nodes g (map (map f) (nodes g))) p = option_map f (node_at g p).
Proof.
  unfold node_at, get_node. rewrite is_valid_position_with_nodes.
  destruct (is_valid_position g (fst p) (snd p)); [| reflexivity ].
  cbn [nodes with_nodes]. rewrite index_map.
  destruct (index (nodes g) (snd p)) as [row |]; cbn [option_map]; [| reflexivity ].
  apply index_map.
Qed.

(** X7.  [clear_obstacles] makes every cell of a rectangular grid walkable
    and touches nothing else in a node: the costs, the parent and the flags
    of a search stay as they were. *)
Theorem clear_obstacles_opens_every_cell (g : Grid) :
  rectangular g ->
  (forall x y, is_walkable (clear_obstacles g) x y = is_valid_position g x y)
  /\ (forall p n, node_at g p = Some n ->
                  node_at (clear_obstacles g) p = Some (set_node_walkable true n))
  /\ (forall x y, is_walkable (clear_obstacles (add_maze_pattern g)) x y
                  = is_valid_position g x y).
Proof.
  intros Hr.
  assert (H1 : forall h, rectangular h ->
             forall x y, is_walkable (clear_obstacles h) x y = is_valid_position h x y).
  { intros h Hh x y. unfold is_walkable, clear_obstacles.
    change (get_node ?h' x y) with (node_at h' (x, y)). rewrite node_at_map_nodes.
    destruct (is_valid_position h x y) eqn:Hv.
    - destruct (rectangular_get_node h x y Hh Hv) as [n Hn].
      unfold node_at. cbn [fst snd]. rewrite Hn. reflexivity.
    - unfold node_at, get_node. cbn [fst snd]. rewrite Hv. reflexivity. }
  split; [ apply H1; exact Hr |]. split.
  - intros p n Hn. unfold clear_obstacles. rewrite node_at_map_nodes, Hn. reflexivity.
  - intros x y. rewrite H1.
    + rewrite add_maze_pattern_block. unfold is_valid_position.
      rewrite width_block_cells.
      assert (Hh : forall blk cells h, height (block_cells blk cells h) = height h).
      { intros blk cells. unfold block_cells.
        induction cells as [| c cells IH]; intros h; cbn [fold_left]; [ reflexivity |].
        rewrite IH. destruct (blk c); [ apply height_set_walkable | reflexivity ]. }
      rewrite Hh. reflexivity.
    + rewrite add_maze_pattern_block. unfold block_cells.
      generalize (flat_map (fun y0 => map (fun x0 => (x0, y0)) (Py.range (width g)))
                           (Py.range (height g))).
      intros cells. revert g Hr. induction cells as [| c cells IH]; intros g Hr;
        cbn [fold_left]; [ exact Hr |].
      apply IH. destruct (maze_wall c); [ apply rectangular_set_walkable |]; exact Hr.
Qed.

Lemma clear_obstacles_witness :
  (forall x y, is_walkable (clear_obstacles blocked_start_grid) x y
               = is_valid_position blocked_start_grid x y)
  /\ (forall p n, node_at blocked_start_grid p = Some n ->
                  node_at (clear_obstacles blocked_start_grid) p
                  = Some (set_node_walkable true n))
  /\ (forall x y, is_walkable (clear_obstacles (add_maze_pattern blocked_start_grid)) x y
                  = is_valid_position blocked_start_grid x y).
Proof.
  apply (clear_obstacles_opens_every_cell blocked_start_grid).
  apply rectangular_set_walkable, rectangular_Grid_init.
Defined.

(** The cells drawn by the first [n] turns of [add_random_obstacles]. *)
Definition drawn_cells (randint : nat -> Z) (n : nat) : list pos :=
  map (fun i => (randint (2 * i)%nat, randint (S (2 * i)))) (seq 0 n).

Lemma random_obstacles_loop_block randint (todo : nat) : forall drawn g g',
  random_obstacles_loop randint (2 * drawn) todo g = Done g' ->
  g' = block_cells (fun _ => true)
         (map (fun i => (randint (2 * i)%nat, randint (S (2 * i)))) (seq drawn todo)) g.
Proof.
  induction todo as [| todo IH]; intros drawn g g' H; cbn [random_obstacles_loop] in H.
  - injection H as <-. reflexivity.
  - destruct ((width g - 1 <? 0) || (height g - 1 <? 0)); [ discriminate H |].
    replace (S (S (2 * drawn))) with (2 * S drawn)%nat in H by lia.
    apply IH in H. subst g'. reflexivity.
Qed.

(** X8.  [add_random_obstacles] only ever blocks: when it returns, a cell is
    walkable exactly when it was walkable before and was not drawn, and at
    most [int(width * height * obstacle_percentage)] cells were drawn (none
    when that number is zero or negative). *)
Theorem add_random_obstacles_only_blocks
        (obstacle_percentage : float) (randint : nat -> Z) (g g' : Grid) :
  add_random_obstacles obstacle_percentage randint g = Done g' ->
  exists num_obstacles,
    Py.int_of_float (PrimFloat.mul (Py.float_of_int (width g * height g)) obstacle_percentage)
    = Some num_obstacles
    /\ (forall x y,
           is_walkable g' x y
           = is_walkable g x y
             && negb (existsb (pos_eqb (x, y))
                              (drawn_cells randint (Z.to_nat num_obstacles))))
    /\ (num_obstacles <= 0 -> g' = g).
Proof.
  unfold add_random_obstacles. intros H.
  destruct (Py.int_of_float _) as [num |] eqn:E.
  - exists num. split; [ reflexivity |].
    apply (random_obstacles_loop_block randint (Z.to_nat num) 0) in H. subst g'. split.
    + intros x y. rewrite is_walkable_block_cells. unfold drawn_cells.
      f_equal. f_equal.
      induction (map _ (seq 0 (Z.to_nat num))) as [| c cs IH]; [ reflexivity |].
      cbn [existsb]. rewrite IH, andb_true_r. reflexivity.
    + intros Hn. replace (Z.to_nat num) with O by lia. reflexivity.
  - destruct (Py.eq _ _); discriminate H.
Qed.

Lemma add_random_obstacles_witness :
  exists num_obstacles,
    Py.int_of_float (PrimFloat.mul (Py.float_of_int
                                      (width (Grid_init CGrid 4 4) * height (Grid_init CGrid 4 4)))
                                   0.25%float)
    = Some num_obstacles
    /\ (forall x y,
           is_walkable (block_cells (fun _ => true) (drawn_cells (fun n => Z.of_nat n mod 4) 4)
                                    (Grid_init CGrid 4 4)) x y
           = is_walkable (Grid_init CGrid 4 4) x y
             && negb (existsb (pos_eqb (x, y))
                              (drawn_cells (fun n => Z.of_nat n mod 4) (Z.to_nat num_obstacles))))
    /\ (num_obstacles <= 0 ->
        block_cells (fun _ => true) (drawn_cells (fun n => Z.of_nat n mod 4) 4)
                    (Grid_init CGrid 4 4) = Grid_init CGrid 4 4).
Proof.
  apply (add_random_obstacles_only_blocks 0.25%float (fun n => Z.of_nat n mod 4)
           (Grid_init CGrid 4 4)).
  vm_compute. reflexivity.
Defined.

(* ------------------------------------------------------------------ *)
(** ** Terrain *)
(* ------------------------------------------------------------------ *)

Definition terrain_rectangular (g : Grid) : Prop :=
  List.length (terrain g) = Z.to_nat (height g)
  /\ Forall (fun row => List.length row = Z.to_nat (width g)) (terrain g).

Lemma terrain_rectangular_Grid_init w h : terrain_rectangular (Grid_init CWeightedGrid w h).
Proof.
  unfold terrain_rectangular, Grid_init, _initialize_terrain. cbn [terrain height width]. split.
  - rewrite length_map. apply length_range.
  - apply Forall_forall. intros row Hrow. apply in_map_iff in Hrow as (y & <- & _).
    rewrite length_map. apply length_range.
Qed.

Lemma terrain_set_walkable g x y w : terrain (set_walkable g x y w) = terrain g.
Proof.
  unfold set_walkable, update_node. destruct (get_node g x y); [| reflexivity ].
  destruct (is_valid_position g (fst (x, y)) (snd (x, y))); reflexivity.
Qed.

Lemma is_valid_position_set_walkable g a b w x y :
  is_valid_position (set_walkable g a b w) x y = is_valid_position g x y.
Proof.
  unfold is_valid_position. rewrite width_set_walkable, height_set_walkable. reflexivity.
Qed.

Lemma index_update_same {A} (f : A -> A) (l : list A) (i : Z) :
  0 <= i -> index (update l (Z.to_nat i) f) i = option_map f (index l i).
Proof.
  intros Hi. unfold index. destruct (Z.ltb_spec i 0); [ lia |].
  apply nth_error_update_same.
Qed.

Lemma index_update_other {A} (f : A -> A) (l : list A) (i j : Z) :
  0 <= i -> i <> j -> index (update l (Z.to_nat i) f) j = index l j.
Proof.
  intros Hi Hij. unfold index. destruct (Z.ltb_spec j 0); [ reflexivity |].
  apply nth_error_update_other. lia.
Qed.

Lemma wall_is_the_only_infinite_terrain (t : string) :
  Py.eq (dict_get TERRAIN_COSTS t 1%float) Py.inf = String.eqb t "wall".
Proof.
  destruct (String.eqb_spec t "wall") as [-> | Hne]; [ reflexivity |].
  unfold TERRAIN_COSTS. cbn [dict_get].
  repeat match goal with
         | |- context [String.eqb ?s t] =>
             destruct (String.eqb_spec s t); [ try reflexivity; congruence |]
         end.
  reflexivity.
Qed.

(** X9.  [WeightedGrid.set_terrain] inside the grid: the cost read back is
    the cost of the terrain type (1.0 for a name that is not in
    [TERRAIN_COSTS]); the cell is walkable unless the type is ['wall'],
    whatever it was before; no other cell changes its cost or its
    walkability.  Outside the grid the call does nothing. *)
Theorem set_terrain_round_trip (g : Grid) (x y : Z) (t : string) :
  rectangular g -> terrain_rectangular g ->
  (is_valid_position g x y = true ->
   get_terrain_cost (set_terrain g x y t) x y = dict_get TERRAIN_COSTS t 1%float
   /\ is_walkable (set_terrain g x y t) x y = negb (String.eqb t "wall"))
  /\ (forall x' y', (x', y') <> (x, y) ->
        get_terrain_cost (set_terrain g x y t) x' y' = get_terrain_cost g x' y'
        /\ is_walkable (set_terrain g x y t) x' y' = is_walkable g x' y')
  /\ (is_valid_position g x y = false -> set_terrain g x y t = g).
Proof.
  intros Hr [Hth Htw]. unfold set_terrain.
  destruct (is_valid_position g x y) eqn:Hv.
  2:{ split; [ discriminate |]. split; [ intros; split; reflexivity | reflexivity ]. }
  assert (Hb : 0 <= x < width g /\ 0 <= y < height g).
  { unfold is_valid_position in Hv.
    destruct (Z.leb_spec 0 x), (Z.ltb_spec x (width g)), (Z.leb_spec 0 y),
      (Z.ltb_spec y (height g)); cbn in Hv; try discriminate; lia. }
  set (g1 := with_terrain g _).
  assert (Hg1 : forall a b, get_node g1 a b = get_node g a b) by reflexivity.
  assert (Hw1 : forall a b, is_walkable g1 a b = is_walkable g a b) by reflexivity.
  split; [ intros _; split | split; [ intros x' y' Hne; split | discriminate ] ].
  - unfold get_terrain_cost. rewrite is_valid_position_set_walkable, terrain_set_walkable.
    change (is_valid_position g1 x y) with (is_valid_position g x y). rewrite Hv.
    unfold g1. cbn [terrain with_terrain]. rewrite index_update_same by lia.
    destruct (index (terrain g) y) as [row |] eqn:Erow;
      unfold index in Erow; destruct (Z.ltb_spec y 0); try lia.
    + cbn [option_map]. rewrite index_update_same by lia.
      assert (Hlen : List.length row = Z.to_nat (width g)).
      { rewrite Forall_forall in Htw. apply Htw. eapply nth_error_In; eauto. }
      unfold index. destruct (Z.ltb_spec x 0); [ lia |].
      destruct (nth_error row (Z.to_nat x)) eqn:En; [ reflexivity |].
      apply nth_error_None in En. lia.
    + apply nth_error_None in Erow. lia.
  - rewrite is_walkable_set_walkable, pos_eqb_refl, Hg1.
    destruct (rectangular_get_node g x y Hr Hv) as [n ->].
    rewrite wall_is_the_only_infinite_terrain. reflexivity.
  - unfold get_terrain_cost. rewrite is_valid_position_set_walkable, terrain_set_walkable.
    change (is_valid_position g1 x' y') with (is_valid_position g x' y').
    destruct (is_valid_position g x' y'); [| reflexivity ].
    unfold g1. cbn [terrain with_terrain].
    destruct (Z.eq_dec y y') as [<- | Hy].
    + rewrite index_update_same by lia.
      destruct (index (terrain g) y) as [row |]; [| reflexivity ]. cbn [option_map].
      rewrite index_update_other; [ reflexivity | lia | congruence ].
    + rewrite index_update_other; [ reflexivity | lia | exact Hy ].
  - rewrite is_walkable_set_walkable. apply pos_eqb_neq in Hne. rewrite Hne. apply Hw1.
Qed.

Lemma set_terrain_round_trip_witness :
  (is_valid_position (Grid_init CWeightedGrid 3 3) 1 2 = true ->
   get_terrain_cost (set_terrain (Grid_init CWeightedGrid 3 3) 1 2 "lava") 1 2
   = dict_get TERRAIN_COSTS "lava" 1%float
   /\ is_walkable (set_terrain (Grid_init CWeightedGrid 3 3) 1 2 "lava") 1 2
      = negb (String.eqb "lava" "wall"))
  /\ (forall x' y', (x', y') <> (1, 2) ->
        get_terrain_cost (set_terrain (Grid_init CWeightedGrid 3 3) 1 2 "lava") x' y'
        = get_terrain_cost (Grid_init CWeightedGrid 3 3) x' y'
        /\ is_walkable (set_terrain (Grid_init CWeightedGrid 3 3) 1 2 "lava") x' y'
           = is_walkable (Grid_init CWeightedGrid 3 3) x' y')
  /\ (is_valid_position (Grid_init CWeightedGrid 3 3) 1 2 = false ->
      set_terrain (Grid_init CWeightedGrid 3 3) 1 2 "lava" = Grid_init CWeightedGrid 3 3).
Proof.
  apply (set_terrain_round_trip (Grid_init CWeightedGrid 3 3) 1 2 "lava").
  - apply rectangular_Grid_init.
  - apply terrain_rectangular_Grid_init.
Defined.

(** X10.  On a weighted grid with the step costs of the constructor, terrain
    never makes a move cheaper than on a plain grid; a move from or to a
    cell whose terrain cost is infinite (a wall, or a cell outside the grid)
    costs [inf]; and between two cells of cost 1.0 (grass) the price is the
    plain one. *)
Theorem terrain_only_adds_cost (g : Grid) (a b : pos) :
  diagonal_cost g = Py.sqrt 2%float -> straight_cost g = 1%float ->
  Py.le (Grid_get_movement_cost g a b) (WeightedGrid_get_movement_cost g a b) = true
  /\ (get_terrain_cost g (fst a) (snd a) = Py.inf \/ get_terrain_cost g (fst b) (snd b) = Py.inf ->
      WeightedGrid_get_movement_cost g a b = Py.inf)
  /\ (get_terrain_cost g (fst a) (snd a) = 1%float ->
      get_terrain_cost g (fst b) (snd b) = 1%float ->
      WeightedGrid_get_movement_cost g a b = Grid_get_movement_cost g a b).
Proof.
  intros Hd Hs. unfold WeightedGrid_get_movement_cost.
  pose proof (get_terrain_cost_values g (fst a) (snd a)) as Ha.
  pose proof (get_terrain_cost_values g (fst b) (snd b)) as Hb.
  cbn [In] in Ha, Hb.
  destruct (Grid_get_movement_cost_cases g a b) as [[_ [Hc | Hc]] | [_ Hc]];
    rewrite Hc, ?Hd, ?Hs;
    repeat match goal with H : _ \/ _ |- _ => destruct H as [H | H] end;
    try contradiction; rewrite <- ?Ha, <- ?Hb;
    (split; [ reflexivity | split; [ intros [E | E]; try reflexivity;
                                      apply (f_equal (fun v => Py.eq v Py.inf)) in E;
                                      vm_compute in E; discriminate E
                                    | intros E1 E2; try reflexivity;
                                      first [ apply (f_equal (fun v => Py.eq v 1%float)) in E1;
                                              vm_compute in E1; discriminate E1
                                            | apply (f_equal (fun v => Py.eq v 1%float)) in E2;
                                              vm_compute in E2; discriminate E2 ] ] ]).
Qed.

Lemma terrain_only_adds_cost_witness :
  let g := set_terrain (Grid_init CWeightedGrid 3 3) 1 1 "wall" in
  Py.le (Grid_get_movement_cost g (0, 0) (1, 1)) (WeightedGrid_get_movement_cost g (0, 0) (1, 1))
  = true
  /\ (get_terrain_cost g (fst (0, 0)) (snd (0, 0)) = Py.inf
      \/ get_terrain_cost g (fst (1, 1)) (snd (1, 1)) = Py.inf ->
      WeightedGrid_get_movement_cost g (0, 0) (1, 1) = Py.inf)
  /\ (get_terrain_cost g (fst (0, 0)) (snd (0, 0)) = 1%float ->
      get_terrain_cost g (fst (1, 1)) (snd (1, 1)) = 1%float ->
      WeightedGrid_get_movement_cost g (0, 0) (1, 1) = Grid_get_movement_cost g (0, 0) (1, 1)).
Proof.
  apply (terrain_only_adds_cost (set_terrain (Grid_init CWeightedGrid 3 3) 1 1 "wall")
           (0, 0) (1, 1)); reflexivity.
Defined.

(* ------------------------------------------------------------------ *)
(** ** The shape of the line-of-sight walk *)
(* ------------------------------------------------------------------ *)

(** Consecutive cells of a list are one king's move apart. *)
Fixpoint king_chain (l : list pos) : Prop :=
  match l with
  | a :: ((b :: _) as rest) =>
      Z.max (Z.abs (fst b - fst a)) (Z.abs (snd b - snd a)) = 1 /\ king_chain rest
  | _ => True
  end.

Section BresenhamShape.

Variables (ix2 iy2 dx dy x_step y_step : Z).
Hypothesis Hdx : 0 <= dx.
Hypothesis Hdy : 0 <= dy.
Hypothesis Hxs : x_step = 1 \/ x_step = -1.
Hypothesis Hys : y_step = 1 \/ y_step = -1.

Lemma los_step_unit (a b : Z) :
  0 <= a <= dx -> 0 <= b <= dy -> 0 < a + b ->
  exists a' b',
    los_step dx dy x_step y_step (ix2 - x_step * a) (iy2 - y_step * b)
             (dx - dy + a * dy - b * dx)
    = (ix2 - x_step * a', iy2 - y_step * b', dx - dy + a' * dy - b' * dx)
    /\ 0 <= a' <= dx /\ 0 <= b' <= dy /\ a - 1 <= a' <= a /\ b - 1 <= b' <= b
    /\ a' + b' < a + b.
Proof.
  intros Ha Hb Hab. unfold los_step.
  destruct (Z.gtb_spec (2 * (dx - dy + a * dy - b * dx)) (- dy)) as [Hx | Hx];
    destruct (Z.ltb_spec (2 * (dx - dy + a * dy - b * dx)) dx) as [Hy | Hy].
  - assert (1 <= a) by nia. assert (1 <= b) by nia.
    exists (a - 1), (b - 1). split; [ f_equal; [ f_equal |]; ring | lia ].
  - assert (1 <= a) by nia.
    exists (a - 1), b. split; [ f_equal; [ f_equal |]; ring | lia ].
  - assert (1 <= b) by nia.
    exists a, (b - 1). split; [ f_equal; [ f_equal |]; ring | lia ].
  - exfalso. nia.
Qed.

(** Every cell of the walk lies between the current cell and the target,
    and the walk is a chain of king's moves. *)
Lemma walk_loop_shape (fuel : nat) : forall a b,
  0 <= a <= dx -> 0 <= b <= dy ->
  let l := walk_loop fuel ix2 iy2 dx dy x_step y_step
                     (ix2 - x_step * a) (iy2 - y_step * b) (dx - dy + a * dy - b * dx) in
  king_chain l
  /\ (forall c, In c l ->
        exists a' b', 0 <= a' <= a /\ 0 <= b' <= b
                      /\ c = (ix2 - x_step * a', iy2 - y_step * b')).
Proof.
  induction fuel as [| fuel IH]; intros a b Ha Hb; cbn zeta.
  - cbn [walk_loop]. destruct (_ && _); cbn; (split; [ exact I |]);
      intros c [<- | []]; exists a, b; (split; [ lia | split; [ lia | reflexivity ] ]).
  - cbn [walk_loop]. rewrite (los_state_at_end ix2 iy2 x_step y_step Hxs Hys) by lia.
    destruct ((a =? 0) && (b =? 0)) eqn:E0.
    + cbn. split; [ exact I |].
      intros c [<- | []]; exists a, b; (split; [ lia | split; [ lia | reflexivity ] ]).
    + assert (Hab : 0 < a + b).
      { apply andb_false_iff in E0 as [E0 | E0]; apply Z.eqb_neq in E0; lia. }
      destruct (los_step_unit a b Ha Hb Hab)
        as (a' & b' & -> & Ha' & Hb' & Hua & Hub & Hlt).
      specialize (IH a' b' Ha' Hb'). cbv zeta in IH. destruct IH as [IHc IHin].
      remember (walk_loop fuel ix2 iy2 dx dy x_step y_step _ _ _) as l eqn:El.
      assert (Hhd : exists rest, l = (ix2 - x_step * a', iy2 - y_step * b') :: rest).
      { subst l. destruct fuel; cbn [walk_loop]; eauto. }
      destruct Hhd as [rest Hl]. rewrite Hl in *. split.
      * cbn [king_chain fst snd]. split; [| exact IHc ].
        destruct Hxs as [-> | ->], Hys as [-> | ->]; lia.
      * intros c [<- | Hc].
        -- exists a, b. split; [ lia | split; [ lia | reflexivity ] ].
        -- destruct (IHin c Hc) as (a2 & b2 & Ha2 & Hb2 & ->).
           exists a2, b2. split; [ lia | split; [ lia | reflexivity ] ].
Qed.

End BresenhamShape.

(** X11.  [has_line_of_sight] between two cells: its loop ends within
    [|dx| + |dy|] turns; it answers [True] exactly when every cell of its
    walk is walkable; the walk starts at the first cell, ends at the second,
    moves one king's step at a time, and never leaves the rectangle spanned
    by the two cells.  In particular the answer is [False] when either end
    cell is unwalkable. *)
Theorem line_of_sight_walk_shape (g : Grid) (ix1 iy1 ix2 iy2 : Z) (fuel : nat) :
  (Z.to_nat (Z.abs (ix2 - ix1) + Z.abs (iy2 - iy1)) <= fuel)%nat ->
  line_of_sight_cells fuel g ix1 iy1 ix2 iy2
  = Done (forallb (fun c => is_walkable g (fst c) (snd c)) (walk ix1 iy1 ix2 iy2))
  /\ hd (0, 0) (walk ix1 iy1 ix2 iy2) = (ix1, iy1)
  /\ last (walk ix1 iy1 ix2 iy2) (0, 0) = (ix2, iy2)
  /\ king_chain (walk ix1 iy1 ix2 iy2)
  /\ (forall c, In c (walk ix1 iy1 ix2 iy2) ->
        Z.min ix1 ix2 <= fst c <= Z.max ix1 ix2 /\ Z.min iy1 iy2 <= snd c <= Z.max iy1 iy2)
  /\ (is_walkable g ix1 iy1 = false \/ is_walkable g ix2 iy2 = false ->
      line_of_sight_cells fuel g ix1 iy1 ix2 iy2 = Done false).
Proof.
  intros Hfuel.
  pose proof (line_of_sight_cells_spec g ix1 iy1 ix2 iy2 fuel Hfuel) as Hspec.
  pose proof (walk_last ix1 iy1 ix2 iy2) as Hlast.
  destruct (walk_head ix1 iy1 ix2 iy2) as [rest Hhead].
  assert (Hshape : king_chain (walk ix1 iy1 ix2 iy2)
                   /\ forall c, In c (walk ix1 iy1 ix2 iy2) ->
                        Z.min ix1 ix2 <= fst c <= Z.max ix1 ix2
                        /\ Z.min iy1 iy2 <= snd c <= Z.max iy1 iy2).
  { unfold walk.
    set (dx := Z.abs (ix2 - ix1)). set (dy := Z.abs (iy2 - iy1)).
    set (xs := if ix1 <? ix2 then 1 else -1). set (ys := if iy1 <? iy2 then 1 else -1).
    assert (Hx : ix1 = ix2 - xs * dx).
    { subst xs dx. destruct (Z.ltb_spec ix1 ix2); lia. }
    assert (Hy : iy1 = iy2 - ys * dy).
    { subst ys dy. destruct (Z.ltb_spec iy1 iy2); lia. }
    assert (He : dx - dy = dx - dy + dx * dy - dy * dx) by ring.
    assert (Hxs : xs = 1 \/ xs = -1) by (subst xs; destruct (ix1 <? ix2); auto).
    assert (Hys : ys = 1 \/ ys = -1) by (subst ys; destruct (iy1 <? iy2); auto).
    pose proof (walk_loop_shape ix2 iy2 dx dy xs ys ltac:(subst dx; lia) ltac:(subst dy; lia)
                  Hxs Hys (Z.to_nat (dx + dy)) dx dy ltac:(subst dx; lia) ltac:(subst dy; lia))
      as Hw.
    cbv zeta in Hw. rewrite <- Hx, <- Hy, <- He in Hw. destruct Hw as [Hc Hin].
    split; [ exact Hc |]. intros c Hcin.
    destruct (Hin c Hcin) as (a' & b' & Ha' & Hb' & ->). cbn [fst snd].
    subst xs ys dx dy.
    destruct (Z.ltb_spec ix1 ix2), (Z.ltb_spec iy1 iy2); lia. }
  destruct Hshape as [Hchain Hbox].
  split; [ exact Hspec |]. split; [ rewrite Hhead; reflexivity |].
  split; [ exact Hlast |]. split; [ exact Hchain |]. split; [ exact Hbox |].
  intros Hends. rewrite Hspec. f_equal. apply forallb_false_iff.
  destruct Hends as [H1 | H2].
  - exists (ix1, iy1). split; [ rewrite Hhead; left; reflexivity | exact H1 ].
  - exists (ix2, iy2). split; [| exact H2 ].
    rewrite <- Hlast. rewrite Hhead.
    clear. generalize (ix1, iy1). induction rest as [| c rest IH]; intros c0.
    + left. reflexivity.
    + right. apply (IH c).
Qed.

Lemma line_of_sight_walk_shape_witness :
  line_of_sight_cells 5 wall_grid 0 0 2 0
  = Done (forallb (fun c => is_walkable wall_grid (fst c) (snd c)) (walk 0 0 2 0))
  /\ hd (0, 0) (walk 0 0 2 0) = (0, 0)
  /\ last (walk 0 0 2 0) (0, 0) = (2, 0)
  /\ king_chain (walk 0 0 2 0)
  /\ (forall c, In c (walk 0 0 2 0) ->
        Z.min 0 2 <= fst c <= Z.max 0 2 /\ Z.min 0 0 <= snd c <= Z.max 0 0)
  /\ (is_walkable wall_grid 0 0 = false \/ is_walkable wall_grid 2 0 = false ->
      line_of_sight_cells 5 wall_grid 0 0 2 0 = Done false).
Proof.
  apply (line_of_sight_walk_shape wall_grid 0 0 2 0 5). vm_compute. lia.
Defined.

(* ------------------------------------------------------------------ *)
(** ** Heuristics and path length *)
(* ------------------------------------------------------------------ *)

Lemma euclidean_distance_sym a b : euclidean_distance a b = euclidean_distance b a.
Proof.
  unfold euclidean_distance. cbv zeta. do 2 f_equal. ring.
Qed.

(** X12.  Every heuristic of [get_heuristic] is symmetric in its two nodes
    and is [0.0] from a node to itself; a name other than "manhattan",
    "euclidean" and "diagonal" selects the Euclidean distance. *)
Theorem heuristic_is_symmetric_and_zero_at_goal (heuristic_type : string) (a b : pos) :
  get_heuristic a b heuristic_type = get_heuristic b a heuristic_type
  /\ get_heuristic a a heuristic_type = 0%float
  /\ (heuristic_type <> "manhattan" -> heuristic_type <> "diagonal" ->
      get_heuristic a b heuristic_type = euclidean_distance a b).
Proof.
  unfold get_heuristic. split; [| split ].
  - destruct (String.eqb heuristic_type "manhattan");
      [ unfold manhattan_distance; f_equal; lia |].
    destruct (String.eqb heuristic_type "euclidean"); [ apply euclidean_distance_sym |].
    destruct (String.eqb heuristic_type "diagonal");
      [ unfold diagonal_distance; f_equal; lia | apply euclidean_distance_sym ].
  - assert (He : euclidean_distance a a = 0%float).
    { unfold euclidean_distance. cbv zeta. rewrite !Z.sub_diag. reflexivity. }
    destruct (String.eqb heuristic_type "manhattan");
      [ unfold manhattan_distance; rewrite !Z.sub_diag; reflexivity |].
    destruct (String.eqb heuristic_type "euclidean"); [ exact He |].
    destruct (String.eqb heuristic_type "diagonal");
      [ unfold diagonal_distance; rewrite !Z.sub_diag; reflexivity | exact He ].
  - intros H1 H2.
    destruct (String.eqb_spec heuristic_type "manhattan"); [ contradiction |].
    destruct (String.eqb heuristic_type "euclidean"); [ reflexivity |].
    destruct (String.eqb_spec heuristic_type "diagonal"); [ contradiction | reflexivity ].
Qed.

(** X13.  One step on a grid with the step costs of the constructor, seen
    by the three heuristics: the Euclidean estimate of a move to a neighbour
    is its exact price, the diagonal (Chebyshev) estimate is 1.0 and never
    exceeds it, and the Manhattan estimate of a diagonal move is 2.0, more
    than its price [sqrt 2]: with diagonal movement on, "manhattan"
    overestimates. *)
Theorem heuristics_on_one_step (g : Grid) (p q : pos) :
  diagonal_cost g = Py.sqrt 2%float -> straight_cost g = 1%float ->
  In q (get_neighbors g p) ->
  get_heuristic p q "euclidean" = Grid_get_movement_cost g p q
  /\ get_heuristic p q "diagonal" = 1%float
  /\ Py.le (get_heuristic p q "diagonal") (Grid_get_movement_cost g p q) = true
  /\ (Z.abs (fst q - fst p) = 1 -> Z.abs (snd q - snd p) = 1 ->
      get_heuristic p q "manhattan" = 2%float
      /\ Py.lt (Grid_get_movement_cost g p q) (get_heuristic p q "manhattan") = true).
Proof.
  intros Hd Hs Hq.
  rewrite (allowed_step_cost g p q
             (proj1 (directions_of_allowed g p q) (proj2 (proj1 (get_neighbors_In g p q) Hq)))),
          Hd, Hs.
  apply get_neighbors_In in Hq as [_ Hq]. apply directions_of_allowed in Hq.
  unfold step_allowed in Hq.
  assert (Hc : (fst p - fst q = 0 \/ fst p - fst q = 1 \/ fst p - fst q = -1)
               /\ (snd p - snd q = 0 \/ snd p - snd q = 1 \/ snd p - snd q = -1)
               /\ ~ (fst p - fst q = 0 /\ snd p - snd q = 0))
    by (destruct (diagonal_movement g); lia).
  unfold get_heuristic, euclidean_distance, diagonal_distance, manhattan_distance.
  cbn [String.eqb Ascii.eqb Bool.eqb]. cbv zeta.
  replace (fst q - fst p) with (- (fst p - fst q)) by lia.
  replace (snd q - snd p) with (- (snd p - snd q)) by lia.
  destruct Hc as ([Hx | [Hx | Hx]] & [Hy | [Hy | Hy]] & Hne); rewrite Hx, Hy;
    try (exfalso; apply Hne; split; assumption);
    (split; [ reflexivity | split; [ reflexivity | split; [ reflexivity |] ] ]);
    cbn; intros; try lia; split; reflexivity.
Qed.

Lemma heuristics_on_one_step_witness :
  get_heuristic (0, 0) (1, 1) "euclidean"
  = Grid_get_movement_cost (Grid_init CGrid 2 2) (0, 0) (1, 1)
  /\ get_heuristic (0, 0) (1, 1) "diagonal" = 1%float
  /\ Py.le (get_heuristic (0, 0) (1, 1) "diagonal")
           (Grid_get_movement_cost (Grid_init CGrid 2 2) (0, 0) (1, 1)) = true
  /\ (Z.abs (fst (1, 1) - fst (0, 0)) = 1 -> Z.abs (snd (1, 1) - snd (0, 0)) = 1 ->
      get_heuristic (0, 0) (1, 1) "manhattan" = 2%float
      /\ Py.lt (Grid_get_movement_cost (Grid_init CGrid 2 2) (0, 0) (1, 1))
               (get_heuristic (0, 0) (1, 1) "manhattan") = true).
Proof.
  apply (heuristics_on_one_step (Grid_init CGrid 2 2) (0, 0) (1, 1));
    [ reflexivity | reflexivity | vm_compute; auto 10 ].
Defined.

Lemma last_nonempty_default {A} (p : list A) : forall c d d',
  last (c :: p) d = last (c :: p) d'.
Proof.
  induction p as [| e p IH]; intros c d d'; [ reflexivity |].
  change (last (c :: e :: p) d) with (last (e :: p) d).
  change (last (c :: e :: p) d') with (last (e :: p) d'). apply IH.
Qed.

Lemma sum_segments_from_app (p : list waypoint) : forall total a b,
  sum_segments_from total ((a :: p) ++ [b])
  = PrimFloat.add (sum_segments_from total (a :: p)) (segment_length (last (a :: p) a) b).
Proof.
  induction p as [| c p IH]; intros total a b; [ reflexivity |].
  change (sum_segments_from total ((a :: c :: p) ++ [b]))
    with (sum_segments_from (PrimFloat.add total (segment_length a c)) ((c :: p) ++ [b])).
  rewrite IH.
  change (sum_segments_from total (a :: c :: p))
    with (sum_segments_from (PrimFloat.add total (segment_length a c)) (c :: p)).
  f_equal. f_equal.
  change (last (a :: c :: p) a) with (last (c :: p) a). apply last_nonempty_default.
Qed.

(** X14.  [calculate_path_length] composes with extending a path: a path of
    fewer than two waypoints has length 0.0, and appending a waypoint to a
    non-empty path adds the Euclidean length of the new last segment to the
    length computed so far (the sum runs left to right, so the equation is
    exact in floating point). *)
Theorem path_length_of_extended_path (a : waypoint) (p : list waypoint) (b : waypoint) :
  calculate_path_length [] = 0%float
  /\ calculate_path_length [a] = 0%float
  /\ calculate_path_length ((a :: p) ++ [b])
     = PrimFloat.add (calculate_path_length (a :: p))
                     (segment_length (last (a :: p) a) b).
Proof.
  split; [ reflexivity |]. split; [ reflexivity |].
  rewrite !calculate_path_length_sum. unfold sum_segments. apply sum_segments_from_app.
Qed.

(* ================================================================== *)
(** * The paths the searches return *)
(* ================================================================== *)

(** Consecutive cells of [ps] are joined by a move to a neighbour. *)
Fixpoint steps_ok (g : Grid) (ps : list pos) : Prop :=
  match ps with
  | a :: ((b :: _) as rest) => In b (get_neighbors g a) /\ steps_ok g rest
  | _ => True
  end.

(** [ps] is a walk on [g] from [start] to [goal]. *)
Definition valid_path (g : Grid) (start goal : pos) (ps : list pos) : Prop :=
  hd_error ps = Some start /\ last ps start = goal /\ steps_ok g ps.

(** Each cell of [ps] is the parent of the next one. *)
Fixpoint linked (g : Grid) (ps : list pos) : Prop :=
  match ps with
  | a :: ((b :: _) as rest) => parent_of g b = Some a /\ linked g rest
  | _ => True
  end.

(** What [get_path] computes: the chain of parents that ends at the node it
    is given and starts at a node without parent. *)
Lemma get_path_loop_chain g (fuel : nat) : forall cur accp p,
  get_path_loop fuel g cur (map int_waypoint accp) = Done p ->
  linked g accp ->
  match accp with [] => True | b :: _ => parent_of g b = cur end ->
  exists ps, p = map int_waypoint (ps ++ accp)
             /\ linked g (ps ++ accp)
             /\ match ps ++ accp with [] => cur = None | a :: _ => parent_of g a = None end.
Proof.
  induction fuel as [| fuel IH]; intros cur accp p H Hl Hhd.
  - destruct cur as [c |]; cbn [get_path_loop] in H; [ discriminate H |].
    injection H as <-. exists []. cbn [app]. split; [ reflexivity |]. split; [ exact Hl |].
    destruct accp; [ reflexivity | exact Hhd ].
  - destruct cur as [c |]; cbn [get_path_loop] in H.
    + destruct (node_at g c) as [n |] eqn:En; [| discriminate H ].
      change (int_waypoint c :: map int_waypoint accp)
        with (map int_waypoint (c :: accp)) in H.
      apply IH in H.
      * destruct H as (ps & -> & Hlk & Hh). exists (ps ++ [c]).
        rewrite <- app_assoc. cbn [app]. split; [ reflexivity |]. split; [ exact Hlk |].
        destruct ps; exact Hh.
      * destruct accp as [| b accp]; [ exact I |]. split; [ exact Hhd | exact Hl ].
      * unfold parent_of. rewrite En. reflexivity.
    + injection H as <-. exists []. cbn [app]. split; [ reflexivity |]. split; [ exact Hl |].
      destruct accp; [ reflexivity | exact Hhd ].
Qed.

Lemma get_path_chain g fuel goal p :
  get_path fuel g goal = Done p ->
  exists ps, p = map int_waypoint ps /\ linked g ps /\ last ps goal = goal
             /\ ps <> [] /\ (forall a, hd_error ps = Some a -> parent_of g a = None).
Proof.
  unfold get_path. intros H.
  destruct fuel as [| fuel]; cbn [get_path_loop] in H; [ discriminate H |].
  destruct (node_at g goal) as [n |] eqn:En; [| discriminate H ].
  change [int_waypoint goal] with (map int_waypoint [goal]) in H.
  apply get_path_loop_chain in H; [| exact I | unfold parent_of; rewrite En; reflexivity ].
  destruct H as (ps & -> & Hl & Hh). exists (ps ++ [goal]).
  split; [ reflexivity |]. split; [ exact Hl |]. split; [ apply last_last |].
  split; [ destruct ps; discriminate |].
  intros a Ha. destruct (ps ++ [goal]) as [| a' rest]; [ discriminate Ha |].
  injection Ha as <-. exact Hh.
Qed.

(** Two grids with the same obstacles and the same movement pattern. *)
Definition same_walkable (g g' : Grid) : Prop :=
  diagonal_movement g' = diagonal_movement g
  /\ forall x y, is_walkable g' x y = is_walkable g x y.

Lemma same_walkable_refl g : same_walkable g g.
Proof. split; reflexivity. Qed.

Lemma same_walkable_trans g1 g2 g3 :
  same_walkable g1 g2 -> same_walkable g2 g3 -> same_walkable g1 g3.
Proof.
  intros [H1 H2] [H3 H4]. split; [ congruence |]. intros x y. rewrite H4. apply H2.
Qed.

Lemma same_walkable_neighbors g g' p :
  same_walkable g g' -> get_neighbors g' p = get_neighbors g p.
Proof.
  intros [Hd Hw]. rewrite !get_neighbors_as_map. unfold directions_of. rewrite Hd.
  f_equal. apply filter_ext. intros d. apply Hw.
Qed.

Lemma diagonal_movement_update_node g p f :
  diagonal_movement (update_node g p f) = diagonal_movement g.
Proof. unfold update_node. destruct (is_valid_position _ _ _); reflexivity. Qed.

Lemma same_walkable_update_node g p f :
  (forall n, walkable (f n) = walkable n) -> same_walkable g (update_node g p f).
Proof.
  intros Hf. split; [ apply diagonal_movement_update_node |].
  intros x y. unfold is_walkable. rewrite get_node_update_node.
  destruct (pos_eqb (x, y) p); [| reflexivity ].
  destruct (get_node g x y); cbn [option_map]; auto.
Qed.

Lemma same_walkable_update_to g p n n' :
  node_at g p = Some n -> walkable n' = walkable n ->
  same_walkable g (update_node g p (fun _ => n')).
Proof.
  intros Hn Hw. split; [ apply diagonal_movement_update_node |].
  intros x y. unfold is_walkable. rewrite get_node_update_node.
  destruct (pos_eqb (x, y) p) eqn:E; [| reflexivity ].
  apply pos_eqb_eq in E. subst p. unfold node_at in Hn. cbn [fst snd] in Hn.
  rewrite Hn. cbn [option_map]. exact Hw.
Qed.

Lemma same_walkable_reset g : same_walkable g (reset_pathfinding_data g).
Proof. split; [ reflexivity |]. intros x y. apply is_walkable_reset. Qed.

(** The part of the loop invariant that speaks of the shape of the parent
    links, on the obstacles of [g0] and for a search from [s]. *)
Record path_inv_by (R : pos -> pos -> Prop) (g0 : Grid) (s : pos)
       (g : Grid) (open : list entry) (closed : list pos) : Prop := {
  pi_walk : same_walkable g0 g;
  pi_root : parent_of g s = None;
  pi_rooted : In s closed \/ (open <> [] /\ forall e, In e open -> e_node e = s);
  pi_step : forall p q, parent_of g p = Some q -> R q p;
  pi_open : forall e, In e open -> e_node e = s \/ parent_of g (e_node e) <> None;
  pi_closed : forall p, In p closed -> p = s \/ parent_of g p <> None;
  pi_nodup : NoDup closed
}.

Arguments pi_walk {R g0 s g open closed}.
Arguments pi_root {R g0 s g open closed}.
Arguments pi_rooted {R g0 s g open closed}.
Arguments pi_step {R g0 s g open closed}.
Arguments pi_open {R g0 s g open closed}.
Arguments pi_closed {R g0 s g open closed}.
Arguments pi_nodup {R g0 s g open closed}.

(** The links of A* and of Dijkstra: a parent is one move away. *)
Definition moves (g : Grid) (q p : pos) : Prop := In p (get_neighbors g q).

Abbreviation path_inv g0 := (path_inv_by (moves g0) g0).

Lemma NoDup_set_add p closed : NoDup closed -> NoDup (set_add p closed).
Proof.
  intros H. unfold set_add. destruct (set_mem p closed) eqn:E; [ exact H |].
  constructor; [ apply set_mem_false; exact E | exact H ].
Qed.

Lemma path_inv_keep {R} g0 s g open closed p f :
  (forall n, parent (f n) = parent n) -> (forall n, walkable (f n) = walkable n) ->
  path_inv_by R g0 s g open closed -> path_inv_by R g0 s (update_node g p f) open closed.
Proof.
  intros Hp Hw [H1 H2 H3 H4 H5 H6 H7]. constructor.
  - eapply same_walkable_trans; [ exact H1 | apply same_walkable_update_node; exact Hw ].
  - rewrite parent_of_update_node_keep by exact Hp. exact H2.
  - exact H3.
  - intros a b. rewrite parent_of_update_node_keep by exact Hp. apply H4.
  - intros e He. rewrite parent_of_update_node_keep by exact Hp. apply H5. exact He.
  - intros a Ha. rewrite parent_of_update_node_keep by exact Hp. apply H6. exact Ha.
  - exact H7.
Qed.

Lemma path_inv_pop_close {R} g0 s g open open' closed e :
  path_inv_by R g0 s g open closed -> heappop open = Some (e, open') ->
  path_inv_by R g0 s g open' (set_add (e_node e) closed)
  /\ In s (set_add (e_node e) closed).
Proof.
  intros [H1 H2 H3 H4 H5 H6 H7] Hpop.
  pose proof (heappop_In _ _ _ Hpop) as HIn.
  assert (Hs : In s (set_add (e_node e) closed)).
  { apply set_add_In. destruct H3 as [H3 | [_ H3]]; [ right; exact H3 |].
    left. symmetry. apply H3. apply HIn. left. reflexivity. }
  split; [| exact Hs ]. constructor; auto.
  - intros x Hx. apply H5. apply HIn. right. exact Hx.
  - intros a Ha. apply set_add_In in Ha as [-> | Ha]; [| auto ].
    apply H5. apply HIn. left. reflexivity.
  - apply NoDup_set_add. exact H7.
Qed.

Lemma path_inv_pop_stale {R} g0 s g open open' closed e :
  path_inv_by R g0 s g open closed -> heappop open = Some (e, open') ->
  In (e_node e) closed ->
  path_inv_by R g0 s g open' closed /\ In s closed.
Proof.
  intros [H1 H2 H3 H4 H5 H6 H7] Hpop Hcl.
  pose proof (heappop_In _ _ _ Hpop) as HIn.
  assert (Hs : In s closed).
  { destruct H3 as [H3 | [_ H3]]; [ exact H3 |].
    rewrite <- (H3 e); [ exact Hcl | apply HIn; left; reflexivity ]. }
  split; [| exact Hs ]. constructor; auto.
  intros x Hx. apply H5. apply HIn. right. exact Hx.
Qed.

Lemma path_inv_relax {R} g0 s g open closed neighbor current n n' e :
  path_inv_by R g0 s g open closed -> In s closed -> set_mem neighbor closed = false ->
  R current neighbor ->
  node_at g neighbor = Some n -> walkable n' = walkable n ->
  parent n' = Some current -> e_node e = neighbor ->
  path_inv_by R g0 s (update_node g neighbor (fun _ => n')) (heappush open e) closed.
Proof.
  intros [H1 H2 H3 H4 H5 H6 H7] Hs Hmem Hnb Hn Hw Hpar He.
  apply set_mem_false in Hmem.
  assert (Hne : neighbor <> s) by (intros ->; contradiction).
  assert (Hpn : parent_of (update_node g neighbor (fun _ => n')) neighbor = Some current).
  { unfold parent_of. rewrite node_at_update_node_same, Hn. exact Hpar. }
  constructor.
  - eapply same_walkable_trans; [ exact H1 | eapply same_walkable_update_to; eauto ].
  - rewrite parent_of_update_node_other by exact Hne. exact H2.
  - left. exact Hs.
  - intros a b Hab. destruct (pos_eqb neighbor a) eqn:E.
    + apply pos_eqb_eq in E. subst a. rewrite Hpn in Hab. injection Hab as <-. exact Hnb.
    + apply pos_eqb_neq in E. rewrite parent_of_update_node_other in Hab by exact E.
      apply H4. exact Hab.
  - intros x Hx. unfold heappush in Hx. apply in_app_iff in Hx as [Hx | [<- | []]].
    + destruct (pos_eqb neighbor (e_node x)) eqn:E.
      * apply pos_eqb_eq in E. rewrite <- E, Hpn. right. discriminate.
      * apply pos_eqb_neq in E. rewrite parent_of_update_node_other by exact E. auto.
    + rewrite He, Hpn. right. discriminate.
  - intros a Ha. assert (neighbor <> a) by (intros ->; contradiction).
    rewrite parent_of_update_node_other by assumption. auto.
  - exact H7.
Qed.

Lemma steps_ok_app g ps a b :
  steps_ok g (ps ++ [a]) -> In b (get_neighbors g a) -> steps_ok g (ps ++ [a; b]).
Proof.
  induction ps as [| c ps IH]; intros H Hb; [ cbn; auto |].
  destruct ps as [| d ps]; cbn [app steps_ok] in *.
  - destruct H as [H _]. auto.
  - destruct H as [H1 H2]. split; [ exact H1 | apply IH; assumption ].
Qed.

(** The place of a cell in the closed list, counted from its far end. *)
Fixpoint rank (cl : list pos) (p : pos) : nat :=
  match cl with
  | [] => O
  | c :: rest => if pos_eqb c p then S (List.length rest) else rank rest p
  end.

Lemma rank_le cl p : (rank cl p <= List.length cl)%nat.
Proof.
  induction cl as [| c rest IH]; cbn [rank List.length]; [ lia |].
  destruct (pos_eqb c p); lia.
Qed.

Lemma chain_closed_parent_in g cl p q :
  chain_closed g cl -> In p cl -> parent_of g p = Some q -> In q cl.
Proof.
  induction cl as [| c rest IH]; intros Hch Hp Hq; [ contradiction |].
  destruct Hch as [Hc Hrest]. destruct Hp as [-> | Hp].
  - right. apply Hc. exact Hq.
  - right. apply IH; assumption.
Qed.

(** The parent of a closed cell was closed before it. *)
Lemma rank_parent g cl : NoDup cl -> chain_closed g cl ->
  forall p q, In p cl -> parent_of g p = Some q -> (rank cl q < rank cl p)%nat.
Proof.
  induction cl as [| c rest IH]; intros Hnd Hch p q Hp Hq; [ contradiction |].
  inversion Hnd as [| ? ? Hc Hnd']; subst. destruct Hch as [Hcp Hrest].
  cbn [rank]. destruct (pos_eqb c p) eqn:E.
  - apply pos_eqb_eq in E. subst p.
    assert (Hqr : In q rest) by (apply Hcp; exact Hq).
    destruct (pos_eqb c q) eqn:E'.
    + apply pos_eqb_eq in E'. subst q. contradiction.
    + pose proof (rank_le rest q). lia.
  - apply pos_eqb_neq in E. destruct Hp as [-> | Hp]; [ contradiction |].
    assert (Hqr : In q rest) by (eapply chain_closed_parent_in; eauto).
    destruct (pos_eqb c q) eqn:E'.
    + apply pos_eqb_eq in E'. subst q. contradiction.
    + apply IH; assumption.
Qed.

Lemma linked_rank g cl : NoDup cl -> chain_closed g cl ->
  forall ps a, linked g (a :: ps) -> (forall x, In x ps -> In x cl) ->
  forall x, In x ps -> (rank cl a < rank cl x)%nat.
Proof.
  intros Hnd Hch. induction ps as [| b ps IH]; intros a Hl Hin x Hx; [ contradiction |].
  destruct Hl as [Hab Hl].
  assert (H1 : (rank cl a < rank cl b)%nat)
    by (apply (rank_parent g cl Hnd Hch b a); [ apply Hin; left; reflexivity | exact Hab ]).
  destruct Hx as [<- | Hx]; [ exact H1 |].
  assert (H2 : (rank cl b < rank cl x)%nat).
  { apply (IH b Hl); [| exact Hx ]. intros y Hy. apply Hin. right. exact Hy. }
  lia.
Qed.

(** A chain of parent links through closed cells never passes a cell twice. *)
Lemma linked_NoDup g cl : NoDup cl -> chain_closed g cl ->
  forall ps, linked g ps -> (forall x, In x ps -> In x cl) -> NoDup ps.
Proof.
  intros Hnd Hch. induction ps as [| a ps IH]; intros Hl Hin; constructor.
  - intros Ha.
    assert (Hin' : forall x, In x ps -> In x cl) by (intros; apply Hin; right; assumption).
    pose proof (linked_rank g cl Hnd Hch ps a Hl Hin' a Ha). lia.
  - apply IH; [| intros; apply Hin; right; assumption ].
    destruct ps as [| b ps]; [ exact I | exact (proj2 Hl) ].
Qed.

Lemma linked_in_closed g open closed goal ps :
  search_inv g open closed -> linked g ps -> last ps goal = goal ->
  forall x, In x ps -> x = goal \/ In x closed.
Proof.
  intros Hsi. induction ps as [| a ps IH]; intros Hl Hlast x Hx; [ contradiction |].
  destruct ps as [| b ps].
  - destruct Hx as [<- | []]. left. exact Hlast.
  - destruct Hl as [Hab Hl]. destruct Hx as [<- | Hx].
    + right. apply (inv_parent _ _ _ Hsi b). exact Hab.
    + apply IH; assumption.
Qed.

Lemma linked_simple g open closed goal ps :
  search_inv g open closed -> NoDup closed ->
  has_node g goal -> linked g ps -> last ps goal = goal -> NoDup ps.
Proof.
  intros Hsi Hnd Hnode Hl Hlast.
  pose proof (linked_in_closed g open closed goal ps Hsi Hl Hlast) as Hin.
  destruct (set_mem goal closed) eqn:E.
  - apply set_mem_In in E. apply (linked_NoDup g closed Hnd (inv_chain _ _ _ Hsi) ps Hl).
    intros x Hx. destruct (Hin x Hx) as [-> | H]; assumption.
  - apply set_mem_false in E.
    apply (linked_NoDup g (goal :: closed)); [ constructor; assumption | | exact Hl |].
    + split; [| apply (inv_chain _ _ _ Hsi) ].
      intros q Hq. apply (inv_parent _ _ _ Hsi goal). exact Hq.
    + intros x Hx. destruct (Hin x Hx) as [-> | H]; [ left; reflexivity | right; exact H ].
Qed.

(** Consecutive cells of [ps] are related by [R]. *)
Fixpoint steps_by (R : pos -> pos -> Prop) (ps : list pos) : Prop :=
  match ps with
  | a :: ((b :: _) as rest) => R a b /\ steps_by R rest
  | _ => True
  end.

Lemma steps_by_moves g ps : steps_by (moves g) ps <-> steps_ok g ps.
Proof.
  induction ps as [| a ps IH]; [ tauto |]. destruct ps as [| b ps]; [ cbn; tauto |].
  cbn [steps_by steps_ok]. rewrite IH. unfold moves. tauto.
Qed.

(** The chain [get_path] reads from a node that is queued or closed starts
    at the start of the search, and each of its links is one that the search
    has made. *)
Lemma linked_valid_by R g0 s g open closed goal ps :
  path_inv_by R g0 s g open closed -> search_inv g open closed ->
  (goal = s \/ parent_of g goal <> None) ->
  linked g ps -> last ps goal = goal -> ps <> [] ->
  (forall a, hd_error ps = Some a -> parent_of g a = None) ->
  hd_error ps = Some s /\ last ps s = goal /\ steps_by R ps.
Proof.
  intros Hpi Hsi Hgoal Hl Hlast Hne Hhd.
  assert (Hall : forall ps', linked g ps' -> ps' <> [] ->
             (parent_of g (last ps' goal) <> None \/ last ps' goal = s) ->
             steps_by R ps'
             /\ forall a, hd_error ps' = Some a -> a = s \/ parent_of g a <> None).
  { induction ps' as [| a ps' IH]; intros Hl' Hne' Hlast'; [ contradiction |].
    destruct ps' as [| b ps'].
    - cbn in *. split; [ exact I |]. intros a' Ha'. injection Ha' as <-. tauto.
    - destruct Hl' as [Hab Hl'].
      destruct (IH Hl' ltac:(discriminate) Hlast') as [IH1 IH2].
      split.
      + cbn [steps_by]. split; [| exact IH1 ]. apply (pi_step Hpi). exact Hab.
      + intros a' Ha'. injection Ha' as <-.
        apply (pi_closed Hpi). apply (inv_parent _ _ _ Hsi b). exact Hab. }
  destruct (Hall ps Hl Hne) as [Hsteps Hhead].
  { rewrite Hlast. destruct Hgoal; auto. }
  destruct ps as [| a ps]; [ contradiction |].
  split; [| split; [| exact Hsteps ] ].
  - cbn. f_equal. destruct (Hhead a eq_refl) as [-> | Hp]; [ reflexivity |].
    exfalso. apply Hp. apply Hhd. reflexivity.
  - rewrite <- Hlast. apply last_nonempty_default.
Qed.

Lemma linked_valid g0 s g open closed goal ps :
  path_inv g0 s g open closed -> search_inv g open closed ->
  (goal = s \/ parent_of g goal <> None) ->
  linked g ps -> last ps goal = goal -> ps <> [] ->
  (forall a, hd_error ps = Some a -> parent_of g a = None) ->
  valid_path g0 s goal ps.
Proof.
  intros Hpi Hsi Hgoal Hl Hlast Hne Hhd.
  destruct (linked_valid_by _ _ _ _ _ _ _ _ Hpi Hsi Hgoal Hl Hlast Hne Hhd) as (H1 & H2 & H3).
  split; [ exact H1 |]. split; [ exact H2 |]. apply steps_by_moves. exact H3.
Qed.

(* ------------------------------------------------------------------ *)
(** ** The frontier of A* *)
(* ------------------------------------------------------------------ *)

(** [p] has an entry in the queue. *)
Definition queued (open : list entry) (p : pos) : Prop :=
  exists e, In e open /\ e_node e = p.

Definition covered (open : list entry) (closed : list pos) (p : pos) : Prop :=
  In p closed \/ queued open p.

(** The node at [p] carries [in_open_set = True]. *)
Definition flagged (g : Grid) (p : pos) : Prop :=
  exists n, node_at g p = Some n /\ in_open_set n = true.

Definition flags_inv (g : Grid) (open : list entry) : Prop :=
  forall p, flagged g p -> queued open p.

(** The state between two neighbours of [current], while it is expanded. *)
Record expanding_by (R : pos -> pos -> Prop) (g0 : Grid) (s current : pos)
       (g : Grid) (open : list entry) (closed : list pos) : Prop := {
  ex_inv : search_inv g open closed;
  ex_path : path_inv_by R g0 s g open closed;
  ex_start : In s closed;
  ex_current : In current closed
}.

Arguments ex_inv {R g0 s current g open closed}.
Arguments ex_path {R g0 s current g open closed}.
Arguments ex_start {R g0 s current g open closed}.
Arguments ex_current {R g0 s current g open closed}.

Abbreviation expanding g0 := (expanding_by (moves g0) g0).

Lemma neighbor_has_node g0 s g open closed current nb :
  path_inv g0 s g open closed -> In nb (get_neighbors g0 current) ->
  exists n, node_at g nb = Some n.
Proof.
  intros Hp Hnb. apply get_neighbors_walkable in Hnb.
  destruct (pi_walk Hp) as [_ Hw]. rewrite <- Hw in Hnb.
  apply is_walkable_node in Hnb. rewrite <- surjective_pairing in Hnb. exact Hnb.
Qed.

Lemma expanding_relax {R} g0 s current g open closed nb n n' e :
  expanding_by R g0 s current g open closed ->
  set_mem nb closed = false -> R current nb ->
  node_at g nb = Some n -> walkable n' = walkable n ->
  parent n' = Some current -> e_node e = nb ->
  expanding_by R g0 s current (update_node g nb (fun _ => n')) (heappush open e) closed.
Proof.
  intros [H1 H2 H3 H4] Hmem Hnb Hn Hw Hpar He. constructor; auto.
  - apply (relax_inv g open closed nb current n' e); auto.
    unfold has_node. rewrite Hn. discriminate.
  - eapply path_inv_relax; eauto.
Qed.

Lemma flags_inv_relax g open nb n' e :
  flags_inv g open -> e_node e = nb ->
  flags_inv (update_node g nb (fun _ => n')) (heappush open e).
Proof.
  intros Hf He p (n & Hn & Hflag). unfold heappush.
  destruct (pos_eqb nb p) eqn:E.
  - apply pos_eqb_eq in E. subst p. exists e. split; [| exact He ].
    apply in_app_iff. right. left. reflexivity.
  - apply pos_eqb_neq in E. rewrite node_at_update_node_other in Hn by exact E.
    destruct (Hf p) as (x & Hx & Hxp); [ exists n; auto |].
    exists x. split; [ apply in_app_iff; left; exact Hx | exact Hxp ].
Qed.

Lemma AStar_examine_neighbor_expanding id ht w goal g0 s current st nb :
  expanding g0 s current (AStar.grid st) (AStar.open_set st) (AStar.closed_set st) ->
  flags_inv (AStar.grid st) (AStar.open_set st) ->
  In nb (get_neighbors g0 current) ->
  let st' := AStar.examine_neighbor id ht w goal current st nb in
  expanding g0 s current (AStar.grid st') (AStar.open_set st') (AStar.closed_set st')
  /\ flags_inv (AStar.grid st') (AStar.open_set st')
  /\ AStar.closed_set st' = AStar.closed_set st
  /\ (forall e, In e (AStar.open_set st) -> In e (AStar.open_set st'))
  /\ covered (AStar.open_set st') (AStar.closed_set st') nb.
Proof.
  intros Hex Hflags Hnb.
  destruct (neighbor_has_node _ _ _ _ _ _ _ (ex_path Hex) Hnb) as [n Hn].
  assert (Hc : exists c, node_at (AStar.grid st) current = Some c).
  { pose proof (inv_closed _ _ _ (ex_inv Hex) current
                  (ex_current Hex)) as H.
    unfold has_node in H. destruct (node_at (AStar.grid st) current); [ eauto | contradiction ]. }
  destruct Hc as [c Hc].
  assert (Hpush : forall n' e, walkable n' = walkable n -> parent n' = Some current ->
            e_node e = nb -> set_mem nb (AStar.closed_set st) = false ->
            let g' := update_node (AStar.grid st) nb (fun _ => n') in
            let open' := heappush (AStar.open_set st) e in
            expanding g0 s current g' open' (AStar.closed_set st)
            /\ flags_inv g' open'
            /\ AStar.closed_set st = AStar.closed_set st
            /\ (forall x, In x (AStar.open_set st) -> In x open')
            /\ covered open' (AStar.closed_set st) nb).
  { intros n' e Hw Hp He Hmem. cbv zeta.
    split; [ eapply expanding_relax; eauto |].
    split; [ apply flags_inv_relax; assumption |].
    split; [ reflexivity |].
    split; [ intros x Hx; apply in_app_iff; left; exact Hx |].
    right. exists e. split; [ apply in_app_iff; right; left; reflexivity | exact He ]. }
  cbv zeta. unfold AStar.examine_neighbor.
  destruct (set_mem nb (AStar.closed_set st)) eqn:Hmem;
    cbn [AStar.grid AStar.open_set AStar.closed_set].
  { split; [ exact Hex |]. split; [ exact Hflags |]. split; [ reflexivity |].
    split; [ auto |]. left. apply set_mem_In. exact Hmem. }
  rewrite Hc, Hn. destruct (in_open_set n) eqn:Hflag; cbn [negb orb].
  - destruct (Py.lt _ _); cbn [AStar.grid AStar.open_set AStar.closed_set].
    + apply Hpush; auto.
    + split; [ exact Hex |]. split; [ exact Hflags |]. split; [ reflexivity |].
      split; [ auto |]. right. apply Hflags. exists n. auto.
  - cbn [AStar.grid AStar.open_set AStar.closed_set]. apply Hpush; auto.
Qed.

Lemma AStar_neighbors_expanding id ht w goal g0 s current (ns : list pos) : forall st,
  expanding g0 s current (AStar.grid st) (AStar.open_set st) (AStar.closed_set st) ->
  flags_inv (AStar.grid st) (AStar.open_set st) ->
  (forall n, In n ns -> In n (get_neighbors g0 current)) ->
  let st' := fold_left (AStar.examine_neighbor id ht w goal current) ns st in
  expanding g0 s current (AStar.grid st') (AStar.open_set st') (AStar.closed_set st')
  /\ flags_inv (AStar.grid st') (AStar.open_set st')
  /\ AStar.closed_set st' = AStar.closed_set st
  /\ (forall e, In e (AStar.open_set st) -> In e (AStar.open_set st'))
  /\ (forall n, In n ns -> covered (AStar.open_set st') (AStar.closed_set st') n).
Proof.
  induction ns as [| n ns IH]; intros st Hex Hflags Hns; cbv zeta; cbn [fold_left].
  - split; [ exact Hex |]. split; [ exact Hflags |]. split; [ reflexivity |].
    split; [ auto |]. intros n [].
  - destruct (AStar_examine_neighbor_expanding id ht w goal g0 s current st n Hex Hflags
                (Hns n (or_introl eq_refl))) as (E1 & E2 & E3 & E4 & E5).
    destruct (IH _ E1 E2 (fun q Hq => Hns q (or_intror Hq))) as (F1 & F2 & F3 & F4 & F5).
    split; [ exact F1 |]. split; [ exact F2 |]. split; [ congruence |].
    split; [ auto |].
    intros q [<- | Hq]; [| auto ].
    rewrite F3. destruct E5 as [E5 | (x & Hx & Hxq)]; [ left; exact E5 |].
    right. exists x. auto.
Qed.

(** The invariant of the A* loop that the answer rests on: [g0] is the grid
    the call was given, [s] its start and [goal] its goal. *)
Record AStar_ok (g0 : Grid) (s goal : pos) (st : AStar.state) : Prop := {
  ok_inv : search_inv (AStar.grid st) (AStar.open_set st) (AStar.closed_set st);
  ok_path : path_inv g0 s (AStar.grid st) (AStar.open_set st) (AStar.closed_set st);
  ok_flags : flags_inv (AStar.grid st) (AStar.open_set st);
  ok_cover : forall c n, In c (AStar.closed_set st) -> In n (get_neighbors g0 c) ->
             covered (AStar.open_set st) (AStar.closed_set st) n;
  ok_goal : ~ In goal (AStar.closed_set st)
}.

(** What a result says about the grid: a walk when [found], no walk
    otherwise. *)
Definition answers (g0 : Grid) (s goal : pos) (r : PathfindingResult) : Prop :=
  if found r
  then exists ps, path r = map int_waypoint ps /\ valid_path g0 s goal ps /\ NoDup ps
  else ~ reachable g0 s goal.

Lemma closed_under_neighbors g0 s closed :
  In s closed ->
  (forall c n, In c closed -> In n (get_neighbors g0 c) -> In n closed) ->
  forall q, reachable g0 s q -> In q closed.
Proof. intros Hs Hstep q. induction 1; eauto. Qed.

Lemma AStar_step_ok fuel id ht w g0 s goal st :
  AStar_ok g0 s goal st ->
  match AStar.step fuel id ht w goal st with
  | Continue st' => AStar_ok g0 s goal st'
  | Return (Done (r, _)) => answers g0 s goal r
  | Return _ => True
  end.
Proof.
  intros [Hinv Hpath Hflags Hcover Hgoal]. unfold AStar.step.
  destruct (heappop (AStar.open_set st)) as [[e open'] |] eqn:Hpop.
  2:{ apply heappop_None in Hpop. unfold answers.
      replace (found (_create_result (AStar.metrics st) [] false (Some "No path exists")))
        with false by (symmetry; apply (made_fields _ _ _ _ _ (made_create _ _ _ _))).
      intros Hreach. apply Hgoal.
      apply (closed_under_neighbors g0 s); [ | | exact Hreach ].
      - destruct (pi_rooted Hpath) as [H | [H _]]; [ exact H | contradiction ].
      - intros c n Hc Hn. destruct (Hcover c n Hc Hn) as [H | (x & Hx & _)]; [ exact H |].
        rewrite Hpop in Hx. destruct Hx. }
  pose proof (heappop_In _ _ _ Hpop) as HIn.
  set (g1 := update_node (AStar.grid st) (e_node e) (set_in_open_set false)).
  assert (Hinv1 : search_inv g1 (AStar.open_set st) (AStar.closed_set st))
    by (apply search_inv_update_keep; [ reflexivity | exact Hinv ]).
  assert (Hpath1 : path_inv g0 s g1 (AStar.open_set st) (AStar.closed_set st))
    by (apply path_inv_keep; [ reflexivity | reflexivity | exact Hpath ]).
  assert (He : In e (AStar.open_set st)) by (apply HIn; left; reflexivity).
  destruct (pos_eqb (e_node e) goal) eqn:Hg.
  - apply pos_eqb_eq in Hg.
    destruct (get_path fuel g1 (e_node e)) as [p | |] eqn:Hp; cbn [bind]; auto.
    unfold answers.
    replace (found (_create_result _ p true None))
      with true by (symmetry; apply (made_fields _ _ _ _ _ (made_create _ _ _ _))).
    replace (path (_create_result _ p true None))
      with p by (symmetry; apply (made_fields _ _ _ _ _ (made_create _ _ _ _))).
    destruct (get_path_chain _ _ _ _ Hp) as (ps & -> & Hl & Hlast & Hne & Hhd).
    exists ps. split; [ reflexivity |]. rewrite Hg in *. split.
    + eapply linked_valid; eauto.
      rewrite <- Hg. apply (pi_open Hpath1). exact He.
    + apply (linked_simple g1 _ _ goal ps Hinv1 (pi_nodup Hpath1)); auto.
      rewrite <- Hg. apply (inv_open _ _ _ Hinv1). exact He.
  - apply pos_eqb_neq in Hg.
    destruct (path_inv_pop_close _ _ _ _ _ _ _ Hpath1 Hpop) as [Hpath2 Hs].
    set (closed' := set_add (e_node e) (AStar.closed_set st)) in *.
    assert (Hcur1 : has_node g1 (e_node e))
      by (apply has_node_update_node; apply (inv_open _ _ _ Hinv); exact He).
    assert (Hex : expanding g0 s (e_node e) g1 open' closed').
    { constructor; auto.
      - apply (search_inv_close g1 (AStar.open_set st)); auto.
        intros x Hx. apply HIn. right. exact Hx.
      - apply set_add_In. left. reflexivity. }
    assert (Hflags1 : flags_inv g1 open').
    { intros p (n & Hn & Hflag).
      assert (Hne : e_node e <> p).
      { intros <-. unfold g1 in Hn. rewrite node_at_update_node_same in Hn.
        destruct (node_at (AStar.grid st) (e_node e)); [| discriminate Hn ].
        injection Hn as <-. discriminate Hflag. }
      unfold g1 in Hn. rewrite node_at_update_node_other in Hn by exact Hne.
      destruct (Hflags p) as (x & Hx & Hxp); [ exists n; auto |].
      exists x. split; [| exact Hxp ].
      apply HIn in Hx as [-> | Hx]; [ contradiction | exact Hx ]. }
    match goal with |- AStar_ok _ _ _ (fold_left ?f ?ns ?st1) =>
      pose proof (AStar_neighbors_expanding id ht w goal g0 s (e_node e) ns st1 Hex Hflags1)
        as Hfold
    end.
    cbv zeta in Hfold. cbn [AStar.grid AStar.open_set AStar.closed_set] in Hfold.
    rewrite (same_walkable_neighbors g0 g1 _ (pi_walk Hpath1)) in *.
    destruct (Hfold (fun n Hn => Hn)) as (F1 & F2 & F3 & F4 & F5).
    constructor.
    + apply (ex_inv F1).
    + apply (ex_path F1).
    + exact F2.
    + intros c n Hc Hn. rewrite F3 in Hc. apply set_add_In in Hc as [-> | Hc].
      * apply F5. exact Hn.
      * rewrite F3. destruct (Hcover c n Hc Hn) as [H | (x & Hx & Hxn)].
        -- left. apply set_add_In. right. exact H.
        -- apply HIn in Hx as [-> | Hx].
           ++ left. apply set_add_In. left. symmetry. exact Hxn.
           ++ right. exists x. auto.
    + rewrite F3. intros H. apply set_add_In in H as [H | H]; [ congruence | contradiction ].
Qed.

Lemma AStar_loop_ok id ht w g0 s goal (fuel : nat) : forall st r g',
  AStar_ok g0 s goal st ->
  AStar.loop fuel id ht w goal st = Done (r, g') -> answers g0 s goal r.
Proof.
  induction fuel as [| fuel IH]; intros st r g' Hok H; cbn [AStar.loop] in H.
  - pose proof (AStar_step_ok O id ht w g0 s goal st Hok) as Hs.
    destruct (AStar.step O id ht w goal st) as [st' | o]; [ discriminate H |].
    subst o. exact Hs.
  - pose proof (AStar_step_ok (S fuel) id ht w g0 s goal st Hok) as Hs.
    destruct (AStar.step (S fuel) id ht w goal st) as [st' | o].
    + eapply IH; eauto.
    + subst o. exact Hs.
Qed.

Lemma reachable_front g a b c :
  In b (get_neighbors g a) -> reachable g b c -> reachable g a c.
Proof.
  intros Hab Hbc. induction Hbc as [| b q r _ IH Hr].
  - eapply reach_step; [ apply reach_refl | exact Hab ].
  - eapply reach_step; [ apply IH; exact Hab | exact Hr ].
Qed.

Lemma valid_path_reachable g s goal ps : valid_path g s goal ps -> reachable g s goal.
Proof.
  intros (Hhd & Hlast & Hsteps). destruct ps as [| a ps]; [ discriminate Hhd |].
  injection Hhd as ->. subst goal. revert s Hsteps.
  induction ps as [| b ps IH]; intros s Hsteps; [ apply reach_refl |].
  destruct Hsteps as [Hb Hsteps].
  change (last (s :: b :: ps) s) with (last (b :: ps) s).
  rewrite (last_nonempty_default ps b s b).
  eapply reachable_front; [ exact Hb | apply IH; exact Hsteps ].
Qed.

Lemma valid_path_same_walkable g g' s goal ps :
  same_walkable g g' -> valid_path g' s goal ps -> valid_path g s goal ps.
Proof.
  intros Hw (H1 & H2 & H3). split; [ exact H1 |]. split; [ exact H2 |].
  clear H1 H2. induction ps as [| a ps IH]; [ exact I |].
  destruct ps as [| b ps]; [ exact I |]. destruct H3 as [Hb H3].
  split; [| apply IH; exact H3 ]. rewrite <- (same_walkable_neighbors g g' a Hw). exact Hb.
Qed.

(** The loop is entered in a state that satisfies the invariant. *)
Lemma path_inv_initial {R} g start start_node f e :
  node_at (reset_pathfinding_data g) start = Some start_node ->
  parent (f start_node) = None -> walkable (f start_node) = walkable start_node ->
  e_node e = start ->
  path_inv_by R g start
           (update_node (reset_pathfinding_data g) start (fun _ => f start_node))
           (heappush [] e) [].
Proof.
  intros Hnode Hpar Hw He.
  assert (Hp : forall p, parent_of (update_node (reset_pathfinding_data g) start
                                      (fun _ => f start_node)) p = None).
  { intros p. destruct (pos_eqb start p) eqn:E.
    - apply pos_eqb_eq in E. subst p. unfold parent_of.
      rewrite node_at_update_node_same, Hnode. exact Hpar.
    - apply pos_eqb_neq in E. rewrite parent_of_update_node_other by exact E.
      apply parent_of_reset. }
  constructor.
  - eapply same_walkable_trans; [ apply same_walkable_reset |].
    eapply same_walkable_update_to; eauto.
  - apply Hp.
  - right. split; [ discriminate |]. intros x [<- | []]. exact He.
  - intros p q Hpq. rewrite Hp in Hpq. discriminate Hpq.
  - intros x [<- | []]. left. exact He.
  - intros p [].
  - constructor.
Qed.

Lemma AStar_initial_ok id ht w g start goal ns :
  node_at (reset_pathfinding_data g) start = Some ns ->
  AStar_ok g start goal (AStar.initial_state id ht w (reset_pathfinding_data g) start goal ns).
Proof.
  intros Hs.
  assert (Hpar : parent ns = None).
  { pose proof (parent_of_reset g start) as Hp. unfold parent_of in Hp.
    rewrite Hs in Hp. exact Hp. }
  unfold AStar.initial_state. constructor; cbn [AStar.grid AStar.open_set AStar.closed_set].
  - apply (search_inv_initial g start ns
             (fun n => set_in_open_set true
                         (set_f_cost _ (set_h_cost _ (set_g_cost 0%float n)))));
      [ exact Hs | exact Hpar | reflexivity ].
  - apply (path_inv_initial g start ns
             (fun n => set_in_open_set true
                         (set_f_cost _ (set_h_cost _ (set_g_cost 0%float n)))));
      [ exact Hs | exact Hpar | reflexivity | reflexivity ].
  - intros p (n & Hn & Hflag). destruct (pos_eqb start p) eqn:E.
    + apply pos_eqb_eq in E. subst p. eexists. split; [ left; reflexivity | reflexivity ].
    + apply pos_eqb_neq in E. rewrite node_at_update_node_other in Hn by exact E.
      rewrite node_at_reset in Hn. destruct (node_at g p); [| discriminate Hn ].
      injection Hn as <-. discriminate Hflag.
  - intros c n [].
  - intros [].
Qed.

Lemma AStar_find_path_answers fuel id ht w g start goal r g' :
  validate_inputs g start goal = None ->
  AStar.find_path fuel id ht w g start goal = Done (r, g') ->
  answers g start goal r.
Proof.
  intros Hv. unfold AStar.find_path. rewrite open_search_eq, Hv.
  destruct (pos_eqb start goal) eqn:E.
  - intros H. injection H as <- _. apply pos_eqb_eq in E. unfold answers.
    replace (found (_create_result _ [int_waypoint start] true None))
      with true by (symmetry; apply (made_fields _ _ _ _ _ (made_create _ _ _ _))).
    replace (path (_create_result _ [int_waypoint start] true None))
      with [int_waypoint start]
      by (symmetry; apply (made_fields _ _ _ _ _ (made_create _ _ _ _))).
    exists [start]. split; [ reflexivity |]. split.
    + split; [ reflexivity |]. split; [ exact E | exact I ].
    + constructor; [ intros [] | constructor ].
  - destruct (valid_nodes_after_reset g start goal Hv) as (ns & ng & Hs & Hg).
    rewrite Hs. apply AStar_loop_ok. apply AStar_initial_ok. exact Hs.
Qed.

Lemma AStar_find_path_rejects fuel id ht w g start goal msg r g' :
  validate_inputs g start goal = Some msg ->
  AStar.find_path fuel id ht w g start goal = Done (r, g') ->
  found r = false.
Proof.
  intros Hv. unfold AStar.find_path. rewrite open_search_eq, Hv.
  intros H. injection H as <- _.
  apply (made_fields _ _ _ _ _ (made_create _ _ _ _)).
Qed.

Lemma answers_found g s goal r :
  answers g s goal r -> (found r = true <-> reachable g s goal).
Proof.
  unfold answers. destruct (found r).
  - intros (ps & _ & Hps & _). split; [ intros _ | reflexivity ].
    eapply valid_path_reachable; eauto.
  - intros H. split; [ discriminate | intros Hr; contradiction ].
Qed.

Lemma answers_path g s goal r :
  answers g s goal r -> found r = true ->
  exists ps, path r = map int_waypoint ps /\ valid_path g s goal ps /\ NoDup ps.
Proof. unfold answers. intros H Hf. rewrite Hf in H. exact H. Qed.

(** X15.  Every path [AStar.find_path] reports is a walk on the grid: the
    call returns, and when its result has [found] set, [path] lists the
    cells of a walk that begins at the start, ends at the goal and goes at
    each step from a cell to one of its neighbours ([get_neighbors]), so all
    its cells are walkable; and no cell occurs twice in it.  This holds for
    every grid, every start and goal, every heuristic and every weight. *)
Theorem AStar_path_is_a_walk id ht w (g : Grid) (start goal : pos) :
  exists k, forall fuel, (k <= fuel)%nat ->
    exists r g', AStar.find_path fuel id ht w g start goal = Done (r, g')
      /\ (found r = true ->
          exists ps, path r = map int_waypoint ps /\ valid_path g start goal ps
                     /\ NoDup ps).
Proof.
  destruct (AStar_find_path_returns id ht w g start goal) as [k Hk].
  exists k. intros fuel Hfuel. destruct (Hk fuel Hfuel) as (r & g' & Hr).
  exists r, g'. split; [ exact Hr |]. intros Hf.
  destruct (validate_inputs g start goal) as [msg |] eqn:Hv.
  - rewrite (AStar_find_path_rejects _ _ _ _ _ _ _ _ _ _ Hv Hr) in Hf. discriminate Hf.
  - apply answers_path; [| exact Hf ]. eapply AStar_find_path_answers; eauto.
Qed.

(** X16.  A* is complete whatever the heuristic and the weight: when the
    start and the goal pass [validate_inputs], [AStar.find_path] returns, and
    its result has [found] set exactly when the goal can be reached from the
    start by moves between neighbours. *)
Theorem AStar_finds_a_path_iff_one_exists id ht w (g : Grid) (start goal : pos) :
  validate_inputs g start goal = None ->
  exists k, forall fuel, (k <= fuel)%nat ->
    exists r g', AStar.find_path fuel id ht w g start goal = Done (r, g')
      /\ (found r = true <-> reachable g start goal).
Proof.
  intros Hv. destruct (AStar_find_path_returns id ht w g start goal) as [k Hk].
  exists k. intros fuel Hfuel. destruct (Hk fuel Hfuel) as (r & g' & Hr).
  exists r, g'. split; [ exact Hr |].
  apply answers_found. eapply AStar_find_path_answers; eauto.
Qed.

Lemma AStar_finds_a_path_witness :
  exists k, forall fuel, (k <= fuel)%nat ->
    exists r g',
      AStar.find_path fuel (creation_order 2) "euclidean" 1%float
                      (Grid_init CGrid 2 1) (0, 0) (1, 0) = Done (r, g')
      /\ (found r = true <-> reachable (Grid_init CGrid 2 1) (0, 0) (1, 0)).
Proof.
  apply (AStar_finds_a_path_iff_one_exists (creation_order 2) "euclidean" 1%float
           (Grid_init CGrid 2 1) (0, 0) (1, 0)).
  reflexivity.
Defined.

Lemma answers_set_data g s goal k v r :
  answers g s goal r -> answers g s goal (set_data k v r).
Proof. intros H. exact H. Qed.

(** X17.  The weight of [WeightedAStar] costs no path: whatever
    [heuristic_weight] the engine is built with, on inputs that pass
    [validate_inputs] its [find_path] returns, reports [found] exactly when
    the goal can be reached from the start, and then reports a walk from the
    start to the goal that passes no cell twice. *)
Theorem WeightedAStar_is_complete id ht w (g : Grid) (start goal : pos) :
  validate_inputs g start goal = None ->
  exists k, forall fuel, (k <= fuel)%nat ->
    exists r g', WeightedAStar.find_path fuel id ht w g start goal = Done (r, g')
      /\ (found r = true <-> reachable g start goal)
      /\ (found r = true ->
          exists ps, path r = map int_waypoint ps /\ valid_path g start goal ps
                     /\ NoDup ps).
Proof.
  intros Hv. unfold WeightedAStar.find_path.
  destruct (AStar_find_path_returns id ht (WeightedAStar.init_weight w) g start goal)
    as [k Hk].
  exists k. intros fuel Hfuel. destruct (Hk fuel Hfuel) as (r & g' & Hr).
  rewrite Hr. cbn [bind]. eexists. eexists. split; [ reflexivity |].
  pose proof (AStar_find_path_answers _ _ _ _ _ _ _ _ _ Hv Hr) as Ha.
  split.
  - apply answers_found. repeat apply answers_set_data. exact Ha.
  - apply answers_path. repeat apply answers_set_data. exact Ha.
Qed.

Lemma WeightedAStar_is_complete_witness :
  exists k, forall fuel, (k <= fuel)%nat ->
    exists r g',
      WeightedAStar.find_path fuel (creation_order 3) "manhattan" 5%float
                              wall_grid (0, 0) (2, 0) = Done (r, g')
      /\ (found r = true <-> reachable wall_grid (0, 0) (2, 0))
      /\ (found r = true ->
          exists ps, path r = map int_waypoint ps /\ valid_path wall_grid (0, 0) (2, 0) ps
                     /\ NoDup ps).
Proof.
  apply (WeightedAStar_is_complete (creation_order 3) "manhattan" 5%float
           wall_grid (0, 0) (2, 0)).
  reflexivity.
Defined.

(* ------------------------------------------------------------------ *)
(** ** Dijkstra: the path and its distance *)
(* ------------------------------------------------------------------ *)

Definition g_cost_of (g : Grid) (p : pos) : option float :=
  option_map g_cost (node_at g p).

(** The cost of a walk: the movement costs of its steps, added in path
    order to [acc]. *)
Fixpoint walk_cost (g : Grid) (acc : float) (ps : list pos) : float :=
  match ps with
  | a :: ((b :: _) as rest) => walk_cost g (PrimFloat.add acc (get_movement_cost g a b)) rest
  | _ => acc
  end.

(** The [g_cost] of a node that has a parent is the parent's plus the price
    of the step between them. *)
Record cost_inv (g0 : Grid) (s : pos) (g : Grid) : Prop := {
  ci_root : g_cost_of g s = Some 0%float;
  ci_step : forall p q, parent_of g p = Some q ->
            exists a b, g_cost_of g p = Some a /\ g_cost_of g q = Some b
                        /\ a = PrimFloat.add b (get_movement_cost g0 q p);
  ci_frame : forall a b, get_movement_cost g a b = get_movement_cost g0 a b
}.

Lemma get_movement_cost_update_node g p f a b :
  get_movement_cost (update_node g p f) a b = get_movement_cost g a b.
Proof. unfold update_node. destruct (is_valid_position _ _ _); reflexivity. Qed.

Lemma g_cost_of_update_node_other g p f q :
  p <> q -> g_cost_of (update_node g p f) q = g_cost_of g q.
Proof. intros H. unfold g_cost_of. rewrite node_at_update_node_other by exact H. reflexivity. Qed.

Lemma cost_inv_relax g0 s g open closed current nb c n n' :
  cost_inv g0 s g -> search_inv g open closed -> In s closed -> In current closed ->
  set_mem nb closed = false ->
  node_at g current = Some c -> node_at g nb = Some n -> parent n' = Some current ->
  g_cost n' = PrimFloat.add (g_cost c) (get_movement_cost g current nb) ->
  cost_inv g0 s (update_node g nb (fun _ => n')).
Proof.
  intros [C1 C2 C3] Hsi Hs Hcur Hmem Hc Hn Hpar Hcost.
  apply set_mem_false in Hmem.
  assert (Hns : nb <> s) by (intros ->; contradiction).
  assert (Hnc : nb <> current) by (intros ->; contradiction).
  constructor.
  - rewrite g_cost_of_update_node_other by exact Hns. exact C1.
  - intros p q Hpq. destruct (pos_eqb nb p) eqn:E.
    + apply pos_eqb_eq in E. subst p.
      assert (Hq : q = current).
      { unfold parent_of in Hpq. rewrite node_at_update_node_same, Hn in Hpq.
        cbn [option_map] in Hpq. congruence. }
      subst q. exists (g_cost n'), (g_cost c). split; [| split ].
      * unfold g_cost_of. rewrite node_at_update_node_same, Hn. reflexivity.
      * rewrite g_cost_of_update_node_other by exact Hnc. unfold g_cost_of.
        rewrite Hc. reflexivity.
      * rewrite Hcost, C3. reflexivity.
    + apply pos_eqb_neq in E. rewrite parent_of_update_node_other in Hpq by exact E.
      assert (Hq : nb <> q).
      { intros ->. apply Hmem. apply (inv_parent _ _ _ Hsi p). exact Hpq. }
      rewrite !g_cost_of_update_node_other by assumption. apply C2. exact Hpq.
  - intros a b. rewrite get_movement_cost_update_node. apply C3.
Qed.

(** Along a chain of parent links the [g_cost] is the cost of the walk. *)
Lemma linked_cost g0 s g : cost_inv g0 s g ->
  forall ps h acc, linked g (h :: ps) -> g_cost_of g h = Some acc ->
  g_cost_of g (last (h :: ps) h) = Some (walk_cost g0 acc (h :: ps)).
Proof.
  intros Hc. induction ps as [| b ps IH]; intros h acc Hl Hh; [ exact Hh |].
  destruct Hl as [Hb Hl].
  destruct (ci_step _ _ _ Hc b h Hb) as (x & y & Hx & Hy & Hxy).
  rewrite Hh in Hy. injection Hy as <-. subst x.
  change (last (h :: b :: ps) h) with (last (b :: ps) h).
  rewrite (last_nonempty_default ps b h b).
  cbn [walk_cost]. apply IH; assumption.
Qed.

Record Dijkstra_ok (g0 : Grid) (s : pos) (st : Dijkstra.state) : Prop := {
  dk_inv : search_inv (Dijkstra.grid st) (Dijkstra.open_set st) (Dijkstra.visited_set st);
  dk_path : path_inv g0 s (Dijkstra.grid st) (Dijkstra.open_set st) (Dijkstra.visited_set st);
  dk_cost : cost_inv g0 s (Dijkstra.grid st)
}.

Lemma Dijkstra_examine_neighbor_expanding id g0 s current st nb :
  expanding g0 s current (Dijkstra.grid st) (Dijkstra.open_set st) (Dijkstra.visited_set st) ->
  cost_inv g0 s (Dijkstra.grid st) ->
  In nb (get_neighbors g0 current) ->
  let st' := Dijkstra.examine_neighbor id current st nb in
  expanding g0 s current (Dijkstra.grid st') (Dijkstra.open_set st') (Dijkstra.visited_set st')
  /\ cost_inv g0 s (Dijkstra.grid st').
Proof.
  intros Hex Hcost Hnb.
  destruct (neighbor_has_node _ _ _ _ _ _ _ (ex_path Hex) Hnb) as [n Hn].
  cbv zeta. unfold Dijkstra.examine_neighbor.
  destruct (set_mem nb (Dijkstra.visited_set st)) eqn:Hmem; [ split; assumption |].
  destruct (node_at (Dijkstra.grid st) current) as [c |] eqn:Hc; [| split; assumption ].
  rewrite Hn. destruct (Py.lt _ _); [| split; assumption ].
  cbn [Dijkstra.grid Dijkstra.open_set Dijkstra.visited_set]. split.
  - eapply expanding_relax; eauto.
  - eapply (cost_inv_relax g0 s _ _ _ current nb c n); eauto.
    + apply (ex_inv Hex).
    + apply (ex_start Hex).
    + apply (ex_current Hex).
Qed.

Lemma Dijkstra_neighbors_expanding id g0 s current (ns : list pos) : forall st,
  expanding g0 s current (Dijkstra.grid st) (Dijkstra.open_set st) (Dijkstra.visited_set st) ->
  cost_inv g0 s (Dijkstra.grid st) ->
  (forall n, In n ns -> In n (get_neighbors g0 current)) ->
  let st' := fold_left (Dijkstra.examine_neighbor id current) ns st in
  expanding g0 s current (Dijkstra.grid st') (Dijkstra.open_set st') (Dijkstra.visited_set st')
  /\ cost_inv g0 s (Dijkstra.grid st').
Proof.
  induction ns as [| n ns IH]; intros st Hex Hcost Hns; cbv zeta; cbn [fold_left].
  - split; assumption.
  - destruct (Dijkstra_examine_neighbor_expanding id g0 s current st n Hex Hcost
                (Hns n (or_introl eq_refl))) as [E1 E2].
    apply IH; auto. intros q Hq. apply Hns. right. exact Hq.
Qed.

(** What a result of Dijkstra says: a simple walk, and in
    [shortest_distance] the cost of that walk. *)
Definition Dijkstra_answers (g0 : Grid) (s goal : pos) (r : PathfindingResult) : Prop :=
  found r = true ->
  exists ps, path r = map int_waypoint ps /\ valid_path g0 s goal ps /\ NoDup ps
             /\ algorithm_data r = [("shortest_distance", DFloat (walk_cost g0 0%float ps))].

Lemma Dijkstra_step_ok fuel id g0 s goal st :
  Dijkstra_ok g0 s st ->
  match Dijkstra.step fuel id goal st with
  | Continue st' => Dijkstra_ok g0 s st'
  | Return (Done (r, _)) => Dijkstra_answers g0 s goal r
  | Return _ => True
  end.
Proof.
  intros [Hinv Hpath Hcost]. unfold Dijkstra.step.
  destruct (heappop (Dijkstra.open_set st)) as [[e open'] |] eqn:Hpop.
  2:{ intros Hf.
      rewrite (proj1 (proj2 (made_fields _ _ _ _ _ (made_create _ _ _ _)))) in Hf.
      discriminate Hf. }
  pose proof (heappop_In _ _ _ Hpop) as HIn.
  assert (He : In e (Dijkstra.open_set st)) by (apply HIn; left; reflexivity).
  assert (Hsub : forall x, In x open' -> In x (Dijkstra.open_set st))
    by (intros x Hx; apply HIn; right; exact Hx).
  assert (Hcur : has_node (Dijkstra.grid st) (e_node e)) by (apply (inv_open _ _ _ Hinv), He).
  destruct (set_mem (e_node e) (Dijkstra.visited_set st)) eqn:Hmem.
  - constructor; cbn [Dijkstra.grid Dijkstra.open_set Dijkstra.visited_set]; auto.
    + eapply search_inv_pop; eauto.
    + apply set_mem_In in Hmem.
      apply (path_inv_pop_stale _ _ _ _ _ _ _ Hpath Hpop Hmem).
  - destruct (pos_eqb (e_node e) goal) eqn:Hg.
    + apply pos_eqb_eq in Hg.
      destruct (get_path fuel (Dijkstra.grid st) (e_node e)) as [p | |] eqn:Hp;
        cbn [bind]; auto.
      destruct (node_at (Dijkstra.grid st) (e_node e)) as [c |] eqn:Hc; [| exact I ].
      intros _. destruct (get_path_chain _ _ _ _ Hp) as (ps & -> & Hl & Hlast & Hne & Hhd).
      rewrite Hg in *.
      assert (Hvalid : valid_path g0 s goal ps).
      { eapply linked_valid; eauto.
        rewrite <- Hg. apply (pi_open Hpath). exact He. }
      exists ps. split; [ reflexivity |]. split; [ exact Hvalid |]. split.
      * apply (linked_simple _ _ _ goal ps Hinv (pi_nodup Hpath)); auto.
      * cbn [algorithm_data set_data _create_result PathfindingResult_init dict_set].
        do 3 f_equal.
        destruct Hvalid as (Hhd' & _ & _).
        destruct ps as [| h ps]; [ contradiction |]. injection Hhd' as ->.
        pose proof (linked_cost g0 s _ Hcost ps s 0%float Hl (ci_root _ _ _ Hcost)) as Hw.
        rewrite (last_nonempty_default ps s s goal), Hlast in Hw.
        unfold g_cost_of in Hw. rewrite Hc in Hw. injection Hw as ->. reflexivity.
    + apply pos_eqb_neq in Hg.
      destruct (path_inv_pop_close _ _ _ _ _ _ _ Hpath Hpop) as [Hpath2 Hs].
      set (visited' := set_add (e_node e) (Dijkstra.visited_set st)) in *.
      assert (Hex : expanding g0 s (e_node e) (Dijkstra.grid st) open' visited').
      { constructor; auto.
        - apply (search_inv_close _ (Dijkstra.open_set st)); auto.
        - apply set_add_In. left. reflexivity. }
      match goal with |- Dijkstra_ok _ _ (fold_left ?f ?ns ?st1) =>
        pose proof (Dijkstra_neighbors_expanding id g0 s (e_node e) ns st1 Hex Hcost)
          as Hfold
      end.
      cbv zeta in Hfold. cbn [Dijkstra.grid Dijkstra.open_set Dijkstra.visited_set] in Hfold.
      rewrite (same_walkable_neighbors g0 _ _ (pi_walk Hpath)) in *.
      destruct (Hfold (fun n Hn => Hn)) as [F1 F2].
      constructor; [ apply (ex_inv F1) | apply (ex_path F1) | exact F2 ].
Qed.

Lemma Dijkstra_loop_ok id g0 s goal (fuel : nat) : forall st r g',
  Dijkstra_ok g0 s st ->
  Dijkstra.loop fuel id goal st = Done (r, g') -> Dijkstra_answers g0 s goal r.
Proof.
  induction fuel as [| fuel IH]; intros st r g' Hok H; cbn [Dijkstra.loop] in H.
  - pose proof (Dijkstra_step_ok O id g0 s goal st Hok) as Hs.
    destruct (Dijkstra.step O id goal st) as [st' | o]; [ discriminate H |].
    subst o. exact Hs.
  - pose proof (Dijkstra_step_ok (S fuel) id g0 s goal st Hok) as Hs.
    destruct (Dijkstra.step (S fuel) id goal st) as [st' | o].
    + eapply IH; eauto.
    + subst o. exact Hs.
Qed.

Lemma Dijkstra_initial_ok id g start ns :
  node_at (reset_pathfinding_data g) start = Some ns ->
  Dijkstra_ok g start (Dijkstra.initial_state id (reset_pathfinding_data g) start ns).
Proof.
  intros Hs.
  assert (Hpar : parent ns = None).
  { pose proof (parent_of_reset g start) as Hp. unfold parent_of in Hp.
    rewrite Hs in Hp. exact Hp. }
  unfold Dijkstra.initial_state.
  constructor; cbn [Dijkstra.grid Dijkstra.open_set Dijkstra.visited_set].
  - apply (search_inv_initial g start ns
             (fun n => set_f_cost 0%float (set_g_cost 0%float n)));
      [ exact Hs | exact Hpar | reflexivity ].
  - apply (path_inv_initial g start ns
             (fun n => set_f_cost 0%float (set_g_cost 0%float n)));
      [ exact Hs | exact Hpar | reflexivity | reflexivity ].
  - constructor.
    + unfold g_cost_of. rewrite node_at_update_node_same, Hs. reflexivity.
    + intros p q Hpq. exfalso. destruct (pos_eqb start p) eqn:E.
      * apply pos_eqb_eq in E. subst p. unfold parent_of in Hpq.
        rewrite node_at_update_node_same, Hs in Hpq. cbn in Hpq. congruence.
      * apply pos_eqb_neq in E. rewrite parent_of_update_node_other in Hpq by exact E.
        rewrite parent_of_reset in Hpq. discriminate Hpq.
    + intros a b. rewrite get_movement_cost_update_node. reflexivity.
Qed.

(** X18.  [Dijkstra.find_path] returns for every input, and a result with
    [found] set and a start different from the goal holds a walk from the
    start to the goal through neighbouring walkable cells that passes no cell
    twice, and in [algorithm_data] one entry, [shortest_distance], which is
    the cost of exactly that walk: its movement costs added to [0.0] in path
    order. *)
Theorem Dijkstra_distance_is_the_cost_of_the_path id (g : Grid) (start goal : pos) :
  exists k, forall fuel, (k <= fuel)%nat ->
    exists r g', Dijkstra.find_path fuel id g start goal = Done (r, g')
      /\ (found r = true -> start <> goal ->
          exists ps, path r = map int_waypoint ps /\ valid_path g start goal ps
                     /\ NoDup ps
                     /\ algorithm_data r
                        = [("shortest_distance", DFloat (walk_cost g 0%float ps))]).
Proof.
  destruct (Dijkstra_find_path_returns id g start goal) as [k Hk].
  exists k. intros fuel Hfuel. destruct (Hk fuel Hfuel) as (r & g' & Hr).
  exists r, g'. split; [ exact Hr |]. intros Hf Hne.
  revert Hr. unfold Dijkstra.find_path. rewrite open_search_eq.
  destruct (validate_inputs g start goal) as [msg |] eqn:Hv.
  { intros H. injection H as <- _.
    rewrite (proj1 (proj2 (made_fields _ _ _ _ _ (made_create _ _ _ _)))) in Hf.
    discriminate Hf. }
  destruct (pos_eqb start goal) eqn:E; [ apply pos_eqb_eq in E; contradiction |].
  destruct (valid_nodes_after_reset g start goal Hv) as (ns & ng & Hs & Hg).
  rewrite Hs. intros Hr.
  apply (Dijkstra_loop_ok id g start goal fuel _ r g' (Dijkstra_initial_ok id g start ns Hs) Hr).
  exact Hf.
Qed.

(* ------------------------------------------------------------------ *)
(** ** DijkstraAllPaths: the table of distances *)
(* ------------------------------------------------------------------ *)

Lemma pget_pset_same {V} (d : list (pos * V)) k v : pget (pset d k v) k = Some v.
Proof. unfold pset. cbn [pget]. rewrite pos_eqb_refl. reflexivity. Qed.

Lemma pget_pset_other {V} (d : list (pos * V)) k k' v :
  k <> k' -> pget (pset d k v) k' = pget d k'.
Proof.
  intros Hk. unfold pset. cbn [pget].
  destruct (pos_eqb k k') eqn:E; [ apply pos_eqb_eq in E; contradiction |].
  induction d as [| [a x] d IH]; [ reflexivity |]. cbn [filter fst pget].
  destruct (pos_eqb a k) eqn:Ea; cbn [negb pget].
  - apply pos_eqb_eq in Ea. subst a. rewrite E. exact IH.
  - destruct (pos_eqb a k'); [ reflexivity | exact IH ].
Qed.

(** Every entry of the table belongs to a visited node and holds its
    [g_cost]. *)
Definition dist_inv (g : Grid) (visited : list pos)
           (distances : list (pos * (float * option pos))) : Prop :=
  forall p d par, pget distances p = Some (d, par) ->
    In p visited /\ g_cost_of g p = Some d.

Record DijkstraAllPaths_ok (g0 : Grid) (s : pos) (st : DijkstraAllPaths.state) : Prop := {
  da_inv : search_inv (DijkstraAllPaths.grid st) (DijkstraAllPaths.open_set st)
                      (DijkstraAllPaths.visited_set st);
  da_path : path_inv g0 s (DijkstraAllPaths.grid st) (DijkstraAllPaths.open_set st)
                     (DijkstraAllPaths.visited_set st);
  da_cost : cost_inv g0 s (DijkstraAllPaths.grid st);
  da_dist : dist_inv (DijkstraAllPaths.grid st) (DijkstraAllPaths.visited_set st)
                     (DijkstraAllPaths.distances st)
}.

Lemma DijkstraAllPaths_examine_neighbor_expanding id g0 s current st nb :
  expanding g0 s current (DijkstraAllPaths.grid st) (DijkstraAllPaths.open_set st)
            (DijkstraAllPaths.visited_set st) ->
  cost_inv g0 s (DijkstraAllPaths.grid st) ->
  In nb (get_neighbors g0 current) ->
  let st' := DijkstraAllPaths.examine_neighbor id current st nb in
  expanding g0 s current (DijkstraAllPaths.grid st') (DijkstraAllPaths.open_set st')
            (DijkstraAllPaths.visited_set st')
  /\ cost_inv g0 s (DijkstraAllPaths.grid st')
  /\ DijkstraAllPaths.visited_set st' = DijkstraAllPaths.visited_set st
  /\ DijkstraAllPaths.distances st' = DijkstraAllPaths.distances st
  /\ (forall p, In p (DijkstraAllPaths.visited_set st) ->
                node_at (DijkstraAllPaths.grid st') p = node_at (DijkstraAllPaths.grid st) p).
Proof.
  intros Hex Hcost Hnb.
  destruct (neighbor_has_node _ _ _ _ _ _ _ (ex_path Hex) Hnb) as [n Hn].
  cbv zeta. unfold DijkstraAllPaths.examine_neighbor.
  destruct (set_mem nb (DijkstraAllPaths.visited_set st)) eqn:Hmem; [ auto 10 |].
  destruct (node_at (DijkstraAllPaths.grid st) current) as [c |] eqn:Hc; [| auto 10 ].
  rewrite Hn. destruct (Py.lt _ _); [| auto 10 ].
  cbn [DijkstraAllPaths.grid DijkstraAllPaths.open_set DijkstraAllPaths.visited_set
       DijkstraAllPaths.distances].
  split; [ eapply expanding_relax; eauto |].
  split.
  { eapply (cost_inv_relax g0 s _ _ _ current nb c n); eauto.
    - apply (ex_inv Hex).
    - apply (ex_start Hex).
    - apply (ex_current Hex). }
  split; [ reflexivity |]. split; [ reflexivity |].
  intros p Hp. apply node_at_update_node_other. intros ->.
  apply set_mem_false in Hmem. contradiction.
Qed.

Lemma DijkstraAllPaths_neighbors_expanding id g0 s current (ns : list pos) : forall st,
  expanding g0 s current (DijkstraAllPaths.grid st) (DijkstraAllPaths.open_set st)
            (DijkstraAllPaths.visited_set st) ->
  cost_inv g0 s (DijkstraAllPaths.grid st) ->
  (forall n, In n ns -> In n (get_neighbors g0 current)) ->
  let st' := fold_left (DijkstraAllPaths.examine_neighbor id current) ns st in
  expanding g0 s current (DijkstraAllPaths.grid st') (DijkstraAllPaths.open_set st')
            (DijkstraAllPaths.visited_set st')
  /\ cost_inv g0 s (DijkstraAllPaths.grid st')
  /\ DijkstraAllPaths.visited_set st' = DijkstraAllPaths.visited_set st
  /\ DijkstraAllPaths.distances st' = DijkstraAllPaths.distances st
  /\ (forall p, In p (DijkstraAllPaths.visited_set st) ->
                node_at (DijkstraAllPaths.grid st') p = node_at (DijkstraAllPaths.grid st) p).
Proof.
  induction ns as [| n ns IH]; intros st Hex Hcost Hns; cbv zeta; cbn [fold_left].
  - auto 10.
  - destruct (DijkstraAllPaths_examine_neighbor_expanding id g0 s current st n Hex Hcost
                (Hns n (or_introl eq_refl))) as (E1 & E2 & E3 & E4 & E5).
    destruct (IH _ E1 E2 (fun q Hq => Hns q (or_intror Hq))) as (F1 & F2 & F3 & F4 & F5).
    split; [ exact F1 |]. split; [ exact F2 |]. split; [ congruence |].
    split; [ congruence |].
    intros p Hp. rewrite F5 by (rewrite E3; exact Hp). apply E5. exact Hp.
Qed.

Lemma DijkstraAllPaths_step_ok id g0 s st st' :
  DijkstraAllPaths_ok g0 s st ->
  DijkstraAllPaths.step id st = Done (Some st') -> DijkstraAllPaths_ok g0 s st'.
Proof.
  intros [Hinv Hpath Hcost Hdist]. unfold DijkstraAllPaths.step.
  destruct (heappop (DijkstraAllPaths.open_set st)) as [[e open'] |] eqn:Hpop;
    [| discriminate ].
  pose proof (heappop_In _ _ _ Hpop) as HIn.
  assert (He : In e (DijkstraAllPaths.open_set st)) by (apply HIn; left; reflexivity).
  assert (Hsub : forall x, In x open' -> In x (DijkstraAllPaths.open_set st))
    by (intros x Hx; apply HIn; right; exact Hx).
  assert (Hcur : has_node (DijkstraAllPaths.grid st) (e_node e))
    by (apply (inv_open _ _ _ Hinv), He).
  destruct (set_mem (e_node e) (DijkstraAllPaths.visited_set st)) eqn:Hmem.
  - intros H. injection H as <-.
    constructor; cbn [DijkstraAllPaths.grid DijkstraAllPaths.open_set
                      DijkstraAllPaths.visited_set DijkstraAllPaths.distances]; auto.
    + eapply search_inv_pop; eauto.
    + apply set_mem_In in Hmem.
      apply (path_inv_pop_stale _ _ _ _ _ _ _ Hpath Hpop Hmem).
  - destruct (node_at (DijkstraAllPaths.grid st) (e_node e)) as [c |] eqn:Hc;
      [| discriminate ].
    intros H. injection H as <-.
    destruct (path_inv_pop_close _ _ _ _ _ _ _ Hpath Hpop) as [Hpath2 Hs].
    set (visited' := set_add (e_node e) (DijkstraAllPaths.visited_set st)) in *.
    assert (Hex : expanding g0 s (e_node e) (DijkstraAllPaths.grid st) open' visited').
    { constructor; auto.
      - apply (search_inv_close _ (DijkstraAllPaths.open_set st)); auto.
      - apply set_add_In. left. reflexivity. }
    match goal with |- DijkstraAllPaths_ok _ _ (fold_left ?f ?ns ?st1) =>
      pose proof (DijkstraAllPaths_neighbors_expanding id g0 s (e_node e) ns st1 Hex Hcost)
        as Hfold
    end.
    cbv zeta in Hfold.
    cbn [DijkstraAllPaths.grid DijkstraAllPaths.open_set DijkstraAllPaths.visited_set
         DijkstraAllPaths.distances] in Hfold.
    rewrite (same_walkable_neighbors g0 _ _ (pi_walk Hpath)) in *.
    destruct (Hfold (fun n Hn => Hn)) as (F1 & F2 & F3 & F4 & F5).
    constructor; [ apply (ex_inv F1) | apply (ex_path F1)
                 | exact F2 |].
    rewrite F3, F4. intros p d par Hp.
    destruct (pos_eqb (e_node e) p) eqn:E.
    + apply pos_eqb_eq in E. subst p. rewrite pget_pset_same in Hp. injection Hp as <- <-.
      assert (Hin : In (e_node e) visited') by (apply set_add_In; left; reflexivity).
      split; [ exact Hin |]. unfold g_cost_of. rewrite (F5 _ Hin), Hc. reflexivity.
    + apply pos_eqb_neq in E. rewrite pget_pset_other in Hp by exact E.
      destruct (Hdist p d par Hp) as [Hv Hgc].
      assert (Hin : In p visited') by (apply set_add_In; right; exact Hv).
      split; [ exact Hin |]. unfold g_cost_of. rewrite (F5 _ Hin). exact Hgc.
Qed.

Lemma DijkstraAllPaths_loop_ok id g0 s (fuel : nat) : forall st st',
  DijkstraAllPaths_ok g0 s st ->
  DijkstraAllPaths.loop fuel id st = Done st' -> DijkstraAllPaths_ok g0 s st'.
Proof.
  induction fuel as [| fuel IH]; intros st st' Hok H; cbn [DijkstraAllPaths.loop] in H.
  - destruct (DijkstraAllPaths.step id st) as [[st1 |] | |] eqn:E; try discriminate H.
    injection H as <-. exact Hok.
  - destruct (DijkstraAllPaths.step id st) as [[st1 |] | |] eqn:E; try discriminate H.
    + eapply IH; [| exact H ]. eapply DijkstraAllPaths_step_ok; eauto.
    + injection H as <-. exact Hok.
Qed.

(** X19.  [DijkstraAllPaths.find_path] returns for every input, and a
    result with [found] set holds a walk from the start to the goal through
    neighbouring walkable cells that passes no cell twice, with the cost of
    exactly that walk (its movement costs added to [0.0] in path order) under
    [goal_distance] in [algorithm_data]. *)
Theorem DijkstraAllPaths_distance_is_the_cost_of_the_path id (g : Grid) (start goal : pos) :
  exists k, forall fuel, (k <= fuel)%nat ->
    exists r g', DijkstraAllPaths.find_path fuel id g start goal = Done (r, g')
      /\ (found r = true ->
          exists ps, path r = map int_waypoint ps /\ valid_path g start goal ps
                     /\ NoDup ps
                     /\ In ("goal_distance", DFloat (walk_cost g 0%float ps))
                           (algorithm_data r)).
Proof.
  destruct (DijkstraAllPaths_find_path_returns id g start goal) as [k Hk].
  exists k. intros fuel Hfuel. destruct (Hk fuel Hfuel) as (r & g' & Hr).
  exists r, g'. split; [ exact Hr |]. intros Hf.
  assert (Hfail : forall m e, found (_create_result m [] false e) = true -> False).
  { intros m e H.
    rewrite (proj1 (proj2 (made_fields _ _ _ _ _ (made_create _ _ _ _)))) in H.
    discriminate H. }
  revert Hr. unfold DijkstraAllPaths.find_path, DijkstraAllPaths.find_all_paths.
  destruct (negb (is_valid_position g (fst start) (snd start))
            || negb (is_walkable g (fst start) (snd start))).
  { cbn. intros H. injection H as <- _. exfalso. eapply Hfail; eauto. }
  destruct (node_at (reset_pathfinding_data g) start) as [ns |] eqn:Hs.
  2:{ cbn. intros H. injection H as <- _. exfalso. eapply Hfail; eauto. }
  match goal with |- context [DijkstraAllPaths.loop fuel id ?st0] =>
    destruct (DijkstraAllPaths.loop fuel id st0) as [st' | |] eqn:Hloop;
      cbn [bind]; try discriminate;
    assert (Hok : DijkstraAllPaths_ok g start st0)
  end.
  { assert (Hpar : parent ns = None).
    { pose proof (parent_of_reset g start) as Hp. unfold parent_of in Hp.
      rewrite Hs in Hp. exact Hp. }
    constructor; cbn [DijkstraAllPaths.grid DijkstraAllPaths.open_set
                      DijkstraAllPaths.visited_set DijkstraAllPaths.distances].
    - apply (search_inv_initial g start ns (set_g_cost 0%float));
        [ exact Hs | exact Hpar | reflexivity ].
    - apply (path_inv_initial g start ns (set_g_cost 0%float));
        [ exact Hs | exact Hpar | reflexivity | reflexivity ].
    - constructor.
      + unfold g_cost_of. rewrite node_at_update_node_same, Hs. reflexivity.
      + intros p q Hpq. exfalso. destruct (pos_eqb start p) eqn:E.
        * apply pos_eqb_eq in E. subst p. unfold parent_of in Hpq.
          rewrite node_at_update_node_same, Hs in Hpq. cbn in Hpq. congruence.
        * apply pos_eqb_neq in E. rewrite parent_of_update_node_other in Hpq by exact E.
          rewrite parent_of_reset in Hpq. discriminate Hpq.
      + intros a b. rewrite get_movement_cost_update_node. reflexivity.
    - intros p d par Hp. discriminate Hp. }
  destruct (DijkstraAllPaths_loop_ok id g start fuel _ st' Hok Hloop)
    as [Hinv Hpath Hcost Hdist].
  destruct (pget (DijkstraAllPaths.distances st') goal) as [[d q] |] eqn:Hd.
  2:{ intros H. injection H as <- _. exfalso. eapply Hfail; eauto. }
  destruct (Hdist goal d q Hd) as [Hvis Hgc].
  destruct (node_at (DijkstraAllPaths.grid st') goal) as [n |] eqn:Hn.
  2:{ intros H. injection H as <- _. exfalso. eapply Hfail; eauto. }
  destruct (get_path fuel (DijkstraAllPaths.grid st') goal) as [p | |] eqn:Hp;
    cbn [bind]; try discriminate.
  intros H. injection H as <- _.
  destruct (get_path_chain _ _ _ _ Hp) as (ps & -> & Hl & Hlast & Hne & Hhd).
  assert (Hvalid : valid_path g start goal ps).
  { eapply linked_valid; eauto. apply (pi_closed Hpath). exact Hvis. }
  exists ps. split; [ reflexivity |]. split; [ exact Hvalid |]. split.
  - apply (linked_simple _ _ _ goal ps Hinv (pi_nodup Hpath)); auto.
    unfold has_node. rewrite Hn. discriminate.
  - cbn [algorithm_data set_data _create_result PathfindingResult_init dict_set].
    right. left. do 2 f_equal.
    destruct Hvalid as (Hhd' & _ & _).
    destruct ps as [| h ps]; [ contradiction |]. injection Hhd' as ->.
    pose proof (linked_cost g start _ Hcost ps start 0%float Hl (ci_root _ _ _ Hcost)) as Hw.
    rewrite (last_nonempty_default ps start start goal), Hlast in Hw.
    rewrite Hgc in Hw. injection Hw as ->. reflexivity.
Qed.

(* ------------------------------------------------------------------ *)
(** ** IDA*: what the depth-first search finds and what it rules out *)
(* ------------------------------------------------------------------ *)

(** Where a walk exists, a walk without repeated cell exists: the one A*
    returns. *)
Lemma reachable_simple_walk g s goal :
  validate_inputs g s goal = None -> reachable g s goal ->
  exists ps, valid_path g s goal ps /\ NoDup ps.
Proof.
  intros Hv Hr.
  destruct (AStar_find_path_returns (fun _ => 0) "euclidean" 1%float g s goal) as [k Hk].
  destruct (Hk k (le_n k)) as (r & g' & Hfind).
  pose proof (AStar_find_path_answers _ _ _ _ _ _ _ _ _ Hv Hfind) as Ha.
  destruct (answers_path _ _ _ _ Ha) as (ps & _ & H); [| exists ps; exact H ].
  apply (answers_found _ _ _ _ Ha). exact Hr.
Qed.

Section IDAStarWalk.

Variables (g : Grid) (heuristic_type : string) (start goal_node : pos).

(** [path] is a walk from the start to [node] without repeated cell. *)
Definition on_path (path : list pos) (node : pos) : Prop :=
  (exists pre, path = pre ++ [node])
  /\ hd_error path = Some start /\ steps_ok g path /\ NoDup path.

(** No walk from [node] to the goal continues [path] without repeating a
    cell. *)
Definition dead_end (path : list pos) (node : pos) : Prop :=
  forall ext, NoDup (path ++ ext) -> steps_ok g (node :: ext) ->
              last (node :: ext) node = goal_node -> False.

Definition walk_post (P : Prop) (o : outcome (IDAStar.search_result * IDAStar.state))
  : Prop :=
  forall res st', o = Done (res, st') ->
    (res = IDAStar.FOUND ->
     valid_path g start goal_node (IDAStar.solution_path st')
     /\ NoDup (IDAStar.solution_path st'))
    /\ (res = IDAStar.NOT_FOUND -> P).

Lemma neighbors_loop_walk search node gc path :
  (forall neighbor c st,
      ~ In neighbor path -> In neighbor (get_neighbors g node) ->
      walk_post (dead_end (path ++ [neighbor]) neighbor)
                (search neighbor c (path ++ [neighbor]) st)) ->
  forall ns co st,
    (forall n, In n ns -> In n (get_neighbors g node)) ->
    walk_post (co = false
               /\ forall n, In n ns -> ~ In n path -> dead_end (path ++ [n]) n)
              (IDAStar.neighbors_loop search g node gc path ns co st).
Proof.
  intros Hsearch. induction ns as [| n ns IH]; intros co st Hns res st' H;
    cbn [IDAStar.neighbors_loop] in H.
  - injection H as <- <-. split; [ destruct co; discriminate |].
    intros Hres. split; [ destruct co; [ discriminate Hres | reflexivity ] |].
    intros n [].
  - set (st1 := IDAStar.mkState _ _ _ _) in H.
    assert (Hns' : forall q, In q ns -> In q (get_neighbors g node))
      by (intros; apply Hns; right; assumption).
    destruct (set_mem n path) eqn:Hmem.
    + destruct (IH co st1 Hns' res st' H) as [H1 H2]. split; [ exact H1 |].
      intros Hres. destruct (H2 Hres) as [Hco Hall]. split; [ exact Hco |].
      intros q [<- | Hq] Hq'; [| auto ].
      apply set_mem_In in Hmem. contradiction.
    + apply set_mem_false in Hmem.
      pose proof (Hsearch n (PrimFloat.add gc (get_movement_cost g node n)) st1 Hmem
                          (Hns n (or_introl eq_refl))) as Hrec.
      destruct (search n _ (path ++ [n]) st1) as [[r2 st2] | |] eqn:E; try discriminate H.
      destruct (Hrec r2 st2 eq_refl) as [R1 R2].
      destruct r2.
      * injection H as <- <-. split; [ intros _; apply R1; reflexivity | discriminate ].
      * destruct (IH co st2 Hns' res st' H) as [H1 H2]. split; [ exact H1 |].
        intros Hres. destruct (H2 Hres) as [Hco Hall]. split; [ exact Hco |].
        intros q [<- | Hq] Hq'; [ apply R2; reflexivity | auto ].
      * destruct (IH true st2 Hns' res st' H) as [H1 H2]. split; [ exact H1 |].
        intros Hres. destruct (H2 Hres) as [Hco _]. discriminate Hco.
Qed.

Lemma on_path_extend path node n :
  on_path path node -> In n (get_neighbors g node) -> ~ In n path ->
  on_path (path ++ [n]) n.
Proof.
  intros ([pre ->] & Hhd & Hsteps & Hnd) Hn Hnot. split; [ eauto |]. split; [| split ].
  - destruct pre; exact Hhd.
  - rewrite <- app_assoc. cbn [app]. apply steps_ok_app; assumption.
  - apply NoDup_app; [ exact Hnd | repeat constructor; auto |].
    intros x Hx [<- | []]. contradiction.
Qed.

Lemma search_walk thr (fuel : nat) : forall node gc path st,
  on_path path node ->
  walk_post (dead_end path node)
            (IDAStar._search fuel g heuristic_type goal_node thr node gc path st).
Proof.
  induction fuel as [| fuel IH]; intros node gc path st Hon res st' H;
    cbn [IDAStar._search] in H; [ discriminate H |].
  destruct (Py.gt _ thr).
  { injection H as <- <-. split; discriminate. }
  destruct (pos_eqb node goal_node) eqn:Hg.
  - apply pos_eqb_eq in Hg. injection H as <- <-. split; [| discriminate ].
    intros _. cbn [IDAStar.solution_path].
    destruct Hon as ([pre ->] & Hhd & Hsteps & Hnd). split; [| exact Hnd ].
    split; [ exact Hhd |]. split; [| exact Hsteps ].
    rewrite last_last. exact Hg.
  - apply pos_eqb_neq in Hg.
    destruct (neighbors_loop_walk
                (IDAStar._search fuel g heuristic_type goal_node thr) node gc path)
      with (ns := get_neighbors g node) (co := false)
           (st := IDAStar.mkState (IDAStar.next_threshold st) (IDAStar.solution_path st)
                    (_expand_node (_update_memory_usage (len path) (IDAStar.metrics st)))
                    (IDAStar.cutoffs st))
           (res := res) (st' := st') as [H1 H2].
    + intros n c st0 Hn Hin. apply IH. apply (on_path_extend path node); assumption.
    + auto.
    + exact H.
    + split; [ exact H1 |]. intros Hres. destruct (H2 Hres) as [_ Hall].
      intros ext Hnd Hsteps Hlast.
      destruct ext as [| v ext]; [ cbn in Hlast; contradiction |].
      destruct Hsteps as [Hv Hsteps].
      assert (Hnot : ~ In v path).
      { intros Hin. apply NoDup_remove_2 in Hnd. apply Hnd.
        apply in_app_iff. left. exact Hin. }
      apply (Hall v Hv Hnot ext).
      * rewrite <- app_assoc. exact Hnd.
      * exact Hsteps.
      * change (last (node :: v :: ext) node) with (last (v :: ext) node) in Hlast.
        rewrite (last_nonempty_default ext v v node). exact Hlast.
Qed.

(** What a result of the outer loop says. *)
Definition IDAStar_answers (r : PathfindingResult) : Prop :=
  (found r = true ->
   exists ps, path r = map int_waypoint ps /\ valid_path g start goal_node ps /\ NoDup ps)
  /\ (error_message r = Some "No path exists" -> dead_end [start] start).

Lemma IDAStar_iterate_walk fuel mi (remaining : nat) : forall t its m r tr,
  IDAStar.iterate remaining fuel g heuristic_type mi start goal_node t its m = Done (r, tr) ->
  IDAStar_answers r.
Proof.
  induction remaining as [| remaining IH]; intros t its m r tr H; cbn [IDAStar.iterate] in H.
  - injection H as <- _. split.
    + intros Hf.
      rewrite (proj1 (proj2 (made_fields _ _ _ _ _ (made_create _ _ _ _)))) in Hf.
      discriminate Hf.
    + intros He.
      rewrite (proj1 (proj2 (proj2 (made_fields _ _ _ _ _ (made_create _ _ _ _))))) in He.
      cbn in He. discriminate He.
  - destruct (IDAStar._search fuel g heuristic_type goal_node t start 0%float [start] _)
      as [[res st] | |] eqn:E; try discriminate H.
    assert (Hon : on_path [start] start).
    { split; [ exists []; reflexivity |]. split; [ reflexivity |].
      split; [ exact I |]. constructor; [ intros [] | constructor ]. }
    destruct (search_walk t fuel start 0%float [start] _ Hon res st E) as [H1 H2].
    destruct res.
    + injection H as <- _. split.
      * intros _. exists (IDAStar.solution_path st). split; [ reflexivity |].
        apply H1. reflexivity.
      * intros He. discriminate He.
    + injection H as <- _. split.
      * intros Hf.
        rewrite (proj1 (proj2 (made_fields _ _ _ _ _ (made_create _ _ _ _)))) in Hf.
        discriminate Hf.
      * intros _. apply H2. reflexivity.
    + destruct (IDAStar.iterate remaining fuel g heuristic_type mi start goal_node _ _ _)
        as [[r' tr'] | |] eqn:E'; try discriminate H.
      injection H as <- _. eapply IH; eauto.
Qed.

End IDAStarWalk.

(** X20.  What IDA* reports can be relied on.  On inputs that pass
    [validate_inputs], a run of [IDAStar.find_path] ends: it returns, unless
    [_search] nests deeper than the interpreter allows and raises
    [RecursionError], which takes a map with more cells than there is room
    for nested calls.  A returned result with [found] set holds a walk from
    the start to the goal through neighbouring walkable cells that passes no
    cell twice; and the message "No path exists" is given only when the goal
    cannot be reached from the start. *)
Theorem IDAStar_reports_are_sound ht mi (g : Grid) (start goal : pos) (depth : nat) :
  validate_inputs g start goal = None ->
  match IDAStar.find_path depth ht mi g start goal with
  | Done (r, g') =>
      (found r = true ->
       exists ps, path r = map int_waypoint ps /\ valid_path g start goal ps /\ NoDup ps)
      /\ (error_message r = Some "No path exists" -> ~ reachable g start goal)
  | Raised e => e = "RecursionError" /\ (depth < List.length (all_cells g))%nat
  | OutOfFuel => False
  end.
Proof.
  intros Hv. pose proof (IDAStar_run_ends ht mi g start goal depth) as Hends.
  unfold IDAStar.find_path.
  destruct (IDAStar.find_path_trace depth ht mi g start goal) as [[[r g'] tr] | e |] eqn:Hr;
    cbn [bind]; [| exact Hends | exact Hends ].
  clear Hends. revert Hr. unfold IDAStar.find_path_trace.
  rewrite open_search_eq, Hv.
  destruct (pos_eqb start goal) eqn:E.
  - intros H. injection H as <- _ _. apply pos_eqb_eq in E. split.
    + intros _. exists [start]. split; [ reflexivity |]. split.
      * split; [ reflexivity |]. split; [ exact E | exact I ].
      * constructor; [ intros [] | constructor ].
    + intros He. discriminate He.
  - destruct (IDAStar.iterate _ _ _ _ _ _ _ _ _ _) as [[r0 tr0] | |] eqn:Hit;
      try discriminate.
    intros H. injection H as <- _ _.
    destruct (IDAStar_iterate_walk _ _ _ _ _ _ _ _ _ _ _ _ Hit) as [H1 H2].
    pose proof (same_walkable_reset g) as Hsw.
    split.
    + intros Hf. destruct (H1 Hf) as (ps & Hp & Hvalid & Hnd).
      exists ps. split; [ exact Hp |]. split; [| exact Hnd ].
      eapply valid_path_same_walkable; eauto.
    + intros He Hreach.
      destruct (reachable_simple_walk g start goal Hv Hreach) as (ps & Hvalid & Hnd).
      destruct Hvalid as (Hhd & Hlast & Hsteps).
      destruct ps as [| a ext]; [ discriminate Hhd |]. injection Hhd as ->.
      apply (H2 He ext); [ exact Hnd | | exact Hlast ].
      clear -Hsteps Hsw. revert Hsteps. generalize (start :: ext). intros l.
      induction l as [| x l IH]; [ auto |]. destruct l as [| y l]; [ auto |].
      intros [Hy Hrest]. split; [| apply IH; exact Hrest ].
      rewrite (same_walkable_neighbors g _ x Hsw). exact Hy.
Qed.

Lemma IDAStar_reports_witness :
  match IDAStar.find_path 2 "manhattan" 10 (Grid_init CGrid 2 1) (0, 0) (1, 0) with
  | Done (r, g') =>
      (found r = true ->
       exists ps, path r = map int_waypoint ps
                  /\ valid_path (Grid_init CGrid 2 1) (0, 0) (1, 0) ps /\ NoDup ps)
      /\ (error_message r = Some "No path exists"
          -> ~ reachable (Grid_init CGrid 2 1) (0, 0) (1, 0))
  | Raised e =>
      e = "RecursionError" /\ (2 < List.length (all_cells (Grid_init CGrid 2 1)))%nat
  | OutOfFuel => False
  end.
Proof.
  apply (IDAStar_reports_are_sound "manhattan" 10 (Grid_init CGrid 2 1) (0, 0) (1, 0) 2).
  reflexivity.
Defined.

(* ================================================================== *)
(** * The sampling tree *)
(* ================================================================== *)

Lemma float_lt_irrefl x : Py.lt x x = false.
Proof.
  unfold Py.lt. rewrite FloatAxioms.ltb_spec. unfold SFltb, SFcompare.
  destruct (Prim2SF x) as [[|] | [|] | | [|] m e]; try reflexivity;
    rewrite Z.compare_refl, Pos.compare_cont_refl; reflexivity.
Qed.

Lemma nearest_fold (d : ref -> float) (rest : list ref) :
  forall (acc : ref * float) (seen : list ref),
  snd acc = d (fst acc) -> In (fst acc) seen ->
  (forall q, In q seen -> Py.lt (d q) (snd acc) = false) ->
  let r := fst (fold_left
                  (fun (acc : ref * float) node =>
                     if Py.lt (d node) (snd acc) then (node, d node) else acc)
                  rest acc) in
  In r (seen ++ rest)
  /\ forall q, In q (seen ++ rest) -> Py.lt (d q) (d r) = false.
Proof.
  induction rest as [| n rest IH]; intros acc seen Hacc Hin Hmin; cbv zeta; cbn [fold_left].
  - rewrite app_nil_r. split; [ exact Hin |]. rewrite <- Hacc. exact Hmin.
  - replace (seen ++ n :: rest) with ((seen ++ [n]) ++ rest)
      by (rewrite <- app_assoc; reflexivity).
    destruct (Py.lt (d n) (snd acc)) eqn:E.
    + apply IH; cbn [fst snd].
      * reflexivity.
      * apply in_app_iff. right. left. reflexivity.
      * intros q Hq. apply in_app_iff in Hq as [Hq | [<- | []]].
        -- destruct (Py.lt (d q) (d n)) eqn:E'; [| reflexivity ].
           rewrite <- (Hmin q Hq). symmetry. eapply float_lt_trans; eauto.
        -- apply float_lt_irrefl.
    + apply IH.
      * exact Hacc.
      * apply in_app_iff. left. exact Hin.
      * intros q Hq. apply in_app_iff in Hq as [Hq | [<- | []]]; auto.
Qed.

(** X21.  [_find_nearest_node] answers [None] only for an empty tree;
    otherwise it answers a node of the tree, and no node of the tree is
    strictly closer to the sample than the one it answers. *)
Theorem find_nearest_node_is_nearest (s : store) (nodes : list ref) (sample : SamplingNode) :
  match RRT._find_nearest_node s nodes sample with
  | None => nodes = []
  | Some r =>
      In r nodes
      /\ forall q, In q nodes ->
           Py.lt (distance_to (deref s q) sample) (distance_to (deref s r) sample) = false
  end.
Proof.
  unfold RRT._find_nearest_node. destruct nodes as [| first rest]; [ reflexivity |].
  apply (nearest_fold (fun q => distance_to (deref s q) sample) rest
           (first, distance_to (deref s first) sample) [first]).
  - reflexivity.
  - left. reflexivity.
  - intros q [<- | []]. apply float_lt_irrefl.
Qed.

(* ------------------------------------------------------------------ *)
(** ** The path of plain RRT *)
(* ------------------------------------------------------------------ *)

Lemma deref_assign s r f q :
  deref (assign s r f) q
  = if Nat.eqb q r && Nat.ltb r (List.length s) then f (deref s r) else deref s q.
Proof.
  unfold deref, assign. revert r q.
  induction s as [| a s IH]; intros [| r] [| q]; cbn [update nth List.length Nat.eqb andb];
    try reflexivity.
  - destruct (Nat.eqb q r); reflexivity.
  - rewrite IH. change (S r <? S (List.length s))%nat with (r <? List.length s)%nat.
    reflexivity.
Qed.

(** What [assign] leaves alone: anything the update [f] does not touch. *)
Lemma deref_assign_keep {A} (P : SamplingNode -> A) s r f q :
  (forall n, P (f n) = P n) -> P (deref (assign s r f) q) = P (deref s q).
Proof.
  intros Hf. rewrite deref_assign.
  destruct (Nat.eqb q r && Nat.ltb r (List.length s)) eqn:E; [| reflexivity ].
  apply andb_true_iff in E as [E _]. apply Nat.eqb_eq in E. subst q. apply Hf.
Qed.

Lemma deref_assign_other s r f q : q <> r -> deref (assign s r f) q = deref s q.
Proof.
  intros H. rewrite deref_assign. apply Nat.eqb_neq in H. rewrite H. reflexivity.
Qed.

Lemma deref_assign_same s r f :
  (r < List.length s)%nat -> deref (assign s r f) r = f (deref s r).
Proof.
  intros H. rewrite deref_assign, Nat.eqb_refl. apply Nat.ltb_lt in H. rewrite H.
  reflexivity.
Qed.

Lemma length_assign s r f : List.length (assign s r f) = List.length s.
Proof. apply length_update. Qed.

Definition node_waypoint (s : store) (r : ref) : waypoint :=
  float_waypoint (s_x (deref s r), s_y (deref s r)).

(** The parent links of the tree lead from every node down to the root,
    object 0; the goal, object 1, is not in the tree. *)
Record tree_ok (s : store) (nodes : list ref) : Prop := {
  tk_len : (2 <= List.length s)%nat;
  tk_root : s_parent (deref s 0%nat) = None;
  tk_nodes : forall r, In r nodes ->
             (r < List.length s)%nat /\ r <> 1%nat
             /\ (r = 0%nat
                 \/ exists q, s_parent (deref s r) = Some q /\ (q < r)%nat /\ In q nodes)
}.

(** [s'] has the objects of [s], at the same positions and, the goal
    (object 1) apart, with the same parents, and maybe more objects. *)
Definition extends (s s' : store) : Prop :=
  (List.length s <= List.length s')%nat
  /\ forall q, (q < List.length s)%nat ->
       (q <> 1%nat -> s_parent (deref s' q) = s_parent (deref s q))
       /\ node_waypoint s' q = node_waypoint s q.

Lemma tree_ok_extends s s' nodes : tree_ok s nodes -> extends s s' -> tree_ok s' nodes.
Proof.
  intros [H1 H2 H3] [Hlen Hsame]. constructor.
  - lia.
  - rewrite (proj1 (Hsame 0%nat ltac:(lia))) by lia. exact H2.
  - intros r Hr. destruct (H3 r Hr) as (Ha & Hb & Hc).
    split; [ lia |]. split; [ exact Hb |].
    destruct Hc as [-> | (q & Hq & Hlt & Hin)]; [ left; reflexivity |].
    right. exists q. rewrite (proj1 (Hsame r Ha)) by exact Hb. auto.
Qed.

Lemma collision_loop_returns g a b n (is_ : list Z) :
  RRT.collision_loop g a b n is_ <> OutOfFuel.
Proof.
  induction is_ as [| i is_ IH]; cbn [RRT.collision_loop]; [ discriminate |].
  destruct (Py.round _); [| discriminate ]. destruct (Py.round _); [| discriminate ].
  destruct (_ || _); [ discriminate | exact IH ].
Qed.

Lemma add_child_parent s self child :
  (child < List.length s)%nat ->
  s_parent (deref (add_child s self child) child) = Some self.
Proof.
  intros H. unfold add_child. rewrite deref_assign_same; [ reflexivity |].
  destruct (set_find _ _ _); [ exact H | rewrite length_assign; exact H ].
Qed.

Lemma add_child_other s self child q :
  q <> child ->
  s_parent (deref (add_child s self child) q) = s_parent (deref s q).
Proof.
  intros H. unfold add_child. rewrite deref_assign_other by exact H.
  destruct (set_find _ _ _); [ reflexivity |].
  apply (deref_assign_keep s_parent). reflexivity.
Qed.

Lemma add_child_waypoint s self child q :
  node_waypoint (add_child s self child) q = node_waypoint s q.
Proof.
  unfold add_child, node_waypoint.
  rewrite (deref_assign_keep s_x), (deref_assign_keep s_y) by reflexivity.
  destruct (set_find _ _ _); [ reflexivity |].
  rewrite (deref_assign_keep s_x), (deref_assign_keep s_y) by reflexivity. reflexivity.
Qed.

Lemma length_add_child s self child :
  List.length (add_child s self child) = List.length s.
Proof.
  unfold add_child. rewrite length_assign.
  destruct (set_find _ _ _); [ reflexivity | apply length_assign ].
Qed.

Lemma deref_alloc_old s n q :
  (q < List.length s)%nat -> deref (fst (alloc s n)) q = deref s q.
Proof. intros H. unfold deref, alloc. cbn [fst]. apply app_nth1. exact H. Qed.

(** One extension of the tree of plain RRT: it raises, or leaves the store
    as it is, or adds one object whose parent is [from_node]. *)
Lemma RRT_extend_tree_spec cfg g s from_node sample :
  (from_node < List.length s)%nat ->
  match RRT.RRT_extend_tree cfg g s from_node sample with
  | Done (s', None) => s' = s
  | Done (s', Some r) =>
      r = List.length s /\ List.length s' = S (List.length s) /\ extends s s'
      /\ s_parent (deref s' r) = Some from_node
  | Raised _ => True
  | OutOfFuel => False
  end.
Proof.
  intros Hfrom. unfold RRT.RRT_extend_tree.
  destruct (Py.eq _ 0%float); [ reflexivity |].
  match goal with |- context [RRT._is_collision_free g ?a ?b] =>
    pose proof (collision_loop_returns g a b) as Hcl;
    unfold RRT._is_collision_free;
    destruct (Py.int_of_float (PrimFloat.mul (distance_to a b) 2%float)) as [n |];
      [| exact I ];
    specialize (Hcl (Z.max 10 n) (Py.range (Z.max 10 n + 1)));
    destruct (RRT.collision_loop g a b (Z.max 10 n) (Py.range (Z.max 10 n + 1)))
      as [[|] | e |]; cbn [bind]; [ | reflexivity | exact I | contradiction ]
  end.
  cbn [alloc].
  set (r := List.length s).
  match goal with |- context [add_child ?s3 from_node r] => set (s3' := s3) end.
  assert (Hlen3 : List.length s3' = S r).
  { unfold s3'. rewrite !length_assign, length_app. cbn. unfold r. lia. }
  split; [ reflexivity |]. split; [ rewrite length_add_child; exact Hlen3 |]. split.
  - split; [ rewrite length_add_child; lia |].
    intros q Hq. fold r in Hq. split.
    + intros _. rewrite add_child_other by lia. unfold s3'.
      rewrite !deref_assign_other by lia. unfold deref. rewrite app_nth1 by exact Hq.
      reflexivity.
    + rewrite add_child_waypoint. unfold s3', node_waypoint.
      rewrite !deref_assign_other by lia. unfold deref. rewrite app_nth1 by exact Hq.
      reflexivity.
  - apply add_child_parent. lia.
Qed.

(** Walking the parent links from a node of the tree ends at the root. *)
Lemma construct_path_from_tree s nodes : tree_ok s nodes ->
  forall r, In r nodes -> forall fuel acc, (r < fuel)%nat ->
  exists mid,
    RRT.construct_path_loop fuel s (Some r) acc = Done (node_waypoint s 0%nat :: mid ++ acc)
    /\ (r <> 0%nat -> mid <> []).
Proof.
  intros Hok. induction r as [r IH] using lt_wf_ind. intros Hin fuel acc Hfuel.
  destruct fuel as [| fuel]; [ lia |]. cbn [RRT.construct_path_loop].
  destruct (tk_nodes _ _ Hok r Hin) as (_ & _ & [-> | (q & Hq & Hlt & Hqin)]).
  - rewrite (tk_root _ _ Hok). exists []. split; [| congruence ].
    destruct fuel; reflexivity.
  - rewrite Hq.
    destruct (IH q Hlt Hqin fuel (float_waypoint (s_x (deref s r), s_y (deref s r)) :: acc)
                ltac:(lia)) as (mid & Hmid & _).
    exists (mid ++ [node_waypoint s r]). split.
    + rewrite Hmid, <- app_assoc. reflexivity.
    + intros _. destruct mid; discriminate.
Qed.

Lemma is_collision_free_returns g a b : RRT._is_collision_free g a b <> OutOfFuel.
Proof.
  unfold RRT._is_collision_free. destruct (Py.int_of_float _); [| discriminate ].
  apply collision_loop_returns.
Qed.

Lemma find_nearest_node_In s nodes sample r :
  RRT._find_nearest_node s nodes sample = Some r -> In r nodes.
Proof.
  unfold RRT._find_nearest_node. destruct nodes as [| first rest]; [ discriminate |].
  intros H. injection H as <-.
  apply (nearest_fold (fun q => distance_to (deref s q) sample) rest
           (first, distance_to (deref s first) sample) [first]).
  - reflexivity.
  - left. reflexivity.
  - intros q [<- | []]. apply float_lt_irrefl.
Qed.

(** What a run of plain RRT may end in. *)
Definition RRT_post (w0 w1 : waypoint) (A : Type) (o : outcome (PathfindingResult * A))
  : Prop :=
  match o with
  | Done (r, _) =>
      found r = true -> exists mid, mid <> [] /\ path r = w0 :: mid ++ [w1]
  | Raised _ => True
  | OutOfFuel => False
  end.

Lemma RRT_plain_iterate fuel cfg rng g w0 w1 (N : nat) :
  RRT.kind cfg = RRT.Plain -> (N + 3 <= fuel)%nat ->
  forall todo st,
    tree_ok (RRT.objects st) (RRT.tree_nodes st) ->
    node_waypoint (RRT.objects st) 0%nat = w0 ->
    node_waypoint (RRT.objects st) 1%nat = w1 ->
    (List.length (RRT.objects st) + List.length todo <= N + 2)%nat ->
    RRT_post w0 w1 _ (RRT.iterate fuel cfg rng g 1%nat todo st).
Proof.
  intros Hkind Hfuel.
  induction todo as [| iteration todo IH]; intros st Hok H0 H1 Hlen; cbn [RRT.iterate].
  - intros Hf. discriminate Hf.
  - cbn [List.length] in Hlen.
    destruct (if Py.lt _ _ then _ else _) as [sample drawn'].
    destruct (RRT._find_nearest_node _ _ _) as [nearest |] eqn:Hnear.
    2:{ apply IH; cbn [RRT.objects RRT.tree_nodes]; auto. lia. }
    apply find_nearest_node_In in Hnear.
    destruct (tk_nodes _ _ Hok nearest Hnear) as (Hlt & _ & _).
    unfold RRT._extend_tree. rewrite Hkind.
    pose proof (RRT_extend_tree_spec cfg g (RRT.objects st) nearest sample Hlt) as Hext.
    destruct (RRT.RRT_extend_tree cfg g (RRT.objects st) nearest sample)
      as [[s1 [new_node |]] | e |]; cbn [bind]; [ | | exact I | contradiction ].
    2:{ subst s1. apply IH; cbn [RRT.objects RRT.tree_nodes]; auto. lia. }
    destruct Hext as (Hnew & Hlen1 & Hext & Hpar).
    assert (Hok1 : tree_ok s1 (RRT.tree_nodes st ++ [new_node])).
    { pose proof (tree_ok_extends _ _ _ Hok Hext) as [K1 K2 K3]. constructor; auto.
      intros r Hr. apply in_app_iff in Hr as [Hr | [<- | []]].
      - destruct (K3 r Hr) as (Ka & Kb & Kc). split; [ exact Ka |]. split; [ exact Kb |].
        destruct Kc as [-> | (q & Hq & Hq' & Hqin)]; [ left; reflexivity |].
        right. exists q. split; [ exact Hq |]. split; [ exact Hq' |].
        apply in_app_iff. left. exact Hqin.
      - pose proof (tk_len _ _ Hok). split; [ lia |]. split; [ lia |].
        right. exists nearest. split; [ exact Hpar |]. split; [ lia |].
        apply in_app_iff. left. exact Hnear. }
    assert (H0' : node_waypoint s1 0%nat = w0).
    { rewrite <- H0. apply (proj2 Hext). pose proof (tk_len _ _ Hok). lia. }
    assert (H1' : node_waypoint s1 1%nat = w1).
    { rewrite <- H1. apply (proj2 Hext). pose proof (tk_len _ _ Hok). lia. }
    assert (Hnext : forall m d, RRT_post w0 w1 _
              (RRT.iterate fuel cfg rng g 1%nat todo
                 (RRT.mkState s1 (RRT.tree_nodes st ++ [new_node]) m d))).
    { intros m d. apply IH; cbn [RRT.objects RRT.tree_nodes]; auto. lia. }
    destruct (Py.le _ _); [| apply Hnext ].
    pose proof (is_collision_free_returns g (deref s1 new_node) (deref s1 1%nat)) as Hfree.
    destruct (RRT._is_collision_free g (deref s1 new_node) (deref s1 1%nat))
      as [[|] | e |]; cbn [bind]; [ | apply Hnext | exact I | contradiction ].
    match goal with |- context [RRT._construct_path fuel ?s3 1%nat] =>
      set (s3' := s3) end.
    assert (Hlen3 : List.length s3' = List.length s1)
      by (unfold s3'; rewrite !length_assign; reflexivity).
    pose proof (tk_len _ _ Hok1) as Hlen2.
    assert (Hext3 : extends s1 s3').
    { split; [ lia |]. intros q Hq. split.
      - intros Hq1. unfold s3'. rewrite !deref_assign_other by exact Hq1. reflexivity.
      - unfold s3', node_waypoint.
        rewrite !(deref_assign_keep s_x), !(deref_assign_keep s_y) by reflexivity.
        reflexivity. }
    pose proof (tree_ok_extends _ _ _ Hok1 Hext3) as Hok3.
    assert (Hpar3 : s_parent (deref s3' 1%nat) = Some new_node).
    { unfold s3'. rewrite (deref_assign_keep s_parent) by reflexivity.
      rewrite deref_assign_same by lia. reflexivity. }
    unfold RRT._construct_path.
    destruct fuel as [| fuel']; [ lia |]. cbn [RRT.construct_path_loop]. rewrite Hpar3.
    destruct (construct_path_from_tree s3' _ Hok3 new_node
                ltac:(apply in_app_iff; right; left; reflexivity) fuel'
                [float_waypoint (s_x (deref s3' 1%nat), s_y (deref s3' 1%nat))]
                ltac:(lia)) as (mid & Hmid & Hne).
    rewrite Hmid. cbn [bind]. intros _. exists mid. split.
    + apply Hne. pose proof (tk_len _ _ Hok). lia.
    + cbn [path set_data _create_result]. f_equal.
      * rewrite <- H0'. apply (proj2 Hext3). lia.
      * f_equal. f_equal. rewrite <- H1'. apply (proj2 Hext3). lia.
Qed.

(** X22.  A found path of plain RRT runs from the start to the goal by way
    of the tree.  With a recursion bound above [max_iterations + 2] the call
    of [RRT.find_path] ends (it returns or raises), and a result with [found]
    set has a path whose first waypoint is the start, whose last waypoint is
    the goal, and which has at least one waypoint between them: the goal is
    only ever linked to a node the tree has just grown, also when start and
    goal are neighbours or the same cell. *)
Theorem RRT_path_runs_from_start_to_goal
        (fuel : nat) (cfg : RRT.config) (rng : nat -> float) (g : Grid) (start goal : pos) :
  RRT.kind cfg = RRT.Plain ->
  (Z.to_nat (RRT.max_iterations cfg) + 3 <= fuel)%nat ->
  match RRT.find_path fuel cfg rng g start goal with
  | Done (r, _) =>
      found r = true ->
      exists mid, mid <> []
        /\ path r = float_waypoint (Py.float_of_int (fst start), Py.float_of_int (snd start))
                    :: mid
                    ++ [float_waypoint (Py.float_of_int (fst goal), Py.float_of_int (snd goal))]
  | Raised _ => True
  | OutOfFuel => False
  end.
Proof.
  intros Hkind Hfuel. unfold RRT.find_path, RRT.find_path_state.
  destruct (truthy (validate_inputs g start goal)) eqn:Hv; cbn [bind].
  { intros Hf. exfalso. revert Hf.
    rewrite (proj1 (proj2 (made_fields _ _ _ _ _ (made_create _ _ _ _)))). discriminate. }
  cbn [alloc app List.length].
  match goal with |- context [RRT.iterate fuel cfg rng g 1%nat ?todo ?st] =>
    pose proof (RRT_plain_iterate fuel cfg rng g
                  (float_waypoint (Py.float_of_int (fst start), Py.float_of_int (snd start)))
                  (float_waypoint (Py.float_of_int (fst goal), Py.float_of_int (snd goal)))
                  (Z.to_nat (RRT.max_iterations cfg)) Hkind Hfuel todo st) as H;
    destruct (RRT.iterate fuel cfg rng g 1%nat todo st) as [[r st'] | e |]
  end; cbn [bind]; [ | exact I |].
  - apply H; cbn [RRT.objects RRT.tree_nodes].
    + constructor; cbn [List.length]; [ lia | reflexivity |].
      intros q [<- | []]. split; [ lia |]. split; [ lia | left; reflexivity ].
    + reflexivity.
    + reflexivity.
    + rewrite length_range. cbn [List.length]. lia.
  - apply H; cbn [RRT.objects RRT.tree_nodes].
    + constructor; cbn [List.length]; [ lia | reflexivity |].
      intros q [<- | []]. split; [ lia |]. split; [ lia | left; reflexivity ].
    + reflexivity.
    + reflexivity.
    + rewrite length_range. cbn [List.length]. lia.
Qed.

Lemma RRT_path_witness :
  match RRT.find_path 13 (RRT.mkConfig 1%float 10 0.1%float RRT.Plain)
                      (fun _ => 0%float) (Grid_init CGrid 3 1) (0, 0) (2, 0) with
  | Done (r, _) =>
      found r = true ->
      exists mid, mid <> []
        /\ path r = float_waypoint (Py.float_of_int (fst (0, 0)), Py.float_of_int (snd (0, 0)))
                    :: mid
                    ++ [float_waypoint (Py.float_of_int (fst (2, 0)),
                                        Py.float_of_int (snd (2, 0)))]
  | Raised _ => True
  | OutOfFuel => False
  end.
Proof.
  apply (RRT_path_runs_from_start_to_goal 13 (RRT.mkConfig 1%float 10 0.1%float RRT.Plain)
           (fun _ => 0%float) (Grid_init CGrid 3 1) (0, 0) (2, 0)).
  - reflexivity.
  - vm_compute. lia.
Defined.

(* ================================================================== *)
(** * Incremental Phi*: the first call *)
(* ================================================================== *)

(** X23.  A fresh [IncrementalPhiStar] cannot search: on a [DynamicGrid],
    for a start and a goal that pass [validate_inputs] and differ,
    [find_path] raises [ValueError].  [_initialize_search] queues the goal
    (its [rhs] is 0 and its [g_cost] is [inf], so it is not consistent) as a
    tuple of four, and the loop test of [_search] calls [_top_key], which
    unpacks that tuple into three names. *)
Theorem IncrementalPhiStar_first_search_raises
        (fuel : nat) (id : pos -> Z) (heuristic_type : string)
        (g : Grid) (start goal : pos) :
  validate_inputs g start goal = None ->
  is_DynamicGrid g = true ->
  start <> goal ->
  IncrementalPhiStarRun.find_path fuel id heuristic_type g start goal = Raised "ValueError".
Proof.
  intros Hv Hdyn Hne. unfold IncrementalPhiStarRun.find_path, IncrementalPhiStar_open.
  rewrite truthy_validate, Hv, Hdyn. cbn [negb].
  pose proof Hv as Hv'. apply validate_inputs_ok in Hv' as (_ & _ & Hs & Hg).
  apply is_walkable_node in Hs as [ns Hs]. apply is_walkable_node in Hg as [ng Hg].
  rewrite <- surjective_pairing in Hs, Hg. rewrite Hs, Hg.
  apply pos_eqb_neq in Hne. rewrite Hne.
  unfold IncrementalPhiStarRun._initialize_search, IncrementalPhiStarRun._update_vertex.
  cbn [IncrementalPhiStarRun.grid IncrementalPhiStarRun.rhs IncrementalPhiStarRun.open_set
       IncrementalPhiStarRun.open_set_dict pget].
  rewrite node_at_update_node_same, node_at_reset, Hg. cbn [option_map set_g_cost g_cost].
  rewrite pos_eqb_refl.
  change (IncrementalPhiStarRun.is_consistent Py.inf 0%float) with false. cbn [negb].
  unfold IncrementalPhiStarRun._calculate_key.
  cbn [IncrementalPhiStarRun.grid IncrementalPhiStarRun.rhs].
  rewrite node_at_update_node_same, node_at_reset, Hg. cbn [option_map bind app].
  reflexivity.
Qed.

Lemma IncrementalPhiStar_first_search_witness :
  IncrementalPhiStarRun.find_path 10 (creation_order 3) "euclidean"
                                  (Grid_init CDynamicGrid 3 1) (0, 0) (2, 0)
  = Raised "ValueError".
Proof.
  apply (IncrementalPhiStar_first_search_raises 10 (creation_order 3) "euclidean"
           (Grid_init CDynamicGrid 3 1) (0, 0) (2, 0)).
  - reflexivity.
  - reflexivity.
  - discriminate.
Defined.

(* ================================================================== *)
(** * Theta*: the waypoints of a found path *)
(* ================================================================== *)

Definition coords_of (g : Grid) (p : pos) : option (float * float) :=
  match node_at g p with
  | Some n => get_parent_coordinates n
  | None => None
  end.

(** The waypoint [_reconstruct_theta_path] writes for the node at [p]. *)
Definition theta_waypoint (g : Grid) (p : pos) : waypoint :=
  match coords_of g p with
  | Some parent_coords => float_waypoint parent_coords
  | None => float_waypoint (float_pair p)
  end.

Lemma reconstruct_loop_chain g (fuel : nat) : forall cur accp acc p,
  ThetaStarRun.reconstruct_loop fuel g cur acc = Done p ->
  linked g accp ->
  match accp with [] => True | b :: _ => parent_of g b = cur end ->
  exists ps, p = map (theta_waypoint g) ps ++ acc
             /\ linked g (ps ++ accp)
             /\ match ps ++ accp with [] => cur = None | a :: _ => parent_of g a = None end
             /\ match cur with Some c => exists ps', ps = ps' ++ [c] | None => ps = [] end.
Proof.
  induction fuel as [| fuel IH]; intros cur accp acc p H Hl Hhd.
  - destruct cur as [c |]; cbn [ThetaStarRun.reconstruct_loop] in H; [ discriminate H |].
    injection H as <-. exists []. cbn [app map]. split; [ reflexivity |].
    split; [ exact Hl |]. split; [| reflexivity ].
    destruct accp; [ reflexivity | exact Hhd ].
  - destruct cur as [c |]; cbn [ThetaStarRun.reconstruct_loop] in H.
    + destruct (node_at g c) as [n |] eqn:En; [| discriminate H ].
      apply (IH _ (c :: accp)) in H.
      * destruct H as (ps & -> & Hlk & Hh & _). exists (ps ++ [c]).
        rewrite <- !app_assoc. cbn [app]. split.
        { rewrite map_app. rewrite <- app_assoc. cbn [map app]. f_equal. f_equal.
          unfold theta_waypoint, coords_of. rewrite En. reflexivity. }
        split; [ exact Hlk |]. split; [| exists ps; reflexivity ].
        destruct ps; exact Hh.
      * destruct accp as [| b accp]; [ exact I |]. split; [ exact Hhd | exact Hl ].
      * unfold parent_of. rewrite En. reflexivity.
    + injection H as <-. exists []. cbn [app map]. split; [ reflexivity |].
      split; [ exact Hl |]. split; [| reflexivity ].
      destruct accp; [ reflexivity | exact Hhd ].
Qed.

(** The invariant of the loop of Theta*: the coordinates a node stores are
    those of its parent, which is closed; the start stores its own. *)
Record theta_inv (start goal : pos) (st : ThetaStarRun.state) : Prop := {
  ti_parent : forall p q, parent_of (ThetaStarRun.grid st) p = Some q ->
              coords_of (ThetaStarRun.grid st) p = Some (float_pair q)
              /\ In q (ThetaStarRun.closed_set st);
  ti_start : parent_of (ThetaStarRun.grid st) start = None
             /\ coords_of (ThetaStarRun.grid st) start = Some (float_pair start);
  ti_rooted : In start (ThetaStarRun.closed_set st)
              \/ forall e, In e (ThetaStarRun.open_set st) -> e_node e = start;
  ti_open : forall e, In e (ThetaStarRun.open_set st) ->
            e_node e = start \/ parent_of (ThetaStarRun.grid st) (e_node e) <> None;
  ti_closed : forall p, In p (ThetaStarRun.closed_set st) ->
              p = start \/ parent_of (ThetaStarRun.grid st) p <> None;
  ti_goal : ~ In goal (ThetaStarRun.closed_set st)
}.

Lemma coords_of_update_node_other g p f q :
  p <> q -> coords_of (update_node g p f) q = coords_of g q.
Proof. intros H. unfold coords_of. rewrite node_at_update_node_other by exact H. reflexivity. Qed.

Lemma theta_connect_inv id ht start goal st m nb n np px py t :
  theta_inv start goal st -> In start (ThetaStarRun.closed_set st) ->
  set_mem nb (ThetaStarRun.closed_set st) = false ->
  node_at (ThetaStarRun.grid st) nb = Some n ->
  In np (ThetaStarRun.closed_set st) -> (px, py) = float_pair np ->
  let st' := ThetaStarRun.connect id ht goal st m nb n np px py t in
  theta_inv start goal st'
  /\ ThetaStarRun.closed_set st' = ThetaStarRun.closed_set st.
Proof.
  intros [T1 T2 T3 T4 T5 T6] Hs Hmem Hn Hnp Hxy. cbv zeta. unfold ThetaStarRun.connect.
  destruct (negb _ || Py.lt t (g_cost n)).
  2:{ split; [| reflexivity ]. constructor; assumption. }
  split; [| reflexivity ].
  apply set_mem_false in Hmem.
  assert (Hns : nb <> start) by (intros ->; contradiction).
  match goal with |- theta_inv _ _ (ThetaStarRun.mkState (update_node _ _ (fun _ => ?n5)) _ _ _ _) =>
    set (n' := n5) end.
  assert (Hpn : parent_of (update_node (ThetaStarRun.grid st) nb (fun _ => n')) nb = Some np).
  { unfold parent_of. rewrite node_at_update_node_same, Hn. reflexivity. }
  assert (Hcn : coords_of (update_node (ThetaStarRun.grid st) nb (fun _ => n')) nb
                = Some (float_pair np)).
  { unfold coords_of. rewrite node_at_update_node_same, Hn. cbn. rewrite <- Hxy. reflexivity. }
  constructor; cbn [ThetaStarRun.grid ThetaStarRun.open_set ThetaStarRun.closed_set].
  - intros p q Hpq. destruct (pos_eqb nb p) eqn:E.
    + apply pos_eqb_eq in E. subst p. rewrite Hpn in Hpq. injection Hpq as <-. auto.
    + apply pos_eqb_neq in E. rewrite parent_of_update_node_other in Hpq by exact E.
      rewrite coords_of_update_node_other by exact E. apply T1. exact Hpq.
  - rewrite parent_of_update_node_other, coords_of_update_node_other by exact Hns. exact T2.
  - left. exact Hs.
  - assert (Hold : forall e, In e (ThetaStarRun.open_set st) ->
               e_node e = start
               \/ parent_of (update_node (ThetaStarRun.grid st) nb (fun _ => n')) (e_node e)
                  <> None).
    { intros e He. destruct (pos_eqb nb (e_node e)) eqn:E.
      - apply pos_eqb_eq in E. rewrite <- E, Hpn. right. discriminate.
      - apply pos_eqb_neq in E. rewrite parent_of_update_node_other by exact E. auto. }
    destruct (negb _); [| exact Hold ].
    intros e He. unfold heappush in He. apply in_app_iff in He as [He | [<- | []]]; [ auto |].
    cbn [e_node]. rewrite Hpn. right. discriminate.
  - intros p Hp. assert (nb <> p) by (intros ->; contradiction).
    rewrite parent_of_update_node_other by assumption. auto.
  - exact T6.
Qed.

Lemma theta_examine_neighbor_inv fuel square id ht start goal current st nb st' :
  theta_inv start goal st -> In start (ThetaStarRun.closed_set st) ->
  In current (ThetaStarRun.closed_set st) ->
  ThetaStarRun.examine_neighbor fuel square id ht goal current st nb = Done st' ->
  theta_inv start goal st'
  /\ ThetaStarRun.closed_set st' = ThetaStarRun.closed_set st.
Proof.
  intros Hinv Hs Hcur. unfold ThetaStarRun.examine_neighbor.
  destruct (set_mem nb (ThetaStarRun.closed_set st)) eqn:Hmem.
  { intros H. injection H as <-. split; [| reflexivity ].
    destruct Hinv. constructor; assumption. }
  destruct (node_at (ThetaStarRun.grid st) current) as [c |] eqn:Hc; [| discriminate ].
  destruct (node_at (ThetaStarRun.grid st) nb) as [n |] eqn:Hn; [| discriminate ].
  assert (Hthrough : forall t m,
            let st1 := ThetaStarRun.connect id ht goal st m nb n current
                         (fst (float_pair current)) (snd (float_pair current)) t in
            theta_inv start goal st1
            /\ ThetaStarRun.closed_set st1 = ThetaStarRun.closed_set st).
  { intros t m. apply theta_connect_inv; auto. }
  destruct (parent c) as [cp |] eqn:Hcp.
  2:{ intros H. injection H as <-. apply Hthrough. }
  destruct (get_parent_coordinates c) as [pc |] eqn:Hpc.
  2:{ intros H. injection H as <-. apply Hthrough. }
  destruct (ThetaStar._line_of_sight_check fuel (ThetaStarRun.grid st) pc nb)
    as [[|] | |]; cbn [bind]; try discriminate.
  2:{ intros H. injection H as <-. apply Hthrough. }
  destruct (ThetaStarRun.math_sqrt _) as [distance | |]; cbn [bind]; try discriminate.
  destruct (node_at (ThetaStarRun.grid st) cp) as [p |]; [| discriminate ].
  intros H. injection H as <-.
  assert (Hpar : parent_of (ThetaStarRun.grid st) current = Some cp)
    by (unfold parent_of; rewrite Hc; exact Hcp).
  destruct (ti_parent _ _ _ Hinv current cp Hpar) as [Hco Hin].
  apply theta_connect_inv; auto.
  unfold coords_of in Hco. rewrite Hc, Hpc in Hco. injection Hco as ->.
  apply surjective_pairing.
Qed.

Lemma theta_examine_all_inv fuel square id ht start goal current (ns : list pos) :
  forall st st',
  theta_inv start goal st -> In start (ThetaStarRun.closed_set st) ->
  In current (ThetaStarRun.closed_set st) ->
  ThetaStarRun.examine_all fuel square id ht goal current ns st = Done st' ->
  theta_inv start goal st'.
Proof.
  induction ns as [| nb ns IH]; intros st st' Hinv Hs Hcur H;
    cbn [ThetaStarRun.examine_all] in H.
  - injection H as <-. exact Hinv.
  - destruct (ThetaStarRun.examine_neighbor fuel square id ht goal current st nb)
      as [st1 | |] eqn:E; cbn [bind] in H; try discriminate H.
    destruct (theta_examine_neighbor_inv _ _ _ _ _ _ _ _ _ _ Hinv Hs Hcur E) as [H1 H2].
    apply (IH st1 st'); auto; rewrite H2; assumption.
Qed.

(** Along a chain of parents, each node but the first stores the position
    of the node before it. *)
Lemma theta_waypoints_of_chain start goal st :
  theta_inv start goal st ->
  forall rest a, linked (ThetaStarRun.grid st) (a :: rest) ->
  map (theta_waypoint (ThetaStarRun.grid st)) rest
  = map (fun q => float_waypoint (float_pair q)) (removelast (a :: rest))
  /\ forall q, In q (removelast (a :: rest)) -> In q (ThetaStarRun.closed_set st).
Proof.
  intros Hinv. induction rest as [| b rest IH]; intros a Hl.
  - split; [ reflexivity | intros q [] ].
  - destruct Hl as [Hb Hl]. destruct (IH b Hl) as [IH1 IH2].
    destruct (ti_parent _ _ _ Hinv b a Hb) as [Hco Hin].
    change (removelast (a :: b :: rest)) with (a :: removelast (b :: rest)).
    split.
    + cbn [map]. rewrite IH1. f_equal. unfold theta_waypoint. rewrite Hco. reflexivity.
    + intros q [<- | Hq]; auto.
Qed.

(** What a result of the loop says when the start is not the goal. *)
Definition theta_answers (start goal : pos) (r : PathfindingResult) : Prop :=
  found r = true ->
  exists qs, path r = map (fun q => float_waypoint (float_pair q)) (start :: start :: qs)
             /\ ~ In goal (start :: qs).

Lemma theta_found start goal st fuel e p :
  start <> goal -> theta_inv start goal st ->
  In e (ThetaStarRun.open_set st) -> e_node e = goal ->
  ThetaStarRun._reconstruct_theta_path fuel (ThetaStarRun.grid st) goal = Done p ->
  exists qs, p = map (fun q => float_waypoint (float_pair q)) (start :: start :: qs)
             /\ ~ In goal (start :: qs).
Proof.
  intros Hne Hinv He Heg Hp. unfold ThetaStarRun._reconstruct_theta_path in Hp.
  apply (reconstruct_loop_chain _ _ _ []) in Hp; [| exact I | exact I ].
  destruct Hp as (ps & -> & Hl & Hhd & [ps' ->]). rewrite !app_nil_r in *.
  assert (Hpar : parent_of (ThetaStarRun.grid st) goal <> None).
  { destruct (ti_open _ _ _ Hinv e He) as [H | H]; congruence. }
  destruct ps' as [| a ps'']; [ contradiction |].
  cbn [app] in *.
  destruct (theta_waypoints_of_chain start goal st Hinv (ps'' ++ [goal]) a Hl) as [Hmap Hcl].
  assert (Hrl : removelast (a :: ps'' ++ [goal]) = a :: ps'').
  { change (a :: ps'' ++ [goal]) with ((a :: ps'') ++ [goal]). apply removelast_last. }
  rewrite Hrl in Hmap, Hcl.
  assert (Ha : a = start).
  { destruct (ti_closed _ _ _ Hinv a (Hcl a (or_introl eq_refl))) as [H | H];
      [ exact H | contradiction ]. }
  subst a. exists ps''. split.
  - cbn [map]. rewrite Hmap. cbn [map]. f_equal.
    unfold theta_waypoint. rewrite (proj2 (ti_start _ _ _ Hinv)). reflexivity.
  - intros Hin. apply (ti_goal _ _ _ Hinv). apply Hcl. exact Hin.
Qed.

Lemma theta_pop_inv start goal st e open' d m :
  theta_inv start goal st -> heappop (ThetaStarRun.open_set st) = Some (e, open') ->
  e_node e <> goal ->
  let closed' := set_add (e_node e) (ThetaStarRun.closed_set st) in
  theta_inv start goal (ThetaStarRun.mkState (ThetaStarRun.grid st) open' d closed' m)
  /\ In start closed' /\ In (e_node e) closed'.
Proof.
  intros [T1 T2 T3 T4 T5 T6] Hpop Hg. cbv zeta.
  pose proof (heappop_In _ _ _ Hpop) as HIn.
  assert (He : In e (ThetaStarRun.open_set st)) by (apply HIn; left; reflexivity).
  assert (Hs : In start (set_add (e_node e) (ThetaStarRun.closed_set st))).
  { apply set_add_In. destruct T3 as [T3 | T3]; [ right; exact T3 |].
    left. symmetry. apply T3. exact He. }
  split; [| split; [ exact Hs | apply set_add_In; left; reflexivity ] ].
  constructor; cbn [ThetaStarRun.grid ThetaStarRun.open_set ThetaStarRun.closed_set].
  - intros p q Hpq. destruct (T1 p q Hpq) as [Ha Hb]. split; [ exact Ha |].
    apply set_add_In. right. exact Hb.
  - exact T2.
  - left. exact Hs.
  - intros x Hx. apply T4. apply HIn. right. exact Hx.
  - intros p Hp. apply set_add_In in Hp as [-> | Hp]; auto.
  - intros H. apply set_add_In in H as [H | H]; [ congruence | contradiction ].
Qed.

Lemma theta_loop_answers square id ht start goal (fuel : nat) : forall st r g',
  start <> goal -> theta_inv start goal st ->
  ThetaStarRun.loop fuel square id ht goal st = Done (r, g') ->
  theta_answers start goal r.
Proof.
  assert (Hfail : forall m e, theta_answers start goal (_create_result m [] false e)).
  { intros m e Hf.
    rewrite (proj1 (proj2 (made_fields _ _ _ _ _ (made_create _ _ _ _)))) in Hf.
    discriminate Hf. }
  assert (Hgoal : forall f st e, start <> goal -> theta_inv start goal st ->
            In e (ThetaStarRun.open_set st) -> e_node e = goal ->
            forall m r g',
            (p <- ThetaStarRun._reconstruct_theta_path f (ThetaStarRun.grid st) (e_node e) ;;
             Done (set_data "path_type" (DStr "any_angle") (_create_result m p true None),
                   ThetaStarRun.grid st)) = Done (r, g') ->
            theta_answers start goal r).
  { intros f st e Hne Hinv He Heg m r g' H.
    destruct (ThetaStarRun._reconstruct_theta_path f (ThetaStarRun.grid st) (e_node e))
      as [p | |] eqn:Hp; cbn [bind] in H; try discriminate H.
    injection H as <- _. intros _. rewrite Heg in Hp.
    destruct (theta_found start goal st f e p Hne Hinv He Heg Hp) as (qs & -> & Hq).
    exists qs. split; [ reflexivity | exact Hq ]. }
  induction fuel as [| fuel IH]; intros st r g' Hne Hinv H; cbn [ThetaStarRun.loop] in H.
  - destruct (heappop (ThetaStarRun.open_set st)) as [[e open'] |] eqn:Hpop.
    2:{ injection H as <- _. apply Hfail. }
    destruct (pos_eqb (e_node e) goal) eqn:Hg; [| discriminate H ].
    apply pos_eqb_eq in Hg. eapply (Hgoal O st e); eauto.
    apply (heappop_In _ _ _ Hpop). left. reflexivity.
  - destruct (heappop (ThetaStarRun.open_set st)) as [[e open'] |] eqn:Hpop.
    2:{ injection H as <- _. apply Hfail. }
    destruct (pos_eqb (e_node e) goal) eqn:Hg.
    + apply pos_eqb_eq in Hg. eapply (Hgoal (S fuel) st e); eauto.
      apply (heappop_In _ _ _ Hpop). left. reflexivity.
    + apply pos_eqb_neq in Hg.
      match type of H with
      | bind (ThetaStarRun.examine_all _ _ _ _ _ _ ?ns ?s0) _ = _ =>
          destruct (ThetaStarRun.examine_all (S fuel) square id ht goal (e_node e) ns s0)
            as [st1 | |] eqn:Hex; cbn [bind] in H; try discriminate H;
          match s0 with ThetaStarRun.mkState _ _ ?d _ ?m =>
            destruct (theta_pop_inv start goal st e open' d m Hinv Hpop Hg)
              as (Hinv1 & Hs1 & Hc1)
          end
      end.
      apply (IH st1 r g' Hne); [| exact H ].
      eapply theta_examine_all_inv; [ exact Hinv1 | exact Hs1 | exact Hc1 | exact Hex ].
Qed.

(** X24.  A path that Theta* reports never reaches the goal.  Whenever
    [ThetaStar.find_path] returns a result with [found] set for a start
    different from the goal, the waypoints of [path] are the start, the
    start again, and then positions of cells among which the goal does not
    occur: [_reconstruct_theta_path] writes for every node the coordinates
    of its parent, so the start is listed twice and the goal is left out.
    This holds whatever [x ** 2] evaluates to ([square]) and for every
    heuristic. *)
Theorem ThetaStar_path_leaves_out_the_goal
        (fuel : nat) (square : float -> float) (id : pos -> Z) (heuristic_type : string)
        (g : Grid) (start goal : pos) (r : PathfindingResult) (g' : Grid) :
  ThetaStarRun.find_path fuel square id heuristic_type g start goal = Done (r, g') ->
  found r = true ->
  start <> goal ->
  exists qs, path r = map (fun q => float_waypoint (float_pair q)) (start :: start :: qs)
             /\ ~ In goal (start :: qs).
Proof.
  intros H Hf Hne. revert H. unfold ThetaStarRun.find_path, ThetaStar_open.
  rewrite open_search_eq.
  destruct (validate_inputs g start goal) as [msg |] eqn:Hv.
  { intros H. injection H as <- _.
    rewrite (proj1 (proj2 (made_fields _ _ _ _ _ (made_create _ _ _ _)))) in Hf.
    discriminate Hf. }
  destruct (negb (is_AngleGrid g)).
  { intros H. injection H as <- _.
    rewrite (proj1 (proj2 (made_fields _ _ _ _ _ (made_create _ _ _ _)))) in Hf.
    discriminate Hf. }
  destruct (pos_eqb start goal) eqn:E; [ apply pos_eqb_eq in E; contradiction |].
  destruct (valid_nodes_after_reset g start goal Hv) as (ns & ng & Hs & Hg).
  rewrite Hs. intros H.
  eapply (theta_loop_answers square id heuristic_type start goal fuel _ r g' Hne);
    [| exact H | exact Hf ].
  match goal with
  | |- theta_inv _ _ (ThetaStarRun.mkState (update_node _ _ (fun _ => ?s)) _ _ _ _) =>
      set (s5 := s)
  end.
  assert (Hp : forall p,
             parent_of (update_node (reset_pathfinding_data g) start (fun _ => s5)) p = None).
  { intros p. destruct (pos_eqb start p) eqn:E'.
    - apply pos_eqb_eq in E'. subst p. unfold parent_of.
      rewrite node_at_update_node_same, Hs. reflexivity.
    - apply pos_eqb_neq in E'. rewrite parent_of_update_node_other by exact E'.
      apply parent_of_reset. }
  constructor; cbn [ThetaStarRun.grid ThetaStarRun.open_set ThetaStarRun.closed_set].
  - intros p q Hpq. rewrite Hp in Hpq. discriminate Hpq.
  - split; [ apply Hp |]. unfold coords_of. rewrite node_at_update_node_same, Hs.
    reflexivity.
  - right. intros e [<- | []]. reflexivity.
  - intros e [<- | []]. left. reflexivity.
  - intros p [].
  - intros [].
Qed.

Lemma ThetaStar_path_witness :
  exists r g',
    ThetaStarRun.find_path 20 (fun x => PrimFloat.mul x x) (creation_order 3) "euclidean"
                           (Grid_init CAngleGrid 3 1) (0, 0) (2, 0) = Done (r, g')
    /\ found r = true
    /\ exists qs,
         path r = map (fun q => float_waypoint (float_pair q)) ((0, 0) :: (0, 0) :: qs)
         /\ ~ In (2, 0) ((0, 0) :: qs).
Proof.
  destruct (ThetaStarRun.find_path 20 (fun x => PrimFloat.mul x x) (creation_order 3)
              "euclidean" (Grid_init CAngleGrid 3 1) (0, 0) (2, 0))
    as [[r g'] | |] eqn:E; [| vm_compute in E; discriminate E | vm_compute in E; discriminate E ].
  assert (Hf : found r = true).
  { vm_compute in E. injection E as <- _. reflexivity. }
  exists r, g'. split; [ reflexivity |]. split; [ exact Hf |].
  apply (ThetaStar_path_leaves_out_the_goal 20 (fun x => PrimFloat.mul x x)
           (creation_order 3) "euclidean" (Grid_init CAngleGrid 3 1) (0, 0) (2, 0) r g' E Hf).
  discriminate.
Defined.

(* ------------------------------------------------------------------ *)
(** ** Jump point search: jumps are straight runs *)
(* ------------------------------------------------------------------ *)

Lemma JPS_is_walkable_eq g x y : JumpPointSearch._is_walkable g x y = is_walkable g x y.
Proof.
  unfold JumpPointSearch._is_walkable.
  destruct (is_walkable g x y) eqn:E; [| apply andb_false_r ].
  rewrite (is_walkable_valid _ _ _ E). reflexivity.
Qed.

(** The cell [n] steps from [p] in the direction [d]. *)
Definition ahead (p d : pos) (n : Z) : pos := (fst p + n * fst d, snd p + n * snd d).

(** From [q], the cell [p] lies at the end of a straight run of walkable
    cells in one of the eight directions. *)
Definition run (g : Grid) (q p : pos) : Prop :=
  exists d n, In d JumpPointSearch.directions /\ 1 <= n /\ p = ahead q d n
    /\ forall i, 1 <= i <= n -> is_walkable g (fst (ahead q d i)) (snd (ahead q d i)) = true.

Lemma jump_sound g goal (fuel : nat) : forall p d q,
  JumpPointSearch._jump fuel g p d goal = Done (Some q) ->
  exists n, 1 <= n /\ q = ahead p d n
    /\ forall i, 1 <= i <= n -> is_walkable g (fst (ahead p d i)) (snd (ahead p d i)) = true.
Proof.
  induction fuel as [| fuel IH]; intros p d q H; [ discriminate H |].
  cbn [JumpPointSearch._jump] in H. cbv zeta in H.
  rewrite JPS_is_walkable_eq in H.
  destruct (is_walkable g (fst p + fst d) (snd p + snd d)) eqn:Hw;
    cbn [negb] in H; [| discriminate H ].
  assert (Hone : forall q', q' = (fst p + fst d, snd p + snd d) ->
            exists n, 1 <= n /\ q' = ahead p d n
              /\ forall i, 1 <= i <= n ->
                   is_walkable g (fst (ahead p d i)) (snd (ahead p d i)) = true).
  { intros q' ->. exists 1. split; [ lia |]. split.
    - unfold ahead. f_equal; lia.
    - intros i Hi. assert (i = 1) by lia. subst i. unfold ahead. cbn [fst snd].
      rewrite !Z.mul_1_l. exact Hw. }
  assert (Hmore : JumpPointSearch._jump fuel g (fst p + fst d, snd p + snd d) d goal
                  = Done (Some q) ->
            exists n, 1 <= n /\ q = ahead p d n
              /\ forall i, 1 <= i <= n ->
                   is_walkable g (fst (ahead p d i)) (snd (ahead p d i)) = true).
  { intros Hj. destruct (IH _ _ _ Hj) as (n & Hn & -> & Hall).
    exists (n + 1). split; [ lia |]. split.
    - unfold ahead. cbn [fst snd]. f_equal; ring.
    - intros i Hi. destruct (Z.eq_dec i 1) as [-> | Hne].
      + unfold ahead. cbn [fst snd]. rewrite !Z.mul_1_l. exact Hw.
      + specialize (Hall (i - 1) ltac:(lia)). unfold ahead in *. cbn [fst snd] in *.
        replace (fst p + i * fst d) with (fst p + fst d + (i - 1) * fst d) by ring.
        replace (snd p + i * snd d) with (snd p + snd d + (i - 1) * snd d) by ring.
        exact Hall. }
  destruct (pos_eqb _ goal); [ injection H as <-; apply Hone; reflexivity |].
  destruct (JumpPointSearch._has_forced_neighbors _ _ _ _ _);
    [ injection H as <-; apply Hone; reflexivity |].
  destruct (negb (fst d =? 0) && negb (snd d =? 0)); [| apply Hmore; exact H ].
  destruct (JumpPointSearch._jump fuel g _ (fst d, 0) goal) as [[h |] | |];
    cbn [bind] in H; try discriminate H;
    [ injection H as <-; apply Hone; reflexivity |].
  destruct (JumpPointSearch._jump fuel g _ (0, snd d) goal) as [[v |] | |];
    cbn [bind] in H; try discriminate H;
    [ injection H as <-; apply Hone; reflexivity |].
  apply Hmore. exact H.
Qed.

Lemma jump_mono g goal (fuel : nat) : forall p d r fuel',
  JumpPointSearch._jump fuel g p d goal = Done r -> (fuel <= fuel')%nat ->
  JumpPointSearch._jump fuel' g p d goal = Done r.
Proof.
  induction fuel as [| fuel IH]; intros p d r fuel' H Hle; [ discriminate H |].
  destruct fuel' as [| fuel']; [ lia |].
  assert (Hle' : (fuel <= fuel')%nat) by lia.
  cbn [JumpPointSearch._jump] in *. cbv zeta in *.
  destruct (negb (JumpPointSearch._is_walkable g _ _)); [ exact H |].
  destruct (pos_eqb _ goal); [ exact H |].
  destruct (JumpPointSearch._has_forced_neighbors _ _ _ _ _); [ exact H |].
  destruct (negb (fst d =? 0) && negb (snd d =? 0)); [| eapply IH; eauto ].
  destruct (JumpPointSearch._jump fuel g _ (fst d, 0) goal) as [h | |] eqn:Eh;
    cbn [bind] in H; try discriminate H.
  rewrite (IH _ _ _ fuel' Eh Hle'). cbn [bind].
  destruct h; [ exact H |].
  destruct (JumpPointSearch._jump fuel g _ (0, snd d) goal) as [v | |] eqn:Ev;
    cbn [bind] in H; try discriminate H.
  rewrite (IH _ _ _ fuel' Ev Hle'). cbn [bind].
  destruct v; [ exact H |]. eapply IH; eauto.
Qed.

(** How far a jump from [p] in the direction [d] can go before it leaves
    the grid. *)
Definition room (g : Grid) (p d : pos) : Z :=
  (if fst d >? 0 then width g - fst p else if fst d <? 0 then fst p + 1 else 0)
  + (if snd d >? 0 then height g - snd p else if snd d <? 0 then snd p + 1 else 0).

Lemma jump_returns g goal (fuel : nat) : forall p d,
  In d JumpPointSearch.directions -> (Z.to_nat (room g p d) + 1 <= fuel)%nat ->
  exists r, JumpPointSearch._jump fuel g p d goal = Done r.
Proof.
  induction fuel as [| fuel IH]; intros p d Hd Hfuel; [ lia |].
  cbn [JumpPointSearch._jump]. cbv zeta.
  rewrite JPS_is_walkable_eq.
  destruct (is_walkable g (fst p + fst d) (snd p + snd d)) eqn:Hw;
    cbn [negb]; [| eauto ].
  destruct (pos_eqb _ goal); [ eauto |].
  destruct (JumpPointSearch._has_forced_neighbors _ _ _ _ _); [ eauto |].
  apply is_walkable_valid in Hw. unfold is_valid_position in Hw.
  apply andb_prop in Hw as [Hw Hy2]. apply andb_prop in Hw as [Hw Hy1].
  apply andb_prop in Hw as [Hx1 Hx2].
  apply Z.leb_le in Hx1, Hy1. apply Z.ltb_lt in Hx2, Hy2.
  assert (Hrec : forall d', In d' JumpPointSearch.directions ->
            room g (fst p + fst d, snd p + snd d) d' < room g p d ->
            exists r, JumpPointSearch._jump fuel g (fst p + fst d, snd p + snd d) d' goal
                      = Done r).
  { intros d' Hd' Hlt. apply IH; [ exact Hd' |].
    assert (0 <= room g (fst p + fst d, snd p + snd d) d').
    { unfold room. cbn [fst snd].
      destruct (fst d' >? 0), (fst d' <? 0), (snd d' >? 0), (snd d' <? 0); lia. }
    lia. }
  cbn in Hd.
  destruct Hd as [<- | [<- | [<- | [<- | [<- | [<- | [<- | [<- | []]]]]]]]];
    cbn [fst snd negb Z.eqb andb] in *;
    repeat match goal with
    | |- exists r, bind (JumpPointSearch._jump fuel g ?q ?d' goal) _ = _ =>
        let r := fresh "r" in let E := fresh "E" in
        destruct (Hrec d') as [r E];
        [ cbn; tauto | unfold room; cbn [fst snd Z.gtb Z.ltb Z.compare]; lia |];
        rewrite E; cbn [bind]; destruct r; [ eauto |]
    end;
    (apply Hrec; [ cbn; tauto | unfold room; cbn [fst snd Z.gtb Z.ltb Z.compare]; lia ]).
Qed.

Lemma width_update_node g p f : width (update_node g p f) = width g.
Proof. unfold update_node. destruct (is_valid_position _ _ _); reflexivity. Qed.

Lemma height_update_node g p f : height (update_node g p f) = height g.
Proof. unfold update_node. destruct (is_valid_position _ _ _); reflexivity. Qed.

Lemma room_bound g p d :
  is_valid_position g (fst p) (snd p) = true ->
  (Z.to_nat (room g p d) + 1 <= Z.to_nat (width g + height g) + 1)%nat.
Proof.
  unfold is_valid_position. intros H.
  apply andb_prop in H as [H Hy2]. apply andb_prop in H as [H Hy1].
  apply andb_prop in H as [Hx1 Hx2].
  apply Z.leb_le in Hx1, Hy1. apply Z.ltb_lt in Hx2, Hy2.
  unfold room. destruct (fst d >? 0), (fst d <? 0), (snd d >? 0), (snd d <? 0); lia.
Qed.

Lemma run_same_walkable g g' q p : same_walkable g g' -> run g' q p -> run g q p.
Proof.
  intros [_ Hw] (d & n & Hd & Hn & Hp & Hall). exists d, n.
  split; [ exact Hd |]. split; [ exact Hn |]. split; [ exact Hp |].
  intros i Hi. rewrite <- Hw. apply Hall. exact Hi.
Qed.

(** The direction of a run is read back from its two ends. *)
Lemma normalize_run d n :
  In d JumpPointSearch.directions -> 1 <= n ->
  JumpPointSearch.normalize (n * fst d) = fst d
  /\ JumpPointSearch.normalize (n * snd d) = snd d.
Proof.
  intros Hd Hn. unfold JumpPointSearch.normalize. cbn in Hd.
  destruct Hd as [<- | [<- | [<- | [<- | [<- | [<- | [<- | [<- | []]]]]]]]];
    cbn [fst snd]; split;
    repeat match goal with
    | |- context [?a =? ?b] => destruct (Z.eqb_spec a b); cbn [negb]
    | |- context [?a >? ?b] => destruct (Z.gtb_spec a b)
    end; lia.
Qed.

Lemma In_keep c d d' :
  In d' (JumpPointSearch.keep c d) -> d' = d.
Proof. unfold JumpPointSearch.keep. destruct c; [ intros [<- | []]; reflexivity | intros [] ]. Qed.

Lemma prune_neighbors_directions g node d d' :
  In d JumpPointSearch.directions ->
  In d' (JumpPointSearch._prune_neighbors g node (fst d) (snd d)) ->
  In d' JumpPointSearch.directions.
Proof.
  intros Hd H. unfold JumpPointSearch._prune_neighbors in H. cbn in Hd.
  destruct Hd as [<- | [<- | [<- | [<- | [<- | [<- | [<- | [<- | []]]]]]]]];
    cbn [fst snd negb Z.eqb andb Z.opp] in H;
    repeat (apply in_app_or in H; destruct H as [H | H]);
    apply In_keep in H; subst d'; cbn; tauto.
Qed.

(** The directions [_get_neighbors] proposes for a node whose parent, if it
    has one, lies at the start of a run that ends at the node. *)
Lemma JPS_get_neighbors_directions g0 g node :
  has_node g node ->
  (forall q, parent_of g node = Some q -> run g0 q node) ->
  exists ns, JumpPointSearch._get_neighbors g node = Done ns
             /\ forall d, In d ns -> In d JumpPointSearch.directions.
Proof.
  intros Hnode Hpar. unfold JumpPointSearch._get_neighbors. unfold has_node in Hnode.
  unfold parent_of in Hpar.
  destruct (node_at g node) as [n |]; [| contradiction ].
  destruct (parent n) as [q |].
  - eexists. split; [ reflexivity |]. intros d Hd.
    destruct (Hpar q eq_refl) as (d0 & k & Hd0 & Hk & -> & _).
    unfold ahead in Hd. cbn [fst snd] in Hd.
    replace (fst q + k * fst d0 - fst q) with (k * fst d0) in Hd by ring.
    replace (snd q + k * snd d0 - snd q) with (k * snd d0) in Hd by ring.
    destruct (normalize_run d0 k Hd0 Hk) as [E1 E2]. rewrite E1, E2 in Hd.
    eapply prune_neighbors_directions; eauto.
  - eexists. split; [ reflexivity |]. intros d Hd. apply filter_In in Hd as [Hd _]. exact Hd.
Qed.

(** What examining the directions of [current] may change. *)
Record JPS_examined (g0 : Grid) (s current : pos)
       (st st' : JumpPointSearch.state) : Prop := {
  je_expanding :
    expanding_by (run g0) g0 s current (JumpPointSearch.grid st')
                 (JumpPointSearch.open_set st') (JumpPointSearch.closed_set st');
  je_relaxed :
    relaxed (JumpPointSearch.grid st) (JumpPointSearch.open_set st)
            (JumpPointSearch.closed_set st)
            (JumpPointSearch.grid st') (JumpPointSearch.open_set st')
            (JumpPointSearch.closed_set st');
  je_width : width (JumpPointSearch.grid st') = width (JumpPointSearch.grid st);
  je_height : height (JumpPointSearch.grid st') = height (JumpPointSearch.grid st)
}.

Lemma JPS_examine_direction_ok fuel id ht goal g0 s current st d st' :
  expanding_by (run g0) g0 s current (JumpPointSearch.grid st)
               (JumpPointSearch.open_set st) (JumpPointSearch.closed_set st) ->
  In d JumpPointSearch.directions ->
  JumpPointSearch.examine_direction fuel id ht goal current st d = Done st' ->
  JPS_examined g0 s current st st'.
Proof.
  intros Hex Hd H. unfold JumpPointSearch.examine_direction in H.
  assert (Hsame : forall j m, JPS_examined g0 s current st
            (JumpPointSearch.mkState (JumpPointSearch.grid st) (JumpPointSearch.open_set st)
                                     (JumpPointSearch.closed_set st) j m)).
  { intros j m. constructor; cbn; auto. apply relaxed_refl. apply (ex_inv Hex). }
  destruct (JumpPointSearch._jump fuel (JumpPointSearch.grid st) current d goal)
    as [[jp |] | |] eqn:Hj; cbn [bind] in H; try discriminate H.
  2:{ injection H as <-. destruct st. apply Hsame. }
  destruct (node_at (JumpPointSearch.grid st) jp) as [jn |] eqn:Hjn;
    [| injection H as <-; apply Hsame ].
  destruct (set_mem jp (JumpPointSearch.closed_set st)) eqn:Hmem; cbn [negb] in H;
    [ injection H as <-; apply Hsame |].
  destruct (node_at (JumpPointSearch.grid st) current) as [c |]; [| discriminate H ].
  cbv zeta in H. destruct (Py.lt _ _); [| injection H as <-; apply Hsame ].
  injection H as <-. cbn [JumpPointSearch.grid JumpPointSearch.open_set
                          JumpPointSearch.closed_set].
  assert (Hrun : run g0 current jp).
  { apply (run_same_walkable g0 (JumpPointSearch.grid st)); [ apply (pi_walk (ex_path Hex)) |].
    destruct (jump_sound _ _ _ _ _ _ Hj) as (n & Hn & Hp & Hall).
    exists d, n. auto. }
  constructor; cbn [JumpPointSearch.grid JumpPointSearch.open_set JumpPointSearch.closed_set].
  - eapply expanding_relax; eauto.
  - apply (relaxed_relax _ _ _ jp current _ _ (ex_inv Hex) (ex_current Hex) Hmem);
      [ unfold has_node; rewrite Hjn; discriminate | reflexivity | reflexivity ].
  - apply width_update_node.
  - apply height_update_node.
Qed.

Lemma JPS_examine_direction_returns fuel id ht goal current st d :
  has_node (JumpPointSearch.grid st) current ->
  In d JumpPointSearch.directions ->
  (Z.to_nat (width (JumpPointSearch.grid st) + height (JumpPointSearch.grid st)) + 1
   <= fuel)%nat ->
  exists st', JumpPointSearch.examine_direction fuel id ht goal current st d = Done st'.
Proof.
  intros Hnode Hd Hfuel. unfold JumpPointSearch.examine_direction.
  unfold has_node in Hnode.
  destruct (node_at (JumpPointSearch.grid st) current) as [c |] eqn:Hc; [| contradiction ].
  destruct (jump_returns (JumpPointSearch.grid st) goal fuel current d Hd) as [r Hr].
  { pose proof (room_bound (JumpPointSearch.grid st) current d (node_at_valid _ _ _ Hc)). lia. }
  rewrite Hr. cbn [bind]. destruct r as [jp |]; [| eauto ].
  destruct (node_at (JumpPointSearch.grid st) jp); [| eauto ].
  destruct (negb _); [| eauto ].
  cbv zeta. destruct (Py.lt _ _); eauto.
Qed.

Lemma JPS_examine_direction_mono fuel fuel' id ht goal current st d st' :
  JumpPointSearch.examine_direction fuel id ht goal current st d = Done st' ->
  (fuel <= fuel')%nat ->
  JumpPointSearch.examine_direction fuel' id ht goal current st d = Done st'.
Proof.
  unfold JumpPointSearch.examine_direction. intros H Hle.
  destruct (JumpPointSearch._jump fuel _ current d goal) as [r | |] eqn:E;
    cbn [bind] in H; try discriminate H.
  rewrite (jump_mono _ _ _ _ _ _ fuel' E Hle). exact H.
Qed.

Lemma JPS_examine_all_mono fuel fuel' id ht goal current (ns : list pos) : forall st st',
  JumpPointSearch.examine_all fuel id ht goal current ns st = Done st' ->
  (fuel <= fuel')%nat ->
  JumpPointSearch.examine_all fuel' id ht goal current ns st = Done st'.
Proof.
  induction ns as [| d ns IH]; intros st st' H Hle; cbn [JumpPointSearch.examine_all] in *;
    [ exact H |].
  destruct (JumpPointSearch.examine_direction fuel id ht goal current st d)
    as [st1 | |] eqn:E; cbn [bind] in H; try discriminate H.
  rewrite (JPS_examine_direction_mono _ _ _ _ _ _ _ _ _ E Hle). cbn [bind].
  apply IH; assumption.
Qed.

Lemma JPS_examined_refl g0 s current st :
  expanding_by (run g0) g0 s current (JumpPointSearch.grid st)
               (JumpPointSearch.open_set st) (JumpPointSearch.closed_set st) ->
  JPS_examined g0 s current st st.
Proof. intros H. constructor; auto. apply relaxed_refl. apply (ex_inv H). Qed.

Lemma JPS_examined_trans g0 s current st1 st2 st3 :
  JPS_examined g0 s current st1 st2 -> JPS_examined g0 s current st2 st3 ->
  JPS_examined g0 s current st1 st3.
Proof.
  intros [A1 A2 A3 A4] [B1 B2 B3 B4]. constructor.
  - exact B1.
  - eapply relaxed_trans; eauto.
  - congruence.
  - congruence.
Qed.

Lemma JPS_examine_all_ok fuel id ht goal g0 s current (ns : list pos) : forall st,
  expanding_by (run g0) g0 s current (JumpPointSearch.grid st)
               (JumpPointSearch.open_set st) (JumpPointSearch.closed_set st) ->
  (forall d, In d ns -> In d JumpPointSearch.directions) ->
  (Z.to_nat (width (JumpPointSearch.grid st) + height (JumpPointSearch.grid st)) + 1
   <= fuel)%nat ->
  exists st', JumpPointSearch.examine_all fuel id ht goal current ns st = Done st'
              /\ JPS_examined g0 s current st st'.
Proof.
  induction ns as [| d ns IH]; intros st Hex Hns Hfuel; cbn [JumpPointSearch.examine_all].
  - exists st. split; [ reflexivity | apply JPS_examined_refl; exact Hex ].
  - assert (Hcur : has_node (JumpPointSearch.grid st) current)
      by (apply (inv_closed _ _ _ (ex_inv Hex)), (ex_current Hex)).
    destruct (JPS_examine_direction_returns fuel id ht goal current st d Hcur
                (Hns d (or_introl eq_refl)) Hfuel) as [st1 E1].
    pose proof (JPS_examine_direction_ok _ _ _ _ _ _ _ _ _ _ Hex
                  (Hns d (or_introl eq_refl)) E1) as H1.
    rewrite E1. cbn [bind].
    destruct (IH st1 (je_expanding _ _ _ _ _ H1)) as (st' & E' & H').
    + intros d' Hd'. apply Hns. right. exact Hd'.
    + rewrite (je_width _ _ _ _ _ H1), (je_height _ _ _ _ _ H1). exact Hfuel.
    + exists st'. split; [ exact E' |]. eapply JPS_examined_trans; eauto.
Qed.

(* ------------------------------------------------------------------ *)
(** ** Jump point search: the loop *)
(* ------------------------------------------------------------------ *)

Record JPS_ok (g0 : Grid) (s : pos) (st : JumpPointSearch.state) : Prop := {
  jk_inv : search_inv (JumpPointSearch.grid st) (JumpPointSearch.open_set st)
                      (JumpPointSearch.closed_set st);
  jk_path : path_inv_by (run g0) g0 s (JumpPointSearch.grid st)
                        (JumpPointSearch.open_set st) (JumpPointSearch.closed_set st)
}.

(** What a result of jump point search says: jump points from the start to
    the goal, each at the end of a run from the one before, none twice. *)
Definition JPS_answers (g0 : Grid) (s goal : pos) (r : PathfindingResult) : Prop :=
  found r = true ->
  exists ps, path r = map int_waypoint ps /\ hd_error ps = Some s /\ last ps s = goal
             /\ steps_by (run g0) ps /\ NoDup ps.

Definition JPS_measure (st : JumpPointSearch.state) : nat * nat :=
  (unclosed (JumpPointSearch.grid st) (JumpPointSearch.closed_set st),
   stale (JumpPointSearch.open_set st) (JumpPointSearch.closed_set st)).

Lemma valid_position_cells g p :
  is_valid_position g (fst p) (snd p) = true -> (width g * height g =? 0) = false.
Proof.
  unfold is_valid_position. intros H.
  apply andb_prop in H as [H Hy2]. apply andb_prop in H as [H Hy1].
  apply andb_prop in H as [Hx1 Hx2].
  apply Z.leb_le in Hx1, Hy1. apply Z.ltb_lt in Hx2, Hy2.
  apply Z.eqb_neq. nia.
Qed.

Lemma JPS_step_cases id ht g0 s goal st :
  JPS_ok g0 s st ->
  (exists k, forall fuel, (k <= fuel)%nat ->
      exists r g', JumpPointSearch.step fuel id ht goal st = Return (Done (r, g'))
                   /\ JPS_answers g0 s goal r)
  \/ (exists k st',
        (forall fuel, (k <= fuel)%nat ->
           JumpPointSearch.step fuel id ht goal st = Continue st')
        /\ JPS_ok g0 s st'
        /\ measure_lt (JPS_measure st') (JPS_measure st)).
Proof.
  intros [Hinv Hpath]. unfold JumpPointSearch.step.
  destruct (heappop (JumpPointSearch.open_set st)) as [[e open'] |] eqn:Hpop.
  2:{ left. exists O. intros fuel _. do 2 eexists. split; [ reflexivity |].
      intros Hf.
      rewrite (proj1 (proj2 (made_fields _ _ _ _ _ (made_create _ _ _ _)))) in Hf.
      discriminate Hf. }
  pose proof (heappop_In _ _ _ Hpop) as HIn.
  assert (He : In e (JumpPointSearch.open_set st)) by (apply HIn; left; reflexivity).
  assert (Hsub : forall x, In x open' -> In x (JumpPointSearch.open_set st))
    by (intros x Hx; apply HIn; right; exact Hx).
  assert (Hcur : has_node (JumpPointSearch.grid st) (e_node e))
    by (apply (inv_open _ _ _ Hinv), He).
  destruct (set_mem (e_node e) (JumpPointSearch.closed_set st)) eqn:Hmem.
  - right. exists O. eexists. split; [ intros fuel _; reflexivity |]. split.
    + constructor; cbn [JumpPointSearch.grid JumpPointSearch.open_set
                        JumpPointSearch.closed_set].
      * eapply search_inv_pop; eauto.
      * apply set_mem_In in Hmem.
        apply (path_inv_pop_stale _ _ _ _ _ _ _ Hpath Hpop Hmem).
    + right. unfold JPS_measure.
      cbn [fst snd JumpPointSearch.grid JumpPointSearch.open_set JumpPointSearch.closed_set].
      split; [ reflexivity |].
      unfold stale. rewrite (heappop_count _ _ _ _ Hpop). rewrite Hmem. lia.
  - destruct (pos_eqb (e_node e) goal) eqn:Hg.
    + left. apply pos_eqb_eq in Hg.
      exists (S (List.length (JumpPointSearch.closed_set st))). intros fuel Hfuel.
      destruct (get_path_returns _ _ _ (e_node e) fuel Hinv Hcur Hfuel) as [p Hp].
      rewrite Hp. cbn [bind]. cbv zeta.
      assert (Hcells : (width (JumpPointSearch.grid st) * height (JumpPointSearch.grid st)
                        =? 0) = false).
      { unfold has_node in Hcur.
        destruct (node_at (JumpPointSearch.grid st) (e_node e)) as [c |] eqn:Hc;
          [| contradiction ].
        apply (valid_position_cells _ (e_node e)). eapply node_at_valid; eauto. }
      rewrite Hcells. do 2 eexists. split; [ reflexivity |]. intros _.
      destruct (get_path_chain _ _ _ _ Hp) as (ps & -> & Hl & Hlast & Hne & Hhd).
      rewrite Hg in *.
      destruct (linked_valid_by (run g0) g0 s _ _ _ goal ps Hpath Hinv) as (V1 & V2 & V3);
        auto.
      { rewrite <- Hg. apply (pi_open Hpath). exact He. }
      exists ps. split; [ reflexivity |]. split; [ exact V1 |]. split; [ exact V2 |].
      split; [ exact V3 |].
      apply (linked_simple _ _ _ goal ps Hinv (pi_nodup Hpath)); auto.
    + right.
      destruct (path_inv_pop_close _ _ _ _ _ _ _ Hpath Hpop) as [Hpath2 Hs].
      set (closed' := set_add (e_node e) (JumpPointSearch.closed_set st)) in *.
      assert (Hex : expanding_by (run g0) g0 s (e_node e) (JumpPointSearch.grid st)
                                 open' closed').
      { constructor; auto.
        - apply (search_inv_close _ (JumpPointSearch.open_set st)); auto.
        - apply set_add_In. left. reflexivity. }
      destruct (JPS_get_neighbors_directions g0 (JumpPointSearch.grid st) (e_node e) Hcur)
        as (ns & Ens & Hns).
      { intros q Hq. apply (pi_step Hpath). exact Hq. }
      rewrite Ens. cbn [bind].
      set (k := (Z.to_nat (width (JumpPointSearch.grid st)
                           + height (JumpPointSearch.grid st)) + 1)%nat).
      match goal with
      | |- context [JumpPointSearch.examine_all _ id ht goal (e_node e) ns ?s1] =>
          destruct (JPS_examine_all_ok k id ht goal g0 s (e_node e) ns s1 Hex Hns
                      (Nat.le_refl _)) as (st' & E' & H')
      end.
      exists k, st'. split; [| split ].
      * intros fuel Hfuel.
        rewrite (JPS_examine_all_mono _ _ _ _ _ _ _ _ _ E' Hfuel). reflexivity.
      * constructor; [ apply (ex_inv (je_expanding _ _ _ _ _ H'))
                     | apply (ex_path (je_expanding _ _ _ _ _ H')) ].
      * destruct (je_relaxed _ _ _ _ _ H') as [R1 R2 R3 R4 R5].
        cbn [JumpPointSearch.grid JumpPointSearch.open_set JumpPointSearch.closed_set]
          in R1, R2.
        left. unfold JPS_measure. cbn [fst snd].
        assert (Hu : unclosed (JumpPointSearch.grid st') (JumpPointSearch.closed_set st')
                     = unclosed (JumpPointSearch.grid st) closed')
          by (unfold unclosed; rewrite R2, R1; reflexivity).
        rewrite Hu. apply unclosed_set_add; [ exact Hmem |].
        apply has_node_in_cells. exact Hcur.
Qed.

Lemma JPS_loop_returns id ht g0 s goal : forall u m st,
  JPS_measure st = (u, m) -> JPS_ok g0 s st ->
  exists k, forall fuel, (k <= fuel)%nat ->
    exists r g', JumpPointSearch.loop fuel id ht goal st = Done (r, g')
                 /\ JPS_answers g0 s goal r.
Proof.
  induction u as [u IHu] using lt_wf_ind.
  induction m as [m IHm] using lt_wf_ind.
  intros st Hm Hok.
  destruct (JPS_step_cases id ht g0 s goal st Hok)
    as [[k Hk] | (k & st' & Hstep & Hok' & Hlt)].
  - exists k. intros fuel Hfuel. destruct (Hk fuel Hfuel) as (r & g' & Hr & Ha).
    exists r, g'. split; [| exact Ha ].
    destruct fuel; cbn [JumpPointSearch.loop]; rewrite Hr; reflexivity.
  - rewrite Hm in Hlt. destruct (JPS_measure st') as [u' m'] eqn:Hm'.
    assert (Hrec : exists k', forall fuel, (k' <= fuel)%nat ->
               exists r g', JumpPointSearch.loop fuel id ht goal st' = Done (r, g')
                            /\ JPS_answers g0 s goal r).
    { destruct Hlt as [Hlt | [Heq Hlt]]; cbn [fst snd] in *.
      - eapply (IHu u' Hlt); eauto.
      - subst u'. eapply (IHm m' Hlt); eauto. }
    destruct Hrec as [k' Hk']. exists (S (k + k')). intros fuel Hfuel.
    destruct fuel as [| fuel]; [ lia |]. cbn [JumpPointSearch.loop].
    rewrite (Hstep (S fuel)) by lia. apply Hk'. lia.
Qed.

Lemma JPS_initial_ok id ht g start goal ns :
  node_at (reset_pathfinding_data g) start = Some ns ->
  JPS_ok g start
         (JumpPointSearch.initial_state id ht (reset_pathfinding_data g) start goal ns).
Proof.
  intros Hs.
  assert (Hpar : parent ns = None).
  { pose proof (parent_of_reset g start) as Hp. unfold parent_of in Hp.
    rewrite Hs in Hp. exact Hp. }
  unfold JumpPointSearch.initial_state. cbv zeta.
  set (f := fun n : GridNode =>
              set_f_cost (PrimFloat.add
                            (g_cost (set_h_cost (get_heuristic start goal ht)
                                                (set_g_cost 0%float n)))
                            (h_cost (set_h_cost (get_heuristic start goal ht)
                                                (set_g_cost 0%float n))))
                         (set_h_cost (get_heuristic start goal ht) (set_g_cost 0%float n))).
  constructor; cbn [JumpPointSearch.grid JumpPointSearch.open_set JumpPointSearch.closed_set].
  - apply (search_inv_initial g start ns f); [ exact Hs | exact Hpar | reflexivity ].
  - apply (path_inv_initial g start ns f);
      [ exact Hs | exact Hpar | reflexivity | reflexivity ].
Qed.

(** On a grid with diagonal moves a run is a walk of single moves. *)
Lemma reachable_trans g a b c : reachable g a b -> reachable g b c -> reachable g a c.
Proof.
  intros Hab Hbc. induction Hbc as [| b q r _ IH Hr]; [ exact Hab |].
  eapply reach_step; [ apply IH; exact Hab | exact Hr ].
Qed.

Lemma run_reachable g q p : diagonal_movement g = true -> run g q p -> reachable g q p.
Proof.
  intros Hdiag (d & n & Hd & Hn & -> & Hall).
  assert (H : forall k : nat, Z.of_nat k <= n -> reachable g q (ahead q d (Z.of_nat k))).
  { induction k as [| k IH]; intros Hk.
    - unfold ahead. cbn [Z.of_nat]. rewrite !Z.mul_0_l, !Z.add_0_r.
      rewrite <- surjective_pairing. apply reach_refl.
    - eapply reach_step; [ apply IH; lia |].
      apply get_neighbors_In. split; [ apply Hall; lia |].
      unfold directions_of. rewrite Hdiag. unfold ahead. cbn [fst snd].
      replace (fst q + Z.of_nat (S k) * fst d - (fst q + Z.of_nat k * fst d))
        with (fst d) by lia.
      replace (snd q + Z.of_nat (S k) * snd d - (snd q + Z.of_nat k * snd d))
        with (snd d) by lia.
      rewrite <- surjective_pairing. cbn in Hd. cbn.
      destruct Hd as [<- | [<- | [<- | [<- | [<- | [<- | [<- | [<- | []]]]]]]]]; tauto. }
  specialize (H (Z.to_nat n)). rewrite Z2Nat.id in H by lia. apply H. lia.
Qed.

Lemma runs_reachable g : diagonal_movement g = true ->
  forall ps s, steps_by (run g) (s :: ps) -> reachable g s (last ps s).
Proof.
  intros Hdiag. induction ps as [| b ps IH]; intros s H; [ apply reach_refl |].
  destruct H as [Hb H]. cbn [last].
  replace (match ps with [] => b | _ :: _ => last ps s end) with (last ps b)
    by (destruct ps; [ reflexivity | apply last_nonempty_default ]).
  eapply reachable_trans; [ apply run_reachable; eauto | apply IH; exact H ].
Qed.

(** X25.  [JumpPointSearch.find_path] returns for every input, and a result
    with [found] set holds jump points that lead from the start to the goal
    and repeat no cell, each lying at the end of a straight run from the one
    before it: one or more steps in one of the eight directions over cells of
    the grid that are all walkable.  So the goal of a found path can also be
    reached by single moves of the grid. *)
Theorem JumpPointSearch_path_is_made_of_runs id ht (g : Grid) (start goal : pos) :
  exists k, forall fuel, (k <= fuel)%nat ->
    exists r g', JumpPointSearch.find_path fuel id ht g start goal = Done (r, g')
      /\ (found r = true ->
          reachable g start goal
          /\ exists ps, path r = map int_waypoint ps /\ hd_error ps = Some start
                        /\ last ps start = goal /\ steps_by (run g) ps /\ NoDup ps).
Proof.
  unfold JumpPointSearch.find_path, JumpPointSearch_open. rewrite open_search_eq.
  destruct (validate_inputs g start goal) as [msg |] eqn:Hv.
  { exists O. intros fuel _. do 2 eexists. split; [ reflexivity |]. intros Hf.
    rewrite (proj1 (proj2 (made_fields _ _ _ _ _ (made_create _ _ _ _)))) in Hf.
    discriminate Hf. }
  destruct (diagonal_movement g) eqn:Hdiag; cbn [negb].
  2:{ exists O. intros fuel _. do 2 eexists. split; [ reflexivity |]. intros Hf.
      rewrite (proj1 (proj2 (made_fields _ _ _ _ _ (made_create _ _ _ _)))) in Hf.
      discriminate Hf. }
  destruct (pos_eqb start goal) eqn:E.
  { apply pos_eqb_eq in E. subst goal. exists O. intros fuel _. do 2 eexists.
    split; [ reflexivity |]. intros _. split; [ apply reach_refl |].
    exists [start]. split; [ reflexivity |]. split; [ reflexivity |].
    split; [ reflexivity |]. split; [ exact I |].
    constructor; [ intros [] | constructor ]. }
  destruct (valid_nodes_after_reset g start goal Hv) as (ns & ng & Hs & Hg).
  rewrite Hs.
  set (st0 := JumpPointSearch.initial_state id ht (reset_pathfinding_data g) start goal ns).
  destruct (JPS_measure st0) as [u m] eqn:Hm.
  destruct (JPS_loop_returns id ht g start goal u m st0 Hm (JPS_initial_ok id ht g start goal ns Hs))
    as [k Hk].
  exists k. intros fuel Hfuel. destruct (Hk fuel Hfuel) as (r & g' & Hr & Ha).
  exists r, g'. split; [ exact Hr |]. intros Hf.
  destruct (Ha Hf) as (ps & P1 & P2 & P3 & P4 & P5).
  split; [| exists ps; auto ].
  destruct ps as [| a ps]; [ discriminate P2 |]. injection P2 as ->.
  rewrite <- P3. change (last (start :: ps) start) with
    (match ps with [] => start | _ :: _ => last ps start end).
  replace (match ps with [] => start | _ :: _ => last ps start end) with (last ps start)
    by (destruct ps; reflexivity).
  apply runs_reachable; assumption.
Qed.
